(** * Ranged-effect propagation engine of Dungeon Crawl (crawl-ref/source/beam.cc)

    A shallow embedding of [bolt] and of the functions that drive one firing:
    [fire], [do_fire], the cell resolver ([affect_cell], [hit_wall],
    [affect_wall], [affect_player], [affect_monster], [affect_ground]), the
    damage pipeline ([determine_damage], [mons_adjust_flavoured],
    [_test_beam_hit]), the range accounting ([range_used_on_hit],
    [finish_beam], [bounce]) and the explosion flood fill
    ([determine_affected_cells], [explode]).

    Conventions.
    - C [int] values are [Z]; C integer division is [Z.quot].
    - The member variables of [bolt] that are [bool] or [int] are read with
      [flag b f] and [num b f], where [f] is the member's name.
    - [monsters*] is an index into [menv]; [actor*] is [actor].
    - Code outside beam.cc (terrain predicates, the ray geometry, monster and
      player methods, the god/Xom/behaviour subsystems) is reached through the
      class [Collaborators]. *)

From stdpp Require Import base option list gmap strings.
From Stdlib Require Import ZArith Lia.

#[local] Open Scope Z_scope.

(** ** Coordinates *)

(** Modelled from the spec: [coord_def] is declared in a header that is not
    part of the sources; the spec (sections 2 and 8) fixes a grid of integer
    cells with Chebyshev distance. [rdist] is the Chebyshev norm, [abs2] is
    [coord_def::abs()], the squared Euclidean norm. *)
Definition coord_def : Type := Z * Z.

Definition coord_add (a b : coord_def) : coord_def := (a.1 + b.1, a.2 + b.2).
Definition coord_sub (a b : coord_def) : coord_def := (a.1 - b.1, a.2 - b.2).
Definition rdist (c : coord_def) : Z := Z.max (Z.abs c.1) (Z.abs c.2).
Definition abs2 (c : coord_def) : Z := c.1 * c.1 + c.2 * c.2.
Definition origin (c : coord_def) : bool := bool_decide (c = (0, 0)).
Definition grid_distance (a b : coord_def) : Z := rdist (coord_sub a b).
Definition coord_eqb (a b : coord_def) : bool := bool_decide (a = b).

(** The eight compass offsets; [Compass] in the source is an array of these
    eight offsets in a fixed order. *)
Definition Compass : list coord_def :=
  [ (0, -1); (1, -1); (1, 0); (1, 1); (0, 1); (-1, 1); (-1, 0); (-1, -1) ].

(** ** Enumerations *)

Inductive beam_type :=
| BEAM_NONE | BEAM_MISSILE | BEAM_MMISSILE | BEAM_FIRE | BEAM_COLD
| BEAM_MAGIC | BEAM_ELECTRICITY | BEAM_POISON | BEAM_NEG | BEAM_ACID
| BEAM_MIASMA | BEAM_SPORE | BEAM_POISON_ARROW | BEAM_HELLFIRE | BEAM_NAPALM
| BEAM_STEAM | BEAM_HOLY | BEAM_FRAG | BEAM_LAVA | BEAM_ICE | BEAM_NUKE
| BEAM_RANDOM | BEAM_CHAOS
| BEAM_SLOW | BEAM_HASTE | BEAM_MIGHT | BEAM_HEALING | BEAM_PARALYSIS
| BEAM_CONFUSION | BEAM_INVISIBILITY | BEAM_DIGGING | BEAM_TELEPORT
| BEAM_POLYMORPH | BEAM_CHARM | BEAM_BANISH | BEAM_DEGENERATE
| BEAM_ENSLAVE_UNDEAD | BEAM_ENSLAVE_SOUL | BEAM_PAIN | BEAM_DISPEL_UNDEAD
| BEAM_DISINTEGRATION | BEAM_ENSLAVE_DEMON | BEAM_BLINK | BEAM_BLINK_CLOSE
| BEAM_PETRIFY | BEAM_CORONA | BEAM_PORKALATOR | BEAM_HIBERNATION
| BEAM_BERSERK | BEAM_SLEEP
| BEAM_POTION_STINKING_CLOUD | BEAM_POTION_POISON | BEAM_POTION_MIASMA
| BEAM_POTION_STEAM | BEAM_POTION_FIRE | BEAM_POTION_COLD
| BEAM_POTION_BLACK_SMOKE | BEAM_POTION_GREY_SMOKE | BEAM_POTION_BLUE_SMOKE
| BEAM_POTION_PURPLE_SMOKE | BEAM_POTION_RAIN | BEAM_POTION_MUTAGENIC
| BEAM_POTION_RANDOM
| BEAM_VISUAL.

Inductive dungeon_feature_type :=
| DNGN_ROCK_WALL | DNGN_CLEAR_ROCK_WALL | DNGN_STONE_WALL | DNGN_METAL_WALL
| DNGN_GREEN_CRYSTAL_WALL | DNGN_WAX_WALL | DNGN_TREES | DNGN_GRANITE_STATUE
| DNGN_ORCISH_IDOL | DNGN_SECRET_DOOR | DNGN_CLOSED_DOOR | DNGN_LAVA
| DNGN_DEEP_WATER | DNGN_SHALLOW_WATER | DNGN_FLOOR.

Inductive killer_type :=
| KILL_YOU | KILL_YOU_MISSILE | KILL_YOU_CONF | KILL_MON | KILL_MON_MISSILE
| KILL_MISC | KILL_RESET.

Inductive kill_category := KC_YOU | KC_FRIENDLY | KC_OTHER.

Inductive mon_attitude_type :=
| ATT_HOSTILE | ATT_NEUTRAL | ATT_GOOD_NEUTRAL | ATT_FRIENDLY.

Inductive mon_resist_type :=
| MON_RESIST | MON_UNAFFECTED | MON_AFFECTED | MON_OTHER.

Inductive monster_type :=
| MONS_NO_MONSTER | MONS_BUSH | MONS_FIRE_VORTEX | MONS_BALLISTOMYCETE
| MONS_KIRKE | MONS_GIANT_SPORE | MONS_BALL_LIGHTNING | MONS_UGLY_THING
| MONS_VERY_UGLY_THING | MONS_PULSATING_LUMP | MONS_HELL_HOG | MONS_HOG
| MONS_MISC (n : Z).

Inductive god_type := GOD_NO_GOD | GOD_FEDHAS | GOD_BEOGH | GOD_MISC (n : Z).

Inductive cloud_type :=
| CLOUD_FIRE | CLOUD_STEAM | CLOUD_COLD | CLOUD_POISON | CLOUD_MIASMA
| CLOUD_FOREST_FIRE | CLOUD_STINK.

Inductive msg_channel_type :=
| MSGCH_PLAIN | MSGCH_SOUND | MSGCH_WARN | MSGCH_GOD | MSGCH_MONSTER_DAMAGE
| MSGCH_ERROR | MSGCH_PROMPT.

#[global] Instance beam_type_eq_dec : EqDecision beam_type.
Proof. solve_decision. Defined.
#[global] Instance dungeon_feature_type_eq_dec : EqDecision dungeon_feature_type.
Proof. solve_decision. Defined.
#[global] Instance killer_type_eq_dec : EqDecision killer_type.
Proof. solve_decision. Defined.
#[global] Instance mon_attitude_type_eq_dec : EqDecision mon_attitude_type.
Proof. solve_decision. Defined.
#[global] Instance monster_type_eq_dec : EqDecision monster_type.
Proof. solve_decision. Defined.
#[global] Instance god_type_eq_dec : EqDecision god_type.
Proof. solve_decision. Defined.

(** The macros [YOU_KILL] and [MON_KILL]. *)
Definition YOU_KILL (x : killer_type) : bool :=
  bool_decide (x = KILL_YOU) || bool_decide (x = KILL_YOU_MISSILE)
  || bool_decide (x = KILL_YOU_CONF).
Definition MON_KILL (x : killer_type) : bool :=
  bool_decide (x = KILL_MON) || bool_decide (x = KILL_MON_MISSILE).

(** [#define BEAM_STOP 1000]: all beams stopped by subtracting this from the
    remaining range. *)
Definition BEAM_STOP : Z := 1000.

(** [#define MAX_EXPLOSION_RADIUS 9]. *)
Definition MAX_EXPLOSION_RADIUS : Z := 9.

(** [INT_MAX], the initial value of every cell of an [explosion_map]. *)
Definition INT_MAX : Z := 2147483647.

(** ** The world the engine reads and, in live mode, changes *)

Record dice_def := { dice_num : Z; dice_size : Z }.

Record item_def :=
  { base_type : Z; sub_type : Z; special : Z; item_flags : Z; quantity : Z }.

Record monsters :=
  { mon_type : monster_type; hit_points : Z; max_hit_points : Z; ac : Z;
    ev : Z; hit_dice : Z; mon_attitude : mon_attitude_type;
    mon_god : god_type; mon_pos : coord_def }.

Record player :=
  { you_pos : coord_def; hp : Z; experience_level : Z; religion : god_type;
    piety : Z; pet_target : Z; inv : list item_def }.

(** [actor*] arguments of the hooks: the player, a monster of [menv], or the
    dead-but-valid copy [orig] that [affect_monster] hands to the hit hooks. *)
Inductive actor :=
| the_player
| a_monster (mid : nat)
| a_dead_monster (orig : monsters).

(** Methods of [monsters] and of [player] that beam.cc calls and that are
    defined elsewhere; they are read through [mon_flag], [mon_stat],
    [you_flag] and [you_stat] of [Collaborators]. *)
Inductive mon_flag_name :=
| M_alive | M_submerged | M_observable | M_visible_to_you | M_res_rotting
| M_is_icy | M_wont_attack | M_friendly | M_invisible | M_backlit | M_near
| M_is_summoned | M_asleep | M_is_holy | M_wall_shielded | M_fedhas_protects
| M_is_statue | M_is_mimic | M_has_lifeforce | M_sense_invis | M_you_can_see
| M_species_orc | M_holiness_natural | M_holiness_undead
| M_holiness_demonic | M_shield_reflects | M_type_valid | M_can_mutate
| M_can_hibernate | M_immune_magic | M_is_shapeshifter
| M_can_see_invisible | M_intel_normal | M_caught.

Inductive mon_stat_name :=
| M_res_fire | M_res_steam | M_res_cold | M_res_elec | M_res_acid
| M_res_poison | M_res_negative_energy | M_res_holy_energy | M_shield_bonus
| M_shield_block_penalty | M_mindex.

Inductive you_flag_name :=
| Y_invisible | Y_can_see_invisible | Y_confused | Y_backlit | Y_silenced
| Y_can_smell | Y_res_rotting | Y_good_god | Y_res_poison | Y_mental_clarity
| Y_res_electricity | Y_has_shield | Y_shield_reflects | Y_light_armour
| Y_light_armour_strict | Y_deflect_missiles | Y_repel_missiles
| Y_body_armour | Y_under_penance | Y_piety_breakpoint2 | Y_undead
| Y_res_sticky_flame | Y_in_abyss | Y_res_torment | Y_res_negative_energy
| Y_semi_undead | Y_engorged | Y_above_satiated | Y_can_bleed | Y_held.

Inductive you_stat_name :=
| Y_evasion | Y_evasion_ignore_phaseshift | Y_evasion_ignore_helpless
| Y_res_steam | Y_prot_life | Y_shield_class | Y_shield_block_penalty
| Y_shield_bonus | Y_armour_class | Y_body_armour_mass.

Inductive item_test_name :=
| IT_valid | IT_missile | IT_throwing_net | IT_curare | IT_summoned
| IT_large_rock.

(** Procedures of other modules that beam.cc calls for their effect on the
    world. [extern] of [Collaborators] runs one of them; the value returned
    is the procedure's return value ([0] for [void], [0]/[1] for [bool]). *)
Inductive extern_call :=
| set_terrain_changed (p : coord_def)
| clear_bloody (p : coord_def)
| place_cloud (ct : cloud_type) (p : coord_def) (duration : Z)
    (k : kill_category)
| delete_cloud (idx : Z)
| set_cloud_type (idx : Z) (ct : Z)
| place_explosion_clouds (name : string) (fl : beam_type) (ench_power : Z)
    (p : coord_def) (k : kill_category)
| big_cloud (ct : cloud_type) (p : coord_def) (pow spread : Z)
    (k : kill_category)
| did_god_conduct (what : string) (level : Z)
| xom_is_stimulated (n : Z)
| interrupt_activity
| fire_wall_hit_event (p : coord_def) (beam_source : Z) (target : coord_def)
| create_ballistomycete (p : coord_def) (beh : string)
| expose_items_to_element (fl : beam_type) (p : coord_def) (burn_power : Z)
| expose_player_to_element (fl : beam_type) (burn_power : Z)
| item_was_destroyed (it : item_def) (beam_source : Z)
| thrown_object_destroyed (it : item_def) (p : coord_def) (returning : bool)
| get_trapping_net (p : coord_def) (trapped : bool)
| copy_item_to_grid (it : item_def) (p : coord_def) (quant_drop : Z)
| noisy_msg (loudness : Z) (p : coord_def) (msg : string)
| ouch (dam : Z) (death_source : Z) (how : string)
| bleed_onto_floor (p : coord_def) (blood : Z)
| blood_spray (p : coord_def) (level : Z)
| check_your_resists (hurted : Z) (fl : beam_type)
| miasma_player
| potion_confusion
| player_caught_in_net
| curare_hits_player (levels : Z)
| napalm_player (levels : Z)
| splash_with_acid (strength : Z) (corrode : bool)
| you_check_res_magic (ench_power : Z)
| enchant_player (fl : beam_type) (thrower : killer_type) (ench_power : Z)
| canned_msg_you_resist
| shield_block_succeeded (who : actor)
| exercise_skill (what : string) (n : Z)
| ident_reflector (who : actor)
| behaviour_event (mid : nat) (what : string) (src : Z)
| set_attack_conducts (mid : nat) (known : bool)
| remove_sanctuary
| anim_enchantment (fl : beam_type) (who : actor) (known : bool)
| mon_check_res_magic (mid : nat) (ench_power : Z)
| enchant_monster (mid : nat) (fl : beam_type) (thrower : killer_type)
    (ench_power : Z) (d : dice_def) (name : string) (src : coord_def)
| mimic_alert (mid : nat)
| simple_monster_message (mid : nat) (text : string)
| beogh_follower_convert (mid : nat)
| print_wounds (mid : nat)
| napalm_monster (mid : nat) (k : kill_category) (levels : Z)
| curare_hits_monster (mid : nat) (k : kill_category) (levels : Z)
| poison_monster (mid : nat) (k : kill_category) (levels : Z) (force : bool)
| miasma_monster (mid : nat) (k : kill_category)
| drain_exp (mid : nat)
| monster_caught_in_net (mid : nat)
| mon_hurt (mid : nat) (dmg : Z) (fl : beam_type)
| mon_shield_block_succeeded (mid : nat)
| monster_die (mid : nat) (killer : killer_type) (killer_index : Z)
| mon_set_attitude (mid : nat) (att : mon_attitude_type)
| noisy (loudness : Z) (p : coord_def) (who : Z)
| canned_msg_nothing_happens
| canned_msg_ok.

(** What a firing emits for the renderer, the message log and the prompt. *)
Inductive event :=
| Msg (chan : msg_channel_type) (text : string)
| Prompt (text : string)
| DrawCell (p : coord_def)
| DrawExplosion (p : coord_def)
| Delay (ms : Z).

(** Randomness and the player's answers to prompts come from outside the
    engine. Modelled from the spec: random.cc and the prompt are not part of
    the sources; section 5 of the spec asks for seeded random streams and
    for a labelled stream per hit or defence comparison ([defer_rand]).
    [draws] is the seeded global stream and [drawn] the number of values
    consumed from it, [forks] gives the labelled streams of the [defer_rand]
    created at a position of the global stream, [answers] are the answers
    the player will give and [asked] counts the prompts shown. [emitted] is
    what was sent to the renderer and the message log, latest first. *)
Record io_state :=
  { draws : nat -> Z; drawn : nat; forks : nat -> list nat -> Z;
    answers : nat -> bool; asked : nat; emitted : list event }.

Definition defer_rand : Type := list nat -> Z.

(** [struct tracer_info]. *)
Record tracer_info :=
  { count : Z; power : Z; hurt : Z; helped : Z; dont_stop : bool }.

(** [tracer_info::reset] and [tracer_info::operator+=]. *)
Definition tracer_info_reset : tracer_info :=
  {| count := 0; power := 0; hurt := 0; helped := 0; dont_stop := false |}.
Definition tracer_info_add (a other : tracer_info) : tracer_info :=
  {| count := count a + count other; power := power a + power other;
     hurt := hurt a + hurt other; helped := helped a + helped other;
     dont_stop := dont_stop a || dont_stop other |}.

(** The [bool] and [int] members of [bolt]. *)
Inductive bool_field :=
| is_tracer | is_beam | is_explosion | is_big_cloud | aimed_at_spot
| aimed_at_feet | auto_hit | use_target_as_pos | in_explosion_phase
| passed_target | beam_cancelled | dont_stop_player | msg_generated
| obvious_effect | seen | heard | chose_ray | affects_nothing | affects_items
| effect_known | drop_item | was_missile | can_see_invis | smart_monster.

Inductive int_field :=
| range | range_used | hit | ench_power | ex_size | beam_source | reflections
| bounces | reflector | colour | type | loudness | foe_ratio.

#[global] Instance bool_field_eq_dec : EqDecision bool_field.
Proof. solve_decision. Defined.
#[global] Instance int_field_eq_dec : EqDecision int_field.
Proof. solve_decision. Defined.

Section Engine.

(** [ray_def] (ray.cc) and the part of the game state that beam.cc never
    reads or writes directly are left abstract. *)
Context {ray_def other_state : Type}.

Record world :=
  { grd : coord_def -> dungeon_feature_type;
    cgrid : coord_def -> option Z;
    menv : list monsters;
    you : player;
    mitm : list (coord_def * item_def);
    other : other_state }.

(** [struct bolt], without [special_explosion], which is kept in [state], and
    without the hook vectors, which are kept in [Collaborators]. *)
Record beam :=
  { flag : bool_field -> bool;
    num : int_field -> Z;
    flavour : beam_type;
    real_flavour : beam_type;
    damage : dice_def;
    name : string;
    aux_source : string;
    hit_verb : string;
    source_name : string;
    noise_msg : string;
    thrower : killer_type;
    attitude : mon_attitude_type;
    source : coord_def;
    target : coord_def;
    ray : ray_def;
    bounce_pos : coord_def;
    path_taken : list coord_def;
    item : option item_def;
    foe_info : tracer_info;
    friend_info : tracer_info;
    message_cache : list string }.

Definition set_flag (f : bool_field) (v : bool) (b : beam) : beam :=
  {| flag := fun g => if decide (f = g) then v else flag b g;
     num := num b; flavour := flavour b; real_flavour := real_flavour b;
     damage := damage b; name := name b; aux_source := aux_source b;
     hit_verb := hit_verb b; source_name := source_name b;
     noise_msg := noise_msg b; thrower := thrower b; attitude := attitude b;
     source := source b; target := target b; ray := ray b;
     bounce_pos := bounce_pos b; path_taken := path_taken b; item := item b;
     foe_info := foe_info b; friend_info := friend_info b;
     message_cache := message_cache b |}.

Definition set_num (f : int_field) (v : Z) (b : beam) : beam :=
  {| flag := flag b;
     num := fun g => if decide (f = g) then v else num b g;
     flavour := flavour b; real_flavour := real_flavour b;
     damage := damage b; name := name b; aux_source := aux_source b;
     hit_verb := hit_verb b; source_name := source_name b;
     noise_msg := noise_msg b; thrower := thrower b; attitude := attitude b;
     source := source b; target := target b; ray := ray b;
     bounce_pos := bounce_pos b; path_taken := path_taken b; item := item b;
     foe_info := foe_info b; friend_info := friend_info b;
     message_cache := message_cache b |}.

Definition set_flavour (v : beam_type) (b : beam) : beam :=
  {| flag := flag b; num := num b; flavour := v;
     real_flavour := real_flavour b;
     damage := damage b; name := name b; aux_source := aux_source b;
     hit_verb := hit_verb b; source_name := source_name b;
     noise_msg := noise_msg b; thrower := thrower b; attitude := attitude b;
     source := source b; target := target b; ray := ray b;
     bounce_pos := bounce_pos b; path_taken := path_taken b; item := item b;
     foe_info := foe_info b; friend_info := friend_info b;
     message_cache := message_cache b |}.

Definition set_real_flavour (v : beam_type) (b : beam) : beam :=
  {| flag := flag b; num := num b; flavour := flavour b; real_flavour := v;
     damage := damage b; name := name b; aux_source := aux_source b;
     hit_verb := hit_verb b; source_name := source_name b;
     noise_msg := noise_msg b; thrower := thrower b; attitude := attitude b;
     source := source b; target := target b; ray := ray b;
     bounce_pos := bounce_pos b; path_taken := path_taken b; item := item b;
     foe_info := foe_info b; friend_info := friend_info b;
     message_cache := message_cache b |}.

Definition set_damage (v : dice_def) (b : beam) : beam :=
  {| flag := flag b; num := num b; flavour := flavour b;
     real_flavour := real_flavour b;
     damage := v; name := name b; aux_source := aux_source b;
     hit_verb := hit_verb b; source_name := source_name b;
     noise_msg := noise_msg b; thrower := thrower b; attitude := attitude b;
     source := source b; target := target b; ray := ray b;
     bounce_pos := bounce_pos b; path_taken := path_taken b; item := item b;
     foe_info := foe_info b; friend_info := friend_info b;
     message_cache := message_cache b |}.

Definition set_name (v : string) (b : beam) : beam :=
  {| flag := flag b; num := num b; flavour := flavour b;
     real_flavour := real_flavour b;
     damage := damage b; name := v; aux_source := aux_source b;
     hit_verb := hit_verb b; source_name := source_name b;
     noise_msg := noise_msg b; thrower := thrower b; attitude := attitude b;
     source := source b; target := target b; ray := ray b;
     bounce_pos := bounce_pos b; path_taken := path_taken b; item := item b;
     foe_info := foe_info b; friend_info := friend_info b;
     message_cache := message_cache b |}.

Definition set_aux_source (v : string) (b : beam) : beam :=
  {| flag := flag b; num := num b; flavour := flavour b;
     real_flavour := real_flavour b;
     damage := damage b; name := name b; aux_source := v;
     hit_verb := hit_verb b; source_name := source_name b;
     noise_msg := noise_msg b; thrower := thrower b; attitude := attitude b;
     source := source b; target := target b; ray := ray b;
     bounce_pos := bounce_pos b; path_taken := path_taken b; item := item b;
     foe_info := foe_info b; friend_info := friend_info b;
     message_cache := message_cache b |}.

Definition set_hit_verb (v : string) (b : beam) : beam :=
  {| flag := flag b; num := num b; flavour := flavour b;
     real_flavour := real_flavour b;
     damage := damage b; name := name b; aux_source := aux_source b;
     hit_verb := v; source_name := source_name b;
     noise_msg := noise_msg b; thrower := thrower b; attitude := attitude b;
     source := source b; target := target b; ray := ray b;
     bounce_pos := bounce_pos b; path_taken := path_taken b; item := item b;
     foe_info := foe_info b; friend_info := friend_info b;
     message_cache := message_cache b |}.

Definition set_source_name (v : string) (b : beam) : beam :=
  {| flag := flag b; num := num b; flavour := flavour b;
     real_flavour := real_flavour b;
     damage := damage b; name := name b; aux_source := aux_source b;
     hit_verb := hit_verb b; source_name := v;
     noise_msg := noise_msg b; thrower := thrower b; attitude := attitude b;
     source := source b; target := target b; ray := ray b;
     bounce_pos := bounce_pos b; path_taken := path_taken b; item := item b;
     foe_info := foe_info b; friend_info := friend_info b;
     message_cache := message_cache b |}.

Definition set_thrower (v : killer_type) (b : beam) : beam :=
  {| flag := flag b; num := num b; flavour := flavour b;
     real_flavour := real_flavour b;
     damage := damage b; name := name b; aux_source := aux_source b;
     hit_verb := hit_verb b; source_name := source_name b;
     noise_msg := noise_msg b; thrower := v; attitude := attitude b;
     source := source b; target := target b; ray := ray b;
     bounce_pos := bounce_pos b; path_taken := path_taken b; item := item b;
     foe_info := foe_info b; friend_info := friend_info b;
     message_cache := message_cache b |}.

Definition set_attitude (v : mon_attitude_type) (b : beam) : beam :=
  {| flag := flag b; num := num b; flavour := flavour b;
     real_flavour := real_flavour b;
     damage := damage b; name := name b; aux_source := aux_source b;
     hit_verb := hit_verb b; source_name := source_name b;
     noise_msg := noise_msg b; thrower := thrower b; attitude := v;
     source := source b; target := target b; ray := ray b;
     bounce_pos := bounce_pos b; path_taken := path_taken b; item := item b;
     foe_info := foe_info b; friend_info := friend_info b;
     message_cache := message_cache b |}.

Definition set_source (v : coord_def) (b : beam) : beam :=
  {| flag := flag b; num := num b; flavour := flavour b;
     real_flavour := real_flavour b;
     damage := damage b; name := name b; aux_source := aux_source b;
     hit_verb := hit_verb b; source_name := source_name b;
     noise_msg := noise_msg b; thrower := thrower b; attitude := attitude b;
     source := v; target := target b; ray := ray b;
     bounce_pos := bounce_pos b; path_taken := path_taken b; item := item b;
     foe_info := foe_info b; friend_info := friend_info b;
     message_cache := message_cache b |}.

Definition set_target (v : coord_def) (b : beam) : beam :=
  {| flag := flag b; num := num b; flavour := flavour b;
     real_flavour := real_flavour b;
     damage := damage b; name := name b; aux_source := aux_source b;
     hit_verb := hit_verb b; source_name := source_name b;
     noise_msg := noise_msg b; thrower := thrower b; attitude := attitude b;
     source := source b; target := v; ray := ray b;
     bounce_pos := bounce_pos b; path_taken := path_taken b; item := item b;
     foe_info := foe_info b; friend_info := friend_info b;
     message_cache := message_cache b |}.

Definition set_ray (v : ray_def) (b : beam) : beam :=
  {| flag := flag b; num := num b; flavour := flavour b;
     real_flavour := real_flavour b;
     damage := damage b; name := name b; aux_source := aux_source b;
     hit_verb := hit_verb b; source_name := source_name b;
     noise_msg := noise_msg b; thrower := thrower b; attitude := attitude b;
     source := source b; target := target b; ray := v;
     bounce_pos := bounce_pos b; path_taken := path_taken b; item := item b;
     foe_info := foe_info b; friend_info := friend_info b;
     message_cache := message_cache b |}.

Definition set_bounce_pos (v : coord_def) (b : beam) : beam :=
  {| flag := flag b; num := num b; flavour := flavour b;
     real_flavour := real_flavour b;
     damage := damage b; name := name b; aux_source := aux_source b;
     hit_verb := hit_verb b; source_name := source_name b;
     noise_msg := noise_msg b; thrower := thrower b; attitude := attitude b;
     source := source b; target := target b; ray := ray b;
     bounce_pos := v; path_taken := path_taken b; item := item b;
     foe_info := foe_info b; friend_info := friend_info b;
     message_cache := message_cache b |}.

Definition set_path_taken (v : list coord_def) (b : beam) : beam :=
  {| flag := flag b; num := num b; flavour := flavour b;
     real_flavour := real_flavour b;
     damage := damage b; name := name b; aux_source := aux_source b;
     hit_verb := hit_verb b; source_name := source_name b;
     noise_msg := noise_msg b; thrower := thrower b; attitude := attitude b;
     source := source b; target := target b; ray := ray b;
     bounce_pos := bounce_pos b; path_taken := v; item := item b;
     foe_info := foe_info b; friend_info := friend_info b;
     message_cache := message_cache b |}.

Definition set_item (v : option item_def) (b : beam) : beam :=
  {| flag := flag b; num := num b; flavour := flavour b;
     real_flavour := real_flavour b;
     damage := damage b; name := name b; aux_source := aux_source b;
     hit_verb := hit_verb b; source_name := source_name b;
     noise_msg := noise_msg b; thrower := thrower b; attitude := attitude b;
     source := source b; target := target b; ray := ray b;
     bounce_pos := bounce_pos b; path_taken := path_taken b; item := v;
     foe_info := foe_info b; friend_info := friend_info b;
     message_cache := message_cache b |}.

Definition set_foe_info (v : tracer_info) (b : beam) : beam :=
  {| flag := flag b; num := num b; flavour := flavour b;
     real_flavour := real_flavour b;
     damage := damage b; name := name b; aux_source := aux_source b;
     hit_verb := hit_verb b; source_name := source_name b;
     noise_msg := noise_msg b; thrower := thrower b; attitude := attitude b;
     source := source b; target := target b; ray := ray b;
     bounce_pos := bounce_pos b; path_taken := path_taken b; item := item b;
     foe_info := v; friend_info := friend_info b;
     message_cache := message_cache b |}.

Definition set_friend_info (v : tracer_info) (b : beam) : beam :=
  {| flag := flag b; num := num b; flavour := flavour b;
     real_flavour := real_flavour b;
     damage := damage b; name := name b; aux_source := aux_source b;
     hit_verb := hit_verb b; source_name := source_name b;
     noise_msg := noise_msg b; thrower := thrower b; attitude := attitude b;
     source := source b; target := target b; ray := ray b;
     bounce_pos := bounce_pos b; path_taken := path_taken b; item := item b;
     foe_info := foe_info b; friend_info := v;
     message_cache := message_cache b |}.

Definition set_message_cache (v : list string) (b : beam) : beam :=
  {| flag := flag b; num := num b; flavour := flavour b;
     real_flavour := real_flavour b;
     damage := damage b; name := name b; aux_source := aux_source b;
     hit_verb := hit_verb b; source_name := source_name b;
     noise_msg := noise_msg b; thrower := thrower b; attitude := attitude b;
     source := source b; target := target b; ray := ray b;
     bounce_pos := bounce_pos b; path_taken := path_taken b; item := item b;
     foe_info := foe_info b; friend_info := friend_info b;
     message_cache := v |}.

Definition set_grd (p : coord_def) (f : dungeon_feature_type) (w : world)
  : world :=
  {| grd := fun q => if decide (p = q) then f else grd w q;
     cgrid := cgrid w; menv := menv w; you := you w; mitm := mitm w;
     other := other w |}.

Definition set_pet_target (t : Z) (w : world) : world :=
  {| grd := grd w; cgrid := cgrid w; menv := menv w;
     you := {| you_pos := you_pos (you w); hp := hp (you w);
               experience_level := experience_level (you w);
               religion := religion (you w); piety := piety (you w);
               pet_target := t; inv := inv (you w) |};
     mitm := mitm w; other := other w |}.

(** The state of one firing: the bolt being fired ([this]), its
    [special_explosion] if it has one, the world, and the streams. *)
Record state :=
  { this : beam; special_explosion : option beam; wld : world;
    io : io_state }.

(** ** Collaborators

    Everything beam.cc uses and does not define. The hooks ([range_funcs],
    [damage_funcs], [hit_funcs], [aoe_funcs]) are members of [bolt] in the
    source. Modelled from the spec: the hooks are supplied by other modules;
    section 6 of the spec gives them as functions of the instance, the
    victim and a number that return a cost, a damage with a message and an
    abort flag, or a flag. *)
Class Collaborators :=
  { LOS_RADIUS : Z;
    AUTOMATIC_HIT : Z;
    NON_MONSTER : Z;
    MHITNOT : Z;
    MHITYOU : Z;
    ANON_FRIENDLY_MONSTER : Z;
    INSTANT_DEATH : Z;
    MAX_MONSTERS : Z;
    NON_ITEM : Z;
    MI_STONE : Z;
    ISFLAG_THROWN : Z;
    GXM : Z;
    GYM : Z;
    beam_ord : beam_type -> Z;
    beam_of_ord : Z -> beam_type;
    BEAM_FIRST_ENCHANTMENT : beam_type;
    BEAM_LAST_ENCHANTMENT : beam_type;
    BEAM_LAST_REAL : beam_type;
    in_bounds : coord_def -> bool;
    map_bounds : coord_def -> bool;
    feat_is_solid : dungeon_feature_type -> bool;
    feat_is_wall : dungeon_feature_type -> bool;
    feat_is_closed_door : dungeon_feature_type -> bool;
    feat_is_watery : dungeon_feature_type -> bool;
    feat_destroys_items : dungeon_feature_type -> bool;
    is_sanctuary : world -> coord_def -> bool;
    veto_disintegrate : world -> coord_def -> bool;
    ray_pos : ray_def -> coord_def;
    ray_advance : ray_def -> ray_def;
    ray_regress : ray_def -> ray_def;
    ray_bounce : ray_def -> (coord_def -> bool) -> ray_def;
    find_ray : world -> coord_def -> coord_def -> ray_def -> option ray_def;
    fallback_ray : coord_def -> coord_def -> ray_def -> ray_def;
    chaos_shift_bounds : ray_def -> ray_def -> Z * Z;
    ray_shift : ray_def -> ray_def -> Z -> ray_def;
    you_see_cell : world -> coord_def -> bool;
    player_can_hear : world -> coord_def -> bool;
    you_flag : world -> you_flag_name -> bool;
    you_stat : world -> you_stat_name -> Z;
    monster_at : world -> coord_def -> option nat;
    invalid_monster_index : Z -> bool;
    mon_flag : world -> nat -> mon_flag_name -> bool;
    mon_stat : world -> nat -> mon_stat_name -> Z;
    mons_power : monster_type -> Z;
    mons_attitude : world -> nat -> mon_attitude_type;
    mons_atts_aligned : mon_attitude_type -> mon_attitude_type -> bool;
    mons_att_wont_attack : mon_attitude_type -> bool;
    resist_adjust_damage :
      world -> nat -> beam_type -> Z -> Z -> bool -> Z;
    item_test : item_test_name -> item_def -> bool;
    set_item_stationary : item_def -> item_def;
    god_acting : world -> bool;
    arena : world -> bool;
    sanctuary_active : world -> bool;
    can_place_fungus : world -> coord_def -> bool;
    cloud_type_of : world -> Z -> Z;
    cloud_ord : cloud_type -> Z;
    dchar_glyph : string -> Z;
    colour_of : string -> Z;
    zappy : Z -> Z -> beam -> beam;
    attack_needs_confirm : world -> nat -> coord_def -> bool;
    range_funcs : list (beam -> world -> actor -> Z -> bool * Z);
    damage_funcs : list (beam -> world -> actor -> Z -> bool * Z * string);
    hit_funcs : list (beam -> world -> actor -> Z -> Z -> bool);
    aoe_funcs : list (beam -> world -> coord_def -> bool);
    extern : extern_call -> world -> io_state -> Z * world * io_state }.

Context {X : Collaborators}.

(** ** The state monad of a firing *)

Definition M (A : Type) : Type := state -> A * state.

#[global] Instance M_ret : MRet M := fun A a s => (a, s).
#[global] Instance M_bind : MBind M :=
  fun A B f m s => let '(a, s') := m s in f a s'.

Definition gets {A : Type} (f : state -> A) : M A := fun s => (f s, s).

Definition upd (f : beam -> beam) : M unit :=
  fun s => (tt, {| this := f (this s);
                   special_explosion := special_explosion s;
                   wld := wld s; io := io s |}).

Definition upd_special (f : beam -> beam) : M unit :=
  fun s => (tt, {| this := this s;
                   special_explosion := f <$> special_explosion s;
                   wld := wld s; io := io s |}).

Definition upd_world (f : world -> world) : M unit :=
  fun s => (tt, {| this := this s;
                   special_explosion := special_explosion s;
                   wld := f (wld s); io := io s |}).

Definition upd_io (f : io_state -> io_state) : M unit :=
  fun s => (tt, {| this := this s;
                   special_explosion := special_explosion s;
                   wld := wld s; io := f (io s) |}).

(** A call into another module. *)
Definition call (c : extern_call) : M Z :=
  fun s => let '(r, w, i) := extern c (wld s) (io s) in
           (r, {| this := this s;
                  special_explosion := special_explosion s;
                  wld := w; io := i |}).

Definition call_ (c : extern_call) : M unit := call c;; mret tt.
Definition callb (c : extern_call) : M bool := r ← call c; mret (negb (r =? 0)).

Definition when (c : bool) (m : M unit) : M unit := if c then m else mret tt.

Definition set_fl (f : bool_field) (v : bool) : M unit := upd (set_flag f v).
Definition set_nm (f : int_field) (v : Z) : M unit := upd (set_num f v).
Definition add_nm (f : int_field) (v : Z) : M unit :=
  upd (fun b => set_num f (num b f + v) b).

Definition emit (e : event) : M unit :=
  upd_io (fun i => {| draws := draws i; drawn := drawn i; forks := forks i;
                      answers := answers i; asked := asked i;
                      emitted := e :: emitted i |}).

(** [mpr] and [mprf]: the text is the format string. *)
Definition mpr (text : string) (chan : msg_channel_type) : M unit :=
  emit (Msg chan text).

(** [yesno]: shows the prompt and reads the player's next answer. *)
Definition yesno (text : string) : M bool :=
  emit (Prompt text);;
  a ← gets (fun s => answers (io s) (asked (io s)));
  upd_io (fun i => {| draws := draws i; drawn := drawn i; forks := forks i;
                      answers := answers i; asked := S (asked i);
                      emitted := emitted i |});;
  mret a.

(** *** Random numbers (random.cc) *)

Definition random_int : M Z :=
  r ← gets (fun s => draws (io s) (drawn (io s)));
  upd_io (fun i => {| draws := draws i; drawn := S (drawn i);
                      forks := forks i; answers := answers i;
                      asked := asked i; emitted := emitted i |});;
  mret r.

(** Modelled from the spec: random.cc is not part of the sources.
    [random2 max] is [0] when [max <= 1] and a value of the stream reduced
    to [0 .. max - 1] otherwise. *)
Definition random2 (max : Z) : M Z :=
  if max <=? 1 then mret 0 else r ← random_int; mret (r `mod` max).

Definition coinflip : M bool := r ← random2 2; mret (r =? 1).
Definition one_chance_in (n : Z) : M bool := r ← random2 n; mret (r =? 0).
Definition x_chance_in_y (x y : Z) : M bool :=
  if x <=? 0 then mret false
  else if y <=? x then mret true
  else r ← random2 y; mret (r <? x).
Definition random_range (low high : Z) : M Z :=
  r ← random2 (high - low + 1); mret (low + r).
Definition random2avg (max : Z) (rolls : nat) : M Z :=
  first ← random2 max;
  sum ← foldr (fun _ acc => a ← acc; r ← random2 (max + 1); mret (a + r))
              (mret first) (seq 0 (pred rolls));
  mret (sum `quot` Z.of_nat rolls).
Definition roll_dice (d : dice_def) : M Z :=
  if (0 <? dice_num d) && (0 <? dice_size d)
  then foldr (fun _ acc => a ← acc; r ← random2 (dice_size d); mret (a + r))
             (mret (dice_num d)) (seq 0 (Z.to_nat (dice_num d)))
  else mret 0.
Definition maybe_random2 (x : Z) (random_factor : bool) : M Z :=
  if random_factor then random2 x else mret (x `quot` 2).

(** A fresh [defer_rand]: its labelled streams are fixed when it is made. *)
Definition new_defer_rand : M defer_rand :=
  r ← gets (fun s => forks (io s) (drawn (io s)));
  upd_io (fun i => {| draws := draws i; drawn := S (drawn i);
                      forks := forks i; answers := answers i;
                      asked := asked i; emitted := emitted i |});;
  mret r.

(** [defer_rand::operator[]], [random2], [random_range], [random2avg]. *)
Definition dr_sub (r : defer_rand) (i : nat) : defer_rand :=
  fun path => r (i :: path).
Definition dr_random2 (r : defer_rand) (max : Z) : Z :=
  if max <=? 1 then 0 else r [] `mod` max.
Definition dr_random_range (r : defer_rand) (low high : Z) : Z :=
  low + dr_random2 r (high - low + 1).
Definition dr_random2avg (r : defer_rand) (max : Z) (rolls : nat) : Z :=
  (dr_random2 (dr_sub r 0%nat) max
   + foldr (fun i acc => acc + dr_random2 (dr_sub r (S i)) (max + 1)) 0
           (seq 0 (pred rolls))) `quot` Z.of_nat rolls.

(** ** Predicates of [bolt] *)

Definition mon_of (w : world) (mid : nat) : monsters :=
  default {| mon_type := MONS_NO_MONSTER; hit_points := 0;
             max_hit_points := 0; ac := 0; ev := 0; hit_dice := 0;
             mon_attitude := ATT_HOSTILE; mon_god := GOD_NO_GOD;
             mon_pos := (0, 0) |} (menv w !! mid).

Definition name_is (b : beam) (s : string) : bool := bool_decide (name b = s).
Definition name_has (b : beam) (s : string) : bool :=
  bool_decide (is_Some (String.index 0 s (name b))).
Definition flavour_is (b : beam) (f : beam_type) : bool :=
  bool_decide (flavour b = f).

(** [bolt::is_enchantment]. *)
Definition is_enchantment (b : beam) : bool :=
  (beam_ord BEAM_FIRST_ENCHANTMENT <=? beam_ord (flavour b))
  && (beam_ord (flavour b) <=? beam_ord BEAM_LAST_ENCHANTMENT).

(** [bolt::is_blockable]. *)
Definition is_blockable (b : beam) : bool :=
  negb (flag b is_beam) && negb (flag b is_explosion)
  && negb (flavour_is b BEAM_ELECTRICITY).

(** [bolt::whose_kill]. *)
Definition whose_kill (w : world) (b : beam) : kill_category :=
  if YOU_KILL (thrower b) then KC_YOU
  else if MON_KILL (thrower b) then
    if num b beam_source =? ANON_FRIENDLY_MONSTER then KC_FRIENDLY
    else if negb (invalid_monster_index (num b beam_source))
            && mon_flag w (Z.to_nat (num b beam_source)) M_friendly
    then KC_FRIENDLY else KC_OTHER
  else KC_OTHER.

(** [bolt::killer]. *)
Definition killer (b : beam) : killer_type :=
  if flavour_is b BEAM_BANISH then KILL_RESET
  else match thrower b with
       | KILL_YOU | KILL_YOU_MISSILE =>
           if flavour_is b BEAM_PARALYSIS || flavour_is b BEAM_PETRIFY
           then KILL_YOU else KILL_YOU_MISSILE
       | KILL_MON | KILL_MON_MISSILE => KILL_MON_MISSILE
       | KILL_YOU_CONF => KILL_YOU_CONF
       | _ => KILL_MON_MISSILE
       end.

(** [bolt::agent]: [None] is the null pointer. *)
Definition agent (b : beam) : option actor :=
  if YOU_KILL (thrower b) then Some the_player
  else if negb (invalid_monster_index (num b beam_source))
  then Some (a_monster (Z.to_nat (num b beam_source)))
  else None.

(** [bolt::pos]. *)
Definition pos (b : beam) : coord_def :=
  if flag b in_explosion_phase || flag b use_target_as_pos
  then target b else ray_pos (ray b).

(** [bolt::invisible]. *)
Definition invisible (b : beam) : bool :=
  (num b type =? 0) || is_enchantment b.

(** [bolt::is_fiery] and [bolt::is_superhot]. *)
Definition is_fiery (b : beam) : bool :=
  flavour_is b BEAM_FIRE || flavour_is b BEAM_HELLFIRE
  || flavour_is b BEAM_LAVA.

Definition is_superhot (b : beam) : bool :=
  if negb (is_fiery b) then false
  else name_is b "bolt of fire" || name_is b "bolt of magma"
       || name_is b "fireball"
       || (name_has b "hellfire" && flag b in_explosion_phase).

(** [bolt::affects_wall]. *)
Definition affects_wall (b : beam) (wall : dungeon_feature_type) : bool :=
  if flavour_is b BEAM_DIGGING then true
  else if flavour_is b BEAM_DISINTEGRATION && (3 <=? dice_num (damage b))
  then true
  else if is_fiery b
          && (bool_decide (wall = DNGN_WAX_WALL)
              || bool_decide (wall = DNGN_TREES))
  then true
  else if flavour_is b BEAM_NUKE then true
  else if flavour_is b BEAM_FRAG then true
  else false.

(** [bolt::is_bouncy]. *)
Definition is_bouncy (b : beam) (feat : dungeon_feature_type) : bool :=
  if bool_decide (real_flavour b = BEAM_CHAOS) && feat_is_solid feat then true
  else if is_enchantment b then false
  else if flavour_is b BEAM_ELECTRICITY
          && negb (bool_decide (feat = DNGN_METAL_WALL))
  then true
  else if (flavour_is b BEAM_FIRE || flavour_is b BEAM_COLD)
          && bool_decide (feat = DNGN_GREEN_CRYSTAL_WALL)
  then true
  else false.

(** [bolt::stop_at_target]. *)
Definition stop_at_target (b : beam) : bool :=
  flag b is_explosion || flag b is_big_cloud || flag b aimed_at_spot.

(** The propagation kinds of the spec's data model (section 3): single-target
    bolt, continuous beam, area explosion, large-area cloud; and the
    stop-at-target configuration as the spec words it (section 4.2, step 6):
    single-target, explosion, large-cloud. *)
Inductive propagation_kind :=
| single_target_bolt | continuous_beam | area_explosion | large_area_cloud.

Definition kind_of (b : beam) : propagation_kind :=
  if flag b is_explosion then area_explosion
  else if flag b is_big_cloud then large_area_cloud
  else if flag b is_beam then continuous_beam
  else single_target_bolt.

Definition spec_stop_at_target (b : beam) : bool :=
  match kind_of b with
  | single_target_bolt | area_explosion | large_area_cloud => true
  | continuous_beam => false
  end.

(** [bolt::found_player]. *)
Definition found_player (w : world) (b : beam) : bool :=
  let needs_fuzz :=
    flag b is_tracer && negb (flag b can_see_invis)
    && you_flag w Y_invisible && negb (YOU_KILL (thrower b)) in
  let dist := if needs_fuzz then 2 else 0 in
  grid_distance (pos b) (you_pos (you w)) <=? dist.

(** [bolt::can_affect_wall_monster]. *)
Definition can_affect_wall_monster (w : world) (b : beam) (mon : nat) : bool :=
  if is_enchantment b then true
  else
    let superconductor :=
      bool_decide (grd w (mon_pos (mon_of w mon)) = DNGN_METAL_WALL)
      && flavour_is b BEAM_ELECTRICITY in
    if mon_flag w mon M_wall_shielded && negb superconductor then false
    else if negb (flag b is_explosion) && negb (flag b is_big_cloud) then true
    else if is_bouncy b (grd w (mon_pos (mon_of w mon))) then false
    else false.

(** [bolt::has_saving_throw]. *)
Definition has_saving_throw (b : beam) : bool :=
  if flag b aimed_at_feet then false
  else match flavour b with
       | BEAM_HASTE | BEAM_MIGHT | BEAM_BERSERK | BEAM_HEALING
       | BEAM_INVISIBILITY | BEAM_DISPEL_UNDEAD | BEAM_ENSLAVE_SOUL
       | BEAM_ENSLAVE_DEMON => false
       | _ => true
       end.

(** [bolt::nice_to] and [bolt::nasty_to]. *)
Definition nice_to (w : world) (b : beam) (mon : nat) : bool :=
  if flavour_is b BEAM_POLYMORPH
  then bool_decide (mon_type (mon_of w mon) = MONS_UGLY_THING)
       || bool_decide (mon_type (mon_of w mon) = MONS_VERY_UGLY_THING)
  else flavour_is b BEAM_HASTE || flavour_is b BEAM_HEALING
       || flavour_is b BEAM_INVISIBILITY.

Definition nasty_to (w : world) (b : beam) (mon : nat) : bool :=
  if flavour_is b BEAM_HOLY then mon_stat w mon M_res_holy_energy <=? 0
  else if negb (is_enchantment b) then true
  else if flavour_is b BEAM_DIGGING then false
  else if nice_to w b mon then false
  else if flavour_is b BEAM_CHARM then mon_flag w mon M_is_holy
  else if flavour_is b BEAM_TELEPORT then negb (mon_flag w mon M_wont_attack)
  else if flavour_is b BEAM_DEGENERATE || flavour_is b BEAM_HIBERNATION
          || flavour_is b BEAM_ENSLAVE_SOUL
  then mon_flag w mon M_holiness_natural
  else if flavour_is b BEAM_DISPEL_UNDEAD || flavour_is b BEAM_ENSLAVE_UNDEAD
  then mon_flag w mon M_holiness_undead
  else if flavour_is b BEAM_PAIN
  then mon_stat w mon M_res_negative_energy =? 0
  else if flavour_is b BEAM_ENSLAVE_DEMON
  then mon_flag w mon M_holiness_demonic
  else true.

(** [bolt::is_harmless]. *)
Definition is_harmless (w : world) (b : beam) (mon : nat) : bool :=
  if is_enchantment b then negb (nasty_to w b mon)
  else match flavour b with
       | BEAM_VISUAL | BEAM_DIGGING => true
       | BEAM_HOLY => 0 <? mon_stat w mon M_res_holy_energy
       | BEAM_STEAM => 3 <=? mon_stat w mon M_res_steam
       | BEAM_FIRE => 3 <=? mon_stat w mon M_res_fire
       | BEAM_COLD => 3 <=? mon_stat w mon M_res_cold
       | BEAM_MIASMA => mon_flag w mon M_res_rotting
       | BEAM_NEG => mon_stat w mon M_res_negative_energy =? 3
       | BEAM_ELECTRICITY => 3 <=? mon_stat w mon M_res_elec
       | BEAM_POISON => 3 <=? mon_stat w mon M_res_poison
       | BEAM_ACID => 3 <=? mon_stat w mon M_res_acid
       | _ => false
       end.

(** [bolt::harmless_to_player]. *)
Definition harmless_to_player (w : world) (b : beam) : bool :=
  match flavour b with
  | BEAM_VISUAL | BEAM_DIGGING => true
  | BEAM_HASTE | BEAM_HEALING | BEAM_INVISIBILITY => true
  | BEAM_HOLY => you_flag w Y_good_god
  | BEAM_STEAM => 3 <=? you_stat w Y_res_steam
  | BEAM_MIASMA => you_flag w Y_res_rotting
  | BEAM_NEG => 3 <=? you_stat w Y_prot_life
  | BEAM_POISON => you_flag w Y_res_poison
  | BEAM_POTION_STINKING_CLOUD =>
      you_flag w Y_res_poison || you_flag w Y_mental_clarity
  | BEAM_ELECTRICITY => you_flag w Y_res_electricity
  | _ => false
  end.

(** [bolt::beam_source_as_target]. *)
Definition beam_source_as_target (b : beam) : Z :=
  if MON_KILL (thrower b) then num b beam_source
  else if bool_decide (thrower b = KILL_MISC) then MHITNOT else MHITYOU.

(** ** Hooks *)

(** The loop over [range_funcs] in [range_used_on_hit]: a hook may change
    [used] and returns [true] to stop the loop. *)
Fixpoint apply_range_funcs (fs : list (beam -> world -> actor -> Z -> bool * Z))
    (b : beam) (w : world) (victim : actor) (used : Z) : Z :=
  match fs with
  | [] => used
  | f :: fs' =>
      let '(stop, used') := f b w victim used in
      if stop then used' else apply_range_funcs fs' b w victim used'
  end.

(** [bolt::range_used_on_hit]: extra range used on hit. [base_range_used]
    is the value of [used] before the tracer test and the hooks. *)
Definition base_range_used (b : beam) : Z :=
  if negb (flag b is_beam) then BEAM_STOP
  else if is_enchantment b
  then (if flavour_is b BEAM_DIGGING then 0 else BEAM_STOP)
  else if name_has b "hellfire" then 0
  else if flag b is_explosion || flag b is_big_cloud then BEAM_STOP
  else if flavour_is b BEAM_ACID then BEAM_STOP
  else if flavour_is b BEAM_ELECTRICITY then 0
  else 1.

Definition range_used_on_hit (w : world) (b : beam) (victim : actor) : Z :=
  let used := base_range_used b in
  if flag b is_tracer && (num b beam_source =? NON_MONSTER)
     && (used =? BEAM_STOP)
  then 1
  else if flag b in_explosion_phase then used
  else apply_range_funcs range_funcs b w victim used.

(** [bolt::apply_hit_funcs]. *)
Definition apply_hit_funcs (w : world) (b : beam) (victim : actor)
    (dmg corpse : Z) : bool :=
  foldl (fun affected f => f b w victim dmg corpse || affected) false
        hit_funcs.

(** [bolt::apply_dmg_funcs]: the result is the returned flag, the damage
    left in [dmg] and the messages collected. *)
Fixpoint apply_dmg_funcs_from
    (fs : list (beam -> world -> actor -> Z -> bool * Z * string))
    (w : world) (b : beam) (victim : actor) (dmg : Z)
    (messages : list string) : bool * Z * list string :=
  match fs with
  | [] => (true, dmg, messages)
  | f :: fs' =>
      let '(abort, dmg', dmg_msg) := f b w victim dmg in
      if abort then (false, dmg', messages)
      else apply_dmg_funcs_from fs' w b victim dmg'
             (if bool_decide (dmg_msg = EmptyString) then messages
              else messages ++ [dmg_msg])
  end.

Definition apply_dmg_funcs (w : world) (b : beam) (victim : actor) (dmg : Z)
  : bool * Z * list string :=
  apply_dmg_funcs_from damage_funcs w b victim dmg [].

(** ** Hit and miss *)

(** [_test_beam_hit]. *)
Definition _test_beam_hit (attack defence : Z) (is_beam deflect repel : bool)
    (r : defer_rand) : bool :=
  let attack :=
    if is_beam && deflect
    then dr_random2 (dr_sub r 0) (attack * 2) `quot` 3
    else if is_beam && repel
    then (if 2 <=? attack
          then dr_random_range (dr_sub r 0) ((attack + 1) `quot` 2 + 1) attack
          else attack)
    else if deflect then dr_random2 (dr_sub r 0) (attack `quot` 2)
    else if repel then dr_random2 (dr_sub r 0) attack
    else attack in
  if attack =? AUTOMATIC_HIT then true
  else
    let attack := dr_random2 (dr_sub r 1) attack in
    let defence := dr_random2avg (dr_sub r 2) defence 2 in
    defence <=? attack.

(** ** Range accounting *)

(** [bolt::finish_beam]. *)
Definition finish_beam : M unit :=
  upd (fun b => set_num range_used (num b range) b).

(** ** Resistance scaling *)

Definition smm (monster : nat) (text : string) : M unit :=
  call_ (simple_monster_message monster text).

Definition resists_or_unharmed (original : Z) : string :=
  if 0 <? original then " completely resists." else " appears unharmed.".

(** [mons_adjust_flavoured]: the damage [monster] takes from a flavoured
    attack of [this]; [doFlavouredEffects] enables messages and side
    effects. *)
Definition mons_adjust_flavoured (monster : nat) (hurted : Z)
    (doFlavouredEffects : bool) : M Z :=
  b ← gets this;
  w ← gets wld;
  let original := hurted in
  let res n := mon_stat w monster n in
  match flavour b with
  | BEAM_FIRE | BEAM_STEAM =>
      let hurted :=
        resist_adjust_damage w monster (flavour b)
          (if flavour_is b BEAM_FIRE then res M_res_fire else res M_res_steam)
          hurted true in
      (if hurted =? 0
       then when doFlavouredEffects
              (smm monster (resists_or_unharmed original))
       else if hurted <? original
       then when doFlavouredEffects (smm monster " resists.")
       else if (original <? hurted) && doFlavouredEffects
       then (if mon_flag w monster M_is_icy then smm monster " melts!"
             else if bool_decide (mon_type (mon_of w monster) = MONS_BUSH)
             then smm monster " is on fire!"
             else if flavour_is b BEAM_FIRE
             then smm monster " is burned terribly!"
             else smm monster " is scalded terribly!")
       else mret tt);;
      mret hurted
  | BEAM_COLD =>
      let hurted :=
        resist_adjust_damage w monster (flavour b) (res M_res_cold)
          hurted true in
      (if hurted =? 0
       then when doFlavouredEffects
              (smm monster (resists_or_unharmed original))
       else if hurted <? original
       then when doFlavouredEffects (smm monster " resists.")
       else if original <? hurted
       then when doFlavouredEffects (smm monster " is frozen!")
       else mret tt);;
      mret hurted
  | BEAM_ELECTRICITY =>
      let hurted :=
        resist_adjust_damage w monster (flavour b) (res M_res_elec)
          hurted true in
      when ((hurted =? 0) && doFlavouredEffects)
        (smm monster (resists_or_unharmed original));;
      mret hurted
  | BEAM_ACID =>
      let hurted :=
        resist_adjust_damage w monster (flavour b) (res M_res_acid)
          hurted true in
      when ((hurted =? 0) && doFlavouredEffects)
        (smm monster (resists_or_unharmed original));;
      mret hurted
  | BEAM_POISON =>
      let r := res M_res_poison in
      let hurted :=
        resist_adjust_damage w monster (flavour b) r hurted true in
      (if (hurted =? 0) && (0 <? r)
       then when doFlavouredEffects
              (smm monster (resists_or_unharmed original))
       else if (r <=? 0) && doFlavouredEffects
       then skip ← one_chance_in 3;
            when (negb skip)
              (call_ (poison_monster monster (whose_kill w b) 1 false))
       else mret tt);;
      mret hurted
  | BEAM_POISON_ARROW =>
      let hurted :=
        resist_adjust_damage w monster (flavour b) (res M_res_poison)
          hurted false in
      (if hurted <? original
       then when doFlavouredEffects
              (smm monster " partially resists.";;
               when (mon_flag w monster M_has_lifeforce)
                 (call_ (poison_monster monster (whose_kill w b) 2 true)))
       else when doFlavouredEffects
              (call_ (poison_monster monster (whose_kill w b) 4 false)));;
      mret hurted
  | BEAM_NEG =>
      if res M_res_negative_energy =? 3
      then when doFlavouredEffects (smm monster " completely resists.");;
           mret 0
      else if negb doFlavouredEffects then mret hurted
      else
        when (mon_flag w monster M_observable) (set_fl obvious_effect true);;
        call_ (drain_exp monster);;
        when (YOU_KILL (thrower b))
          (call_ (did_god_conduct "DID_NECROMANCY" 2));;
        mret hurted
  | BEAM_MIASMA =>
      if mon_flag w monster M_res_rotting
      then when doFlavouredEffects (smm monster " completely resists.");;
           mret 0
      else if negb doFlavouredEffects then mret hurted
      else
        call_ (miasma_monster monster (whose_kill w b));;
        when (YOU_KILL (thrower b))
          (call_ (did_god_conduct "DID_UNCLEAN" 2));;
        mret hurted
  | BEAM_HOLY =>
      let rhe := res M_res_holy_energy in
      let hurted :=
        if 0 <? rhe then 0
        else if rhe =? 0 then hurted `quot` 2
        else if rhe <? -1 then (hurted * 3) `quot` 2
        else hurted in
      when doFlavouredEffects
        (smm monster (if hurted =? 0 then " appears unharmed."
                      else " writhes in agony!"));;
      mret hurted
  | BEAM_ICE =>
      let hurted :=
        resist_adjust_damage w monster (flavour b) (res M_res_cold)
          hurted true in
      (if hurted <? original
       then when doFlavouredEffects (smm monster " partially resists.")
       else if original <? hurted
       then when doFlavouredEffects (smm monster " is frozen!")
       else mret tt);;
      mret hurted
  | BEAM_LAVA =>
      let hurted :=
        resist_adjust_damage w monster (flavour b) (res M_res_fire)
          hurted true in
      (if hurted <? original
       then when doFlavouredEffects (smm monster " partially resists.")
       else if original <? hurted
       then (if mon_flag w monster M_is_icy
             then when doFlavouredEffects (smm monster " melts!")
             else when doFlavouredEffects
                    (smm monster " is burned terribly!"))
       else mret tt);;
      mret hurted
  | BEAM_HELLFIRE =>
      let resist := res M_res_fire in
      if 2 <? resist
      then when doFlavouredEffects
             (smm monster (resists_or_unharmed original));;
           mret 0
      else if 0 <? resist
      then when doFlavouredEffects (smm monster " partially resists.");;
           mret (hurted `quot` 2)
      else if resist <? 0
      then (if mon_flag w monster M_is_icy
            then when doFlavouredEffects (smm monster " melts!")
            else when doFlavouredEffects
                   (smm monster " is burned terribly!"));;
           mret ((hurted * 12) `quot` 10)
      else mret hurted
  | BEAM_SPORE =>
      if bool_decide (mon_type (mon_of w monster) = MONS_BALLISTOMYCETE)
      then mret 0 else mret hurted
  | _ => mret hurted
  end.

(** [bolt::determine_damage]: [None] is the result [false]; otherwise the
    damage before the AC modifier, after it, and after AC and resists, and
    the messages of the damage hooks. *)
Definition determine_damage (mon : nat)
  : M (option (Z * Z * Z * list string)) :=
  b ← gets this;
  w ← gets wld;
  let originator_worships_fedhas :=
    if negb (flag b is_explosion) && (num b beam_source =? NON_MONSTER)
    then bool_decide (religion (you w) = GOD_FEDHAS)
    else if negb (flag b is_explosion) && (0 <=? num b beam_source)
            && (num b beam_source <? MAX_MONSTERS)
    then bool_decide
           (mon_god (mon_of w (Z.to_nat (num b beam_source))) = GOD_FEDHAS)
    else false in
  if negb (is_enchantment b)
     && bool_decide (attitude b = mon_attitude (mon_of w mon))
     && originator_worships_fedhas && mon_flag w mon M_fedhas_protects
  then
    when (negb (flag b is_tracer))
      (mpr "Fedhas protects %s plant from harm." MSGCH_GOD);;
    mret None
  else
    preac ← (if flag b is_tracer
             then mret ((dice_num (damage b) * (dice_size (damage b) + 1))
                        `quot` 2)
             else roll_dice (damage b));
    let '(ok, preac, messages) := apply_dmg_funcs w b (a_monster mon) preac in
    if negb ok then mret None
    else
      let after_submerged (preac : Z) : M (option (Z * Z * Z * list string)) :=
        let ac1 := 1 + ac (mon_of w mon) in
        r1 ← maybe_random2 ac1 (negb (flag b is_tracer));
        postac ← (if flavour_is b BEAM_FRAG
                  then r2 ← maybe_random2 ac1 (negb (flag b is_tracer));
                       r3 ← maybe_random2 ac1 (negb (flag b is_tracer));
                       mret (preac - r1 - r2 - r3)
                  else mret (preac - r1));
        let postac := Z.max postac 0 in
        final ← mons_adjust_flavoured mon postac false;
        mret (Some (preac, postac, final, messages)) in
      if mon_flag w mon M_submerged
      then
        if negb (flag b aimed_at_spot) then mret None
        else if flavour_is b BEAM_ELECTRICITY
        then
          when (negb (flag b is_tracer)
                && you_see_cell w (mon_pos (mon_of w mon)))
            (mpr "The %s arcs harmlessly into the water." MSGCH_PLAIN);;
          finish_beam;;
          mret None
        else after_submerged ((preac * 2) `quot` 3)
      else after_submerged preac.

(** ** Walls *)

(** [bolt::emit_message]. *)
Definition emit_message (chan : msg_channel_type) (m : string) : M unit :=
  b ← gets this;
  when (negb (bool_decide (m ∈ message_cache b))) (mpr m chan);;
  upd (fun b => set_message_cache (m :: message_cache b) b).

(** [bolt::fake_flavour] and [_chaos_beam_flavour]; the weighted choice
    among nineteen equal weights is one draw. *)
Definition chaos_flavours : list beam_type :=
  [ BEAM_FIRE; BEAM_COLD; BEAM_ELECTRICITY; BEAM_POISON; BEAM_NEG; BEAM_ACID;
    BEAM_HELLFIRE; BEAM_NAPALM; BEAM_SLOW; BEAM_HASTE; BEAM_MIGHT;
    BEAM_BERSERK; BEAM_HEALING; BEAM_PARALYSIS; BEAM_CONFUSION;
    BEAM_INVISIBILITY; BEAM_POLYMORPH; BEAM_BANISH; BEAM_DISINTEGRATION ].

Definition _chaos_beam_flavour : M beam_type :=
  r ← random2 190;
  mret (default BEAM_FIRE (chaos_flavours !! Z.to_nat (r `quot` 10))).

Definition fake_flavour : M unit :=
  b ← gets this;
  if bool_decide (real_flavour b = BEAM_RANDOM)
  then r ← random_range (beam_ord BEAM_FIRE) (beam_ord BEAM_ACID);
       upd (set_flavour (beam_of_ord r))
  else if bool_decide (real_flavour b = BEAM_CHAOS)
  then f ← _chaos_beam_flavour; upd (set_flavour f)
  else mret tt.

(** [bolt::digging_wall_effect]. *)
Definition digging_wall_effect : M unit :=
  b ← gets this;
  w ← gets wld;
  let feat := grd w (pos b) in
  if bool_decide (feat = DNGN_ROCK_WALL)
     || bool_decide (feat = DNGN_CLEAR_ROCK_WALL)
  then
    upd_world (set_grd (pos b) DNGN_FLOOR);;
    call_ (set_terrain_changed (pos b));;
    call_ (clear_bloody (pos b));;
    when (negb (flag b msg_generated))
      (w ← gets wld;
       when (negb (you_flag w Y_silenced))
         (mpr "You hear a grinding noise." MSGCH_SOUND;;
          set_fl obvious_effect true);;
       set_fl msg_generated true)
  else if feat_is_wall feat then finish_beam
  else mret tt.

Definition see_or_smell (p : coord_def) (seen_msg smell_msg : string)
  : M unit :=
  w ← gets wld;
  if you_see_cell w p then emit_message MSGCH_PLAIN seen_msg
  else if you_flag w Y_can_smell then emit_message MSGCH_PLAIN smell_msg
  else mret tt.

(** [bolt::fire_wall_effect]. *)
Definition fire_wall_effect : M unit :=
  b ← gets this;
  w ← gets wld;
  let feat := grd w (pos b) in
  if negb (bool_decide (feat = DNGN_WAX_WALL))
     && negb (bool_decide (feat = DNGN_TREES))
  then finish_beam
  else
    (if bool_decide (feat = DNGN_WAX_WALL)
     then
       if negb (is_superhot b)
       then when (negb (flavour_is b BEAM_HELLFIRE))
              (see_or_smell (pos b) "The wax appears to soften slightly."
                 "You smell warm wax.")
       else
         upd_world (set_grd (pos b) DNGN_FLOOR);;
         see_or_smell (pos b) "The wax bubbles and burns!"
           "You smell burning wax.";;
         d ← random2 10;
         w ← gets wld;
         call_ (place_cloud CLOUD_FIRE (pos b) (d + 15) (whose_kill w b));;
         set_fl obvious_effect true
     else
       when (is_superhot b)
         (upd_world (set_grd (pos b) DNGN_FLOOR);;
          see_or_smell (pos b) "The tree burns like a torch!"
            "You smell burning wood.";;
          w ← gets wld;
          (match whose_kill w b with
           | KC_YOU => call_ (did_god_conduct "DID_KILL_PLANT" 1)
           | KC_FRIENDLY => call_ (did_god_conduct "DID_ALLY_KILLED_PLANT" 1)
           | KC_OTHER => mret tt
           end);;
          d ← random2 30;
          w ← gets wld;
          call_ (place_cloud CLOUD_FOREST_FIRE (pos b) (d + 25)
                   (whose_kill w b));;
          set_fl obvious_effect true));;
    finish_beam.

(** [bolt::nuke_wall_effect]. *)
Definition nuke_wall_effect : M unit :=
  b ← gets this;
  w ← gets wld;
  if veto_disintegrate w (pos b) then finish_beam
  else
    let feat := grd w (pos b) in
    (if bool_decide (feat = DNGN_ROCK_WALL)
        || bool_decide (feat = DNGN_WAX_WALL)
        || bool_decide (feat = DNGN_CLEAR_ROCK_WALL)
        || bool_decide (feat = DNGN_GRANITE_STATUE)
     then
       call_ (clear_bloody (pos b));;
       upd_world (set_grd (pos b) DNGN_FLOOR);;
       w ← gets wld;
       when (player_can_hear w (pos b))
         (mpr "You hear a grinding noise." MSGCH_SOUND;;
          set_fl obvious_effect true)
     else if bool_decide (feat = DNGN_ORCISH_IDOL)
     then
       upd_world (set_grd (pos b) DNGN_FLOOR);;
       call_ (clear_bloody (pos b));;
       w ← gets wld;
       (if player_can_hear w (pos b)
        then (if negb (you_see_cell w (pos b))
              then mpr "You hear a hideous screaming!" MSGCH_SOUND
              else mpr "The idol screams as its substance crumbles away!"
                     MSGCH_SOUND)
        else when (you_see_cell w (pos b))
               (mpr "The idol twists and shakes as its substance crumbles away!"
                  MSGCH_PLAIN));;
       when (num b beam_source =? NON_MONSTER)
         (call_ (did_god_conduct "DID_DESTROY_ORCISH_IDOL" 8));;
       set_fl obvious_effect true
     else mret tt);;
    finish_beam.

(** [bolt::affect_wall]. *)
Definition affect_wall : M unit :=
  b ← gets this;
  if flag b is_tracer then mret tt
  else
    (if flavour_is b BEAM_DIGGING then digging_wall_effect
     else if is_fiery b then fire_wall_effect
     else if flavour_is b BEAM_DISINTEGRATION || flavour_is b BEAM_NUKE
     then nuke_wall_effect
     else mret tt);;
    b ← gets this;
    w ← gets wld;
    when (feat_is_solid (grd w (pos b))) finish_beam.

(** The [do ray.regress(); while (cond)] loops of [bounce] and [hit_wall].
    The source does not bound them; a ray leaves the map after at most
    [max(GXM, GYM)] steps, the bound the source itself uses where it
    regresses at the end of [do_fire]. *)
Definition regress_bound : nat := Z.to_nat (Z.max GXM GYM).

Fixpoint regress_while (fuel : nat) (cond : ray_def -> bool) (r : ray_def)
  : ray_def :=
  let r' := ray_regress r in
  match fuel with
  | O => r'
  | S n => if cond r' then regress_while n cond r' else r'
  end.

(** [_munge_bounced_bolt]. The angles are [double]s in the source;
    [chaos_shift_bounds old_ray new_ray] stands for the pair
    [((int)(min * 10000), (int)(max * 10000))] and [ray_shift old_ray new_ray
    shift] for [new_ray] after [set_degrees(new_deg + shift)] with the sign
    of [shift] chosen as in the source. *)
Fixpoint munge_tries (tries : nat) (old_ray new_ray : ray_def) : M ray_def :=
  match tries with
  | O => mret new_ray
  | S n =>
      let '(lo, hi) := chaos_shift_bounds old_ray new_ray in
      shift ← random_range lo hi;
      let temp_ray := ray_shift old_ray new_ray shift in
      let test_ray := ray_advance temp_ray in
      w ← gets wld;
      if in_bounds (ray_pos test_ray)
         && negb (feat_is_solid (grd w (ray_pos test_ray)))
      then mret temp_ray
      else munge_tries n old_ray new_ray
  end.

Definition _munge_bounced_bolt (old_bolt : beam) (old_ray : ray_def)
  : M unit :=
  new_bolt ← gets this;
  if negb (bool_decide (real_flavour new_bolt = BEAM_CHAOS)) then mret tt
  else
    temp_ray ← munge_tries 20 old_ray (ray new_bolt);
    upd (set_ray temp_ray);;
    let range_spent := num new_bolt range_used - num old_bolt range_used in
    add_nm range range_spent.

(** [bolt::bounce]. *)
Definition bounce : M unit :=
  old_bolt ← gets this;
  w ← gets wld;
  let old_ray := ray old_bolt in
  let r :=
    regress_while regress_bound
      (fun r => feat_is_solid (grd w (ray_pos r))) old_ray in
  upd (set_ray r);;
  upd (set_bounce_pos (ray_pos r));;
  let rg (d : coord_def) : bool :=
    (rdist d =? 1) && feat_is_solid (grd w (coord_add (ray_pos r) d)) in
  upd (set_ray (ray_bounce r rg));;
  add_nm range_used 2;;
  _munge_bounced_bolt old_bolt old_ray.

(** [bolt::hit_wall]: returns [true] if the beam ended due to hitting the
    wall. *)
Definition hit_wall : M bool :=
  b ← gets this;
  w ← gets wld;
  let feat := grd w (pos b) in
  proceed ←
    (if flag b is_tracer && YOU_KILL (thrower b) && in_bounds (target b)
        && negb (flag b passed_target)
        && negb (coord_eqb (pos b) (target b))
        && negb (coord_eqb (pos b) (source b))
        && (count (foe_info b) =? 0)
        && negb (flavour_is b BEAM_DIGGING)
        && (beam_ord (flavour b) <=? beam_ord BEAM_LAST_REAL)
        && (num b bounces =? 0) && (num b reflections =? 0)
        && you_see_cell w (target b)
        && negb (feat_is_solid (grd w (target b)))
     then yesno "Your line of fire to %s is blocked by %s. Continue anyway?"
     else mret true);
  if negb proceed
  then set_fl beam_cancelled true;; finish_beam;; mret false
  else
    when (negb (flag b is_explosion) && negb (flag b is_tracer)
          && bool_decide (monster_at w (pos b) = None)
          && (flavour_is b BEAM_MISSILE || flavour_is b BEAM_MMISSILE))
      (call_ (fire_wall_hit_event (pos b) (num b beam_source) (target b)));;
    if affects_wall b feat then affect_wall;; mret false
    else if is_bouncy b feat && negb (flag b in_explosion_phase)
    then bounce;; mret false
    else
      when (negb (coord_eqb (pos b) (source b))
            && ((flag b is_explosion && negb (flag b in_explosion_phase))
                || flag b drop_item))
        (w ← gets wld;
         upd (fun b =>
                set_ray
                  (regress_while regress_bound
                     (fun r => negb (coord_eqb (ray_pos r) (source b))
                               && feat_is_solid (grd w (ray_pos r)))
                     (ray b)) b);;
         when (flag b is_explosion && negb (flag b is_tracer))
           (upd (fun b => set_target (ray_pos (ray b)) b)));;
      finish_beam;;
      mret true.

(** ** Occupants: shared helpers *)

Definition run_hit_funcs (victim : actor) (dmg corpse : Z) : M bool :=
  b ← gets this;
  w ← gets wld;
  mret (apply_hit_funcs w b victim dmg corpse).

(** [range_used += range_used_on_hit(victim)]. *)
Definition use_range_on_hit (victim : actor) : M unit :=
  b ← gets this;
  w ← gets wld;
  add_nm range_used (range_used_on_hit w b victim).

Definition mpr_all (chan : msg_channel_type) (messages : list string)
  : M unit :=
  foldr (fun m k => mpr m chan;; k) (mret tt) messages.

Definition ti_encounter (pw : Z) (t : tracer_info) : tracer_info :=
  {| count := count t + 1; power := power t + pw; hurt := hurt t;
     helped := helped t; dont_stop := dont_stop t |}.
Definition ti_hurt (t : tracer_info) : tracer_info :=
  {| count := count t; power := power t; hurt := hurt t + 1;
     helped := helped t; dont_stop := dont_stop t |}.
Definition ti_helped (t : tracer_info) : tracer_info :=
  {| count := count t; power := power t; hurt := hurt t;
     helped := helped t + 1; dont_stop := dont_stop t |}.
Definition ti_dont_stop (t : tracer_info) : tracer_info :=
  {| count := count t; power := power t; hurt := hurt t;
     helped := helped t; dont_stop := true |}.

Definition upd_friend (f : tracer_info -> tracer_info) : M unit :=
  upd (fun b => set_friend_info (f (friend_info b)) b).
Definition upd_foe (f : tracer_info -> tracer_info) : M unit :=
  upd (fun b => set_foe_info (f (foe_info b)) b).

(** [bolt::choose_ray]. *)
Definition choose_ray : M unit :=
  b ← gets this;
  w ← gets wld;
  when (negb (flag b chose_ray) || (0 <? num b reflections))
    (match find_ray w (source b) (target b) (ray b) with
     | Some r => upd (set_ray r)
     | None => upd (set_ray (fallback_ray (source b) (target b) (ray b)))
     end).

(** [bolt::is_reflectable], for a shield that reflects or not. *)
Definition is_reflectable (b : beam) (shield_reflects : bool) : bool :=
  if num b range <=? num b range_used then false else shield_reflects.

(** [bolt::reflect]. *)
Definition reflect : M unit :=
  add_nm reflections 1;;
  upd (fun b => if (0 <? num b bounces) && in_bounds (bounce_pos b)
                then set_target (bounce_pos b) b
                else set_target (source b) b);;
  upd (fun b => set_source (pos b) b);;
  upd (set_bounce_pos (0, 0));;
  b ← gets this;
  w ← gets wld;
  (if coord_eqb (pos b) (you_pos (you w)) then set_nm reflector NON_MONSTER
   else match monster_at w (pos b) with
        | Some m => set_nm reflector (mon_stat w m M_mindex)
        | None => set_nm reflector (-1)
        end);;
  upd (fun b => set_flavour (real_flavour b) b);;
  choose_ray.

(** ** The player as occupant *)

(** [bolt::fuzz_invis_tracer]. *)
Definition fuzz_invis_tracer : M bool :=
  b ← gets this;
  w ← gets wld;
  let dist := grid_distance (target b) (you_pos (you w)) in
  if 2 <? dist then mret false
  else
    let beam_src := beam_source_as_target b in
    if negb (beam_src =? MHITNOT) && negb (beam_src =? MHITYOU)
       && mon_flag w (Z.to_nat beam_src) M_sense_invis
    then mret (dist =? 0)
    else
      fx ← random_range (-2) 2;
      fy ← random_range (-2) 2;
      let newtarget := coord_add (target b) (fx, fy) in
      when (in_bounds newtarget) (upd (set_target newtarget));;
      mret true.

(** [bolt::tracer_affect_player]. *)
Definition tracer_affect_player : M unit :=
  b ← gets this;
  w ← gets wld;
  (if YOU_KILL (thrower b)
   then
     when (negb (flag b aimed_at_feet) && negb (flag b dont_stop_player)
           && negb (harmless_to_player w b))
       (a ← yesno "That beam is likely to hit you. Continue anyway?";
        if (a : bool)
        then upd_friend (ti_encounter (experience_level (you w)));;
             set_fl dont_stop_player true
        else set_fl beam_cancelled true;; finish_beam)
   else
     sees ← (if flag b can_see_invis || negb (you_flag w Y_invisible)
             then mret true else fuzz_invis_tracer);
     when sees
       (if mons_att_wont_attack (attitude b)
        then upd_friend (ti_encounter (experience_level (you w)))
        else upd_foe (ti_encounter (experience_level (you w)))));;
  b ← gets this;
  w ← gets wld;
  let '(_, _, messages) := apply_dmg_funcs w b the_player 0 in
  mpr_all MSGCH_WARN messages;;
  run_hit_funcs the_player 0 (-1);;
  use_range_on_hit the_player.

(** [bolt::misses_player]. *)
Definition misses_player : M bool :=
  b ← gets this;
  w ← gets wld;
  if flag b is_explosion || flag b aimed_at_feet || flag b auto_hit
     || is_enchantment b
  then mret false
  else
    let dodge := you_stat w Y_evasion in
    let dodge_less := you_stat w Y_evasion_ignore_phaseshift in
    let real_tohit :=
      if you_flag w Y_invisible && negb (flag b can_see_invis)
      then num b hit `quot` 2 else num b hit in
    real_tohit ← (if you_flag w Y_backlit
                  then r ← random2 8; mret (real_tohit + 2 + r)
                  else mret real_tohit);
    if negb (flag b is_beam) && negb (is_blockable b) then mret false
    else
      blocked ←
        (if is_blockable b && you_flag w Y_has_shield
            && negb (flag b aimed_at_feet) && (0 <? you_stat w Y_shield_class)
         then
           testhit ← random2 ((num b hit * 130) `quot` 100
                              + you_stat w Y_shield_block_penalty);
           let block := you_stat w Y_shield_bonus in
           if testhit <? block
           then
             (if is_reflectable b (you_flag w Y_shield_reflects)
              then mpr "Your %s reflects the %s!" MSGCH_PLAIN;;
                   call_ (ident_reflector the_player);;
                   reflect
              else mpr "You block the %s." MSGCH_PLAIN;; finish_beam);;
             call_ (shield_block_succeeded the_player);;
             mret (Some true)
           else mret (Some false)
         else mret None);
      match blocked with
      | Some true => mret true
      | _ =>
          let train_shields_more := bool_decide (blocked = Some false) in
          (if you_flag w Y_light_armour_strict && negb (flag b aimed_at_feet)
           then c ← coinflip; when c (call_ (exercise_skill "SK_DODGING" 1))
           else mret tt);;
          r ← new_defer_rand;
          let dmsl := you_flag w Y_deflect_missiles in
          let rmsl := dmsl || you_flag w Y_repel_missiles in
          let ib := flag b is_beam in
          miss ←
            (if negb (_test_beam_hit real_tohit dodge_less ib false false r)
             then mpr "The %s misses you." MSGCH_PLAIN;; mret true
             else if negb (_test_beam_hit real_tohit dodge_less ib false
                             rmsl r)
             then mpr "The %s is repelled." MSGCH_PLAIN;; mret true
             else if negb (_test_beam_hit real_tohit dodge_less ib dmsl
                             rmsl r)
             then mpr "You deflect the %s!" MSGCH_PLAIN;; mret true
             else if negb (_test_beam_hit real_tohit dodge ib dmsl rmsl r)
             then mpr "You momentarily phase out as the %s passes through you."
                    MSGCH_PLAIN;;
                  mret true
             else
               let engulfs := flag b is_explosion || flag b is_big_cloud in
               let dodge_more := you_stat w Y_evasion_ignore_helpless in
               when (bool_decide (hit_verb b = EmptyString))
                 (upd (set_hit_verb (if engulfs then "engulfs" else "hits")));;
               (if _test_beam_hit real_tohit dodge_more ib dmsl rmsl r
                then mpr "The %s %s you!" MSGCH_PLAIN
                else mpr "Helpless, you fail to dodge the %s." MSGCH_PLAIN);;
               mret false);
          c ← coinflip;
          (if c && train_shields_more
           then o ← one_chance_in 3;
                call_ (exercise_skill "SK_SHIELDS" (if (o : bool) then 1 else 0))
           else mret tt);;
          mret miss
      end.

(** [bolt::internal_ouch]. *)
Definition internal_ouch (dam : Z) : M unit :=
  b ← gets this;
  w ← gets wld;
  let src := num b beam_source in
  let monst :=
    negb (invalid_monster_index src)
    && mon_flag w (Z.to_nat src) M_type_valid in
  let mt := mon_type (mon_of w (Z.to_nat src)) in
  if monst && (bool_decide (mt = MONS_GIANT_SPORE)
               || bool_decide (mt = MONS_BALL_LIGHTNING))
  then call_ (ouch dam src "KILLED_BY_SPORE")
  else if YOU_KILL (thrower b) && bool_decide (aux_source b = EmptyString)
  then
    if 0 <? num b reflections
    then call_ (ouch dam (num b reflector) "KILLED_BY_REFLECTION")
    else if 0 <? num b bounces
    then call_ (ouch dam NON_MONSTER "KILLED_BY_BOUNCE")
    else if flag b aimed_at_feet && flag b effect_known
    then call_ (ouch dam NON_MONSTER "KILLED_BY_SELF_AIMED")
    else call_ (ouch dam NON_MONSTER "KILLED_BY_TARGETTING")
  else if flavour_is b BEAM_DISINTEGRATION || flavour_is b BEAM_NUKE
  then call_ (ouch dam src "KILLED_BY_DISINT")
  else if MON_KILL (thrower b) then call_ (ouch dam src "KILLED_BY_BEAM")
  else call_ (ouch dam src "KILLED_BY_WILD_MAGIC").

(** [bolt::affect_player_enchantment]. The cases of the switch that only
    change the player's status ([you.hibernate], [potion_effect],
    [you_teleport], ...) are one call, [enchant_player], whose result says
    whether the effect was obvious; the cases that deal damage are written
    out. *)
Definition affect_player_enchantment : M unit :=
  b ← gets this;
  w ← gets wld;
  resisted ← (if negb (flavour_is b BEAM_POLYMORPH) && has_saving_throw b
              then callb (you_check_res_magic (num b ench_power))
              else mret false);
  if (resisted : bool)
  then
    (if negb (bool_decide (thrower b = KILL_YOU_MISSILE))
        && negb (invalid_monster_index (num b beam_source))
        && negb (mon_flag w (Z.to_nat (num b beam_source)) M_observable)
     then mpr "Something tries to affect you, but you resist." MSGCH_PLAIN
     else call_ canned_msg_you_resist);;
    when (flavour_is b BEAM_TELEPORT && you_flag w Y_in_abyss)
      (call_ (xom_is_stimulated 255));;
    use_range_on_hit the_player
  else
    call_ (anim_enchantment (real_flavour b) the_player (flag b effect_known));;
    (match flavour b with
     | BEAM_PAIN =>
         if you_flag w Y_res_torment
         then mpr "You are unaffected." MSGCH_PLAIN
         else
           when (bool_decide (aux_source b = EmptyString))
             (upd (set_aux_source "by nerve-wracking pain"));;
           if name_has b "agony"
           then
             if you_flag w Y_res_negative_energy
             then mpr "You are unaffected." MSGCH_PLAIN
             else
               mpr "Your body is wracked with pain!" MSGCH_PLAIN;;
               w ← gets wld;
               internal_ouch (Z.max 0 (hp (you w) `quot` 2 - 1));;
               set_fl obvious_effect true
           else
             mpr "Pain shoots through your body!" MSGCH_PLAIN;;
             d ← roll_dice (damage b);
             internal_ouch d;;
             set_fl obvious_effect true
     | BEAM_DISPEL_UNDEAD =>
         if negb (you_flag w Y_undead)
         then mpr "You are unaffected." MSGCH_PLAIN
         else
           mpr "You convulse!" MSGCH_PLAIN;;
           when (bool_decide (aux_source b = EmptyString))
             (upd (set_aux_source "by dispel undead"));;
           when (you_flag w Y_semi_undead)
             (if you_flag w Y_engorged
              then upd (fun b =>
                     set_damage {| dice_num := dice_num (damage b);
                                   dice_size := dice_size (damage b) `quot` 2 |}
                                b)
              else when (you_flag w Y_above_satiated)
                     (upd (fun b =>
                        set_damage
                          {| dice_num := dice_num (damage b);
                             dice_size :=
                               (dice_size (damage b) * 2) `quot` 3 |} b)));;
           b ← gets this;
           d ← roll_dice (damage b);
           internal_ouch d;;
           set_fl obvious_effect true
     | BEAM_DISINTEGRATION =>
         mpr "You are blasted!" MSGCH_PLAIN;;
         when (bool_decide (aux_source b = EmptyString))
           (upd (set_aux_source "a disintegration bolt"));;
         amt ← roll_dice (damage b);
         internal_ouch amt;;
         w ← gets wld;
         when (you_flag w Y_can_bleed)
           (call_ (blood_spray (you_pos (you w)) (amt `quot` 5)));;
         set_fl obvious_effect true
     | _ =>
         obvious ← callb (enchant_player (flavour b) (thrower b)
                            (num b ench_power));
         when obvious (set_fl obvious_effect true)
     end);;
    let nice :=
      flavour_is b BEAM_HASTE || flavour_is b BEAM_HEALING
      || flavour_is b BEAM_INVISIBILITY in
    let nasty := negb nice in
    when nasty
      (if mons_att_wont_attack (attitude b)
       then
         upd_friend ti_hurt;;
         (if num b beam_source =? NON_MONSTER
          then when (negb (flag b aimed_at_feet))
                 (call_ (xom_is_stimulated 255))
          else call_ (xom_is_stimulated 128))
       else upd_foe ti_hurt);;
    when nice
      (if mons_att_wont_attack (attitude b)
       then upd_friend ti_helped
       else upd_foe ti_helped;; call_ (xom_is_stimulated 128));;
    run_hit_funcs the_player 0 (-1);;
    use_range_on_hit the_player.

(** [bolt::affect_player]. *)
Definition affect_player : M unit :=
  b ← gets this;
  if flag b is_explosion && negb (flag b in_explosion_phase)
  then finish_beam
  else if flavour_is b BEAM_DIGGING then mret tt
  else if flag b is_tracer then tracer_affect_player
  else
    when (negb (YOU_KILL (thrower b))) (call_ interrupt_activity);;
    if is_enchantment b then affect_player_enchantment
    else
      set_fl msg_generated true;;
      miss ← misses_player;
      if (miss : bool) then mret tt
      else
        b ← gets this;
        w ← gets wld;
        let engulfs := flag b is_explosion || flag b is_big_cloud in
        let burn_power :=
          if flag b is_explosion then 5 else if flag b is_beam then 3 else 2 in
        hurted ← roll_dice (damage b);
        let '(_, hurted, messages) := apply_dmg_funcs w b the_player hurted in
        r1 ← random2 (1 + you_stat w Y_armour_class);
        let armour_damage_reduction :=
          if flavour_is b BEAM_ELECTRICITY then r1 `quot` 2 else r1 in
        let hurted := hurted - armour_damage_reduction in
        hurted ← (if flavour_is b BEAM_FRAG && negb (you_flag w Y_light_armour)
                  then r2 ← random2 (1 + you_stat w Y_armour_class);
                       r3 ← random2 (1 + you_stat w Y_armour_class);
                       mret (hurted - r2 - r3)
                  else mret hurted);
        (if you_flag w Y_body_armour && negb (you_flag w Y_light_armour)
         then o ← one_chance_in 4;
              if (o : bool)
              then x ← x_chance_in_y (you_stat w Y_body_armour_mass + 1) 1000;
                   when x (call_ (exercise_skill "SK_ARMOUR" 1))
              else mret tt
         else mret tt);;
        let old_hp := hp (you w) in
        let hurted := Z.max 0 hurted in
        when (negb engulfs
              && (flavour_is b BEAM_MISSILE || flavour_is b BEAM_MMISSILE))
          (call_ (bleed_onto_floor (you_pos (you w))
                    (Z.min (hp (you w)) (hurted `quot` 2))));;
        hurted ← call (check_your_resists hurted (flavour b));
        wa1 ← (if flavour_is b BEAM_MIASMA && (0 <? hurted)
               then callb miasma_player else mret false);
        w ← gets wld;
        when (flavour_is b BEAM_NUKE)
          (call_ (blood_spray (you_pos (you w)) (hurted `quot` 5)));;
        w ← gets wld;
        when (flavour_is b BEAM_SPORE && negb (hurted =? 0)
              && negb (you_flag w Y_undead))
          (call_ potion_confusion);;
        wa2 ←
          (match item b with
           | Some it =>
               if item_test IT_missile it
               then
                 if item_test IT_throwing_net it
                 then
                   caught ← callb player_caught_in_net;
                   if (caught : bool)
                   then when (negb (num b beam_source =? NON_MONSTER))
                          (call_ (xom_is_stimulated 64));;
                        mret true
                   else mret false
                 else if item_test IT_curare it
                 then
                   w ← gets wld;
                   x ← x_chance_in_y (90 - 3 * you_stat w Y_armour_class) 100;
                   if (x : bool)
                   then r ← random2 3;
                        call_ (curare_hits_player (1 + r));;
                        mret true
                   else mret false
                 else mret false
               else mret false
           | None => mret false
           end);
        wa3 ←
          (if name_is b "sticky flame"
           then
             w ← gets wld;
             if negb (you_flag w Y_res_sticky_flame)
             then r ← random2avg 7 3;
                  call_ (napalm_player (r + 1));;
                  mret true
             else mret false
           else mret false);
        when (flavour_is b BEAM_ACID)
          (call_ (splash_with_acid 5 (flag b affects_items)));;
        when (flag b affects_items)
          (when (flavour_is b BEAM_LAVA || name_has b "hellfire")
             (call_ (expose_player_to_element BEAM_LAVA burn_power));;
           when (flavour_is b BEAM_FIRE && negb (name_is b "ball of steam"))
             (call_ (expose_player_to_element BEAM_FIRE burn_power));;
           when (flavour_is b BEAM_COLD)
             (call_ (expose_player_to_element BEAM_COLD burn_power));;
           when (flag b in_explosion_phase && flavour_is b BEAM_SPORE)
             (call_ (expose_player_to_element BEAM_SPORE burn_power)));;
        hf ← run_hit_funcs the_player hurted (-1);
        let was_affected := hf || (wa1 || wa2 || wa3) in
        w ← gets wld;
        when ((0 <? hurted) || (old_hp <? hp (you w)) || was_affected)
          (if mons_att_wont_attack (attitude b)
           then
             upd_friend ti_hurt;;
             (if num b beam_source =? NON_MONSTER
              then when (negb (flag b aimed_at_feet))
                     (call_ (xom_is_stimulated 255))
              else when was_affected (call_ (xom_is_stimulated 128)))
           else upd_foe ti_hurt);;
        when (0 <? hurted) (mpr_all MSGCH_WARN messages);;
        internal_ouch hurted;;
        use_range_on_hit the_player.

(** ** Monsters as occupants *)

(** [stop_attack_prompt] (misc.cc). Modelled from the spec: section 5 has a
    synchronous confirmation prompt when a firing is about to strike a
    friendly; [attack_needs_confirm] decides whether to ask, the answer
    [false] stops the attack. *)
Definition stop_attack_prompt (mon : nat) (beam_target : coord_def)
  : M bool :=
  w ← gets wld;
  if attack_needs_confirm w mon beam_target
  then a ← yesno "Really fire at %s?"; mret (negb a)
  else mret false.

(** [bolt::update_hurt_or_helped]. *)
Definition update_hurt_or_helped (mon : nat) : M unit :=
  b ← gets this;
  w ← gets wld;
  if negb (mons_atts_aligned (attitude b) (mons_attitude w mon))
  then
    if nasty_to w b mon then upd_foe ti_hurt
    else if nice_to w b mon
    then
      upd_foe ti_helped;;
      when (negb (flag b is_tracer) && negb (flag b effect_known))
        (call_ (xom_is_stimulated
                  (if flavour_is b BEAM_INVISIBILITY && flag b can_see_invis
                   then 32 else 128)))
    else mret tt
  else
    if nasty_to w b mon
    then
      upd_friend ti_hurt;;
      when (negb (flag b is_tracer)
            && (mon_stat w mon M_mindex =? num b beam_source))
        (call_ (xom_is_stimulated 128))
    else if nice_to w b mon then upd_friend ti_helped
    else mret tt.

(** [bolt::handle_stop_attack_prompt]. *)
Definition handle_stop_attack_prompt (mon : nat) : M unit :=
  b ← gets this;
  w ← gets wld;
  when ((bool_decide (thrower b = KILL_YOU_MISSILE)
         || bool_decide (thrower b = KILL_YOU))
        && negb (is_harmless w b mon))
    (when (((count (friend_info b) =? 1) && negb (dont_stop (friend_info b)))
           || ((count (foe_info b) =? 1) && negb (dont_stop (foe_info b))))
       (stop ← stop_attack_prompt mon (target b);
        if (stop : bool)
        then set_fl beam_cancelled true;; finish_beam
        else if count (friend_info b) =? 1 then upd_friend ti_dont_stop
        else when (count (foe_info b) =? 1) (upd_foe ti_dont_stop))).

(** [bolt::tracer_enchantment_affect_monster]. *)
Definition tracer_enchantment_affect_monster (mon : nat) : M unit :=
  b ← gets this;
  w ← gets wld;
  (if negb (mons_atts_aligned (attitude b) (mons_attitude w mon))
   then upd_foe (ti_encounter (mons_power (mon_type (mon_of w mon))))
   else upd_friend (ti_encounter (mons_power (mon_type (mon_of w mon)))));;
  handle_stop_attack_prompt mon;;
  b ← gets this;
  when (negb (flag b beam_cancelled))
    (run_hit_funcs (a_monster mon) 0 (-1);;
     use_range_on_hit (a_monster mon)).

(** [bolt::tracer_nonenchantment_affect_monster]. *)
Definition tracer_nonenchantment_affect_monster (mon : nat) : M unit :=
  dd ← determine_damage mon;
  match dd with
  | None => mret tt
  | Some (preac, post, final, messages) =>
      b ← gets this;
      w ← gets wld;
      when (0 <? final)
        (let pw :=
           (2 * final * mons_power (mon_type (mon_of w mon))) `quot` preac in
         if negb (mons_atts_aligned (attitude b) (mons_attitude w mon))
         then upd_foe (fun t => {| count := count t + 1;
                                   power := power t + pw; hurt := hurt t;
                                   helped := helped t;
                                   dont_stop := dont_stop t |})
         else upd_friend (fun t => {| count := count t + 1;
                                      power := power t + pw; hurt := hurt t;
                                      helped := helped t;
                                      dont_stop := dont_stop t |}));;
      handle_stop_attack_prompt mon;;
      b ← gets this;
      if flag b beam_cancelled then mret tt
      else
        when (negb (flag b is_tracer) && (0 <? final))
          (mpr_all MSGCH_MONSTER_DAMAGE messages);;
        run_hit_funcs (a_monster mon) final (-1);;
        use_range_on_hit (a_monster mon)
  end.

(** [bolt::tracer_affect_monster]. *)
Definition tracer_affect_monster (mon : nat) : M unit :=
  b ← gets this;
  w ← gets wld;
  if negb (mon_flag w mon M_visible_to_you)
     || (YOU_KILL (thrower b)
         && negb (you_see_cell w (mon_pos (mon_of w mon))))
  then mret tt
  else if flag b is_explosion && negb (flag b in_explosion_phase)
  then finish_beam
  else if is_enchantment b then tracer_enchantment_affect_monster mon
  else tracer_nonenchantment_affect_monster mon.

(** [bolt::attempt_block]: returns [true] if the block succeeded
    (including reflections). *)
Definition attempt_block (mon : nat) : M bool :=
  b ← gets this;
  w ← gets wld;
  let shield_block := mon_stat w mon M_shield_bonus in
  if 0 <? shield_block
  then
    ht ← random2 ((num b hit * 130) `quot` 100
                  + mon_stat w mon M_shield_block_penalty);
    if ht <? shield_block
    then
      (if is_reflectable b (mon_flag w mon M_shield_reflects)
       then
         (if mon_flag w mon M_observable
          then mpr "%s reflects the %s off %s %s!" MSGCH_PLAIN;;
               call_ (ident_reflector (a_monster mon))
          else when (you_see_cell w (pos b))
                 (mpr "The %s bounces off of thin air!" MSGCH_PLAIN));;
         reflect
       else mpr "%s blocks the %s." MSGCH_PLAIN;; finish_beam);;
      call_ (mon_shield_block_succeeded mon);;
      mret true
    else mret false
  else mret false.

(** [bolt::handle_statue_disintegration]. *)
Definition handle_statue_disintegration (mon : nat) : M bool :=
  b ← gets this;
  w ← gets wld;
  if (flavour_is b BEAM_DISINTEGRATION || flavour_is b BEAM_NUKE)
     && mon_flag w mon M_is_statue
  then
    (if negb (you_flag w Y_silenced)
     then (if negb (you_see_cell w (mon_pos (mon_of w mon)))
           then mpr "You hear a hideous screaming!" MSGCH_SOUND
           else mpr "The statue screams as its substance crumbles away!"
                  MSGCH_SOUND)
     else when (you_see_cell w (mon_pos (mon_of w mon)))
            (mpr "The statue twists and shakes as its substance crumbles away!"
               MSGCH_PLAIN));;
    set_fl obvious_effect true;;
    update_hurt_or_helped mon;;
    call_ (mon_hurt mon INSTANT_DEATH BEAM_MISSILE);;
    run_hit_funcs (a_monster mon) INSTANT_DEATH (-1);;
    finish_beam;;
    mret true
  else mret false.

(** [_ench_flavour_affects_monster]. *)
Definition _ench_flavour_affects_monster (w : world) (fl : beam_type)
    (mon : nat) : bool :=
  let m := mon_of w mon in
  match fl with
  | BEAM_POLYMORPH => mon_flag w mon M_can_mutate
  | BEAM_DEGENERATE =>
      mon_flag w mon M_holiness_natural
      && negb (bool_decide (mon_type m = MONS_PULSATING_LUMP))
  | BEAM_ENSLAVE_UNDEAD =>
      mon_flag w mon M_holiness_undead
      && negb (bool_decide (mon_attitude m = ATT_FRIENDLY))
  | BEAM_ENSLAVE_SOUL =>
      mon_flag w mon M_holiness_natural
      && negb (bool_decide (mon_attitude m = ATT_FRIENDLY))
  | BEAM_DISPEL_UNDEAD => mon_flag w mon M_holiness_undead
  | BEAM_ENSLAVE_DEMON =>
      mon_flag w mon M_holiness_demonic && negb (mon_flag w mon M_friendly)
  | BEAM_PAIN => mon_stat w mon M_res_negative_energy =? 0
  | BEAM_HIBERNATION => mon_flag w mon M_can_hibernate
  | BEAM_PORKALATOR =>
      (mon_flag w mon M_holiness_demonic
       && negb (bool_decide (mon_type m = MONS_HELL_HOG)))
      || (mon_flag w mon M_holiness_natural
          && negb (bool_decide (mon_type m = MONS_HOG)))
  | _ => true
  end.

(** [bolt::apply_enchantment_to_monster]. Every case of the switch acts on
    the monster through methods of [monsters] and other modules and may set
    [obvious_effect] and [msg_generated]; it is one call, [enchant_monster],
    whose result packs the [mon_resist_type] (0 to 3, in the order of the
    enumeration), what to do with [obvious_effect] (0 leave, 1 set, 2
    clear) and whether to set [msg_generated]. *)
Definition apply_enchantment_to_monster (mon : nat) : M mon_resist_type :=
  b ← gets this;
  r ← call (enchant_monster mon (flavour b) (thrower b) (num b ench_power)
              (damage b) (name b) (source b));
  let ob := (r `quot` 4) `rem` 3 in
  when (ob =? 1) (set_fl obvious_effect true);;
  when (ob =? 2) (set_fl obvious_effect false);;
  when (12 <=? r) (set_fl msg_generated true);;
  mret (match r `rem` 4 with
        | 0 => MON_RESIST
        | 1 => MON_UNAFFECTED
        | 2 => MON_AFFECTED
        | _ => MON_OTHER
        end).

(** [bolt::try_enchant_monster]. *)
Definition try_enchant_monster (mon : nat) : M mon_resist_type :=
  b ← gets this;
  w ← gets wld;
  if negb (_ench_flavour_affects_monster w (flavour b) mon)
  then mret MON_UNAFFECTED
  else if has_saving_throw b
  then
    if mon_flag w mon M_immune_magic then mret MON_UNAFFECTED
    else if flavour_is b BEAM_POLYMORPH
            && (bool_decide (mon_type (mon_of w mon) = MONS_UGLY_THING)
                || bool_decide (mon_type (mon_of w mon) = MONS_VERY_UGLY_THING)
                || mon_flag w mon M_is_shapeshifter)
    then apply_enchantment_to_monster mon
    else
      resisted ← callb (mon_check_res_magic mon (num b ench_power));
      if (resisted : bool) then mret MON_RESIST
      else apply_enchantment_to_monster mon
  else apply_enchantment_to_monster mon.

(** The test shared by [enchantment_affect_monster] and [affect_monster]:
    a Beogh worshipper's beam woke an orc. *)
Definition beam_woke_orc (w : world) (b : beam) (mon : nat) : bool :=
  bool_decide (religion (you w) = GOD_BEOGH)
  && mon_flag w mon M_species_orc && mon_flag w mon M_asleep
  && YOU_KILL (thrower b) && negb (you_flag w Y_under_penance)
  && you_flag w Y_piety_breakpoint2 && mon_flag w mon M_near.

(** [bolt::enchantment_affect_monster]. *)
Definition enchantment_affect_monster (mon : nat) : M unit :=
  b ← gets this;
  w ← gets wld;
  if mon_flag w mon M_submerged then mret tt
  else
    hit_woke_orc ←
      (if nasty_to w b mon
       then
         woke ←
           (if YOU_KILL (thrower b)
            then
              when (is_sanctuary w (mon_pos (mon_of w mon))
                    || is_sanctuary w (you_pos (you w)))
                (call_ remove_sanctuary);;
              w ← gets wld;
              call_ (set_attack_conducts mon (mon_flag w mon M_you_can_see));;
              mret (beam_woke_orc w b mon)
            else mret false);
         call_ (behaviour_event mon "ME_ANNOY" (beam_source_as_target b));;
         mret woke
       else
         call_ (behaviour_event mon "ME_ALERT" (beam_source_as_target b));;
         mret false);
    call_ (anim_enchantment (real_flavour b) (a_monster mon)
             (flag b effect_known));;
    ench_result ← try_enchant_monster mon;
    w ← gets wld;
    when (mon_flag w mon M_alive)
      (when (mon_flag w mon M_is_mimic) (call_ (mimic_alert mon));;
       (match ench_result with
        | MON_RESIST =>
            shown ← callb (simple_monster_message mon " resists.");
            when shown (set_fl msg_generated true)
        | MON_UNAFFECTED =>
            shown ← callb (simple_monster_message mon " is unaffected.");
            when shown (set_fl msg_generated true)
        | MON_AFFECTED | MON_OTHER => update_hurt_or_helped mon
        end);;
       when hit_woke_orc (call_ (beogh_follower_convert mon)));;
    run_hit_funcs (a_monster mon) 0 (-1);;
    use_range_on_hit (a_monster mon).

(** [bolt::monster_post_hit]. *)
Definition monster_post_hit (mon : nat) (dmg : Z) : M unit :=
  b ← gets this;
  w ← gets wld;
  when (YOU_KILL (thrower b) && mon_flag w mon M_near)
    (call_ (print_wounds mon));;
  w ← gets wld;
  when ((0 <? dmg) || negb (mon_flag w mon M_wont_attack)
        || negb (YOU_KILL (thrower b)))
    (call_ (behaviour_event mon "ME_ANNOY" (beam_source_as_target b)));;
  when (name_is b "sticky flame")
    (w ← gets wld;
     r ← random2 (hit_dice (mon_of w mon));
     w ← gets wld;
     call_ (napalm_monster mon (whose_kill w b)
              (Z.min 4 (1 + r `quot` 2))));;
  wake_mimic ←
    (match item b with
     | Some it =>
         if item_test IT_missile it && item_test IT_curare it
            && (num b ench_power =? AUTOMATIC_HIT)
         then
           w ← gets wld;
           hitc ← callb (curare_hits_monster mon (whose_kill w b) 2);
           w ← gets wld;
           mret (negb (hitc && negb (mon_flag w mon M_alive)))
         else mret true
     | None => mret true
     end);
  w ← gets wld;
  if wake_mimic && mon_flag w mon M_is_mimic then call_ (mimic_alert mon)
  else when (negb (dmg =? 0)) (call_ (beogh_follower_convert mon)).

(** [bolt::affect_monster]. *)
Definition affect_monster (mon : nat) : M unit :=
  b ← gets this;
  w ← gets wld;
  if negb (mon_flag w mon M_alive)
  then run_hit_funcs (a_monster mon) 0 (-1);; mret tt
  else if flavour_is b BEAM_DIGGING
  then run_hit_funcs (a_monster mon) 0 (-1);; mret tt
  else if bool_decide (mon_type (mon_of w mon) = MONS_BUSH)
          && negb (flag b is_beam) && negb (flag b is_explosion)
          && (flavour_is b BEAM_MISSILE || flavour_is b BEAM_MMISSILE)
  then run_hit_funcs (a_monster mon) 0 (-1);; mret tt
  else if name_is b "great blast of fire"
          && bool_decide (mon_type (mon_of w mon) = MONS_FIRE_VORTEX)
  then run_hit_funcs (a_monster mon) 0 (-1);; mret tt
  else if flag b is_tracer then tracer_affect_monster mon
  else if flavour_is b BEAM_VISUAL
  then
    call_ (behaviour_event mon "ME_DISTURB" (num b beam_source));;
    run_hit_funcs (a_monster mon) 0 (-1);;
    mret tt
  else
    statue ← handle_statue_disintegration mon;
    if (statue : bool) then mret tt
    else if is_enchantment b then enchantment_affect_monster mon
    else if mon_flag w mon M_submerged && negb (flag b aimed_at_spot)
    then mret tt
    else if flag b is_explosion && negb (flag b in_explosion_phase)
    then finish_beam
    else
      dd ← determine_damage mon;
      match dd with
      | None => mret tt
      | Some (preac, postac, final, messages) =>
          w ← gets wld;
          hit_woke_orc ←
            (if nasty_to w b mon
             then
               when (YOU_KILL (thrower b) && (0 <? final))
                 (let okay :=
                    negb (mon_flag w mon M_you_can_see)
                    || (bool_decide (aux_source b = "scroll of immolation")
                        && negb (flag b effect_known)) in
                  when (is_sanctuary w (mon_pos (mon_of w mon))
                        || is_sanctuary w (you_pos (you w)))
                    (call_ remove_sanctuary);;
                  call_ (set_attack_conducts mon (negb okay)));;
               mret (beam_woke_orc w b mon)
             else mret false);
          let engulfs := flag b is_explosion || flag b is_big_cloud in
          w ← gets wld;
          when (engulfs && flavour_is b BEAM_SPORE
                && mon_flag w mon M_holiness_natural)
            (apply_enchantment_to_monster mon;; mret tt);;
          b ← gets this;
          w ← gets wld;
          let beam_hit :=
            if mon_flag w mon M_invisible && negb (flag b can_see_invis)
            then num b hit `quot` 2 else num b hit in
          beam_hit ← (if mon_flag w mon M_backlit
                      then r ← random2 8; mret (beam_hit + 2 + r)
                      else mret beam_hit);
          r ← new_defer_rand;
          rand_ev ← random2 (ev (mon_of w mon));
          let dmsl := bool_decide (mon_type (mon_of w mon) = MONS_KIRKE) in
          if negb engulfs
             && negb (_test_beam_hit beam_hit rand_ev (flag b is_beam) dmsl
                        false r)
          then
            when (mon_flag w mon M_observable)
              (if _test_beam_hit beam_hit rand_ev (flag b is_beam) false
                    false r
               then mpr "%s deflects the %s!" MSGCH_PLAIN
               else mpr "The %s misses %s." MSGCH_PLAIN)
          else
            blocked ← (if negb engulfs && is_blockable b
                       then attempt_block mon else mret false);
            if (blocked : bool) then mret tt
            else
              update_hurt_or_helped mon;;
              b ← gets this;
              when (negb (flag b is_explosion))
                (h ← callb (noisy (num b loudness) (pos b) (num b beam_source));
                 upd (fun b => set_flag heard (h || flag b heard) b));;
              b ← gets this;
              w ← gets wld;
              (if mon_flag w mon M_near
               then
                 when (bool_decide (hit_verb b = EmptyString))
                   (upd (set_hit_verb (if engulfs then "engulfs" else "hits")));;
                 mpr "The %s %s %s." MSGCH_PLAIN
               else if flag b heard && negb (bool_decide (noise_msg b = EmptyString))
               then mpr (noise_msg b) MSGCH_SOUND
               else when (negb (you_flag w Y_silenced)
                          && flavour_is b BEAM_MISSILE
                          && YOU_KILL (thrower b))
                      (mpr "The %s hits something." MSGCH_SOUND));;
              when (match item b with
                    | Some it =>
                        item_test IT_missile it && item_test IT_throwing_net it
                    | None => false
                    end)
                (call_ (monster_caught_in_net mon));;
              when (0 <? final) (mpr_all MSGCH_MONSTER_DAMAGE messages);;
              mons_adjust_flavoured mon postac true;;
              b ← gets this;
              w ← gets wld;
              when (negb engulfs
                    && (flavour_is b BEAM_MISSILE || flavour_is b BEAM_MMISSILE)
                    && negb (mon_flag w mon M_is_summoned)
                    && negb (mon_flag w mon M_submerged))
                (call_ (bleed_onto_floor (mon_pos (mon_of w mon))
                          (Z.min (postac `quot` 2)
                                 (hit_points (mon_of w mon)))));;
              call_ (mon_hurt mon final (flavour b));;
              w ← gets wld;
              let orig := mon_of w mon in
              corpse ←
                (if mon_flag w mon M_alive
                 then monster_post_hit mon final;; mret (-1)
                 else
                   when ((mon_stat w mon M_mindex =? num b beam_source)
                         && bool_decide (source_name b = EmptyString))
                     (upd (set_source_name "%s"));;
                   if bool_decide (religion (you w) = GOD_FEDHAS)
                      && flavour_is b BEAM_SPORE
                      && mon_flag w mon M_fedhas_protects
                   then
                     when (bool_decide
                             (mon_attitude (mon_of w mon) = ATT_FRIENDLY))
                       (call_ (mon_set_attitude mon ATT_HOSTILE));;
                     call (monster_die mon KILL_MON (beam_source_as_target b))
                   else
                     call (monster_die mon (thrower b)
                             (beam_source_as_target b)));
              w ← gets wld;
              let victim :=
                if bool_decide (mon_type (mon_of w mon) = MONS_NO_MONSTER)
                then a_dead_monster
                       {| mon_type := mon_type orig; hit_points := -1;
                          max_hit_points := max_hit_points orig;
                          ac := ac orig; ev := ev orig;
                          hit_dice := hit_dice orig;
                          mon_attitude := mon_attitude orig;
                          mon_god := mon_god orig; mon_pos := mon_pos orig |}
                else a_monster mon in
              run_hit_funcs victim final corpse;;
              use_range_on_hit victim
      end.

(** ** Open ground *)

(** [bolt::affect_place_explosion_clouds] only places clouds and, for a fire
    storm, a vortex; it is the call [place_explosion_clouds]. *)
Definition affect_place_explosion_clouds : M unit :=
  b ← gets this;
  w ← gets wld;
  call_ (place_explosion_clouds (name b) (flavour b) (num b ench_power)
           (pos b) (whose_kill w b)).

Definition place (ct : cloud_type) (p : coord_def) (base n : Z) : M unit :=
  d ← random2 n;
  b ← gets this;
  w ← gets wld;
  call_ (place_cloud ct p (base + d) (whose_kill w b)).

(** [bolt::affect_place_clouds]. *)
Definition affect_place_clouds : M unit :=
  b ← gets this;
  when (flag b in_explosion_phase) affect_place_explosion_clouds;;
  b ← gets this;
  w ← gets wld;
  let p := pos b in
  match cgrid w p with
  | Some cloudidx =>
      let ctype := cloud_type_of w cloudidx in
      if flavour_is b BEAM_POLYMORPH
      then
        r ← random2 8;
        let new_type := 1 + r in
        if new_type =? ctype then mret tt
        else
          (if coord_eqb p (you_pos (you w))
           then mpr "The %s you are in turns into %s!" MSGCH_PLAIN;;
                set_fl obvious_effect true
           else when (you_see_cell w p)
                  (mpr "A cloud of %s turns into %s." MSGCH_PLAIN;;
                   set_fl obvious_effect true));;
          call_ (set_cloud_type cloudidx new_type)
      else
        when (((ctype =? cloud_ord CLOUD_COLD)
               && (flavour_is b BEAM_FIRE || flavour_is b BEAM_LAVA))
              || ((ctype =? cloud_ord CLOUD_FIRE) && flavour_is b BEAM_COLD))
          (when (player_can_hear w p)
             (mpr "You hear a sizzling sound!" MSGCH_SOUND);;
           call_ (delete_cloud cloudidx);;
           add_nm range_used 5)
  | None =>
      let feat := grd w p in
      let dmg := dice_num (damage b) * dice_size (damage b) in
      when (name_is b "blast of poison") (place CLOUD_POISON p 2 4);;
      when ((bool_decide (feat = DNGN_LAVA) && flavour_is b BEAM_COLD)
            || (feat_is_watery feat && is_fiery b))
        (place CLOUD_STEAM p 2 5);;
      when (feat_is_watery feat && flavour_is b BEAM_COLD && (35 <? dmg))
        (w ← gets wld;
         call_ (place_cloud CLOUD_COLD p (dmg `quot` 30 + 1) (whose_kill w b)));;
      when (name_is b "great blast of cold") (place CLOUD_COLD p 3 5);;
      when (name_is b "ball of steam") (place CLOUD_STEAM p 2 5);;
      when (flavour_is b BEAM_MIASMA) (place CLOUD_MIASMA p 2 5);;
      when (name_is b "poison gas") (place CLOUD_POISON p 3 4)
  end.

(** [bolt::affect_ground]. *)
Definition affect_ground : M unit :=
  b ← gets this;
  if flag b is_explosion && negb (flag b in_explosion_phase) then mret tt
  else if flag b is_tracer then mret tt
  else
    (if flag b is_explosion && flavour_is b BEAM_SPORE
     then
       x ← x_chance_in_y 2 21;
       w ← gets wld;
       when (x && can_place_fungus w (pos b))
         (beh ← (if arena w
                 then c ← coinflip;
                      mret (if (c : bool) then "BEH_FRIENDLY"
                            else "BEH_HOSTILE")
                 else mret (match attitude b with
                            | ATT_NEUTRAL => "BEH_NEUTRAL"
                            | ATT_FRIENDLY | ATT_GOOD_NEUTRAL =>
                                "BEH_GOOD_NEUTRAL"
                            | ATT_HOSTILE => "BEH_HOSTILE"
                            end));
          rc ← call (create_ballistomycete (pos b) beh);
          w ← gets wld;
          when (negb (rc =? -1) && you_see_cell w (pos b))
            (mpr "A fungus suddenly grows." MSGCH_PLAIN))
     else mret tt);;
    when (flag b affects_items)
      (let burn_power :=
         if flag b is_explosion then 5 else if flag b is_beam then 3 else 2 in
       call_ (expose_items_to_element (flavour b) (pos b) burn_power);;
       affect_place_clouds).

(** ** The cell resolver *)

(** The flags [avoid_player] and [avoid_monster] of [affect_cell]. *)
Definition avoid_player_of (avoid_self : bool) (b : beam) : bool :=
  avoid_self && YOU_KILL (thrower b).
Definition avoid_monster_of (avoid_self : bool) (b : beam) : bool :=
  avoid_self && negb (YOU_KILL (thrower b)) && MON_KILL (thrower b).

(** The part of [affect_cell] that resolves the occupants of the cell, from
    [bool hit_player = false;] to the call of [affect_monster]. *)
Definition cell_occupants (avoid_player avoid_monster still_wall : bool)
  : M unit :=
  b ← gets this;
  w ← gets wld;
  hit_player ← (if found_player w b && negb avoid_player
                then affect_player;; mret true
                else mret false);
  b ← gets this;
  w ← gets wld;
  when ((negb hit_player || flag b is_beam || flag b is_explosion)
        && negb still_wall && negb avoid_monster)
    (match monster_at w (pos b) with
     | Some m => affect_monster m
     | None => mret tt
     end).

(** [bolt::affect_cell]. *)
Definition affect_cell (avoid_self : bool) : M unit :=
  b ← gets this;
  w ← gets wld;
  when (bool_decide (is_Some (cgrid w (pos b))))
    (upd (fun b => set_num hit (Z.max (num b hit - 2) 0) b));;
  fake_flavour;;
  b ← gets this;
  w ← gets wld;
  let old_pos := pos b in
  let was_solid := feat_is_solid (grd w (pos b)) in
  let avoid_player := avoid_player_of avoid_self b in
  let avoid_monster := avoid_monster_of avoid_self b in
  ended ←
    (if was_solid
     then
       (match monster_at w (pos b) with
        | Some mon =>
            if can_affect_wall_monster w b mon && negb avoid_monster
            then affect_monster mon
            else when (negb avoid_monster)
                   (mpr "The %s protects %s from harm." MSGCH_PLAIN)
        | None => mret tt
        end);;
       hit_wall
     else mret false);
  if (ended : bool) then mret tt
  else
    b ← gets this;
    let still_wall := was_solid && coord_eqb old_pos (pos b) in
    cell_occupants avoid_player avoid_monster still_wall;;
    b ← gets this;
    w ← gets wld;
    when (negb (feat_is_solid (grd w (pos b)))) affect_ground.

(** ** Explosions *)

(** [explosion_map] is a 19 by 19 array of [int] indexed by
    [delta + centre]; [init(INT_MAX)] is the empty map, and a cell that was
    never written reads [INT_MAX]. *)
Definition centre : coord_def := (9, 9).

Definition exp_get (m : gmap (Z * Z) Z) (c : coord_def) : Z :=
  default INT_MAX (m !! c).

(** The cost of the step from [delta] in direction [d]: changing direction
    (looking around a wall) costs more. *)
Definition cadd (delta d : coord_def) : Z :=
  if (delta.1 * d.1 <? 0) || (delta.2 * d.2 <? 0) then 17 else 5.

(** The tests at the head of [determine_affected_cells] that do not depend
    on [count]: the cell can be entered. *)
Definition cell_open (w : world) (b : beam) (r : Z)
    (stop_at_statues stop_at_walls : bool) (delta : coord_def) : bool :=
  let loc := coord_add (pos b) delta in
  let dngn_feat := grd w loc in
  if (rdist centre <? rdist delta) || (r * (r + 1) <? abs2 delta)
     || negb (map_bounds loc) || is_sanctuary w loc
  then false
  else if (feat_is_wall dngn_feat || bool_decide (dngn_feat = DNGN_SECRET_DOOR)
           || feat_is_closed_door dngn_feat)
          && stop_at_walls
          && negb (origin delta && affects_wall b dngn_feat)
  then false
  else if feat_is_solid dngn_feat && negb (feat_is_wall dngn_feat)
          && stop_at_statues
  then false
  else true.

(** [bolt::determine_affected_cells] (uses DFS). [dirs] is the order in
    which the neighbours are explored, [Compass] in the source. The
    recursion of the source ends because [count] grows by at least 5 at
    each level and a call with [count > 10 * r] returns; [fuel] bounds the
    depth. *)
Fixpoint determine_affected_cells_in (fuel : nat) (dirs : list coord_def)
    (w : world) (b : beam) (m : gmap (Z * Z) Z) (delta : coord_def)
    (count r : Z) (stop_at_statues stop_at_walls : bool) : gmap (Z * Z) Z :=
  match fuel with
  | O => m
  | S n =>
      if (10 * r <? count)
         || negb (cell_open w b r stop_at_statues stop_at_walls delta)
      then m
      else
        let loc := coord_add (pos b) delta in
        let hits := forallb (fun f => f b w loc) aoe_funcs in
        let m :=
          if hits
          then <[coord_add delta centre :=
                   Z.min count (exp_get m (coord_add delta centre))]> m
          else m in
        foldl
          (fun m d =>
             let new_delta := coord_add delta d in
             if rdist centre <? rdist new_delta then m
             else if exp_get m (coord_add new_delta centre) <=? count then m
             else determine_affected_cells_in n dirs w b m new_delta
                    (count + cadd delta d) r stop_at_statues stop_at_walls)
          m dirs
  end.

(** The depth the recursion can reach for radius [r]. *)
Definition dfs_fuel (r : Z) : nat := Z.to_nat (2 * r) + 2.

Definition determine_affected_cells (w : world) (b : beam)
    (m : gmap (Z * Z) Z) (delta : coord_def) (count r : Z)
    (stop_at_statues stop_at_walls : bool) : gmap (Z * Z) Z :=
  determine_affected_cells_in (dfs_fuel r) Compass w b m delta count r
    stop_at_statues stop_at_walls.

(** [_radial_sweep]. *)
Definition sweep_ring (rad : Z) : list coord_def :=
  flat_map
    (fun d =>
       (if negb (d =? rad) && negb (d =? - rad)
        then [ (- rad, d); (rad, d) ] else [])
       ++ [ (d, - rad); (d, rad) ])
    (map (fun i => Z.of_nat i - rad) (seq 0 (Z.to_nat (2 * rad + 1)))).

Definition _radial_sweep (r : Z) : list (list coord_def) :=
  [ (0, 0) ] :: map (fun i => sweep_ring (Z.of_nat i + 1)) (seq 0 (Z.to_nat r)).

(** [bolt::refine_for_explosion]: the messages chosen. *)
Definition refine_messages (b : beam) : option (string * string) :=
  let m0 := if bool_decide (is_Some (item b))
            then Some ("The %s explodes!", "You hear an explosion.")
            else None in
  let m1 := if name_has b "hellfire"
            then Some ("The hellfire explodes!",
                       "You hear a strangely unpleasant explosion.")
            else m0 in
  let m2 := if name_is b "fireball"
            then Some ("The fireball explodes!", "You hear an explosion.")
            else m1 in
  let m3 := if name_is b "orb of electricity"
            then Some ("The orb of electricity explodes!",
                       "You hear a clap of thunder!")
            else m2 in
  let m4 := if name_is b "orb of energy"
            then Some ("The orb of energy explodes.", "You hear an explosion.")
            else m3 in
  let m5 := if name_is b "metal orb"
            then Some ("The orb explodes into a blast of deadly shrapnel!",
                       "You hear an explosion!")
            else m4 in
  let m6 := if name_is b "great blast of cold"
            then Some ("The blast explodes into a great storm of ice!",
                       "You hear a raging storm!")
            else m5 in
  let m7 := if name_is b "stinking cloud"
            then Some ("The beam expands into a vile cloud!",
                       "You hear a gentle 'poof'.")
            else m6 in
  let m8 := if name_is b "foul vapour"
            then Some ("The ball expands into a vile cloud!",
                       "You hear a gentle 'poof'.")
            else m7 in
  if name_is b "potion"
  then Some ("The potion explodes!", "You hear an explosion!")
  else m8.

(** [_potion_beam_flavour_to_colour]. *)
Definition _potion_beam_flavour_to_colour (fl : beam_type) : M Z :=
  match fl with
  | BEAM_POTION_STINKING_CLOUD => mret (colour_of "GREEN")
  | BEAM_POTION_POISON =>
      c ← coinflip;
      mret (colour_of (if (c : bool) then "GREEN" else "LIGHTGREEN"))
  | BEAM_POTION_MIASMA | BEAM_POTION_BLACK_SMOKE => mret (colour_of "DARKGREY")
  | BEAM_POTION_STEAM | BEAM_POTION_GREY_SMOKE => mret (colour_of "LIGHTGREY")
  | BEAM_POTION_FIRE =>
      c ← coinflip;
      mret (colour_of (if (c : bool) then "RED" else "LIGHTRED"))
  | BEAM_POTION_COLD =>
      c ← coinflip;
      mret (colour_of (if (c : bool) then "BLUE" else "LIGHTBLUE"))
  | BEAM_POTION_BLUE_SMOKE => mret (colour_of "LIGHTBLUE")
  | BEAM_POTION_PURPLE_SMOKE => mret (colour_of "MAGENTA")
  | _ => mret (-1)
  end.

(** [bolt::refine_for_explosion]. None of the renamings makes a later test
    on [name] succeed, so the tests read the name the function was entered
    with. *)
Definition refine_for_explosion : M unit :=
  b0 ← gets this;
  when (num b0 ex_size =? 0) (set_nm ex_size 1);;
  set_fl msg_generated true;;
  when (bool_decide (is_Some (item b0)))
    (set_nm type (dchar_glyph "DCHAR_FIRED_BURST"));;
  when (name_has b0 "hellfire")
    (set_nm type (dchar_glyph "DCHAR_FIRED_BURST");;
     upd (set_flavour BEAM_HELLFIRE));;
  when (name_is b0 "fireball")
    (set_nm type (dchar_glyph "DCHAR_FIRED_BURST");;
     upd (set_flavour BEAM_FIRE);;
     set_nm ex_size 1);;
  when (name_is b0 "orb of electricity")
    (set_nm type (dchar_glyph "DCHAR_FIRED_BURST");;
     upd (set_flavour BEAM_ELECTRICITY);;
     set_nm colour (colour_of "LIGHTCYAN");;
     upd (fun b => set_damage {| dice_num := 1;
                                 dice_size := dice_size (damage b) |} b);;
     set_nm ex_size 2);;
  when (name_is b0 "metal orb")
    (upd (set_name "blast of shrapnel");;
     set_nm type (dchar_glyph "DCHAR_FIRED_ZAP");;
     upd (set_flavour BEAM_FRAG));;
  when (name_is b0 "great blast of cold")
    (upd (set_name "ice storm");;
     set_nm type (dchar_glyph "DCHAR_FIRED_ZAP");;
     set_nm colour (colour_of "WHITE");;
     (if flag b0 is_tracer then set_nm ex_size 3
      else r ← random2 (num b0 ench_power);
           set_nm ex_size (2 + (if 75 <? r then 1 else 0))));;
  when (name_is b0 "foul vapour" && negb (flag b0 is_tracer))
    (upd (set_name "stinking cloud"));;
  when (name_is b0 "potion" && negb (flag b0 is_tracer))
    (upd (set_name "cloud");;
     b ← gets this;
     newcolour ← _potion_beam_flavour_to_colour (flavour b);
     when (0 <=? newcolour) (set_nm colour newcolour));;
  let '(seeMsg, hearMsg) :=
    default ("The beam explodes into a cloud of software bugs!",
             "You hear the sound of one hand clapping!")
            (refine_messages b0) in
  when (negb (flag b0 is_tracer))
    (b ← gets this;
     w ← gets wld;
     set_fl heard (player_can_hear w (target b));;
     if you_see_cell w (target b) || coord_eqb (target b) (you_pos (you w))
     then mpr seeMsg MSGCH_PLAIN
     else if negb (player_can_hear w (target b))
     then set_fl msg_generated false
     else mpr hearMsg MSGCH_SOUND).

(** [bolt::explosion_draw_cell]. *)
Definition explosion_draw_cell (p : coord_def) : M unit :=
  w ← gets wld;
  when (you_see_cell w p) (emit (DrawExplosion p)).

(** [bolt::explosion_affect_cell]. *)
Definition explosion_affect_cell (p : coord_def) : M unit :=
  orig_pos ← gets (fun s => target (this s));
  fake_flavour;;
  upd (set_target p);;
  affect_cell false;;
  upd (fun b => set_flavour (real_flavour b) b);;
  upd (set_target orig_pos).

Definition for_each {A : Type} (l : list A) (f : A -> M unit) : M unit :=
  foldr (fun x k => f x;; k) (mret tt) l.

Definition explode_delay (base : Z) : M unit :=
  w ← gets wld;
  emit (Delay (if arena w then -1 else base)).

(** [bolt::explode]: returns [true] if we saw something happening. *)
Definition explode (show_more hole_in_the_middle : bool) : M bool :=
  upd (fun b => if bool_decide (real_flavour b = BEAM_CHAOS)
                   || bool_decide (real_flavour b = BEAM_RANDOM)
                then set_flavour (real_flavour b) b
                else set_real_flavour (flavour b) b);;
  b ← gets this;
  let r := Z.min (num b ex_size) MAX_EXPLOSION_RADIUS in
  set_fl in_explosion_phase true;;
  b ← gets this;
  w ← gets wld;
  if is_sanctuary w (pos b)
  then
    if negb (flag b is_tracer) && you_see_cell w (pos b)
       && negb (bool_decide (name b = EmptyString))
    then mpr "By Zin's power, the %s is contained." MSGCH_GOD;; mret true
    else mret false
  else
    when (negb (flag b is_tracer))
      (set_nm loudness (10 + 5 * r);;
       heard_expl ← callb (noisy (10 + 5 * r) (pos b) (num b beam_source));
       upd (fun b => set_flag heard (flag b heard || heard_expl) b);;
       w ← gets wld;
       when (heard_expl && negb (bool_decide (noise_msg b = EmptyString))
             && negb (you_see_cell w (pos b)))
         (mpr (noise_msg b) MSGCH_SOUND));;
    b ← gets this;
    w ← gets wld;
    let exp_map :=
      determine_affected_cells w b ∅ (0, 0) 0 r true true in
    let sweep := _radial_sweep r in
    let wanted (delta : coord_def) : bool :=
      negb (origin delta && hole_in_the_middle)
      && (exp_get exp_map (coord_add delta centre) <? INT_MAX) in
    when (negb (flag b is_tracer))
      (for_each sweep
         (fun ring =>
            for_each ring
              (fun delta =>
                 when (wanted delta)
                   (b ← gets this;
                    explosion_draw_cell (coord_add delta (pos b))));;
            explode_delay 50));;
    cells_seen ←
      foldl
        (fun acc delta =>
           n ← acc;
           if wanted delta
           then
             b ← gets this;
             w ← gets wld;
             let n' :=
               if you_see_cell w (coord_add delta (pos b)) then n + 1 else n in
             explosion_affect_cell (coord_add delta (pos b));;
             mret n'
           else mret n)
        (mret 0) (concat sweep);
    b ← gets this;
    when (negb (flag b is_tracer) && (0 <? cells_seen) && show_more)
      (explode_delay 150);;
    mret (0 <? cells_seen).

(** ** One firing *)

(** Runs [m] on [special_explosion] ([special_explosion->m()]); nothing
    happens when the pointer is null. *)
Definition on_special {A : Type} (m : M A) : M (option A) :=
  fun s =>
    match special_explosion s with
    | None => (None, s)
    | Some sp =>
        let '(a, s') := m {| this := sp; special_explosion := None;
                             wld := wld s; io := io s |} in
        (Some a, {| this := this s; special_explosion := Some (this s');
                    wld := wld s'; io := io s' |})
    end.

(** [bolt::initialise_fire]. The scaling of [draw_delay] is left out. *)
Definition initialise_fire : M unit :=
  set_nm range_used 0;;
  set_fl in_explosion_phase false;;
  set_fl use_target_as_pos false;;
  upd_special (fun sp => set_flag use_target_as_pos false
                           (set_flag in_explosion_phase false sp));;
  upd (fun b => if flag b chose_ray && coord_eqb (source b) (0, 0)
                then set_source (ray_pos (ray b)) b else b);;
  b ← gets this;
  when (coord_eqb (target b) (source b))
    (set_nm range 0;;
     set_fl aimed_at_feet true;;
     set_fl auto_hit true;;
     set_fl aimed_at_spot true;;
     set_fl use_target_as_pos true);;
  b ← gets this;
  when (num b range =? -1) (set_nm range LOS_RADIUS);;
  upd (fun b => set_real_flavour (flavour b) b);;
  upd (set_message_cache []);;
  b ← gets this;
  w ← gets wld;
  when (negb (flag b seen) && you_see_cell w (source b) && (0 <? num b range)
        && negb (invisible b))
    (set_fl seen true;;
     when (negb (flavour_is b BEAM_VISUAL) && negb (flag b is_tracer)
           && negb (YOU_KILL (thrower b)) && negb (god_acting w)
           && match monster_at w (source b) with
              | Some mon => negb (mon_flag w mon M_observable)
              | None => true
              end)
       (mpr "%s appears from out of thin air!" MSGCH_PLAIN));;
  when (you_see_cell w (source b) && coord_eqb (target b) (source b)
        && negb (invisible b))
    (set_fl seen true).

(** [bolt::apply_beam_conducts]. *)
Definition apply_beam_conducts : M unit :=
  b ← gets this;
  when (negb (flag b is_tracer) && YOU_KILL (thrower b)
        && flavour_is b BEAM_HELLFIRE)
    (r ← random2 3; call_ (did_god_conduct "DID_UNHOLY" (2 + r))).

(** [bolt::draw]: draw the bolt at [p] if needed. *)
Definition draw (p : coord_def) : M unit :=
  b ← gets this;
  w ← gets wld;
  if flag b is_tracer || is_enchantment b || negb (you_see_cell w p)
  then mret tt
  else emit (DrawCell p).

(** [bolt::drop_object]. [item] points to the item that was thrown; what
    the source writes through the pointer (in [set_item_stationary], and
    to [item->sub_type], [item->quantity] and [item->flags]) is written to
    the item the bolt holds. *)
Definition drop_object : M unit :=
  b ← gets this;
  if flag b is_tracer || negb (flag b was_missile) then mret tt
  else
    match item b with
    | None => mret tt
    | Some it =>
        w ← gets wld;
        if item_test IT_summoned it
        then
          when (you_see_cell w (pos b)) (mpr "%s %s!" MSGCH_PLAIN);;
          call_ (item_was_destroyed it (num b beam_source))
        else
          destroyed ← callb (thrown_object_destroyed it (pos b) false);
          if negb destroyed
          then
            when (item_test IT_throwing_net it)
              (w ← gets wld;
               when ((coord_eqb (you_pos (you w)) (pos b)
                      && you_flag w Y_held)
                     || match monster_at w (pos b) with
                        | Some m => mon_flag w m M_caught
                        | None => false
                        end)
                 (net ← call (get_trapping_net (pos b) true);
                  when (net =? NON_ITEM)
                    (upd (set_item (Some (set_item_stationary it))))));;
            b ← gets this;
            match item b with
            | Some it => call_ (copy_item_to_grid it (pos b) 1)
            | None => mret tt
            end
          else
            w ← gets wld;
            when (item_test IT_large_rock it
                  && negb (feat_destroys_items (grd w (pos b))))
              (let seen := you_see_cell w (pos b) in
               when seen (mpr "%s shatters into pieces!" MSGCH_PLAIN);;
               call_ (noisy_msg 12 (pos b)
                        (if seen then EmptyString
                         else "You hear a cracking sound!"));;
               q ← random2 41;
               let stones :=
                 {| base_type := base_type it; sub_type := MI_STONE;
                    special := special it;
                    item_flags :=
                      Z.land (item_flags it) (Z.lnot ISFLAG_THROWN);
                    quantity := 10 + q |} in
               upd (set_item (Some stones));;
               call_ (copy_item_to_grid stones (pos b) (10 + q)))
    end.

(** [bolt::affect_endpoint]. *)
Definition affect_endpoint : M unit :=
  b ← gets this;
  on_special (refine_for_explosion;;
              upd (set_target (pos b));;
              explode true false);;
  when (flag b drop_item && bool_decide (is_Some (item b))) drop_object;;
  b ← gets this;
  if flag b is_explosion
  then
    refine_for_explosion;;
    upd (fun b => set_target (pos b) b);;
    explode true false;;
    mret tt
  else if flag b is_tracer then mret tt
  else
    when (name_is b "orb of electricity" || name_is b "metal orb"
          || name_is b "great blast of cold")
      (upd (fun b => set_target (pos b) b);;
       refine_for_explosion;;
       explode true false;;
       mret tt);;
    b ← gets this;
    w ← gets wld;
    when (name_is b "blast of poison")
      (r ← random2 5;
       call_ (big_cloud CLOUD_POISON (pos b) 0 (7 + r) (whose_kill w b)));;
    when (name_is b "foul vapour")
      (call_ (big_cloud CLOUD_MIASMA (pos b) 0 9 (whose_kill w b)));;
    when (name_is b "freezing blast")
      (r ← random_range 10 15;
       call_ (big_cloud CLOUD_COLD (pos b) r 9 (whose_kill w b))).

(** How an iteration of the loop of [do_fire] ends: the loop goes on; it is
    left by [break]; [do_fire] returns. [fire_loop] gives [Exhausted] when
    its fuel runs out. *)
Inductive loop_ctl := Continue | Break | Return | Exhausted.

(** The body of [while (in_bounds(pos()))] in [bolt::do_fire], in three
    parts: the cell is recorded and resolved ([iter_interact]), the step is
    paid for ([iter_consume]), and the loop decides whether to go on
    ([iter_decide]). *)
Definition iter_interact (avoid_self : bool) : M unit :=
  upd (fun b => set_path_taken (path_taken b ++ [pos b]) b);;
  b ← gets this;
  when (negb (flag b affects_nothing)) (affect_cell avoid_self).

Definition iter_consume (avoid_self : bool) : M unit :=
  when (negb avoid_self) (add_nm range_used 1).

Definition iter_decide : M loop_ctl :=
  b ← gets this;
  if num b range <=? num b range_used then mret Break
  else if flag b beam_cancelled then mret Return
  else
    stop ← (if coord_eqb (pos b) (target b)
            then set_fl passed_target true;; mret (stop_at_target b)
            else mret false);
    if (stop : bool) then mret Break
    else
      b ← gets this;
      w ← gets wld;
      let was_seen := flag b seen in
      when (negb was_seen && (0 <? num b range) && negb (invisible b)
            && you_see_cell w (pos b))
        (set_fl seen true);;
      b ← gets this;
      when (negb (flavour_is b BEAM_VISUAL) && negb was_seen && flag b seen
            && negb (flag b is_tracer))
        (mpr "%s appears from out of your range of vision." MSGCH_PLAIN);;
      when (bool_decide (real_flavour b = BEAM_CHAOS))
        (upd (fun b => set_flavour (real_flavour b) b));;
      draw (pos b);;
      upd (fun b => set_ray (ray_advance (ray b)) b);;
      mret Continue.

Definition fire_iter (avoid_self : bool) : M loop_ctl :=
  iter_interact avoid_self;;
  iter_consume avoid_self;;
  iter_decide.

(** The loop of [do_fire]; [avoid_self] is [false] after the first
    iteration. *)
Fixpoint fire_loop (fuel : nat) (avoid_self : bool) : M loop_ctl :=
  match fuel with
  | O => mret Exhausted
  | S n =>
      b ← gets this;
      if negb (in_bounds (pos b)) then mret Break
      else
        c ← fire_iter avoid_self;
        match c with
        | Continue => fire_loop n false
        | _ => mret c
        end
  end.

(** The iterations the loop of a bolt with budget [range] can make. *)
Definition fire_fuel (b : beam) : nat := Z.to_nat (num b range) + 2.

(** [tries = max(GXM, GYM); while (!in_bounds(ray.pos()) && tries-- > 0)
    ray.regress();] *)
Fixpoint regress_into_bounds (tries : nat) (r : ray_def) : ray_def :=
  match tries with
  | O => r
  | S n => if in_bounds (ray_pos r) then r
           else regress_into_bounds n (ray_regress r)
  end.

(** [bool avoid_self = (!aimed_at_feet && (!is_explosion ||
    !in_explosion_phase));], the value of [avoid_self] in the first
    iteration of the loop. *)
Definition first_avoid_self (b : beam) : bool :=
  negb (flag b aimed_at_feet)
  && (negb (flag b is_explosion) || negb (flag b in_explosion_phase)).

(** [bolt::do_fire]. *)
Definition do_fire : M unit :=
  initialise_fire;;
  b ← gets this;
  if (num b range <=? num b range_used) && (0 <? num b range) then mret tt
  else
    apply_beam_conducts;;
    let avoid_self := first_avoid_self b in
    set_fl msg_generated false;;
    when (negb (flag b aimed_at_feet)) choose_ray;;
    c ← fire_loop (fire_fuel b) avoid_self;
    match c with
    | Return => mret tt
    | _ =>
        b ← gets this;
        when (negb (in_bounds (pos b)))
          (upd (fun b => set_ray (regress_into_bounds regress_bound (ray b))
                           b));;
        b ← gets this;
        when (negb (flag b affects_nothing)) affect_endpoint;;
        b ← gets this;
        if flag b is_tracer || flag b affects_nothing then mret tt
        else
          when (negb (flag b msg_generated) && negb (flag b obvious_effect)
                && is_enchantment b
                && negb (bool_decide (real_flavour b = BEAM_CHAOS))
                && YOU_KILL (thrower b))
            (call_ canned_msg_nothing_happens);;
          when (negb (invalid_monster_index (num b beam_source)))
            ((if (hurt (foe_info b) =? 0) && (0 <? hurt (friend_info b))
              then call_ (xom_is_stimulated 128)
              else when ((0 <? helped (foe_info b))
                         && (helped (friend_info b) =? 0))
                     (call_ (xom_is_stimulated 128)));;
             w ← gets wld;
             when ((0 <? hurt (foe_info b))
                   && negb (mon_flag w (Z.to_nat (num b beam_source))
                              M_wont_attack)
                   && negb (arena w)
                   && (pet_target (you w) =? MHITNOT)
                   && negb (sanctuary_active w))
               (upd_world (set_pet_target (num b beam_source))))
    end.

(** The constructor [bolt::bolt()]; [r] is the default-constructed ray. *)
Definition bolt_init (r : ray_def) : beam :=
  {| flag := fun f => match f with
                      | affects_items | effect_known => true
                      | _ => false
                      end;
     num := fun f => match f with
                     | range => -2
                     | type => 42
                     | beam_source => MHITNOT
                     | reflector => -1
                     | _ => 0
                     end;
     flavour := BEAM_MAGIC; real_flavour := BEAM_MAGIC;
     damage := {| dice_num := 0; dice_size := 0 |};
     name := EmptyString; aux_source := EmptyString;
     hit_verb := EmptyString; source_name := EmptyString;
     noise_msg := EmptyString; thrower := KILL_MISC;
     attitude := ATT_HOSTILE; source := (0, 0); target := (0, 0); ray := r;
     bounce_pos := (0, 0); path_taken := []; item := None;
     foe_info := tracer_info_reset; friend_info := tracer_info_reset;
     message_cache := [] |}.

(** [_undo_tracer]. *)
Definition _undo_tracer (orig copy : beam) : beam :=
  set_real_flavour (real_flavour copy)
    (set_flavour (flavour copy)
       (set_num colour (num copy colour)
          (set_ray (ray copy)
             (set_flag auto_hit (flag copy auto_hit)
                (set_num range_used (num copy range_used)
                   (set_flag aimed_at_spot (flag copy aimed_at_spot)
                      (set_source (source copy)
                         (set_target (target copy) orig)))))))).

(** [bolt::fire]: this saves some important things before calling
    [do_fire]. *)
Definition fire : M unit :=
  upd (set_path_taken []);;
  b ← gets this;
  upd_special (set_flag is_tracer (flag b is_tracer));;
  (if flag b is_tracer
   then
     boltcopy ← gets this;
     specialcopy ← gets special_explosion;
     do_fire;;
     (match specialcopy with
      | Some c => upd_special (fun sp => _undo_tracer sp c)
      | None => mret tt
      end);;
     upd (fun b => _undo_tracer b boltcopy)
   else do_fire);;
  sp ← gets special_explosion;
  match sp with
  | Some se =>
      upd (fun b =>
             set_friend_info (tracer_info_add (friend_info b) (friend_info se))
               (set_foe_info (tracer_info_add (foe_info b) (foe_info se))
                  (set_flag beam_cancelled
                     (flag b beam_cancelled || flag se beam_cancelled)
                     (set_flag heard (flag b heard || flag se heard)
                        (set_flag seen (flag b seen || flag se seen) b)))))
  | None => mret tt
  end.

(** [fire_tracer]: used by monsters in planning which spell to cast. *)
Definition fire_tracer (monster : nat) (explode_only : bool) : M unit :=
  w ← gets wld;
  set_fl is_tracer true;;
  upd (set_source (mon_pos (mon_of w monster)));;
  set_nm beam_source (mon_stat w monster M_mindex);;
  set_fl can_see_invis (mon_flag w monster M_can_see_invisible);;
  set_fl smart_monster (mon_flag w monster M_intel_normal);;
  upd (set_attitude (mons_attitude w monster));;
  upd (set_foe_info tracer_info_reset);;
  upd (set_friend_info tracer_info_reset);;
  set_nm reflections 0;;
  set_nm bounces 0;;
  b ← gets this;
  when (num b foe_ratio =? 0)
    (set_nm foe_ratio 80;;
     when (mons_att_wont_attack (attitude b)
           && negb (mons_att_wont_attack (mon_attitude (mon_of w monster))))
       (set_nm foe_ratio 25));;
  set_fl in_explosion_phase false;;
  (if explode_only then explode false false;; mret tt else fire);;
  set_fl is_tracer false.

(** [player_tracer]: returns [true] if the path is considered safe. The zap
    catalogue ([_zappy]) is [zappy]. *)
Definition player_tracer (ztype power rng : Z) : M bool :=
  w ← gets wld;
  if you_flag w Y_confused then mret true
  else
    upd (zappy ztype power);;
    upd (set_name "unimportant");;
    set_fl is_tracer true;;
    upd (set_source (you_pos (you w)));;
    set_fl can_see_invis (you_flag w Y_can_see_invisible);;
    set_fl smart_monster true;;
    upd (set_attitude ATT_FRIENDLY);;
    upd (set_thrower KILL_YOU_MISSILE);;
    upd (set_friend_info tracer_info_reset);;
    upd (set_foe_info tracer_info_reset);;
    set_nm foe_ratio 100;;
    set_fl beam_cancelled false;;
    set_fl dont_stop_player false;;
    set_fl seen false;;
    set_fl heard false;;
    set_nm reflections 0;;
    set_nm bounces 0;;
    old_range ← gets (fun s => num (this s) range);
    when (negb (rng =? 0)) (set_nm range rng);;
    fire;;
    when (negb (rng =? 0)) (set_nm range old_range);;
    b ← gets this;
    if flag b beam_cancelled
    then call_ canned_msg_ok;; mret false
    else set_fl is_tracer false;; mret true.

(** [bolt::setup_retrace]: the bolt will go back from where it is to its
    source; [std::swap(source, target)] is the second step. *)
Definition setup_retrace : M unit :=
  upd (fun b => if negb ((pos b).1 =? 0) && negb ((pos b).2 =? 0)
                then set_target (pos b) b else b);;
  upd (fun b => set_target (source b) (set_source (target b) b));;
  set_fl chose_ray false;;
  set_fl affects_nothing true;;
  set_fl aimed_at_spot true;;
  set_nm range_used 0.

End Engine.

(** * A small game to run the engine on

    An 80 by 70 map. A ray is a cell and a step; rays run along rows,
    columns and diagonals. The player's status flags are the list kept in
    [other]. Monsters are alive while they have hit points. There are no
    hooks, and the calls into other modules that matter here, hurting a
    monster and hurting the player, subtract hit points. *)

#[global] Instance you_flag_name_eq_dec : EqDecision you_flag_name.
Proof. solve_decision. Defined.

Definition toy_ray : Type := coord_def * coord_def.
Definition toy_other : Type := list you_flag_name.

Definition sgn_step (s t : coord_def) : coord_def :=
  (Z.sgn (t.1 - s.1), Z.sgn (t.2 - s.2)).

Definition toy_beam_ord (f : beam_type) : Z :=
  match f with
  | BEAM_NONE => 0 | BEAM_MISSILE => 1 | BEAM_MMISSILE => 2 | BEAM_FIRE => 3
  | BEAM_COLD => 4 | BEAM_MAGIC => 5 | BEAM_ELECTRICITY => 6
  | BEAM_POISON => 7 | BEAM_NEG => 8 | BEAM_ACID => 9 | BEAM_MIASMA => 10
  | BEAM_SPORE => 11 | BEAM_POISON_ARROW => 12 | BEAM_HELLFIRE => 13
  | BEAM_NAPALM => 14 | BEAM_STEAM => 15 | BEAM_HOLY => 16 | BEAM_FRAG => 17
  | BEAM_LAVA => 18 | BEAM_ICE => 19 | BEAM_NUKE => 20 | BEAM_RANDOM => 21
  | BEAM_CHAOS => 22 | BEAM_SLOW => 23 | BEAM_HASTE => 24 | BEAM_MIGHT => 25
  | BEAM_HEALING => 26 | BEAM_PARALYSIS => 27 | BEAM_CONFUSION => 28
  | BEAM_INVISIBILITY => 29 | BEAM_DIGGING => 30 | BEAM_TELEPORT => 31
  | BEAM_POLYMORPH => 32 | BEAM_CHARM => 33 | BEAM_BANISH => 34
  | BEAM_DEGENERATE => 35 | BEAM_ENSLAVE_UNDEAD => 36
  | BEAM_ENSLAVE_SOUL => 37 | BEAM_PAIN => 38 | BEAM_DISPEL_UNDEAD => 39
  | BEAM_DISINTEGRATION => 40 | BEAM_ENSLAVE_DEMON => 41 | BEAM_BLINK => 42
  | BEAM_BLINK_CLOSE => 43 | BEAM_PETRIFY => 44 | BEAM_CORONA => 45
  | BEAM_PORKALATOR => 46 | BEAM_HIBERNATION => 47 | BEAM_BERSERK => 48
  | BEAM_SLEEP => 49 | BEAM_POTION_STINKING_CLOUD => 50
  | BEAM_POTION_POISON => 51 | BEAM_POTION_MIASMA => 52
  | BEAM_POTION_STEAM => 53 | BEAM_POTION_FIRE => 54 | BEAM_POTION_COLD => 55
  | BEAM_POTION_BLACK_SMOKE => 56 | BEAM_POTION_GREY_SMOKE => 57
  | BEAM_POTION_BLUE_SMOKE => 58 | BEAM_POTION_PURPLE_SMOKE => 59
  | BEAM_POTION_RAIN => 60 | BEAM_POTION_MUTAGENIC => 61
  | BEAM_POTION_RANDOM => 62 | BEAM_VISUAL => 63
  end.

Definition toy_beam_of_ord (n : Z) : beam_type :=
  match n with
  | 3 => BEAM_FIRE | 4 => BEAM_COLD | 5 => BEAM_MAGIC
  | 6 => BEAM_ELECTRICITY | 7 => BEAM_POISON | 8 => BEAM_NEG
  | _ => BEAM_ACID
  end.

Definition toy_solid (f : dungeon_feature_type) : bool :=
  match f with
  | DNGN_ROCK_WALL | DNGN_CLEAR_ROCK_WALL | DNGN_STONE_WALL | DNGN_METAL_WALL
  | DNGN_GREEN_CRYSTAL_WALL | DNGN_WAX_WALL | DNGN_TREES
  | DNGN_GRANITE_STATUE | DNGN_ORCISH_IDOL | DNGN_SECRET_DOOR
  | DNGN_CLOSED_DOOR => true
  | _ => false
  end.

Definition toy_wall (f : dungeon_feature_type) : bool :=
  match f with
  | DNGN_ROCK_WALL | DNGN_CLEAR_ROCK_WALL | DNGN_STONE_WALL | DNGN_METAL_WALL
  | DNGN_GREEN_CRYSTAL_WALL | DNGN_WAX_WALL => true
  | _ => false
  end.

Definition toy_in_bounds (p : coord_def) : bool :=
  (0 <? p.1) && (p.1 <? 79) && (0 <? p.2) && (p.2 <? 69).

Definition toy_map_bounds (p : coord_def) : bool :=
  (0 <=? p.1) && (p.1 <? 80) && (0 <=? p.2) && (p.2 <? 70).

Fixpoint toy_monster_from (i : nat) (ms : list monsters) (p : coord_def)
  : option nat :=
  match ms with
  | [] => None
  | m :: ms' =>
      if bool_decide (mon_pos m = p) && (0 <? hit_points m) then Some i
      else toy_monster_from (S i) ms' p
  end.

Definition toy_mon_flag (w : @world toy_other) (mid : nat)
    (f : mon_flag_name) : bool :=
  match f with
  | M_alive => 0 <? hit_points (mon_of w mid)
  | M_observable | M_visible_to_you | M_near | M_you_can_see
  | M_type_valid | M_holiness_natural => true
  | M_friendly | M_wont_attack =>
      bool_decide (mon_attitude (mon_of w mid) = ATT_FRIENDLY)
  | _ => false
  end.

Definition toy_hurt (mid : nat) (dmg : Z) (w : @world toy_other)
  : @world toy_other :=
  {| grd := grd w; cgrid := cgrid w;
     menv := alter (fun m => {| mon_type := mon_type m;
                                hit_points := hit_points m - dmg;
                                max_hit_points := max_hit_points m;
                                ac := ac m; ev := ev m;
                                hit_dice := hit_dice m;
                                mon_attitude := mon_attitude m;
                                mon_god := mon_god m; mon_pos := mon_pos m |})
                   mid (menv w);
     you := you w; mitm := mitm w; other := other w |}.

Definition toy_ouch (dam : Z) (w : @world toy_other) : @world toy_other :=
  {| grd := grd w; cgrid := cgrid w; menv := menv w;
     you := {| you_pos := you_pos (you w); hp := hp (you w) - dam;
               experience_level := experience_level (you w);
               religion := religion (you w); piety := piety (you w);
               pet_target := pet_target (you w); inv := inv (you w) |};
     mitm := mitm w; other := other w |}.

Definition toy_extern (c : extern_call) (w : @world toy_other)
    (i : io_state) : Z * @world toy_other * io_state :=
  match c with
  | mon_hurt mid dmg _ => (0, toy_hurt mid dmg w, i)
  | ouch dam _ _ => (0, toy_ouch dam w, i)
  | check_your_resists hurted _ => (hurted, w, i)
  | monster_die _ _ _ => (-1, w, i)
  | thrown_object_destroyed it _ _ => (if sub_type it =? 5 then 1 else 0, w, i)
  | create_ballistomycete _ _ => (-1, w, i)
  | _ => (0, w, i)
  end.

(** Sub-type 5 is the large rock; a thrown item of the small game is a
    valid missile. *)
Definition toy_item_test (f : item_test_name) (it : item_def) : bool :=
  match f with
  | IT_valid | IT_missile => true
  | IT_large_rock => sub_type it =? 5
  | _ => false
  end.

Definition toy_resist (res raw : Z) : Z :=
  if res =? 0 then raw
  else if 3 <=? res then 0
  else if 0 <? res then raw `quot` 2
  else (raw * 3) `quot` 2.

#[global] Instance toy : @Collaborators toy_ray toy_other :=
  {| LOS_RADIUS := 8;
     AUTOMATIC_HIT := 1500;
     NON_MONSTER := 10000;
     MHITNOT := 10000;
     MHITYOU := 10001;
     ANON_FRIENDLY_MONSTER := 10002;
     INSTANT_DEATH := -9999;
     MAX_MONSTERS := 350;
     NON_ITEM := 27000;
     MI_STONE := 0;
     ISFLAG_THROWN := 8192;
     GXM := 80;
     GYM := 70;
     beam_ord := toy_beam_ord;
     beam_of_ord := toy_beam_of_ord;
     BEAM_FIRST_ENCHANTMENT := BEAM_SLOW;
     BEAM_LAST_ENCHANTMENT := BEAM_SLEEP;
     BEAM_LAST_REAL := BEAM_POTION_RANDOM;
     in_bounds := toy_in_bounds;
     map_bounds := toy_map_bounds;
     feat_is_solid := toy_solid;
     feat_is_wall := toy_wall;
     feat_is_closed_door := fun f => bool_decide (f = DNGN_CLOSED_DOOR);
     feat_is_watery :=
       fun f => bool_decide (f = DNGN_DEEP_WATER)
                || bool_decide (f = DNGN_SHALLOW_WATER);
     feat_destroys_items :=
       fun f => bool_decide (f = DNGN_LAVA)
                || bool_decide (f = DNGN_DEEP_WATER);
     is_sanctuary := fun _ _ => false;
     veto_disintegrate := fun _ _ => false;
     ray_pos := fun r => r.1;
     ray_advance := fun r => (coord_add r.1 r.2, r.2);
     ray_regress := fun r => (coord_sub r.1 r.2, r.2);
     ray_bounce := fun r _ => (r.1, (- r.2.1, - r.2.2));
     find_ray := fun _ s t _ => Some (s, sgn_step s t);
     fallback_ray := fun s t _ => (s, sgn_step s t);
     chaos_shift_bounds := fun _ _ => (0, 0);
     ray_shift := fun _ new_ray _ => new_ray;
     you_see_cell := fun _ _ => true;
     player_can_hear := fun _ _ => true;
     you_flag := fun w f => bool_decide (f ∈ other w);
     you_stat := fun _ _ => 0;
     monster_at := fun w p => toy_monster_from 0 (menv w) p;
     invalid_monster_index := fun i => (i <? 0) || (350 <=? i);
     mon_flag := toy_mon_flag;
     mon_stat := fun _ mid f => match f with
                                | M_mindex => Z.of_nat mid
                                | _ => 0
                                end;
     mons_power := fun _ => 1;
     mons_attitude := fun w mid => mon_attitude (mon_of w mid);
     mons_atts_aligned := fun a b => bool_decide (a = b);
     mons_att_wont_attack :=
       fun a => bool_decide (a = ATT_FRIENDLY)
                || bool_decide (a = ATT_GOOD_NEUTRAL);
     resist_adjust_damage := fun _ _ _ res raw _ => toy_resist res raw;
     item_test := toy_item_test;
     set_item_stationary := fun it => it;
     god_acting := fun _ => false;
     arena := fun _ => false;
     sanctuary_active := fun _ => false;
     can_place_fungus := fun _ _ => false;
     cloud_type_of := fun _ _ => 0;
     cloud_ord := fun c => match c with
                           | CLOUD_FIRE => 1 | CLOUD_STINK => 2
                           | CLOUD_COLD => 3 | CLOUD_POISON => 4
                           | CLOUD_STEAM => 8 | CLOUD_MIASMA => 9
                           | CLOUD_FOREST_FIRE => 14
                           end;
     dchar_glyph := fun _ => 35;
     colour_of := fun _ => 7;
     zappy := fun _ _ b => b;
     attack_needs_confirm := fun _ _ _ => false;
     range_funcs := [];
     damage_funcs := [];
     hit_funcs := [];
     aoe_funcs := [];
     extern := toy_extern |}.

(** The streams of a run: every draw is [0], every answer is yes. *)
Definition toy_io : io_state :=
  {| draws := fun _ => 0; drawn := 0; forks := fun _ _ => 0;
     answers := fun _ => true; asked := 0; emitted := [] |}.

Definition toy_player (p : coord_def) : player :=
  {| you_pos := p; hp := 50; experience_level := 5; religion := GOD_NO_GOD;
     piety := 0; pet_target := 10000; inv := [] |}.

Definition toy_monster (p : coord_def) (att : mon_attitude_type) : monsters :=
  {| mon_type := MONS_MISC 1; hit_points := 20; max_hit_points := 20;
     ac := 0; ev := 0; hit_dice := 3; mon_attitude := att;
     mon_god := GOD_NO_GOD; mon_pos := p |}.

Fixpoint toy_feature (walls : list (coord_def * dungeon_feature_type))
    (p : coord_def) : dungeon_feature_type :=
  match walls with
  | [] => DNGN_FLOOR
  | (q, f) :: rest => if bool_decide (q = p) then f else toy_feature rest p
  end.

(** Floor everywhere except the cells listed in [walls]. *)
Definition toy_world (walls : list (coord_def * dungeon_feature_type))
    (ms : list monsters) (you_at : coord_def) (flags : toy_other)
  : @world toy_other :=
  {| grd := toy_feature walls;
     cgrid := fun _ => None; menv := ms; you := toy_player you_at;
     mitm := []; other := flags |}.

(** A bolt as the constructor leaves it, aimed from [src] at [tgt]. *)
Definition toy_bolt (src tgt : coord_def) (fl : beam_type) (rng : Z)
    (beamlike tracer : bool) : @beam toy_ray :=
  set_flag is_tracer tracer
    (set_flag is_beam beamlike
       (set_num range rng
          (set_real_flavour fl
             (set_flavour fl
                (set_name "bolt"
                   (set_target tgt
                      (set_source src (bolt_init ((0, 0), (0, 0)))))))))).

Definition toy_state (b : @beam toy_ray) (w : @world toy_other)
  : @state toy_ray toy_other :=
  {| this := b; special_explosion := None; wld := w; io := toy_io |}.

(** ** States of the small game *)

(** A ray from [p] in direction [d]. *)
Definition toy_aim (p d : coord_def) (b : @beam toy_ray) : @beam toy_ray :=
  set_ray (p, d) b.

(** A player's tracer: a single-target cold bolt from (5,5) at (9,5), with
    a hostile monster at (7,5). *)
Definition c1_state : @state toy_ray toy_other :=
  toy_state
    (set_damage {| dice_num := 2; dice_size := 4 |}
       (set_num hit 10
          (set_thrower KILL_YOU_MISSILE
             (toy_bolt (5, 5) (9, 5) BEAM_COLD 6 false true))))
    (toy_world [] [toy_monster (7, 5) ATT_HOSTILE] (5, 5) []).

(** A cold beam from (5,5) eastwards with range 5 and a stone wall at
    (8,5). *)
Definition c2_state : @state toy_ray toy_other :=
  toy_state (toy_bolt (5, 5) (20, 5) BEAM_COLD 5 true false)
    (toy_world [((8, 5), DNGN_STONE_WALL)] [] (5, 5) []).

(** A bolt that affects nothing, aimed at the caster's own cell, and the
    same bolt aimed five cells away. *)
Definition c3_feet : @state toy_ray toy_other :=
  toy_state
    (set_flag affects_nothing true
       (set_thrower KILL_YOU_MISSILE
          (toy_bolt (5, 5) (5, 5) BEAM_COLD 5 true false)))
    (toy_world [] [] (5, 5) []).

Definition c3_away : @state toy_ray toy_other :=
  toy_state
    (set_flag affects_nothing true
       (set_thrower KILL_YOU_MISSILE
          (toy_bolt (5, 5) (10, 5) BEAM_COLD 5 true false)))
    (toy_world [] [] (5, 5) []).

(** A single-target bolt from (5,5) aimed at (7,5), at its target with
    budget left. *)
Definition c4_state : @state toy_ray toy_other :=
  toy_state
    (toy_aim (7, 5) (1, 0)
       (set_num range_used 2
          (set_thrower KILL_YOU_MISSILE
             (toy_bolt (5, 5) (7, 5) BEAM_COLD 6 false false))))
    (toy_world [] [] (5, 5) []).

Definition c4_fired : @state toy_ray toy_other :=
  toy_state
    (set_thrower KILL_YOU_MISSILE
       (toy_bolt (5, 5) (7, 5) BEAM_COLD 6 false false))
    (toy_world [] [] (5, 5) []).

(** A live cold bolt of the monster at (5,5), in the cell (6,5) that the
    player shares with another monster: as a beam, and as a single-target
    bolt. *)
Definition c5_bolt (beamlike : bool) : @beam toy_ray :=
  set_ray ((6, 5), (1, 0))
    (set_num range_used 1
       (set_num beam_source 1
          (set_thrower KILL_MON_MISSILE
             (set_num hit 10
                (set_damage {| dice_num := 2; dice_size := 4 |}
                   (toy_bolt (5, 5) (8, 5) BEAM_COLD 6 beamlike false)))))).

Definition c5_world : @world toy_other :=
  toy_world []
    [toy_monster (6, 5) ATT_HOSTILE; toy_monster (5, 5) ATT_HOSTILE]
    (6, 5) [].

Definition c5_beam : @state toy_ray toy_other :=
  toy_state (c5_bolt true) c5_world.

Definition c5_single : @state toy_ray toy_other :=
  toy_state (c5_bolt false) c5_world.

(** A digging bolt from (5,5) eastwards with range 5 and rock walls at
    (7,5) and (8,5). *)
Definition c6_state : @state toy_ray toy_other :=
  toy_state
    (set_thrower KILL_YOU_MISSILE
       (toy_bolt (5, 5) (20, 5) BEAM_DIGGING 5 true false))
    (toy_world [((7, 5), DNGN_ROCK_WALL); ((8, 5), DNGN_ROCK_WALL)] []
       (5, 5) []).

(** The bolt in the first wall. *)
Definition c6_at_wall : @state toy_ray toy_other :=
  toy_state
    (set_ray ((7, 5), (1, 0))
       (set_num range_used 1
          (set_thrower KILL_YOU_MISSILE
             (toy_bolt (5, 5) (20, 5) BEAM_DIGGING 5 true false))))
    (toy_world [((7, 5), DNGN_ROCK_WALL); ((8, 5), DNGN_ROCK_WALL)] []
       (5, 5) []).

(** The same bolt in a stone wall, which digging does not convert. *)
Definition c6_at_stone : @state toy_ray toy_other :=
  toy_state
    (set_ray ((7, 5), (1, 0))
       (set_num range_used 1
          (set_thrower KILL_YOU_MISSILE
             (toy_bolt (5, 5) (20, 5) BEAM_DIGGING 5 true false))))
    (toy_world [((7, 5), DNGN_STONE_WALL)] [] (5, 5) []).




(** A room with a wall and a statue next to the centre (10,10) of the
    explosion. *)
Definition c9_world : @world toy_other :=
  toy_world [((11, 10), DNGN_STONE_WALL); ((10, 11), DNGN_GRANITE_STATUE);
             ((9, 9), DNGN_ROCK_WALL)] [] (5, 5) [].

Definition c9_bolt : @beam toy_ray :=
  set_ray ((10, 10), (1, 0)) (toy_bolt (5, 10) (10, 10) BEAM_FIRE 6 false false).

(** A cold beam from (5,5) that has come to the stone wall at (8,5). *)
Definition at_wall_state : @state toy_ray toy_other :=
  toy_state (toy_aim (8, 5) (1, 0) (toy_bolt (5, 5) (20, 5) BEAM_COLD 5 true false))
    (toy_world [((8, 5), DNGN_STONE_WALL)] [] (5, 5) []).

(** A large rock thrown by the player from (5,5) at (8,5). *)
Definition rock_state : @state toy_ray toy_other :=
  toy_state
    (set_item (Some {| base_type := 1; sub_type := 5; special := 0;
                       item_flags := 8192 + 1; quantity := 1 |})
       (set_flag was_missile true
          (set_flag drop_item true
             (set_thrower KILL_YOU_MISSILE
                (toy_bolt (5, 5) (8, 5) BEAM_MISSILE 6 false false)))))
    (toy_world [] [] (5, 5) []).

(** * The vocabulary of the proofs *)

Section Vocabulary.

Context {ray_def other_state : Type} {X : @Collaborators ray_def other_state}.

#[local] Abbreviation state := (@state ray_def other_state).
#[local] Abbreviation M := (@M ray_def other_state).
#[local] Abbreviation beam := (@beam ray_def).
#[local] Abbreviation world := (@world other_state).

(** [sat m s Q]: running [m] from [s] gives a value and a state that
    satisfy [Q]. *)
Definition sat {A : Type} (m : M A) (s : state) (Q : A -> state -> Prop)
  : Prop :=
  Q (m s).1 (m s).2.

(** [m] changes nothing but the streams. *)
Definition io_only {A : Type} (m : M A) : Prop :=
  forall s, this (m s).2 = this s
            /\ special_explosion (m s).2 = special_explosion s
            /\ wld (m s).2 = wld s.

(** [m] leaves the bolt as it is. *)
Definition keeps_this {A : Type} (m : M A) : Prop :=
  forall s, this (m s).2 = this s.

(** The invariant of a tracer run that started in the world [w0]. *)
Definition TI (w0 : world) (s : state) : Prop :=
  wld s = w0
  /\ flag (this s) is_tracer = true
  /\ forall sp, special_explosion s = Some sp -> flag sp is_tracer = true.

(** [m] keeps the invariant of tracers. *)
Definition tracer_safe {A : Type} (m : M A) : Prop :=
  forall w0 s, TI w0 s -> sat m s (fun _ s' => TI w0 s').

(** The range hooks return a cost, which is not negative. *)
Definition range_hooks_cost : Prop :=
  Forall (fun f : beam -> world -> actor -> Z -> bool * Z =>
            forall b w v u, 0 <= u -> 0 <= (f b w v u).2)
         range_funcs.

(** The invariant of the budget since a state with budget [R0] of which
    [r0] was used: the budget has not shrunk, the part used has not shrunk,
    and what is left has not grown. *)
Definition RI (R0 r0 : Z) (s : state) : Prop :=
  R0 <= num (this s) range
  /\ r0 <= num (this s) range_used
  /\ num (this s) range - num (this s) range_used <= R0 - r0.

Definition budget_safe {A : Type} (m : M A) : Prop :=
  forall R0 r0 s, r0 <= R0 -> RI R0 r0 s -> sat m s (fun _ s' => RI R0 r0 s').

(** The state a tracer is fired again from: the bolt, its special
    explosion and the seeded streams are those of [s0]; the world is what
    the runs so far left. *)
Definition refire (s0 s : state) : state :=
  {| this := this s0; special_explosion := special_explosion s0;
     wld := wld s; io := io s0 |}.

(** What a tracer predicts: the tallies of friends and foes, whether the
    firing was cancelled, and whether the player was warned. *)
Definition predictions (s : state)
  : tracer_info * tracer_info * bool * bool :=
  (friend_info (this s), foe_info (this s), flag (this s) beam_cancelled,
   flag (this s) dont_stop_player).

(** The two calls [digging_wall_effect] makes after it has changed the
    grid, [set_terrain_changed] and [env.pgrid &= ~FPROP_BLOODY], record
    the change and leave the grid alone. *)
Definition digging_calls_keep_grid : Prop :=
  forall (p : coord_def) (w : world) (i : io_state),
    grd (extern (set_terrain_changed p) w i).1.2 = grd w
    /\ grd (extern (clear_bloody p) w i).1.2 = grd w.

(** What [affect_wall] keeps once the wall at [p] is dug: the grid [g], the
    position, and the budget. *)
Definition dug (g : coord_def -> dungeon_feature_type) (p : coord_def)
    (R r : Z) (s : state) : Prop :=
  grd (wld s) = g /\ pos (this s) = p
  /\ num (this s) range = R /\ num (this s) range_used = r.

(** What [affect_wall] leaves of a bolt that a wall has finished. *)
Definition stopped (w : world) (R : Z) (s : state) : Prop :=
  wld s = w /\ num (this s) range = R /\ num (this s) range_used = R.

(** ** Frames, logs and bolts that affect nothing *)

(** [m] leaves the part [part] of the bolt as it is. *)
Definition keeps {T A : Type} (part : beam -> T) (m : M A) : Prop :=
  forall s, part (this (m s).2) = part (this s).

(** The flags of a bolt that say who fires what, and in which mode. *)
Definition fixed_flags : list bool_field :=
  [ is_tracer; is_beam; is_explosion; is_big_cloud; affects_nothing;
    affects_items; drop_item; was_missile; can_see_invis; smart_monster;
    effect_known; chose_ray ].

Definition fixed_part (b : beam)
  : killer_type * mon_attitude_type * string * Z * Z * Z * list bool :=
  (thrower b, attitude b, noise_msg b, num b beam_source,
   num b ench_power, num b foe_ratio, map (flag b) fixed_flags).

(** The same with the cells visited so far. *)
Definition fixed_full (b : beam) :=
  (fixed_part b, path_taken b).

(** Every cell visited so far is inside the map. *)
Definition path_in_bounds (s : state) : Prop :=
  Forall (fun p => in_bounds p = true) (path_taken (this s)).

(** The cells the loop can still visit: one, and one more for every unit of
    range left after the first step has been paid for. *)
Definition cells_left (av : bool) (s : state) : Z :=
  let left := num (this s) range - num (this s) range_used in
  if av then left + 1 else Z.max left 1.

(** An event that is text: a message or a prompt, not a cell drawn and not
    a pause. *)
Definition is_text (e : event) : bool :=
  match e with
  | Msg _ _ | Prompt _ => true
  | DrawCell _ | DrawExplosion _ | Delay _ => false
  end.

(** Since the log was [E], text only was added to it. *)
Definition text_since (E : list event) (i : io_state) : Prop :=
  exists l, emitted i = l ++ E /\ forallb is_text l = true.

(** [m] changes the streams only, and adds text only to the log. *)
Definition text_only {A : Type} (m : M A) : Prop :=
  io_only m /\ forall s, text_since (emitted (io s)) (io (m s).2).

(** The invariant of a tracer run that started in the world [w0] with the
    log [E]. *)
Definition QI (w0 : world) (E : list event) (s : state) : Prop :=
  TI w0 s /\ text_since E (io s).

Definition tracer_quiet {A : Type} (m : M A) : Prop :=
  forall w0 E s, QI w0 E s -> sat m s (fun _ s' => QI w0 E s').

(** What [_undo_tracer] puts back. *)
Definition aim_of (b : beam) :=
  (target b, source b, flag b aimed_at_spot, num b range_used,
   flag b auto_hit, ray b, num b colour, flavour b, real_flavour b).

(** What [initialise_fire] has set up once it has dealt with a bolt aimed
    at its own source. *)
Definition aimed (fl0 : beam_type) (t0 : coord_def) (r0 : ray_def)
    (b : beam) : Prop :=
  num b range_used = 0 /\ flag b in_explosion_phase = false
  /\ flavour b = fl0 /\ target b = t0 /\ ray b = r0
  /\ (target b = source b ->
      num b range = 0 /\ flag b aimed_at_feet = true
      /\ flag b auto_hit = true /\ flag b aimed_at_spot = true
      /\ flag b use_target_as_pos = true)
  /\ (target b <> source b -> flag b use_target_as_pos = false).

(** The invariant of a tracer that does not come to its special
    explosion: the world is [w0] and the bolt is a tracer. *)
Definition TW (w0 : world) (s : state) : Prop :=
  wld s = w0 /\ flag (this s) is_tracer = true.

Definition tracer_world {A : Type} (m : M A) : Prop :=
  forall w0 s, TW w0 s -> sat m s (fun _ s' => TW w0 s').

(** The invariant of a firing that affects nothing, started in the world
    [w0]. *)
Definition AN (w0 : world) (s : state) : Prop :=
  wld s = w0 /\ flag (this s) affects_nothing = true.

Definition nothing_safe {A : Type} (m : M A) : Prop :=
  forall w0 s, AN w0 s -> sat m s (fun _ s' => AN w0 s').

(** The firing is one that [apply_beam_conducts] reports to the gods: the
    player's own hellfire, fired for real. *)
Definition unholy_firing (b : beam) : bool :=
  negb (flag b is_tracer) && YOU_KILL (thrower b)
  && flavour_is b BEAM_HELLFIRE.

(** What [do_fire] knows about a bolt aimed at its own source when the
    loop starts. *)
Definition at_own_cell (l : list coord_def) (t0 : coord_def) (b : beam)
  : Prop :=
  path_taken b = l /\ num b range = 0 /\ num b range_used = 0
  /\ flag b aimed_at_feet = true /\ pos b = t0.

(** ** The flood fill of an explosion *)

Section Fill.

Variables (w : world) (b : beam) (r : Z) (sas saw : bool).

(** The cell at offset [delta] passes the callbacks. *)
Definition hits_cell (delta : coord_def) : bool :=
  forallb (fun f => f b w (coord_add (pos b) delta)) aoe_funcs.

(** The offset is inside the 19 by 19 array. *)
Definition in_map (delta : coord_def) : bool :=
  negb (rdist centre <? rdist delta).

(** [determine_affected_cells_in] with a second map that records the
    smallest [count] of every execution of the body, whether the cell
    passes the callbacks or not. *)
Fixpoint dfs_both (fuel : nat) (dirs : list coord_def)
    (mg : gmap (Z * Z) Z * gmap (Z * Z) Z) (delta : coord_def) (count : Z)
  : gmap (Z * Z) Z * gmap (Z * Z) Z :=
  match fuel with
  | O => mg
  | S n =>
      if (10 * r <? count) || negb (cell_open w b r sas saw delta) then mg
      else
        let k := coord_add delta centre in
        let m := if hits_cell delta
                 then <[k := Z.min count (exp_get mg.1 k)]> mg.1 else mg.1 in
        let g := <[k := Z.min count (exp_get mg.2 k)]> mg.2 in
        foldl
          (fun mg d =>
             let new_delta := coord_add delta d in
             if rdist centre <? rdist new_delta then mg
             else if exp_get mg.1 (coord_add new_delta centre) <=? count
             then mg
             else dfs_both n dirs mg new_delta (count + cadd delta d))
          (m, g) dirs
  end.

(** The executions of the body the recursion can make with the directions
    [dirs]: at the centre with count 0, and from an execution to a
    neighbour inside the array that can be entered within the budget. *)
Inductive reach (dirs : list coord_def) : coord_def -> Z -> Prop :=
| reach_start :
    cell_open w b r sas saw (0, 0) = true -> 0 <= 10 * r ->
    reach dirs (0, 0) 0
| reach_step (v d : coord_def) (t : Z) :
    reach dirs v t -> d ∈ dirs ->
    in_map (coord_add v d) = true ->
    cell_open w b r sas saw (coord_add v d) = true ->
    t + cadd v d <= 10 * r ->
    reach dirs (coord_add v d) (t + cadd v d).

Definition key (v : coord_def) : Z * Z := coord_add v centre.

(** The map [m] is the part of [g] on the cells that pass the callbacks. *)
Definition link (m g : gmap (Z * Z) Z) : Prop :=
  forall v, m !! key v = if hits_cell v then g !! key v else None.

Definition sound (dirs : list coord_def) (g : gmap (Z * Z) Z) : Prop :=
  forall v t, g !! key v = Some t -> reach dirs v t.

(** [g'] has a value, not greater, wherever [g] has one. *)
Definition below (g g' : gmap (Z * Z) Z) : Prop :=
  forall v t, g !! key v = Some t ->
              exists t', g' !! key v = Some t' /\ t' <= t.

(** The execution at [v] with count [t] has dealt with direction [d]. *)
Definition relaxed (g : gmap (Z * Z) Z) (v : coord_def) (t : Z)
    (d : coord_def) : Prop :=
  in_map (coord_add v d) = true ->
  cell_open w b r sas saw (coord_add v d) = true ->
  t + cadd v d <= 10 * r ->
  exists t', g !! key (coord_add v d) = Some t' /\ t' <= t + cadd v d.

Definition closed_at (dirs : list coord_def) (g : gmap (Z * Z) Z)
    (v : coord_def) (t : Z) : Prop :=
  forall d, d ∈ dirs -> relaxed g v t d.

Section Order.

Variable dirs : list coord_def.

(** What a call establishes. *)
Definition dfs_post (g g' : gmap (Z * Z) Z) (m' : gmap (Z * Z) Z)
    (delta : coord_def) (count : Z) : Prop :=
  link m' g' /\ sound dirs g' /\ below g g'
  /\ (count <= 10 * r -> cell_open w b r sas saw delta = true ->
      exists t', g' !! key delta = Some t' /\ t' <= count)
  /\ (forall v t, g' !! key v = Some t ->
                  g !! key v = Some t \/ closed_at dirs g' v t).

(** What the loop over the directions keeps: [g] is the map the call was
    entered with, and the execution at [delta] with [count] is the one in
    progress. *)
Definition loop_inv (g gi mi : gmap (Z * Z) Z) (delta : coord_def)
    (count : Z) : Prop :=
  link mi gi /\ sound dirs gi
  /\ (forall v t, gi !! key v = Some t ->
                  g !! key v = Some t \/ closed_at dirs gi v t
                  \/ (v = delta /\ t = count)).

End Order.

End Fill.

End Vocabulary.

(** * Reasoning about runs *)

Section Logic.

Context {ray_def other_state : Type} {X : @Collaborators ray_def other_state}.

#[local] Abbreviation state := (@state ray_def other_state).
#[local] Abbreviation M := (@M ray_def other_state).
#[local] Abbreviation beam := (@beam ray_def).
#[local] Abbreviation world := (@world other_state).

#[local] Abbreviation sat :=
  (sat (ray_def := ray_def) (other_state := other_state)).
#[local] Abbreviation io_only :=
  (io_only (ray_def := ray_def) (other_state := other_state)).
#[local] Abbreviation keeps_this :=
  (keeps_this (ray_def := ray_def) (other_state := other_state)).

Lemma sat_ret {A : Type} (a : A) (s : state) (Q : A -> state -> Prop) :
  Q a s -> sat (mret a) s Q.
Proof. exact (fun H => H). Qed.

Lemma sat_bind {A B : Type} (m : M A) (k : A -> M B) (s : state)
    (Q : B -> state -> Prop) :
  sat m s (fun a s' => sat (k a) s' Q) -> sat (m ≫= k) s Q.
Proof.
  unfold sat, mbind, M_bind. destruct (m s) as [a s']. exact (fun H => H).
Qed.

Lemma sat_conseq {A : Type} (m : M A) (s : state)
    (Q Q' : A -> state -> Prop) :
  sat m s Q' -> (forall a s', Q' a s' -> Q a s') -> sat m s Q.
Proof. unfold sat. auto. Qed.

(** Sequencing through an invariant: what [k] needs to know about the state
    [m] leaves is [I]. *)
Lemma sat_bind_cut {A B : Type} (I : state -> Prop) (m : M A)
    (k : A -> M B) (s : state) (Q : B -> state -> Prop) :
  sat m s (fun _ s' => I s') ->
  (forall a s', I s' -> sat (k a) s' Q) ->
  sat (m ≫= k) s Q.
Proof.
  intros Hm Hk. apply sat_bind. eapply sat_conseq; [exact Hm|].
  intros a s' H. apply Hk, H.
Qed.

Lemma sat_gets {A : Type} (f : state -> A) (s : state)
    (Q : A -> state -> Prop) :
  Q (f s) s -> sat (gets f) s Q.
Proof. exact (fun H => H). Qed.

Lemma sat_upd (f : beam -> beam) (s : state) (Q : unit -> state -> Prop) :
  Q tt {| this := f (this s); special_explosion := special_explosion s;
          wld := wld s; io := io s |} ->
  sat (upd f) s Q.
Proof. exact (fun H => H). Qed.

Lemma sat_upd_special (f : beam -> beam) (s : state)
    (Q : unit -> state -> Prop) :
  Q tt {| this := this s; special_explosion := f <$> special_explosion s;
          wld := wld s; io := io s |} ->
  sat (upd_special f) s Q.
Proof. exact (fun H => H). Qed.

Lemma sat_upd_world (f : world -> world) (s : state)
    (Q : unit -> state -> Prop) :
  Q tt {| this := this s; special_explosion := special_explosion s;
          wld := f (wld s); io := io s |} ->
  sat (upd_world f) s Q.
Proof. exact (fun H => H). Qed.

Lemma sat_io_only {A : Type} (m : M A) (s : state)
    (Q : A -> state -> Prop) :
  io_only m ->
  (forall a i, Q a {| this := this s;
                      special_explosion := special_explosion s;
                      wld := wld s; io := i |}) ->
  sat m s Q.
Proof.
  intros Hm HQ. unfold sat. destruct (Hm s) as (H1 & H2 & H3).
  destruct (m s) as [a [b sp w i]]. simpl in *. subst. apply HQ.
Qed.

(** ** The primitives that only touch the streams *)

Lemma io_only_ret {A : Type} (a : A) : io_only (mret a : M A).
Proof. intros s. auto. Qed.

Lemma io_only_bind {A B : Type} (m : M A) (k : A -> M B) :
  io_only m -> (forall a, io_only (k a)) -> io_only (m ≫= k).
Proof.
  intros Hm Hk s. unfold mbind, M_bind.
  destruct (Hm s) as (H1 & H2 & H3). destruct (m s) as [a s']. simpl in *.
  destruct (Hk a s') as (K1 & K2 & K3). repeat split; congruence.
Qed.

Lemma io_only_gets {A : Type} (f : state -> A) : io_only (gets f).
Proof. intros s. auto. Qed.

Lemma io_only_upd_io (f : io_state -> io_state) : io_only (upd_io f).
Proof. intros s. auto. Qed.

Lemma io_only_if {A : Type} (c : bool) (m1 m2 : M A) :
  io_only m1 -> io_only m2 -> io_only (if c then m1 else m2).
Proof. destruct c; auto. Qed.

Lemma io_only_emit (e : event) : io_only (emit e).
Proof. apply io_only_upd_io. Qed.

Lemma io_only_mpr (text : string) (chan : msg_channel_type) :
  io_only (mpr text chan).
Proof. apply io_only_emit. Qed.

Lemma io_only_yesno (text : string) : io_only (yesno text).
Proof.
  unfold yesno.
  repeat (apply io_only_bind; [|intros ?]);
    auto using io_only_emit, io_only_gets, io_only_upd_io, io_only_ret.
Qed.

Lemma io_only_random_int : io_only random_int.
Proof.
  unfold random_int.
  repeat (apply io_only_bind; [|intros ?]);
    auto using io_only_gets, io_only_upd_io, io_only_ret.
Qed.

Lemma io_only_random2 (max : Z) : io_only (random2 max).
Proof.
  unfold random2. apply io_only_if; [apply io_only_ret|].
  apply io_only_bind; [apply io_only_random_int|intros; apply io_only_ret].
Qed.

Lemma io_only_coinflip : io_only coinflip.
Proof.
  apply io_only_bind; [apply io_only_random2|intros; apply io_only_ret].
Qed.

Lemma io_only_one_chance_in (n : Z) : io_only (one_chance_in n).
Proof.
  apply io_only_bind; [apply io_only_random2|intros; apply io_only_ret].
Qed.

Lemma io_only_x_chance_in_y (x y : Z) : io_only (x_chance_in_y x y).
Proof.
  unfold x_chance_in_y. repeat apply io_only_if; try apply io_only_ret.
  apply io_only_bind; [apply io_only_random2|intros; apply io_only_ret].
Qed.

Lemma io_only_random_range (low high : Z) : io_only (random_range low high).
Proof.
  apply io_only_bind; [apply io_only_random2|intros; apply io_only_ret].
Qed.

Lemma io_only_foldr_draws {B : Type} (l : list B) (n : Z) (m0 : M Z) :
  io_only m0 ->
  io_only (foldr (fun _ acc => a ← acc; r ← random2 n; mret (a + r)) m0 l).
Proof.
  intros H0. induction l as [|x l IH]; simpl; [exact H0|].
  apply io_only_bind; [exact IH|intros a].
  apply io_only_bind; [apply io_only_random2|intros; apply io_only_ret].
Qed.

Lemma io_only_random2avg (max : Z) (rolls : nat) :
  io_only (random2avg max rolls).
Proof.
  unfold random2avg. apply io_only_bind; [apply io_only_random2|intros a].
  apply io_only_bind; [|intros; apply io_only_ret].
  apply io_only_foldr_draws, io_only_ret.
Qed.

Lemma io_only_roll_dice (d : dice_def) : io_only (roll_dice d).
Proof.
  unfold roll_dice. apply io_only_if; [|apply io_only_ret].
  apply io_only_foldr_draws, io_only_ret.
Qed.

Lemma io_only_maybe_random2 (x : Z) (f : bool) : io_only (maybe_random2 x f).
Proof.
  unfold maybe_random2.
  apply io_only_if; [apply io_only_random2|apply io_only_ret].
Qed.

Lemma io_only_new_defer_rand : io_only new_defer_rand.
Proof.
  unfold new_defer_rand.
  repeat (apply io_only_bind; [|intros ?]);
    auto using io_only_gets, io_only_upd_io, io_only_ret.
Qed.

Lemma io_only_mpr_all (chan : msg_channel_type) (l : list string) :
  io_only (mpr_all chan l).
Proof.
  unfold mpr_all. induction l as [|x l IH]; simpl; [apply io_only_ret|].
  apply io_only_bind; [apply io_only_mpr|intros; exact IH].
Qed.

Lemma io_only_run_hit_funcs (victim : actor) (dmg corpse : Z) :
  io_only (run_hit_funcs victim dmg corpse).
Proof.
  unfold run_hit_funcs.
  repeat (apply io_only_bind; [|intros ?]);
    auto using io_only_gets, io_only_ret.
Qed.

Lemma io_only_explode_delay (base : Z) : io_only (explode_delay base).
Proof.
  unfold explode_delay.
  apply io_only_bind; [apply io_only_gets|intros; apply io_only_emit].
Qed.

Lemma io_only_explosion_draw_cell (p : coord_def) :
  io_only (explosion_draw_cell p).
Proof.
  unfold explosion_draw_cell, when.
  apply io_only_bind; [apply io_only_gets|intros].
  apply io_only_if; [apply io_only_emit|apply io_only_ret].
Qed.

Lemma io_only_stop_attack_prompt (mon : nat) (t : coord_def) :
  io_only (stop_attack_prompt mon t).
Proof.
  unfold stop_attack_prompt.
  apply io_only_bind; [apply io_only_gets|intros].
  apply io_only_if; [|apply io_only_ret].
  apply io_only_bind; [apply io_only_yesno|intros; apply io_only_ret].
Qed.

Lemma io_only_potion_colour (fl : beam_type) :
  io_only (_potion_beam_flavour_to_colour fl).
Proof.
  destruct fl; simpl; try apply io_only_ret;
    (apply io_only_bind; [apply io_only_coinflip|intros; apply io_only_ret]).
Qed.

(** ** What leaves the bolt as it is *)

Lemma io_only_keeps_this {A : Type} (m : M A) : io_only m -> keeps_this m.
Proof. intros H s. apply H. Qed.

Lemma keeps_this_ret {A : Type} (a : A) : keeps_this (mret a : M A).
Proof. intros s. reflexivity. Qed.

Lemma keeps_this_bind {A B : Type} (m : M A) (k : A -> M B) :
  keeps_this m -> (forall a, keeps_this (k a)) -> keeps_this (m ≫= k).
Proof.
  intros Hm Hk s. unfold mbind, M_bind.
  specialize (Hm s). destruct (m s) as [a s']. simpl in *.
  rewrite Hk. exact Hm.
Qed.

Lemma keeps_this_if {A : Type} (c : bool) (m1 m2 : M A) :
  keeps_this m1 -> keeps_this m2 -> keeps_this (if c then m1 else m2).
Proof. destruct c; auto. Qed.

Lemma keeps_this_call (c : extern_call) : keeps_this (call c).
Proof.
  intros s. unfold call. destruct (extern c (wld s) (io s)) as [[r w] i].
  reflexivity.
Qed.

Lemma keeps_this_call_ (c : extern_call) : keeps_this (call_ c).
Proof.
  apply keeps_this_bind; [apply keeps_this_call|intros; apply keeps_this_ret].
Qed.

Lemma keeps_this_callb (c : extern_call) : keeps_this (callb c).
Proof.
  apply keeps_this_bind; [apply keeps_this_call|intros; apply keeps_this_ret].
Qed.

Lemma keeps_this_upd_world (f : world -> world) : keeps_this (upd_world f).
Proof. intros s. reflexivity. Qed.

Lemma keeps_this_smm (monster : nat) (text : string) :
  keeps_this (smm monster text).
Proof. apply keeps_this_call_. Qed.

Lemma keeps_this_place (ct : cloud_type) (p : coord_def) (base n : Z) :
  keeps_this (place ct p base n).
Proof.
  unfold place.
  apply keeps_this_bind; [apply io_only_keeps_this, io_only_random2|intros].
  apply keeps_this_bind; [apply io_only_keeps_this, io_only_gets|intros].
  apply keeps_this_bind; [apply io_only_keeps_this, io_only_gets|intros].
  apply keeps_this_call_.
Qed.

Lemma sat_keeps_this {A : Type} (m : M A) (s : state)
    (Q : A -> state -> Prop) :
  keeps_this m ->
  (forall a sp w i, Q a {| this := this s; special_explosion := sp;
                           wld := w; io := i |}) ->
  sat m s Q.
Proof.
  intros Hm HQ. unfold sat. specialize (Hm s).
  destruct (m s) as [a [b sp w i]]. simpl in *. subst. apply HQ.
Qed.

Lemma sat_elim {A : Type} (m : M A) (s : state) (Q : A -> state -> Prop) :
  sat m s Q -> Q (m s).1 (m s).2.
Proof. exact (fun H => H). Qed.

Lemma sat_intro {A : Type} (m : M A) (s : state) (Q : A -> state -> Prop) :
  Q (m s).1 (m s).2 -> sat m s Q.
Proof. exact (fun H => H). Qed.

Lemma sat_trivial {A : Type} (m : M A) (s : state) :
  sat m s (fun _ _ => True).
Proof. exact I. Qed.

Lemma sat_call (c : extern_call) (s : state) (Q : Z -> state -> Prop) :
  (forall r w i, extern c (wld s) (io s) = (r, w, i) ->
                 Q r {| this := this s;
                        special_explosion := special_explosion s;
                        wld := w; io := i |}) ->
  sat (call c) s Q.
Proof.
  intros H. apply sat_intro. unfold call.
  destruct (extern c (wld s) (io s)) as [[r w] i]. simpl. apply H.
  reflexivity.
Qed.

Lemma sat_call_ (c : extern_call) (s : state) (Q : unit -> state -> Prop) :
  (forall r w i, extern c (wld s) (io s) = (r, w, i) ->
                 Q tt {| this := this s;
                         special_explosion := special_explosion s;
                         wld := w; io := i |}) ->
  sat (call_ c) s Q.
Proof.
  intros H. unfold call_. apply sat_bind, sat_call. intros r w i E.
  apply sat_ret. exact (H r w i E).
Qed.

End Logic.

#[global] Opaque sat.

Create HintDb io_only discriminated.
#[global] Hint Resolve io_only_ret io_only_gets io_only_upd_io io_only_emit
  io_only_mpr io_only_yesno io_only_random_int io_only_random2
  io_only_coinflip io_only_one_chance_in io_only_x_chance_in_y
  io_only_random_range io_only_random2avg io_only_roll_dice
  io_only_maybe_random2 io_only_new_defer_rand io_only_mpr_all
  io_only_run_hit_funcs io_only_explode_delay io_only_explosion_draw_cell
  io_only_stop_attack_prompt io_only_potion_colour : io_only.

Create HintDb keeps_this discriminated.
#[global] Hint Resolve keeps_this_ret keeps_this_call keeps_this_call_
  keeps_this_callb keeps_this_upd_world keeps_this_smm keeps_this_place
  : keeps_this.
#[global] Hint Extern 5 (keeps_this _) =>
  (apply io_only_keeps_this; solve [auto with io_only]) : keeps_this.

(** * Tactics *)

(** Closes a goal whose hypotheses on boolean tests contradict each other. *)
Ltac bool_contra :=
  repeat match goal with
    | H : _ && _ = true |- _ => apply andb_prop in H; destruct H
    | H : _ || _ = false |- _ => apply orb_false_elim in H; destruct H
    | H : negb _ = true |- _ => apply negb_true_iff in H
    | H : negb _ = false |- _ => apply negb_false_iff in H
    end;
  congruence.

(** Walks through a computation: [intro_inv] names what is known after a
    step, [leaf] proves a primitive step or a call. *)
Ltac wp_walk I intro_inv leaf :=
  lazymatch goal with
  | |- sat (mret _) _ _ => apply sat_ret; cbv beta; leaf
  | |- sat (gets _ ≫= _) _ _ =>
      apply sat_bind, sat_gets; cbv beta; wp_walk I intro_inv leaf
  | |- sat (gets _) _ _ => apply sat_gets; cbv beta; leaf
  | |- sat (_ ≫= _) _ _ =>
      apply (sat_bind_cut I);
      [ wp_walk I intro_inv leaf
      | let a := fresh "a" in
        let s := fresh "s" in
        let H := fresh "HI" in
        intros a s H; cbv beta; intro_inv H; wp_walk I intro_inv leaf ]
  | |- sat (if ?c then _ else _) _ _ =>
      let E := fresh "E" in
      destruct c eqn:E;
      try (exfalso; clear - E; bool_contra);
      try (exfalso; bool_contra);
      wp_walk I intro_inv leaf
  | |- sat (match ?x with _ => _ end) _ _ =>
      let E := fresh "E" in
      destruct x eqn:E; wp_walk I intro_inv leaf
  | |- sat (when _ _) _ _ => unfold when at 1; wp_walk I intro_inv leaf
  | |- _ => leaf
  end.

Section Scaling.

Context {ray_def other_state : Type} {X : @Collaborators ray_def other_state}.

#[local] Abbreviation state := (@state ray_def other_state).
#[local] Abbreviation M := (@M ray_def other_state).

Lemma mons_adjust_flavoured_silent_state (monster : nat) (hurted : Z)
    (s : state) :
  (mons_adjust_flavoured monster hurted false s).2 = s.
Proof.
  unfold mons_adjust_flavoured.
  cbv [mbind M_bind mret M_ret gets when]. simpl.
  rewrite ?andb_false_r.
  destruct (flavour (this s)); simpl; try reflexivity.
  all: repeat (case_match; simplify_eq/=; try reflexivity).
Qed.

Lemma mons_adjust_flavoured_same_value (monster : nat) (hurted : Z)
    (s : state) :
  (mons_adjust_flavoured monster hurted true s).1
  = (mons_adjust_flavoured monster hurted false s).1.
Proof.
  unfold mons_adjust_flavoured.
  cbv [mbind M_bind mret M_ret gets when]. simpl.
  rewrite ?andb_false_r, ?andb_true_r.
  destruct (flavour (this s)); simpl; try reflexivity.
  all: repeat (case_match; simplify_eq/=; try reflexivity).
Qed.

Lemma io_only_mons_adjust_flavoured_silent (monster : nat) (hurted : Z) :
  io_only (mons_adjust_flavoured (X := X) monster hurted false).
Proof.
  intros s. rewrite mons_adjust_flavoured_silent_state. auto.
Qed.

End Scaling.

#[global] Hint Resolve io_only_mons_adjust_flavoured_silent : io_only.

(** * Tracers leave the world alone *)

Section Tracer.

Context {ray_def other_state : Type} {X : @Collaborators ray_def other_state}.

#[local] Abbreviation state := (@state ray_def other_state).
#[local] Abbreviation M := (@M ray_def other_state).
#[local] Abbreviation beam := (@beam ray_def).
#[local] Abbreviation world := (@world other_state).

Lemma TI_io_only {A : Type} (m : M A) : io_only m -> tracer_safe m.
Proof.
  intros Hm w0 s H. apply sat_io_only; [exact Hm|]. intros _ i. exact H.
Qed.

Lemma TI_upd (f : beam -> beam) (w0 : world) (s : state) :
  TI w0 s -> flag (f (this s)) is_tracer = true ->
  sat (upd f) s (fun _ s' => TI w0 s').
Proof.
  intros (Hw & Ht & Hs) Hf. apply sat_upd. repeat split; auto.
Qed.

Lemma TI_upd_special (f : beam -> beam) (w0 : world) (s : state) :
  TI w0 s ->
  (forall sp, flag sp is_tracer = true -> flag (f sp) is_tracer = true) ->
  sat (upd_special f) s (fun _ s' => TI w0 s').
Proof.
  intros (Hw & Ht & Hs) Hf. apply sat_upd_special. repeat split; auto.
  simpl. intros sp Hsp. destruct (special_explosion s) as [sp0|]; [|done].
  simpl in Hsp. injection Hsp as <-. apply Hf, Hs. reflexivity.
Qed.

(** Running [m] on the special explosion. *)
Lemma TI_on_special {A : Type} (m : M A) : tracer_safe m ->
  tracer_safe (on_special m).
Proof.
  intros Hm w0 s (Hw & Ht & Hs).
  apply sat_intro. unfold on_special.
  destruct (special_explosion s) as [sp|] eqn:E; simpl.
  - assert (H1 : TI w0 {| this := sp; special_explosion := None;
                          wld := wld s; io := io s |}).
    { repeat split; simpl; auto. intros ? [=]. }
    apply Hm in H1.
    apply sat_elim in H1. destruct (m _) as [a s']. simpl in *.
    destruct H1 as (K1 & K2 & K3). repeat split; simpl; auto.
    intros ? [= <-]. exact K2.
  - repeat split; auto. rewrite E. intros ? [=].
Qed.

End Tracer.

Ltac ti_intro H :=
  let Hw := fresh "Hw" in
  let Ht := fresh "Ht" in
  let Hs := fresh "Hs" in
  pose proof H as (Hw & Ht & Hs).

Ltac flag_simpl :=
  simpl;
  repeat match goal with
    | |- context [if ?c then _ else _] => destruct c; simpl
    end;
  try assumption; try reflexivity.

Create HintDb ti discriminated.
#[global] Hint Extern 5 (tracer_safe _) =>
  (apply TI_io_only; solve [auto with io_only]) : ti.

Ltac ti_leaf :=
  first
    [ assumption
    | match goal with
      | H : TI _ ?s |- sat (upd _) ?s _ =>
          apply (TI_upd _ _ _ H); flag_simpl
      | H : TI _ ?s |- sat (set_fl _ _) ?s _ =>
          apply (TI_upd _ _ _ H); flag_simpl
      | H : TI _ ?s |- sat (set_nm _ _) ?s _ =>
          apply (TI_upd _ _ _ H); flag_simpl
      | H : TI _ ?s |- sat (add_nm _ _) ?s _ =>
          apply (TI_upd _ _ _ H); flag_simpl
      | H : TI _ ?s |- sat (upd_friend _) ?s _ =>
          apply (TI_upd _ _ _ H); flag_simpl
      | H : TI _ ?s |- sat (upd_foe _) ?s _ =>
          apply (TI_upd _ _ _ H); flag_simpl
      | H : TI _ ?s |- sat (finish_beam) ?s _ =>
          apply (TI_upd _ _ _ H); flag_simpl
      | H : TI _ ?s |- sat (upd_special _) ?s _ =>
          apply (TI_upd_special _ _ _ H); intros; flag_simpl
      | H : TI ?w ?s |- sat ?m ?s _ =>
          let K := fresh "K" in
          assert (K : tracer_safe m) by (auto with ti);
          exact (K w s H)
      end ].

Ltac ti_walk :=
  lazymatch goal with
  | H : TI ?w0 ?s |- sat _ ?s _ =>
      let I := lazymatch type of H with ?I _ => I end in
      ti_intro H; cbv zeta;
      wp_walk I ltac:(fun K => ti_intro K) ltac:(idtac; try ti_leaf)
  end.

Section TracerSteps.

Context {ray_def other_state : Type} {X : @Collaborators ray_def other_state}.

#[local] Abbreviation state := (@state ray_def other_state).
#[local] Abbreviation M := (@M ray_def other_state).

Lemma TI_fake_flavour : tracer_safe (fake_flavour (X := X)).
Proof. intros w0 s H. unfold fake_flavour, _chaos_beam_flavour. ti_walk. Qed.

Lemma TI_affect_wall : tracer_safe (affect_wall (X := X)).
Proof. intros w0 s H. unfold affect_wall. ti_walk. Qed.

Lemma TI_munge_tries (n : nat) (r1 r2 : ray_def) :
  tracer_safe (munge_tries (X := X) n r1 r2).
Proof.
  induction n as [|n IH]; intros w0 s H; simpl.
  - ti_walk.
  - destruct (chaos_shift_bounds r1 r2) as [lo hi]. ti_walk.
Qed.
#[local] Hint Resolve TI_fake_flavour TI_affect_wall TI_munge_tries : ti.

Lemma TI_munge_bounced_bolt (b : beam) (r : ray_def) :
  tracer_safe (_munge_bounced_bolt (X := X) b r).
Proof. intros w0 s H. unfold _munge_bounced_bolt. ti_walk. Qed.
#[local] Hint Resolve TI_munge_bounced_bolt : ti.

Lemma TI_bounce : tracer_safe (bounce (X := X)).
Proof. intros w0 s H. unfold bounce. ti_walk. Qed.
#[local] Hint Resolve TI_bounce : ti.

Lemma TI_hit_wall : tracer_safe (hit_wall (X := X)).
Proof. intros w0 s H. unfold hit_wall. ti_walk. Qed.
#[local] Hint Resolve TI_hit_wall : ti.

Lemma TI_use_range_on_hit (v : actor) :
  tracer_safe (use_range_on_hit (X := X) v).
Proof. intros w0 s H. unfold use_range_on_hit. ti_walk. Qed.
#[local] Hint Resolve TI_use_range_on_hit : ti.

Lemma TI_choose_ray : tracer_safe (choose_ray (X := X)).
Proof. intros w0 s H. unfold choose_ray. ti_walk. Qed.
#[local] Hint Resolve TI_choose_ray : ti.

Lemma TI_fuzz_invis_tracer : tracer_safe (fuzz_invis_tracer (X := X)).
Proof. intros w0 s H. unfold fuzz_invis_tracer. ti_walk. Qed.
#[local] Hint Resolve TI_fuzz_invis_tracer : ti.

Lemma TI_tracer_affect_player : tracer_safe (tracer_affect_player (X := X)).
Proof. intros w0 s H. unfold tracer_affect_player. ti_walk. Qed.
#[local] Hint Resolve TI_tracer_affect_player : ti.

Lemma TI_affect_player : tracer_safe (affect_player (X := X)).
Proof. intros w0 s H. unfold affect_player. ti_walk. Qed.
#[local] Hint Resolve TI_affect_player : ti.

Lemma TI_handle_stop_attack_prompt (mon : nat) :
  tracer_safe (handle_stop_attack_prompt (X := X) mon).
Proof. intros w0 s H. unfold handle_stop_attack_prompt. ti_walk. Qed.
#[local] Hint Resolve TI_handle_stop_attack_prompt : ti.

Lemma TI_determine_damage (mon : nat) :
  tracer_safe (determine_damage (X := X) mon).
Proof. intros w0 s H. unfold determine_damage. ti_walk. Qed.
#[local] Hint Resolve TI_determine_damage : ti.

Lemma TI_tracer_enchantment_affect_monster (mon : nat) :
  tracer_safe (tracer_enchantment_affect_monster (X := X) mon).
Proof. intros w0 s H. unfold tracer_enchantment_affect_monster. ti_walk. Qed.

Lemma TI_tracer_nonenchantment_affect_monster (mon : nat) :
  tracer_safe (tracer_nonenchantment_affect_monster (X := X) mon).
Proof.
  intros w0 s H. unfold tracer_nonenchantment_affect_monster. ti_walk.
Qed.
#[local] Hint Resolve TI_tracer_enchantment_affect_monster
  TI_tracer_nonenchantment_affect_monster : ti.

Lemma TI_tracer_affect_monster (mon : nat) :
  tracer_safe (tracer_affect_monster (X := X) mon).
Proof. intros w0 s H. unfold tracer_affect_monster. ti_walk. Qed.
#[local] Hint Resolve TI_tracer_affect_monster : ti.

Lemma TI_affect_monster (mon : nat) :
  tracer_safe (affect_monster (X := X) mon).
Proof. intros w0 s H. unfold affect_monster. ti_walk. Qed.
#[local] Hint Resolve TI_affect_monster : ti.

Lemma TI_affect_ground : tracer_safe (affect_ground (X := X)).
Proof. intros w0 s H. unfold affect_ground. ti_walk. Qed.
#[local] Hint Resolve TI_affect_ground : ti.

Lemma TI_cell_occupants (ap am sw : bool) :
  tracer_safe (cell_occupants (X := X) ap am sw).
Proof. intros w0 s H. unfold cell_occupants. ti_walk. Qed.
#[local] Hint Resolve TI_cell_occupants : ti.

Lemma TI_affect_cell (av : bool) : tracer_safe (affect_cell (X := X) av).
Proof. intros w0 s H. unfold affect_cell. ti_walk. Qed.
#[local] Hint Resolve TI_affect_cell : ti.

Lemma TI_refine_for_explosion : tracer_safe (refine_for_explosion (X := X)).
Proof. intros w0 s H. unfold refine_for_explosion. ti_walk. Qed.
#[local] Hint Resolve TI_refine_for_explosion : ti.

Lemma TI_explosion_affect_cell (p : coord_def) :
  tracer_safe (explosion_affect_cell (X := X) p).
Proof. intros w0 s H. unfold explosion_affect_cell. ti_walk. Qed.
#[local] Hint Resolve TI_explosion_affect_cell : ti.

(** The loop of [explode] over the cells of the sweep. *)
Lemma TI_foldl_cells {A : Type} (f : M Z -> A -> M Z) (l : list A) :
  (forall acc x, tracer_safe acc -> tracer_safe (f acc x)) ->
  forall acc, tracer_safe acc -> tracer_safe (foldl f acc l).
Proof.
  intros Hf. induction l as [|x l IH]; intros acc Hacc; simpl; [exact Hacc|].
  apply IH, Hf, Hacc.
Qed.

Lemma TI_explode (show_more hole : bool) :
  tracer_safe (explode (X := X) show_more hole).
Proof.
  intros w0 s H. unfold explode. ti_walk.
  match goal with
  | H : TI ?w ?s |- sat ?m ?s _ =>
      assert (K : tracer_safe m); [|exact (K w s H)]
  end.
  apply TI_foldl_cells.
  - intros acc x Hacc w' t H'. ti_walk.
  - intros w' t H'. ti_walk.
Qed.
#[local] Hint Resolve TI_explode : ti.

Lemma TI_drop_object : tracer_safe (drop_object (X := X)).
Proof. intros w0 s H. unfold drop_object. ti_walk. Qed.
#[local] Hint Resolve TI_drop_object : ti.

Lemma TI_affect_endpoint : tracer_safe (affect_endpoint (X := X)).
Proof.
  intros w0 s H. unfold affect_endpoint. ti_walk.
  match goal with
  | H : TI ?w ?s |- sat ?m ?s _ =>
      assert (K : tracer_safe m); [|exact (K w s H)]
  end.
  apply TI_on_special. intros w' t H'. ti_walk.
Qed.
#[local] Hint Resolve TI_affect_endpoint : ti.

Lemma TI_initialise_fire : tracer_safe (initialise_fire (X := X)).
Proof. intros w0 s H. unfold initialise_fire. ti_walk. Qed.

Lemma TI_apply_beam_conducts : tracer_safe (apply_beam_conducts (X := X)).
Proof. intros w0 s H. unfold apply_beam_conducts. ti_walk. Qed.

Lemma TI_draw (p : coord_def) : tracer_safe (draw (X := X) p).
Proof. intros w0 s H. unfold draw. ti_walk. Qed.
#[local] Hint Resolve TI_initialise_fire TI_apply_beam_conducts TI_draw : ti.

Lemma TI_iter_interact (av : bool) : tracer_safe (iter_interact (X := X) av).
Proof. intros w0 s H. unfold iter_interact. ti_walk. Qed.

Lemma TI_iter_consume (av : bool) : tracer_safe (iter_consume (ray_def := ray_def) (other_state := other_state) av).
Proof. intros w0 s H. unfold iter_consume. ti_walk. Qed.

Lemma TI_iter_decide : tracer_safe (iter_decide (X := X)).
Proof. intros w0 s H. unfold iter_decide. ti_walk. Qed.
#[local] Hint Resolve TI_iter_interact TI_iter_consume TI_iter_decide : ti.

Lemma TI_fire_iter (av : bool) : tracer_safe (fire_iter (X := X) av).
Proof. intros w0 s H. unfold fire_iter. ti_walk. Qed.
#[local] Hint Resolve TI_fire_iter : ti.

Lemma TI_fire_loop (fuel : nat) (av : bool) :
  tracer_safe (fire_loop (X := X) fuel av).
Proof.
  revert av. induction fuel as [|n IH]; intros av w0 s H; simpl; ti_walk.
Qed.
#[local] Hint Resolve TI_fire_loop : ti.

Lemma TI_do_fire : tracer_safe (do_fire (X := X)).
Proof. intros w0 s H. unfold do_fire. ti_walk. Qed.
#[local] Hint Resolve TI_do_fire : ti.

(** [fire] needs the flag on the bolt only: it copies it to the special
    explosion before anything else. *)
Lemma fire_tracer_world (s : state) :
  flag (this s) is_tracer = true -> wld (fire s).2 = wld s.
Proof.
  intros Ht.
  assert (H : sat fire s (fun _ s' => TI (wld s) s')).
  { unfold fire. apply sat_bind, sat_upd. cbv beta.
    apply sat_bind, sat_gets. cbv beta. simpl.
    apply sat_bind, sat_upd_special. cbv beta.
    match goal with
    | |- sat _ ?s1 _ => assert (H1 : TI (wld s) s1)
    end.
    { repeat split; simpl; auto. intros sp Hsp.
      destruct (special_explosion s); simplify_eq/=.
      destruct (decide (is_tracer = is_tracer)); [exact Ht|done]. }
    ti_walk. }
  apply sat_elim in H. apply H.
Qed.

End TracerSteps.

(** * The range budget *)

Section Budget.

Context {ray_def other_state : Type} {X : @Collaborators ray_def other_state}.

#[local] Abbreviation state := (@state ray_def other_state).
#[local] Abbreviation M := (@M ray_def other_state).
#[local] Abbreviation beam := (@beam ray_def).
#[local] Abbreviation world := (@world other_state).

Lemma RI_keeps_this {A : Type} (m : M A) : keeps_this m -> budget_safe m.
Proof.
  intros Hm R0 r0 s Hr H. apply sat_keeps_this; [exact Hm|].
  intros _ sp w i. exact H.
Qed.

Lemma RI_upd (f : beam -> beam) (R0 r0 : Z) (s : state) :
  (R0 <= num (f (this s)) range
   /\ r0 <= num (f (this s)) range_used
   /\ num (f (this s)) range - num (f (this s)) range_used <= R0 - r0) ->
  sat (upd f) s (fun _ s' => RI R0 r0 s').
Proof. intros H. apply sat_upd. exact H. Qed.

Lemma apply_range_funcs_nonneg
    (fs : list (beam -> world -> actor -> Z -> bool * Z))
    (b : beam) (w : world) (v : actor) (u : Z) :
  Forall (fun f : beam -> world -> actor -> Z -> bool * Z =>
            forall b w v u, 0 <= u -> 0 <= (f b w v u).2) fs ->
  0 <= u -> 0 <= apply_range_funcs fs b w v u.
Proof.
  intros Hfs. revert u. induction Hfs as [|f fs Hf Hfs IH]; intros u Hu.
  - exact Hu.
  - simpl. specialize (Hf b w v u Hu). destruct (f b w v u) as [stop u'].
    simpl in Hf. destruct stop; [exact Hf|]. apply IH, Hf.
Qed.

Lemma base_range_used_nonneg (b : beam) : 0 <= base_range_used b.
Proof.
  unfold base_range_used, BEAM_STOP. repeat case_match; lia.
Qed.

Lemma range_used_on_hit_nonneg (w : world) (b : beam) (v : actor) :
  range_hooks_cost -> 0 <= range_used_on_hit w b v.
Proof.
  intros Hh. unfold range_used_on_hit.
  pose proof (base_range_used_nonneg b).
  repeat case_match; try lia.
  apply apply_range_funcs_nonneg; assumption.
Qed.

End Budget.

Ltac ri_intro H :=
  let H1 := fresh "Hr1" in
  let H2 := fresh "Hr2" in
  let H3 := fresh "Hr3" in
  pose proof H as (H1 & H2 & H3).

Ltac num_simpl :=
  simpl;
  repeat match goal with
    | |- context [if ?c then _ else _] => destruct c; simpl
    end;
  try lia.

Create HintDb ri discriminated.
#[global] Hint Extern 5 (budget_safe _) =>
  (apply RI_keeps_this; solve [auto with keeps_this]) : ri.

Ltac ri_upd := apply RI_upd; num_simpl.

Ltac ri_leaf :=
  first
    [ assumption
    | match goal with
      | |- sat (upd _) _ _ => ri_upd
      | |- sat (set_fl _ _) _ _ => ri_upd
      | |- sat (set_nm _ _) _ _ => ri_upd
      | |- sat (add_nm _ _) _ _ => unfold add_nm; ri_upd
      | |- sat (upd_friend _) _ _ => ri_upd
      | |- sat (upd_foe _) _ _ => ri_upd
      | |- sat (finish_beam) _ _ => unfold finish_beam; ri_upd
      | Hr : ?r0 <= ?R0, H : RI ?R0 ?r0 ?s |- sat ?m ?s _ =>
          let K := fresh "K" in
          assert (K : budget_safe m) by (auto with ri);
          exact (K R0 r0 s Hr H)
      end ].

Ltac ri_walk :=
  lazymatch goal with
  | H : RI ?R0 ?r0 ?s |- sat _ ?s _ =>
      let I := lazymatch type of H with ?I _ => I end in
      ri_intro H; cbv zeta;
      wp_walk I ltac:(fun K => ri_intro K) ltac:(idtac; try ri_leaf)
  end.

Section BudgetSteps.

Context {ray_def other_state : Type} {X : @Collaborators ray_def other_state}.
Hypothesis hooks : range_hooks_cost (X := X).

#[local] Abbreviation state := (@state ray_def other_state).
#[local] Abbreviation M := (@M ray_def other_state).

Lemma RI_use_range_on_hit (v : actor) :
  budget_safe (use_range_on_hit (X := X) v).
Proof.
  intros R0 r0 s Hr H. unfold use_range_on_hit. ri_walk.
  pose proof (range_used_on_hit_nonneg (wld s) (this s) v hooks). lia.
Qed.
#[local] Hint Resolve RI_use_range_on_hit : ri.

Lemma RI_fake_flavour : budget_safe (fake_flavour (X := X)).
Proof.
  intros R0 r0 s Hr H. unfold fake_flavour, _chaos_beam_flavour. ri_walk.
Qed.
#[local] Hint Resolve RI_fake_flavour : ri.

Lemma RI_emit_message (chan : msg_channel_type) (m : string) :
  budget_safe (emit_message chan m : M unit).
Proof. intros R0 r0 s Hr H. unfold emit_message. ri_walk. Qed.
#[local] Hint Resolve RI_emit_message : ri.

Lemma RI_see_or_smell (p : coord_def) (m1 m2 : string) :
  budget_safe (see_or_smell (X := X) p m1 m2).
Proof. intros R0 r0 s Hr H. unfold see_or_smell. ri_walk. Qed.
#[local] Hint Resolve RI_see_or_smell : ri.

Lemma RI_digging_wall_effect : budget_safe (digging_wall_effect (X := X)).
Proof. intros R0 r0 s Hr H. unfold digging_wall_effect. ri_walk. Qed.

Lemma RI_fire_wall_effect : budget_safe (fire_wall_effect (X := X)).
Proof. intros R0 r0 s Hr H. unfold fire_wall_effect. ri_walk. Qed.

Lemma RI_nuke_wall_effect : budget_safe (nuke_wall_effect (X := X)).
Proof. intros R0 r0 s Hr H. unfold nuke_wall_effect. ri_walk. Qed.
#[local] Hint Resolve RI_digging_wall_effect RI_fire_wall_effect
  RI_nuke_wall_effect : ri.

Lemma RI_affect_wall : budget_safe (affect_wall (X := X)).
Proof. intros R0 r0 s Hr H. unfold affect_wall. ri_walk. Qed.
#[local] Hint Resolve RI_affect_wall : ri.

Lemma io_only_munge_tries (n : nat) (r1 r2 : ray_def) :
  io_only (munge_tries (X := X) n r1 r2).
Proof.
  induction n as [|n IH]; simpl; [apply io_only_ret|].
  destruct (chaos_shift_bounds r1 r2) as [lo hi].
  apply io_only_bind; [apply io_only_random_range|intros shift].
  apply io_only_bind; [apply io_only_gets|intros w].
  apply io_only_if; [apply io_only_ret|exact IH].
Qed.

(** A bounce costs two units; the bounce of a chaos bolt is free: the
    budget grows by what the bounce used. *)
Lemma RI_bounce : budget_safe (bounce (X := X)).
Proof.
  intros R0 r0 s Hr (H1 & H2 & H3). unfold bounce, add_nm.
  apply sat_bind, sat_gets. cbv beta.
  apply sat_bind, sat_gets. cbv beta zeta.
  do 4 (apply sat_bind, sat_upd; cbv beta).
  unfold _munge_bounced_bolt.
  apply sat_bind, sat_gets. cbv beta.
  match goal with |- sat (if ?c then _ else _) _ _ => destruct c end.
  - apply sat_ret. repeat split; simpl; lia.
  - match goal with
    | |- sat _ ?s1 _ =>
        apply (sat_bind_cut (fun s' => this s' = this s1))
    end.
    + apply sat_io_only; [apply io_only_munge_tries|]. reflexivity.
    + intros a s' Hs'. apply sat_bind, sat_upd. cbv beta.
      unfold add_nm. apply sat_upd. simpl in *. rewrite Hs'.
      repeat split; simpl; lia.
Qed.
#[local] Hint Resolve RI_bounce : ri.

Lemma RI_hit_wall : budget_safe (hit_wall (X := X)).
Proof. intros R0 r0 s Hr H. unfold hit_wall. ri_walk. Qed.
#[local] Hint Resolve RI_hit_wall : ri.

Lemma RI_choose_ray : budget_safe (choose_ray (X := X)).
Proof. intros R0 r0 s Hr H. unfold choose_ray. ri_walk. Qed.
#[local] Hint Resolve RI_choose_ray : ri.

Lemma RI_reflect : budget_safe (reflect (X := X)).
Proof. intros R0 r0 s Hr H. unfold reflect. ri_walk. Qed.
#[local] Hint Resolve RI_reflect : ri.

Lemma RI_fuzz_invis_tracer : budget_safe (fuzz_invis_tracer (X := X)).
Proof. intros R0 r0 s Hr H. unfold fuzz_invis_tracer. ri_walk. Qed.
#[local] Hint Resolve RI_fuzz_invis_tracer : ri.

Lemma RI_tracer_affect_player : budget_safe (tracer_affect_player (X := X)).
Proof. intros R0 r0 s Hr H. unfold tracer_affect_player. ri_walk. Qed.
#[local] Hint Resolve RI_tracer_affect_player : ri.

Lemma RI_misses_player : budget_safe (misses_player (X := X)).
Proof. intros R0 r0 s Hr H. unfold misses_player. ri_walk. Qed.
#[local] Hint Resolve RI_misses_player : ri.

Lemma RI_internal_ouch (dam : Z) : budget_safe (internal_ouch (X := X) dam).
Proof. intros R0 r0 s Hr H. unfold internal_ouch. ri_walk. Qed.
#[local] Hint Resolve RI_internal_ouch : ri.

Lemma RI_affect_player_enchantment :
  budget_safe (affect_player_enchantment (X := X)).
Proof. intros R0 r0 s Hr H. unfold affect_player_enchantment. ri_walk. Qed.
#[local] Hint Resolve RI_affect_player_enchantment : ri.

Lemma RI_affect_player : budget_safe (affect_player (X := X)).
Proof. intros R0 r0 s Hr H. unfold affect_player. ri_walk. Qed.
#[local] Hint Resolve RI_affect_player : ri.

Lemma RI_mons_adjust_flavoured (mon : nat) (h : Z) (d : bool) :
  budget_safe (mons_adjust_flavoured (X := X) mon h d).
Proof. intros R0 r0 s Hr H. unfold mons_adjust_flavoured. ri_walk. Qed.
#[local] Hint Resolve RI_mons_adjust_flavoured : ri.

Lemma RI_determine_damage (mon : nat) :
  budget_safe (determine_damage (X := X) mon).
Proof. intros R0 r0 s Hr H. unfold determine_damage. ri_walk. Qed.
#[local] Hint Resolve RI_determine_damage : ri.

Lemma RI_update_hurt_or_helped (mon : nat) :
  budget_safe (update_hurt_or_helped (X := X) mon).
Proof. intros R0 r0 s Hr H. unfold update_hurt_or_helped. ri_walk. Qed.
#[local] Hint Resolve RI_update_hurt_or_helped : ri.

Lemma RI_handle_stop_attack_prompt (mon : nat) :
  budget_safe (handle_stop_attack_prompt (X := X) mon).
Proof. intros R0 r0 s Hr H. unfold handle_stop_attack_prompt. ri_walk. Qed.
#[local] Hint Resolve RI_handle_stop_attack_prompt : ri.

Lemma RI_tracer_enchantment_affect_monster (mon : nat) :
  budget_safe (tracer_enchantment_affect_monster (X := X) mon).
Proof. intros R0 r0 s Hr H. unfold tracer_enchantment_affect_monster. ri_walk. Qed.
#[local] Hint Resolve RI_tracer_enchantment_affect_monster : ri.

Lemma RI_tracer_nonenchantment_affect_monster (mon : nat) :
  budget_safe (tracer_nonenchantment_affect_monster (X := X) mon).
Proof. intros R0 r0 s Hr H. unfold tracer_nonenchantment_affect_monster. ri_walk. Qed.
#[local] Hint Resolve RI_tracer_nonenchantment_affect_monster : ri.

Lemma RI_tracer_affect_monster (mon : nat) :
  budget_safe (tracer_affect_monster (X := X) mon).
Proof. intros R0 r0 s Hr H. unfold tracer_affect_monster. ri_walk. Qed.
#[local] Hint Resolve RI_tracer_affect_monster : ri.

Lemma RI_attempt_block (mon : nat) :
  budget_safe (attempt_block (X := X) mon).
Proof. intros R0 r0 s Hr H. unfold attempt_block. ri_walk. Qed.
#[local] Hint Resolve RI_attempt_block : ri.

Lemma RI_handle_statue_disintegration (mon : nat) :
  budget_safe (handle_statue_disintegration (X := X) mon).
Proof. intros R0 r0 s Hr H. unfold handle_statue_disintegration. ri_walk. Qed.
#[local] Hint Resolve RI_handle_statue_disintegration : ri.

Lemma RI_apply_enchantment_to_monster (mon : nat) :
  budget_safe (apply_enchantment_to_monster (X := X) mon).
Proof. intros R0 r0 s Hr H. unfold apply_enchantment_to_monster. ri_walk. Qed.
#[local] Hint Resolve RI_apply_enchantment_to_monster : ri.

Lemma RI_try_enchant_monster (mon : nat) :
  budget_safe (try_enchant_monster (X := X) mon).
Proof. intros R0 r0 s Hr H. unfold try_enchant_monster. ri_walk. Qed.
#[local] Hint Resolve RI_try_enchant_monster : ri.

Lemma RI_enchantment_affect_monster (mon : nat) :
  budget_safe (enchantment_affect_monster (X := X) mon).
Proof. intros R0 r0 s Hr H. unfold enchantment_affect_monster. ri_walk. Qed.
#[local] Hint Resolve RI_enchantment_affect_monster : ri.

Lemma RI_monster_post_hit (mon : nat) (dmg : Z) :
  budget_safe (monster_post_hit (X := X) mon dmg).
Proof. intros R0 r0 s Hr H. unfold monster_post_hit. ri_walk. Qed.
#[local] Hint Resolve RI_monster_post_hit : ri.

Lemma RI_affect_monster (mon : nat) :
  budget_safe (affect_monster (X := X) mon).
Proof. intros R0 r0 s Hr H. unfold affect_monster. ri_walk. Qed.
#[local] Hint Resolve RI_affect_monster : ri.

Lemma RI_affect_place_explosion_clouds  :
  budget_safe (affect_place_explosion_clouds (X := X) ).
Proof. intros R0 r0 s Hr H. unfold affect_place_explosion_clouds. ri_walk. Qed.
#[local] Hint Resolve RI_affect_place_explosion_clouds : ri.

Lemma RI_affect_place_clouds  :
  budget_safe (affect_place_clouds (X := X) ).
Proof. intros R0 r0 s Hr H. unfold affect_place_clouds. ri_walk. Qed.
#[local] Hint Resolve RI_affect_place_clouds : ri.

Lemma RI_affect_ground  :
  budget_safe (affect_ground (X := X) ).
Proof. intros R0 r0 s Hr H. unfold affect_ground. ri_walk. Qed.
#[local] Hint Resolve RI_affect_ground : ri.

Lemma RI_cell_occupants (ap am sw : bool) :
  budget_safe (cell_occupants (X := X) ap am sw).
Proof. intros R0 r0 s Hr H. unfold cell_occupants. ri_walk. Qed.
#[local] Hint Resolve RI_cell_occupants : ri.

Lemma RI_affect_cell (av : bool) :
  budget_safe (affect_cell (X := X) av).
Proof. intros R0 r0 s Hr H. unfold affect_cell. ri_walk. Qed.
#[local] Hint Resolve RI_affect_cell : ri.

Lemma RI_iter_interact (av : bool) :
  budget_safe (iter_interact (X := X) av).
Proof. intros R0 r0 s Hr H. unfold iter_interact. ri_walk. Qed.
#[local] Hint Resolve RI_iter_interact : ri.

Lemma RI_draw (p : coord_def) :
  budget_safe (draw (X := X) p).
Proof. intros R0 r0 s Hr H. unfold draw. ri_walk. Qed.
#[local] Hint Resolve RI_draw : ri.

Lemma RI_iter_decide  :
  budget_safe (iter_decide (X := X) ).
Proof. intros R0 r0 s Hr H. unfold iter_decide. ri_walk. Qed.
#[local] Hint Resolve RI_iter_decide : ri.

Lemma io_only_draw (p : coord_def) : io_only (draw (X := X) p).
Proof.
  unfold draw.
  apply io_only_bind; [apply io_only_gets|intros b].
  apply io_only_bind; [apply io_only_gets|intros w].
  apply io_only_if; [apply io_only_ret|apply io_only_emit].
Qed.

(** [iter_decide] leaves the budget as it is, goes on only while some of it
    is left, and leaves the loop when none is. *)
Lemma iter_decide_budget (s : state) :
  sat (iter_decide (X := X)) s
    (fun c s' =>
       num (this s') range = num (this s) range
       /\ num (this s') range_used = num (this s) range_used
       /\ (c = Continue -> num (this s) range_used < num (this s) range)
       /\ (num (this s) range <= num (this s) range_used -> c = Break)
       /\ c <> Exhausted).
Proof.
  set (I := fun s' : state =>
              num (this s') range = num (this s) range
              /\ num (this s') range_used = num (this s) range_used).
  assert (H : I s) by (split; reflexivity).
  assert (Hupd : forall f s1, I s1 ->
            num (f (this s1)) range = num (this s1) range ->
            num (f (this s1)) range_used = num (this s1) range_used ->
            sat (upd f) s1 (fun _ s' => I s')).
  { intros f s1 [K1 K2] E1 E2. apply sat_upd. split; simpl; congruence. }
  assert (Hio : forall (A : Type) (m : M A) s1, io_only m -> I s1 ->
            sat m s1 (fun _ s' => I s')).
  { intros A m s1 Hm K. apply sat_io_only; [exact Hm|]. intros; exact K. }
  unfold iter_decide.
  wp_walk I ltac:(fun K => idtac)
    ltac:(idtac;
          first [ assumption
                | apply Hupd; [assumption|reflexivity|reflexivity]
                | apply Hio; [auto using io_only_draw with io_only|assumption]
                | idtac ]).
  all: subst I; cbv beta in *.
  all: repeat match goal with K : _ /\ _ |- _ => destruct K end.
  all: repeat split; try congruence; try lia.
Qed.

Lemma iter_consume_budget (av : bool) (s : state) :
  sat (iter_consume av) s
    (fun _ s' =>
       num (this s') range = num (this s) range
       /\ num (this s') range_used
          = num (this s) range_used + (if av then 0 else 1)).
Proof.
  unfold iter_consume, when, add_nm. destruct av; simpl.
  - apply sat_ret. split; [reflexivity|lia].
  - apply sat_upd. split; reflexivity.
Qed.

(** One iteration of the loop. *)
Lemma fire_iter_budget (av : bool) (s : state) :
  num (this s) range_used <= num (this s) range ->
  sat (fire_iter (X := X) av) s
    (fun c s' =>
       RI (num (this s) range)
          (num (this s) range_used + (if av then 0 else 1)) s'
       /\ (c = Continue -> num (this s') range_used < num (this s') range)
       /\ c <> Exhausted).
Proof.
  intros Hle. unfold fire_iter.
  apply (sat_bind_cut (RI (num (this s) range) (num (this s) range_used))).
  { apply RI_iter_interact; [exact Hle|]. repeat split; lia. }
  intros _ s1 (H1 & H2 & H3).
  apply sat_bind. eapply sat_conseq; [apply iter_consume_budget|].
  intros _ s2 (E1 & E2). cbv beta.
  eapply sat_conseq; [apply iter_decide_budget|].
  intros c s3 (F1 & F2 & F3 & F4 & F5). cbv beta.
  split; [repeat split; lia|]. split; [|exact F5].
  intros ->. specialize (F3 eq_refl). lia.
Qed.

(** The loop: the part used never shrinks, and the loop ends within the
    iterations the budget allows. *)
Lemma fire_loop_budget (fuel : nat) (av : bool) (s : state) :
  num (this s) range_used <= num (this s) range ->
  sat (fire_loop (X := X) fuel av) s
    (fun c s' =>
       num (this s) range_used <= num (this s') range_used
       /\ ((Z.to_nat (num (this s) range - num (this s) range_used)
            + (if av then 2 else 1) <= fuel)%nat -> c <> Exhausted)).
Proof.
  revert av s. induction fuel as [|n IH]; intros av s Hle; simpl.
  - apply sat_ret. split; [lia|]. destruct av; lia.
  - apply sat_bind, sat_gets. cbv beta.
    destruct (negb (in_bounds (pos (this s)))).
    { apply sat_ret. split; [lia|done]. }
    apply sat_bind. eapply sat_conseq; [apply fire_iter_budget, Hle|].
    intros c s1 ((H1 & H2 & H3) & Hc & Hx). cbv beta.
    destruct c; try (apply sat_ret; split; [destruct av; lia|done]).
    specialize (Hc eq_refl).
    eapply sat_conseq; [apply IH; lia|].
    intros c s2 (K1 & K2). cbv beta. split; [destruct av; lia|].
    intros Hf. apply K2. destruct av; lia.
Qed.

End BudgetSteps.

(** * The flood fill of an explosion *)

Section FloodFill.

Context {ray_def other_state : Type} {X : @Collaborators ray_def other_state}.

#[local] Abbreviation beam := (@beam ray_def).
#[local] Abbreviation world := (@world other_state).

Variables (w : world) (b : beam) (r : Z) (sas saw : bool).

#[local] Abbreviation hits_cell := (hits_cell w b).
#[local] Abbreviation dfs_both := (dfs_both w b r sas saw).
#[local] Abbreviation reach := (reach w b r sas saw).
#[local] Abbreviation link := (link w b).
#[local] Abbreviation sound := (sound w b r sas saw).
#[local] Abbreviation relaxed := (relaxed w b r sas saw).
#[local] Abbreviation closed_at := (closed_at w b r sas saw).

Lemma key_inj (u v : coord_def) : key u = key v -> u = v.
Proof.
  destruct u as [a c], v as [a' c']. unfold key, coord_add, centre. simpl.
  intros [= H1 H2]. f_equal; lia.
Qed.

Lemma key_sub (k : Z * Z) : key (coord_sub k centre) = k.
Proof.
  destruct k as [a c]. unfold key, coord_add, coord_sub, centre. simpl.
  f_equal; lia.
Qed.

Lemma exp_get_some (g : gmap (Z * Z) Z) (k : Z * Z) (t : Z) :
  g !! k = Some t -> exp_get g k = t.
Proof. intros H. exact (f_equal (default INT_MAX) H). Qed.

Lemma exp_get_none (g : gmap (Z * Z) Z) (k : Z * Z) :
  g !! k = None -> exp_get g k = INT_MAX.
Proof. intros H. exact (f_equal (default INT_MAX) H). Qed.

Lemma cadd_at_least (v d : coord_def) : 5 <= cadd v d.
Proof. unfold cadd. case_match; lia. Qed.

Lemma below_refl (g : gmap (Z * Z) Z) : below g g.
Proof. intros v t H. exists t. split; [exact H|lia]. Qed.

Lemma below_trans (g1 g2 g3 : gmap (Z * Z) Z) :
  below g1 g2 -> below g2 g3 -> below g1 g3.
Proof.
  intros H12 H23 v t H. destruct (H12 v t H) as (t' & H' & Hle).
  destruct (H23 v t' H') as (t'' & H'' & Hle'). exists t''.
  split; [exact H''|lia].
Qed.

Lemma relaxed_below (g g' : gmap (Z * Z) Z) (v : coord_def) (t : Z)
    (d : coord_def) :
  below g g' -> relaxed g v t d -> relaxed g' v t d.
Proof.
  intros Hb Hr H1 H2 H3. destruct (Hr H1 H2 H3) as (t' & H' & Hle).
  destruct (Hb _ _ H') as (t'' & H'' & Hle'). exists t''.
  split; [exact H''|lia].
Qed.

Lemma closed_at_below (dirs : list coord_def) (g g' : gmap (Z * Z) Z)
    (v : coord_def) (t : Z) :
  below g g' -> closed_at dirs g v t -> closed_at dirs g' v t.
Proof. intros Hb Hc d Hd. eapply relaxed_below; [exact Hb|]. apply Hc, Hd. Qed.

(** The first map of [dfs_both] is the map of the source. *)
Lemma dfs_both_fst (fuel : nat) (dirs : list coord_def)
    (mg : gmap (Z * Z) Z * gmap (Z * Z) Z) (delta : coord_def) (count : Z) :
  (dfs_both fuel dirs mg delta count).1
  = determine_affected_cells_in fuel dirs w b mg.1 delta count r sas saw.
Proof.
  revert mg delta count. induction fuel as [|n IH]; intros mg delta count.
  - reflexivity.
  - simpl. case_match; [reflexivity|].
    match goal with
    | |- (foldl ?F ?p0 dirs).1 = foldl ?G ?m0 dirs =>
        enough (Hl : forall l p, (foldl F p l).1 = foldl G p.1 l)
          by (apply (Hl dirs p0))
    end.
    induction l as [|d l IHl]; intros p.
    + reflexivity.
    + simpl. rewrite IHl. f_equal.
      case_match; [reflexivity|]. case_match; [reflexivity|]. apply IH.
Qed.

Hypothesis radius_fits : 10 * r < INT_MAX.

Section OneOrder.

Variable dirs : list coord_def.

#[local] Abbreviation dfs_post := (dfs_post w b r sas saw dirs).
#[local] Abbreviation loop_inv := (loop_inv w b r sas saw dirs).

Lemma dfs_both_spec (fuel : nat) :
  forall (m g : gmap (Z * Z) Z) (delta : coord_def) (count : Z),
    link m g -> sound dirs g ->
    (count <= 10 * r -> cell_open w b r sas saw delta = true ->
     reach dirs delta count) ->
    10 * r < count + 5 * Z.of_nat fuel ->
    dfs_post g (dfs_both fuel dirs (m, g) delta count).2
      (dfs_both fuel dirs (m, g) delta count).1 delta count.
Proof.
  induction fuel as [|n IH]; intros m g delta count Hl Hs Hreach Hfuel.
  { simpl. repeat split; auto using below_refl. intros; lia. }
  simpl.
  destruct (Z.ltb_spec (10 * r) count) as [Hgt|Hle]; simpl.
  { repeat split; auto using below_refl. intros; lia. }
  destruct (cell_open w b r sas saw delta) eqn:Hopen; simpl.
  2: { repeat split; auto using below_refl. intros; congruence. }
  specialize (Hreach Hle eq_refl).
  change (coord_add delta centre) with (key delta).
  set (g0 := <[key delta := Z.min count (exp_get g (key delta))]> g).
  set (m0 := if hits_cell delta
             then <[key delta := Z.min count (exp_get m (key delta))]> m
             else m).
  (* the state the loop starts in *)
  assert (Hl0 : link m0 g0).
  { intros v. unfold m0, g0. destruct (decide (delta = v)) as [<-|Hne].
    - pose proof (Hl delta) as Hd.
      destruct (hits_cell delta).
      + rewrite !lookup_insert_eq.
        assert (E : exp_get m (key delta) = exp_get g (key delta))
          by exact (f_equal (default INT_MAX) Hd).
        rewrite E. reflexivity.
      + exact Hd.
    - assert (key delta <> key v) by (intros E; apply Hne, key_inj, E).
      pose proof (Hl v) as Hv. destruct (hits_cell delta).
      + rewrite lookup_insert_ne by assumption.
        destruct (hits_cell v); [|exact Hv].
        rewrite lookup_insert_ne by assumption. exact Hv.
      + destruct (hits_cell v); [|exact Hv].
        rewrite lookup_insert_ne by assumption. exact Hv. }
  assert (Hg0 : forall v t, g0 !! key v = Some t ->
                  g !! key v = Some t \/ (v = delta /\ t = count)).
  { intros v t. unfold g0. destruct (decide (delta = v)) as [<-|Hne].
    - rewrite lookup_insert_eq. intros [= <-].
      destruct (g !! key delta) as [t0|] eqn:E.
      + rewrite (exp_get_some _ _ _ E).
        destruct (Z.min_spec count t0) as [[? ->]|[? ->]]; auto.
      + rewrite (exp_get_none _ _ E). right. split; [reflexivity|]. lia.
    - rewrite lookup_insert_ne; [auto|]. intros E. apply Hne, key_inj, E. }
  assert (Hs0 : sound dirs g0).
  { intros v t Hv. destruct (Hg0 v t Hv) as [Hv'|[-> ->]]; auto. }
  assert (Hb0 : below g g0).
  { intros v t Hv. unfold g0. destruct (decide (delta = v)) as [<-|Hne].
    - rewrite lookup_insert_eq.
      eexists; split; [reflexivity|]. rewrite (exp_get_some _ _ _ Hv).
      lia.
    - rewrite lookup_insert_ne; [|intros E; apply Hne, key_inj, E].
      exists t. split; [exact Hv|lia]. }
  assert (Hself : exists t', g0 !! key delta = Some t' /\ t' <= count).
  { unfold g0. rewrite lookup_insert_eq.
    eexists; split; [reflexivity|]. lia. }
  (* the loop *)
  assert (Hloop : forall l mi gi,
             (forall d, d ∈ l -> d ∈ dirs) ->
             loop_inv g gi mi delta count ->
             let res :=
               foldl
                 (fun mg d =>
                    let new_delta := coord_add delta d in
                    if rdist centre <? rdist new_delta then mg
                    else if exp_get mg.1 (coord_add new_delta centre)
                            <=? count
                    then mg
                    else dfs_both n dirs mg new_delta (count + cadd delta d))
                 (mi, gi) l in
             loop_inv g res.2 res.1 delta count /\ below gi res.2
             /\ forall d, d ∈ l -> relaxed res.2 delta count d).
  { induction l as [|d l IHl]; intros mi gi Hsub (Li & Si & Pi).
    { simpl. repeat split; auto using below_refl. intros d Hd.
      apply elem_of_nil in Hd. contradiction. }
    simpl.
    (* one direction *)
    assert (Hstep : exists m1 g1,
               (let new_delta := coord_add delta d in
                if rdist centre <? rdist new_delta then (mi, gi)
                else if exp_get (mi, gi).1 (coord_add new_delta centre)
                        <=? count
                then (mi, gi)
                else dfs_both n dirs (mi, gi) new_delta
                       (count + cadd delta d)) = (m1, g1)
               /\ loop_inv g g1 m1 delta count /\ below gi g1
               /\ relaxed g1 delta count d).
    { cbv zeta. simpl.
      destruct (rdist centre <? rdist (coord_add delta d)) eqn:Hmap.
      { exists mi, gi. repeat split; auto using below_refl.
        intros H1. unfold in_map in H1. rewrite Hmap in H1. discriminate. }
      destruct (Z.leb_spec (exp_get mi (coord_add (coord_add delta d) centre))
                  count) as [Hpr|Hnpr].
      { exists mi, gi. repeat split; auto using below_refl.
        intros _ _ _. fold (key (coord_add delta d)) in Hpr.
        pose proof (Li (coord_add delta d)) as Hd.
        destruct (mi !! key (coord_add delta d)) as [t'|] eqn:E;
          [rewrite (exp_get_some _ _ _ E) in Hpr
          |rewrite (exp_get_none _ _ E) in Hpr; lia].
        destruct (hits_cell (coord_add delta d)); [|discriminate].
        exists t'. split; [symmetry; exact Hd|].
        pose proof (cadd_at_least delta d). lia. }
      pose proof (cadd_at_least delta d) as Hc.
      destruct (IH mi gi (coord_add delta d) (count + cadd delta d) Li Si)
        as (L1 & S1 & B1 & R1 & C1).
      { intros H1 H2. apply reach_step; auto.
        - apply Hsub. left.
        - unfold in_map. rewrite Hmap. reflexivity. }
      { lia. }
      eexists _, _. split; [apply surjective_pairing|].
      split; [|split; [exact B1|]].
      - split; [exact L1|]. split; [exact S1|]. intros v t Hv.
        destruct (C1 v t Hv) as [Hv'|Hcl]; [|auto].
        destruct (Pi v t Hv') as [?|[Hcl|?]]; auto.
        right. left. eapply closed_at_below; [exact B1|exact Hcl].
      - intros H1 H2 H3. apply R1; assumption. }
    destruct Hstep as (m1 & g1 & E1 & I1 & B1 & R1).
    cbv zeta in E1. simpl in E1. rewrite E1.
    destruct (IHl m1 g1) as (I2 & B2 & R2).
    { intros d' Hd'. apply Hsub. right. exact Hd'. }
    { exact I1. }
    split; [exact I2|]. split; [eapply below_trans; eassumption|].
    intros d' Hd'. apply elem_of_cons in Hd' as [->|Hd'].
    - eapply relaxed_below; [exact B2|exact R1].
    - apply R2, Hd'. }
  destruct (Hloop dirs m0 g0) as ((L' & S' & P') & B' & R').
  { auto. }
  { split; [exact Hl0|]. split; [exact Hs0|]. intros v t Hv.
    destruct (Hg0 v t Hv) as [?|?]; auto. }
  cbv zeta in L', S', P', B', R'.
  split; [exact L'|]. split; [exact S'|].
  split; [eapply below_trans; eassumption|]. split.
  - intros _ _. destruct Hself as (t' & Ht' & Hle').
    destruct (B' _ _ Ht') as (t'' & Ht'' & Hle''). exists t''.
    split; [exact Ht''|lia].
  - intros v t Hv. destruct (P' v t Hv) as [?|[?|[-> ->]]]; auto.
Qed.

(** The whole fill, from the empty map. *)
Lemma dfs_both_top (fuel : nat) :
  (dfs_fuel r <= fuel)%nat ->
  let res := dfs_both fuel dirs (∅, ∅) (0, 0) 0 in
  link res.1 res.2 /\ sound dirs res.2
  /\ (0 <= 10 * r -> cell_open w b r sas saw (0, 0) = true ->
      exists t', res.2 !! key (0, 0) = Some t' /\ t' <= 0)
  /\ (forall v t, res.2 !! key v = Some t -> closed_at dirs res.2 v t).
Proof.
  intros Hf.
  destruct (dfs_both_spec fuel ∅ ∅ (0, 0) 0) as (L & S & B & R & C).
  - intros v. rewrite !lookup_empty. destruct (hits_cell v); reflexivity.
  - intros v t Hv. rewrite lookup_empty in Hv. discriminate.
  - intros H1 H2. apply reach_start; assumption.
  - unfold dfs_fuel in Hf. lia.
  - cbv zeta. repeat split; auto.
    intros v t Hv. destruct (C v t Hv) as [E|?]; [|assumption].
    rewrite lookup_empty in E. discriminate.
Qed.

End OneOrder.

(** A map closed under the steps of [dirs2] has a value, not greater,
    wherever an execution with the directions [dirs1] can arrive. *)
Lemma closed_below_reach (dirs1 dirs2 : list coord_def)
    (g : gmap (Z * Z) Z) :
  (forall d, d ∈ dirs1 -> d ∈ dirs2) ->
  (0 <= 10 * r -> cell_open w b r sas saw (0, 0) = true ->
   exists t', g !! key (0, 0) = Some t' /\ t' <= 0) ->
  (forall v t, g !! key v = Some t -> closed_at dirs2 g v t) ->
  forall v t, reach dirs1 v t ->
              exists t', g !! key v = Some t' /\ t' <= t.
Proof.
  intros Hsub H0 Hc v t Hr. induction Hr as [|v d t Hr IH Hd Hm Ho Hle].
  - apply H0; assumption.
  - destruct IH as (t' & Ht' & Hle').
    destruct (Hc v t' Ht' d (Hsub d Hd) Hm Ho) as (t'' & Ht'' & Hle'');
      [lia|].
    exists t''. split; [exact Ht''|lia].
Qed.

(** Two orders of the same directions fill the same map. *)
Lemma dfs_both_order (dirs1 dirs2 : list coord_def) (fuel1 fuel2 : nat) :
  dirs1 ≡ₚ dirs2 ->
  (dfs_fuel r <= fuel1)%nat -> (dfs_fuel r <= fuel2)%nat ->
  (dfs_both fuel1 dirs1 (∅, ∅) (0, 0) 0).1
  = (dfs_both fuel2 dirs2 (∅, ∅) (0, 0) 0).1.
Proof.
  intros Hp Hf1 Hf2.
  destruct (dfs_both_top dirs1 fuel1 Hf1) as (L1 & S1 & R1 & C1).
  destruct (dfs_both_top dirs2 fuel2 Hf2) as (L2 & S2 & R2 & C2).
  cbv zeta in *.
  set (res1 := dfs_both fuel1 dirs1 (∅, ∅) (0, 0) 0) in *.
  set (res2 := dfs_both fuel2 dirs2 (∅, ∅) (0, 0) 0) in *.
  assert (H12 : forall d, d ∈ dirs1 -> d ∈ dirs2)
    by (intros d; rewrite Hp; auto).
  assert (H21 : forall d, d ∈ dirs2 -> d ∈ dirs1)
    by (intros d; rewrite Hp; auto).
  assert (Hg : forall v, res1.2 !! key v = res2.2 !! key v).
  { intros v.
    destruct (res1.2 !! key v) as [t1|] eqn:E1;
      destruct (res2.2 !! key v) as [t2|] eqn:E2.
    - destruct (closed_below_reach dirs1 dirs2 res2.2 H12 R2 C2 v t1
                  (S1 v t1 E1)) as (t' & Ht' & Hle').
      destruct (closed_below_reach dirs2 dirs1 res1.2 H21 R1 C1 v t2
                  (S2 v t2 E2)) as (t'' & Ht'' & Hle'').
      rewrite E2 in Ht'. rewrite E1 in Ht''.
      injection Ht' as <-. injection Ht'' as <-. f_equal. lia.
    - destruct (closed_below_reach dirs1 dirs2 res2.2 H12 R2 C2 v t1
                  (S1 v t1 E1)) as (t' & Ht' & _).
      rewrite E2 in Ht'. discriminate.
    - destruct (closed_below_reach dirs2 dirs1 res1.2 H21 R1 C1 v t2
                  (S2 v t2 E2)) as (t' & Ht' & _).
      rewrite E1 in Ht'. discriminate.
    - reflexivity. }
  apply map_eq. intros k. rewrite <- (key_sub k).
  rewrite L1, L2, Hg. reflexivity.
Qed.

End FloodFill.

Section Claims.

Context {ray_def other_state : Type} {X : @Collaborators ray_def other_state}.

#[local] Abbreviation state := (@state ray_def other_state).
#[local] Abbreviation M := (@M ray_def other_state).
#[local] Abbreviation beam := (@beam ray_def).
#[local] Abbreviation world := (@world other_state).

Lemma refire_same_world (s0 s : state) : wld s = wld s0 -> refire s0 s = s0.
Proof. intros E. unfold refire. rewrite E. destruct s0; reflexivity. Qed.

(** C1. A tracer ([fire] with [is_tracer] set) fired any number of times
    from the same bolt and the same seeded streams leaves the world
    (terrain, monsters and their health, the player, the items) as it was,
    and every run gives the predictions of the first run. *)
Theorem tracer_repeatable (s : state) (n : nat) :
  flag (this s) is_tracer = true ->
  wld (Nat.iter n (fun s' => (fire (X := X) (refire s s')).2) s) = wld s
  /\ predictions (Nat.iter (S n) (fun s' => (fire (refire s s')).2) s)
     = predictions (fire s).2.
Proof.
  intros Ht.
  assert (Hw : forall k,
             wld (Nat.iter k (fun s' => (fire (X := X) (refire s s')).2) s)
             = wld s).
  { induction k as [|k IH]; [reflexivity|]. simpl.
    rewrite (refire_same_world _ _ IH). apply fire_tracer_world, Ht. }
  split; [apply Hw|]. simpl. rewrite (refire_same_world _ _ (Hw n)).
  reflexivity.
Qed.

(** C2 (amended). With range hooks that return costs (not negative) and a
    step that starts within the budget: the step adds its charge or more to
    [range_used], the loop goes on only while [range_used < range], over
    the whole loop [range_used] never shrinks, and the loop ends within the
    iterations the budget allows. [range_used] may end above [range]. *)
Theorem range_budget (fuel : nat) (av : bool) (s : state) :
  range_hooks_cost (X := X) ->
  num (this s) range_used <= num (this s) range ->
  (num (this s) range_used + (if av then 0 else 1)
     <= num (this (fire_iter av s).2) range_used
   /\ ((fire_iter av s).1 = Continue ->
       num (this (fire_iter av s).2) range_used
       < num (this (fire_iter av s).2) range))
  /\ (num (this s) range_used <= num (this (fire_loop fuel av s).2) range_used
      /\ ((Z.to_nat (num (this s) range - num (this s) range_used) + 2
           <= fuel)%nat ->
          (fire_loop fuel av s).1 <> Exhausted)).
Proof.
  intros Hh Hle. split.
  - pose proof (sat_elim _ _ _ (fire_iter_budget Hh av s Hle))
      as ((H1 & H2 & H3) & Hc & _).
    split; [exact H2|exact Hc].
  - pose proof (sat_elim _ _ _ (fire_loop_budget Hh fuel av s Hle))
      as (H1 & H2).
    split; [exact H1|]. intros Hf. apply H2. destruct av; lia.
Qed.

Lemma initialise_fire_phase (s : state) :
  sat (initialise_fire (X := X)) s
    (fun _ s' => flag (this s') in_explosion_phase = false).
Proof.
  unfold initialise_fire.
  apply (sat_bind_cut (fun _ => True)); [apply sat_trivial|intros _ s1 _].
  apply (sat_bind_cut
           (fun s' => flag (this s') in_explosion_phase = false)).
  { apply sat_upd. reflexivity. }
  intros _ s2 H2.
  wp_walk (fun s' : state => flag (this s') in_explosion_phase = false)
    ltac:(fun K => idtac)
    ltac:(idtac;
          first [ assumption
                | apply sat_upd; simpl;
                  repeat match goal with
                    | |- context [if ?c then _ else _] => destruct c; simpl
                    end; assumption
                | apply sat_upd_special; simpl; assumption
                | apply sat_io_only; [solve [auto with io_only]|];
                  intros; simpl; assumption ]).
Qed.

(** C4 (amended). With budget left and the firing not cancelled, the loop
    stops at the nominal target exactly when [stop_at_target] holds, and
    that is: explosion, big cloud, or aimed at a spot; whether the bolt is
    a single-target bolt or a continuous beam plays no part. *)
Theorem stops_at_target_iff (s : state) :
  num (this s) range_used < num (this s) range ->
  flag (this s) beam_cancelled = false ->
  pos (this s) = target (this s) ->
  ((iter_decide (X := X) s).1 = Break <-> stop_at_target (this s) = true)
  /\ stop_at_target (this s)
     = flag (this s) is_explosion || flag (this s) is_big_cloud
       || flag (this s) aimed_at_spot.
Proof.
  intros Hlt Hc Hpos. split; [|reflexivity].
  assert (H : sat (iter_decide (X := X)) s
                (fun c _ => c = if stop_at_target (this s) then Break
                                else Continue)).
  { unfold iter_decide. apply sat_bind, sat_gets. cbv beta.
    destruct (Z.leb_spec (num (this s) range) (num (this s) range_used));
      [lia|].
    rewrite Hc. apply sat_bind.
    unfold coord_eqb. rewrite bool_decide_true by exact Hpos.
    apply sat_bind, sat_upd. cbv beta. apply sat_ret.
    destruct (stop_at_target (this s)); [apply sat_ret; reflexivity|].
    wp_walk (fun _ : state => True) ltac:(fun K => idtac)
      ltac:(idtac; first [ reflexivity | apply sat_trivial ]). }
  apply sat_elim in H. rewrite H.
  destruct (stop_at_target (this s)); split; congruence.
Qed.




(** C8. The silent evaluation of the resistance scaling changes nothing, so
    a second silent evaluation gives the same number, and the narrating
    evaluation returns the number the silent one returns. *)
Theorem mons_adjust_flavoured_prediction (monster : nat) (hurted : Z)
    (s : state) :
  (mons_adjust_flavoured (X := X) monster hurted false s).2 = s
  /\ (mons_adjust_flavoured monster hurted false
        (mons_adjust_flavoured monster hurted false s).2).1
     = (mons_adjust_flavoured monster hurted false s).1
  /\ (mons_adjust_flavoured monster hurted true s).1
     = (mons_adjust_flavoured monster hurted false s).1.
Proof.
  split; [apply mons_adjust_flavoured_silent_state|]. split.
  - rewrite mons_adjust_flavoured_silent_state. reflexivity.
  - apply mons_adjust_flavoured_same_value.
Qed.

End Claims.

Section Digging.

Context {ray_def other_state : Type} {X : @Collaborators ray_def other_state}.

#[local] Abbreviation state := (@state ray_def other_state).
#[local] Abbreviation M := (@M ray_def other_state).
#[local] Abbreviation beam := (@beam ray_def).
#[local] Abbreviation world := (@world other_state).

Lemma digging_stops_at_wall (s : state) :
  flag (this s) is_tracer = false ->
  flavour (this s) = BEAM_DIGGING ->
  grd (wld s) (pos (this s)) <> DNGN_ROCK_WALL ->
  grd (wld s) (pos (this s)) <> DNGN_CLEAR_ROCK_WALL ->
  feat_is_wall (grd (wld s) (pos (this s)))
  || feat_is_solid (grd (wld s) (pos (this s))) = true ->
  wld (affect_wall (X := X) s).2 = wld s
  /\ num (this (affect_wall s).2) range_used = num (this s) range
  /\ num (this (affect_wall s).2) range = num (this s) range.
Proof.
  intros Ht Hfl H1 H2 Hw.
  assert (H : sat (affect_wall (X := X)) s
                (fun _ s' => stopped (wld s) (num (this s) range) s')).
  { unfold affect_wall. apply sat_bind, sat_gets. cbv beta. rewrite Ht.
    unfold flavour_is at 1. rewrite bool_decide_true by exact Hfl.
    apply (sat_bind_cut
             (fun s' => wld s' = wld s /\ pos (this s') = pos (this s)
                        /\ num (this s') range = num (this s) range
                        /\ (feat_is_wall (grd (wld s) (pos (this s))) = true
                            -> num (this s') range_used
                               = num (this s) range))).
    - unfold digging_wall_effect.
      apply sat_bind, sat_gets. cbv beta.
      apply sat_bind, sat_gets. cbv beta zeta.
      rewrite (bool_decide_false _ H1), (bool_decide_false _ H2).
      cbn [orb].
      destruct (feat_is_wall (grd (wld s) (pos (this s)))).
      + unfold finish_beam. apply sat_upd. simpl. auto.
      + apply sat_ret. repeat split; try reflexivity. discriminate.
    - intros _ s1 (G1 & G2 & G3 & G4).
      apply sat_bind, sat_gets. cbv beta.
      apply sat_bind, sat_gets. cbv beta.
      rewrite G1, G2. unfold when.
      destruct (feat_is_solid (grd (wld s) (pos (this s)))) eqn:E.
      + unfold finish_beam. apply sat_upd. unfold stopped. simpl.
        rewrite G1, G3. auto.
      + apply sat_ret. rewrite orb_false_r in Hw. unfold stopped.
        rewrite G1, G3, (G4 Hw). auto. }
  apply sat_elim in H. destruct H as (G1 & G2 & G3).
  rewrite G1, G2, G3. auto.
Qed.

(** C6 (amended). A live digging bolt at a rock wall turns that cell, and
    no other, into floor, and uses none of its range there: [range_used]
    and [range] are what they were, so the bolt goes on through the cell
    it dug. At any other wall or solid cell it changes nothing in the
    world and is finished: [range_used] becomes [range]. *)
Theorem digging_converts_and_goes_on (s : state) :
  digging_calls_keep_grid ->
  feat_is_solid DNGN_FLOOR = false ->
  flag (this s) is_tracer = false ->
  flavour (this s) = BEAM_DIGGING ->
  ((grd (wld s) (pos (this s)) = DNGN_ROCK_WALL
    \/ grd (wld s) (pos (this s)) = DNGN_CLEAR_ROCK_WALL) ->
   grd (wld (affect_wall s).2) (pos (this s)) = DNGN_FLOOR
   /\ (forall q, q <> pos (this s) ->
                 grd (wld (affect_wall s).2) q = grd (wld s) q)
   /\ num (this (affect_wall s).2) range_used = num (this s) range_used
   /\ num (this (affect_wall s).2) range = num (this s) range)
  /\ (grd (wld s) (pos (this s)) <> DNGN_ROCK_WALL ->
      grd (wld s) (pos (this s)) <> DNGN_CLEAR_ROCK_WALL ->
      feat_is_wall (grd (wld s) (pos (this s)))
      || feat_is_solid (grd (wld s) (pos (this s))) = true ->
      wld (affect_wall s).2 = wld s
      /\ num (this (affect_wall s).2) range_used = num (this s) range
      /\ num (this (affect_wall s).2) range = num (this s) range).
Proof.
  intros Hext Hfloor Ht Hfl. split; [|apply (digging_stops_at_wall s Ht Hfl)].
  intros Hwall.
  set (p := pos (this s)).
  set (g := fun q => if decide (p = q) then DNGN_FLOOR else grd (wld s) q).
  assert (H : sat (affect_wall (X := X)) s
                (fun _ s' => dug g p (num (this s) range)
                               (num (this s) range_used) s')).
  { unfold affect_wall. apply sat_bind, sat_gets. cbv beta. rewrite Ht.
    unfold flavour_is at 1. rewrite bool_decide_true by exact Hfl.
    apply (sat_bind_cut (dug g p (num (this s) range)
                           (num (this s) range_used))).
    - unfold digging_wall_effect.
      apply sat_bind, sat_gets. cbv beta.
      apply sat_bind, sat_gets. cbv beta zeta.
      assert (E : bool_decide (grd (wld s) (pos (this s)) = DNGN_ROCK_WALL)
                  || bool_decide (grd (wld s) (pos (this s))
                                  = DNGN_CLEAR_ROCK_WALL) = true).
      { destruct Hwall as [-> | ->]; reflexivity. }
      rewrite E.
      apply sat_bind, sat_upd_world. cbv beta.
      apply sat_bind, sat_call_. intros r1 w1 i1 E1. cbv beta.
      apply sat_bind, sat_call_. intros r2 w2 i2 E2. cbv beta.
      simpl in E1, E2.
      match goal with
      | |- sat _ ?st _ =>
          assert (G : dug g p (num (this s) range) (num (this s) range_used)
                        st); [|revert G; generalize st; intros s2 G]
      end.
      { repeat split; simpl.
        pose proof (proj2 (Hext (pos (this s)) w1 i1)) as K2.
        rewrite E2 in K2. simpl in K2. rewrite K2.
        pose proof (proj1 (Hext (pos (this s))
                             (set_grd (pos (this s)) DNGN_FLOOR (wld s))
                             (io s))) as K1.
        rewrite E1 in K1. simpl in K1. rewrite K1. reflexivity. }
      wp_walk (dug g p (num (this s) range) (num (this s) range_used))
        ltac:(fun K => idtac)
        ltac:(idtac;
              first [ assumption
                    | apply sat_io_only; [solve [auto with io_only]|];
                      intros; cbv beta;
                      match goal with
                      | K : dug _ _ _ _ ?s1
                        |- dug _ _ _ _ {| this := this ?s1; special_explosion := _;
                                          wld := _; io := _ |} =>
                          destruct K as (? & ? & ? & ?);
                          repeat split; assumption
                      end
                    | match goal with
                      | K : dug _ _ _ _ ?s1 |- sat (set_fl _ _) ?s1 _ =>
                          apply sat_upd; destruct K as (? & ? & ? & ?);
                          repeat split; assumption
                      end ]).
    - intros _ s1 (G1 & G2 & G3 & G4).
      apply sat_bind, sat_gets. cbv beta.
      apply sat_bind, sat_gets. cbv beta.
      rewrite G1, G2. unfold g at 1.
      destruct (decide (p = p)); [|done]. rewrite Hfloor.
      apply sat_ret. repeat split; assumption. }
  apply sat_elim in H. destruct H as (G1 & G2 & G3 & G4).
  rewrite G1, G3, G4. unfold g. repeat split.
  - destruct (decide (p = p)); done.
  - intros q Hq. destruct (decide (p = q)); [congruence|reflexivity].
Qed.

End Digging.

Lemma toy_digging_calls_keep_grid : digging_calls_keep_grid (X := toy).
Proof. intros p w i. split; reflexivity. Qed.

Lemma digging_converts_and_goes_on_witness :
  digging_calls_keep_grid (X := toy)
  /\ feat_is_solid DNGN_FLOOR = false
  /\ (flag (this c6_at_wall) is_tracer = false
      /\ flavour (this c6_at_wall) = BEAM_DIGGING
      /\ (grd (wld c6_at_wall) (pos (this c6_at_wall)) = DNGN_ROCK_WALL
          \/ grd (wld c6_at_wall) (pos (this c6_at_wall))
             = DNGN_CLEAR_ROCK_WALL)
      /\ grd (wld (affect_wall c6_at_wall).2) (pos (this c6_at_wall))
         = DNGN_FLOOR
      /\ (forall q, q <> pos (this c6_at_wall) ->
                    grd (wld (affect_wall c6_at_wall).2) q
                    = grd (wld c6_at_wall) q)
      /\ num (this (affect_wall c6_at_wall).2) range_used
         = num (this c6_at_wall) range_used
      /\ num (this (affect_wall c6_at_wall).2) range
         = num (this c6_at_wall) range)
  /\ (flag (this c6_at_stone) is_tracer = false
      /\ flavour (this c6_at_stone) = BEAM_DIGGING
      /\ grd (wld c6_at_stone) (pos (this c6_at_stone)) <> DNGN_ROCK_WALL
      /\ grd (wld c6_at_stone) (pos (this c6_at_stone))
         <> DNGN_CLEAR_ROCK_WALL
      /\ feat_is_wall (grd (wld c6_at_stone) (pos (this c6_at_stone)))
         || feat_is_solid (grd (wld c6_at_stone) (pos (this c6_at_stone)))
         = true
      /\ wld (affect_wall c6_at_stone).2 = wld c6_at_stone
      /\ num (this (affect_wall c6_at_stone).2) range_used
         = num (this c6_at_stone) range
      /\ num (this (affect_wall c6_at_stone).2) range
         = num (this c6_at_stone) range).
Proof.
  split; [exact toy_digging_calls_keep_grid|].
  split; [reflexivity|]. split.
  - split; [reflexivity|]. split; [reflexivity|].
    split; [left; reflexivity|].
    exact (proj1 (digging_converts_and_goes_on c6_at_wall
                    toy_digging_calls_keep_grid eq_refl eq_refl eq_refl)
             (or_introl eq_refl)).
  - assert (H1 : grd (wld c6_at_stone) (pos (this c6_at_stone))
                 <> DNGN_ROCK_WALL) by (vm_compute; discriminate).
    assert (H2 : grd (wld c6_at_stone) (pos (this c6_at_stone))
                 <> DNGN_CLEAR_ROCK_WALL) by (vm_compute; discriminate).
    split; [reflexivity|]. split; [reflexivity|].
    split; [exact H1|]. split; [exact H2|]. split; [reflexivity|].
    exact (proj2 (digging_converts_and_goes_on c6_at_stone
                    toy_digging_calls_keep_grid eq_refl eq_refl eq_refl)
             H1 H2 eq_refl).
Defined.

(** One firing digs both walls and goes on to the end of its range: the
    first wall did not use the range that was left. *)
Lemma digging_goes_through_two_walls :
  grd (wld c6_state) (7, 5) = DNGN_ROCK_WALL
  /\ grd (wld c6_state) (8, 5) = DNGN_ROCK_WALL
  /\ grd (wld (do_fire c6_state).2) (7, 5) = DNGN_FLOOR
  /\ grd (wld (do_fire c6_state).2) (8, 5) = DNGN_FLOOR
  /\ path_taken (this (do_fire c6_state).2)
     = [(5, 5); (6, 5); (7, 5); (8, 5); (9, 5); (10, 5)]
  /\ num (this (do_fire c6_state).2) range_used = 5.
Proof. vm_compute. repeat split. Qed.

Section FillOrder.

Context {ray_def other_state : Type} {X : @Collaborators ray_def other_state}.

#[local] Abbreviation beam := (@beam ray_def).
#[local] Abbreviation world := (@world other_state).

Section OneFill.

Variables (w : world) (b : beam) (r : Z) (sas saw : bool).
Variables (dirs paths : list coord_def) (fuel : nat).

Hypothesis radius_fits : 10 * r < INT_MAX.
Hypothesis same_dirs : dirs ≡ₚ paths.
Hypothesis enough_fuel : (dfs_fuel r <= fuel)%nat.

(** The map filled in the order [dirs] together with the map of all
    executions of that run. *)
Lemma fill_in_top :
  exists g,
    link w b (determine_affected_cells_in fuel dirs w b ∅ (0, 0) 0 r sas saw)
      g
    /\ sound w b r sas saw dirs g
    /\ (0 <= 10 * r -> cell_open w b r sas saw (0, 0) = true ->
        exists t', g !! key (0, 0) = Some t' /\ t' <= 0)
    /\ (forall v t, g !! key v = Some t ->
                    closed_at w b r sas saw dirs g v t).
Proof.
  pose proof (dfs_both_top w b r sas saw radius_fits dirs fuel enough_fuel)
    as H.
  cbv zeta in H. rewrite dfs_both_fst in H.
  eexists. exact H.
Qed.

Lemma reach_perm (v : coord_def) (t : Z) :
  reach w b r sas saw dirs v t <-> reach w b r sas saw paths v t.
Proof.
  split; induction 1 as [|v d t Hr IH Hd Hm Ho Hle];
    try (apply reach_start; assumption);
    apply reach_step; try assumption.
  - rewrite <- same_dirs. exact Hd.
  - rewrite same_dirs. exact Hd.
Qed.

(** An entry of the map is the least cost of a path to its cell. *)
Lemma fill_in_entry (v : coord_def) (t : Z) :
  determine_affected_cells_in fuel dirs w b ∅ (0, 0) 0 r sas saw !! key v
  = Some t ->
  hits_cell w b v = true /\ reach w b r sas saw paths v t
  /\ forall t', reach w b r sas saw paths v t' -> t <= t'.
Proof.
  intros Hm. destruct fill_in_top as (g & L & S & R & C).
  rewrite (L v) in Hm. destruct (hits_cell w b v); [|discriminate].
  split; [reflexivity|]. split; [apply reach_perm, S, Hm|].
  intros t' Hr. apply reach_perm in Hr.
  destruct (closed_below_reach w b r sas saw dirs dirs g
              (fun d H => H) R C v t' Hr) as (t'' & Ht'' & Hle).
  rewrite Hm in Ht''. injection Ht'' as <-. exact Hle.
Qed.

(** A cell a path reaches has an entry, not greater than the cost of the
    path. *)
Lemma fill_in_reached (v : coord_def) (t : Z) :
  reach w b r sas saw paths v t -> hits_cell w b v = true ->
  exists t', determine_affected_cells_in fuel dirs w b ∅ (0, 0) 0 r sas saw
               !! key v = Some t' /\ t' <= t.
Proof.
  intros Hr Hh. apply reach_perm in Hr.
  destruct fill_in_top as (g & L & S & R & C).
  destruct (closed_below_reach w b r sas saw dirs dirs g
              (fun d H => H) R C v t Hr) as (t' & Ht' & Hle).
  exists t'. split; [|exact Hle]. rewrite (L v), Hh. exact Ht'.
Qed.

End OneFill.

(** C9. For a radius whose budget [10 * r] fits an [int], and any fuel
    that covers the depth the recursion can reach, the flood fill from the
    empty map gives, whatever the order [dirs1] in which the directions are
    explored, the map of the least arrival costs: a cell has the entry [t]
    exactly when it passes the callbacks of [aoe_funcs], a path of cells
    that can be entered within the budget reaches it from the centre at
    cost [t], and no such path costs less. The paths may take the
    directions in any other order [dirs2], so the map filled in the order
    [dirs2] is the same map. *)
Theorem flood_fill_order_independent (w : world) (b : beam) (r : Z)
    (stop_at_statues stop_at_walls : bool)
    (dirs1 dirs2 : list coord_def) (fuel1 fuel2 : nat) :
  10 * r < INT_MAX ->
  dirs1 ≡ₚ dirs2 ->
  (dfs_fuel r <= fuel1)%nat -> (dfs_fuel r <= fuel2)%nat ->
  determine_affected_cells_in (X := X) fuel1 dirs1 w b ∅ (0, 0) 0 r
    stop_at_statues stop_at_walls
  = determine_affected_cells_in fuel2 dirs2 w b ∅ (0, 0) 0 r
      stop_at_statues stop_at_walls
  /\ forall (v : coord_def) (t : Z),
       determine_affected_cells_in (X := X) fuel1 dirs1 w b ∅ (0, 0) 0 r
         stop_at_statues stop_at_walls !! coord_add v centre = Some t
       <-> (forallb (fun f => f b w (coord_add (pos b) v)) aoe_funcs = true
            /\ reach w b r stop_at_statues stop_at_walls dirs2 v t
            /\ forall t', reach w b r stop_at_statues stop_at_walls dirs2 v
                            t' -> t <= t').
Proof.
  intros Hr Hp Hf1 Hf2. split.
  - pose proof (dfs_both_order w b r stop_at_statues stop_at_walls Hr
                  dirs1 dirs2 fuel1 fuel2 Hp Hf1 Hf2) as H.
    rewrite !dfs_both_fst in H. exact H.
  - intros v t. split.
    + intros Hm.
      exact (fill_in_entry w b r _ _ dirs1 dirs2 fuel1 Hr Hp Hf1 v t Hm).
    + intros (Hh & Hreach & Hleast).
      destruct (fill_in_reached w b r _ _ dirs1 dirs2 fuel1 Hr Hp Hf1 v t
                  Hreach Hh) as (t' & Ht' & Hle).
      destruct (fill_in_entry w b r _ _ dirs1 dirs2 fuel1 Hr Hp Hf1 v t' Ht')
        as (_ & Hr' & _).
      specialize (Hleast t' Hr').
      assert (t' = t) by lia. subst t'. exact Ht'.
Qed.

End FillOrder.

Lemma flood_fill_order_independent_witness :
  10 * 2 < INT_MAX
  /\ Compass ≡ₚ reverse Compass
  /\ (dfs_fuel 2 <= dfs_fuel 2)%nat
  /\ (dfs_fuel 2 <= dfs_fuel 2 + 3)%nat
  /\ determine_affected_cells c9_world c9_bolt ∅ (0, 0) 0 2 true true
     = determine_affected_cells_in (dfs_fuel 2 + 3) (reverse Compass)
         c9_world c9_bolt ∅ (0, 0) 0 2 true true
  /\ (forall (v : coord_def) (t : Z),
       determine_affected_cells c9_world c9_bolt ∅ (0, 0) 0 2 true true
         !! coord_add v centre = Some t
       <-> (forallb (fun f => f c9_bolt c9_world
                                (coord_add (pos c9_bolt) v)) aoe_funcs = true
            /\ reach c9_world c9_bolt 2 true true (reverse Compass) v t
            /\ forall t', reach c9_world c9_bolt 2 true true
                            (reverse Compass) v t' -> t <= t'))
  /\ determine_affected_cells c9_world c9_bolt ∅ (0, 0) 0 2 true true
       !! coord_add (0, 0) centre = Some 0
  /\ determine_affected_cells c9_world c9_bolt ∅ (0, 0) 0 2 true true
       !! coord_add (-2, 0) centre = Some 10
  /\ determine_affected_cells c9_world c9_bolt ∅ (0, 0) 0 2 true true
       !! coord_add (1, 0) centre = None.
Proof.
  assert (H1 : 10 * 2 < INT_MAX) by reflexivity.
  assert (H2 : Compass ≡ₚ reverse Compass)
    by (symmetry; apply reverse_Permutation).
  assert (H3 : (dfs_fuel 2 <= dfs_fuel 2)%nat) by lia.
  assert (H4 : (dfs_fuel 2 <= dfs_fuel 2 + 3)%nat) by lia.
  repeat (split; [assumption|]).
  destruct (flood_fill_order_independent c9_world c9_bolt 2 true true
              Compass (reverse Compass) (dfs_fuel 2) (dfs_fuel 2 + 3)
              H1 H2 H3 H4) as [Hsame Hleast].
  split; [exact Hsame|]. split; [exact Hleast|].
  vm_compute. repeat split.
Defined.

(** * Runs of the small game *)

Lemma tracer_repeatable_witness :
  flag (this c1_state) is_tracer = true
  /\ wld (Nat.iter 3 (fun s' => (fire (refire c1_state s')).2) c1_state)
     = wld c1_state
  /\ predictions
       (Nat.iter 4 (fun s' => (fire (refire c1_state s')).2) c1_state)
     = predictions (fire c1_state).2.
Proof.
  split; [reflexivity|]. exact (tracer_repeatable c1_state 3 eq_refl).
Defined.

Lemma toy_range_hooks_cost : range_hooks_cost (X := toy).
Proof. constructor. Qed.

Lemma range_budget_witness :
  range_hooks_cost (X := toy)
  /\ num (this c2_state) range_used <= num (this c2_state) range
  /\ (num (this c2_state) range_used + 0
        <= num (this (fire_iter true c2_state).2) range_used
      /\ ((fire_iter true c2_state).1 = Continue ->
          num (this (fire_iter true c2_state).2) range_used
          < num (this (fire_iter true c2_state).2) range))
     /\ (num (this c2_state) range_used
           <= num (this (fire_loop 7 true c2_state).2) range_used
         /\ ((Z.to_nat (num (this c2_state) range
                        - num (this c2_state) range_used) + 2 <= 7)%nat ->
             (fire_loop 7 true c2_state).1 <> Exhausted)).
Proof.
  split; [exact toy_range_hooks_cost|]. split; [vm_compute; discriminate|].
  apply (range_budget 7 true c2_state toy_range_hooks_cost).
  vm_compute. discriminate.
Defined.

(** The beam hits the wall with one unit of range left; the wall stops it
    ([finish_beam]) and the step is charged on top: the loop ends with
    [range_used] at 6, above [range]. *)
Lemma range_used_exceeds_range :
  num (this (do_fire c2_state).2) range = 5
  /\ num (this (do_fire c2_state).2) range_used = 6
  /\ path_taken (this (do_fire c2_state).2)
     = [(5, 5); (6, 5); (7, 5); (8, 5)].
Proof. vm_compute. repeat split. Qed.

(** Aimed at the caster's feet the first step is charged: one cell
    visited, one unit used. Aimed away it is free: six cells visited, five
    units used. *)
Lemma first_step_charged_at_feet :
  (flag (this (do_fire c3_feet).2) aimed_at_feet = true
   /\ path_taken (this (do_fire c3_feet).2) = [(5, 5)]
   /\ num (this (do_fire c3_feet).2) range_used = 1)
  /\ (flag (this (do_fire c3_away).2) aimed_at_feet = false
      /\ path_taken (this (do_fire c3_away).2)
         = [(5, 5); (6, 5); (7, 5); (8, 5); (9, 5); (10, 5)]
      /\ num (this (do_fire c3_away).2) range_used = 5).
Proof. vm_compute. repeat split. Qed.

Lemma stops_at_target_iff_witness :
  num (this c4_state) range_used < num (this c4_state) range
  /\ flag (this c4_state) beam_cancelled = false
  /\ pos (this c4_state) = target (this c4_state)
  /\ ((iter_decide c4_state).1 = Break
      <-> stop_at_target (this c4_state) = true)
  /\ stop_at_target (this c4_state)
     = flag (this c4_state) is_explosion || flag (this c4_state) is_big_cloud
       || flag (this c4_state) aimed_at_spot.
Proof.
  split; [reflexivity|]. split; [reflexivity|]. split; [reflexivity|].
  exact (stops_at_target_iff c4_state eq_refl eq_refl eq_refl).
Defined.

(** A single-target bolt is configured to stop at its target in the words
    of the specification, and is not in the code: fired at (7,5) with
    nothing in its way it flies on to the end of its range. *)
Lemma single_target_bolt_passes_target :
  kind_of (this c4_fired) = single_target_bolt
  /\ spec_stop_at_target (this c4_fired) = true
  /\ stop_at_target (this c4_fired) = false
  /\ target (this (do_fire c4_fired).2) = (7, 5)
  /\ path_taken (this (do_fire c4_fired).2)
     = [(5, 5); (6, 5); (7, 5); (8, 5); (9, 5); (10, 5); (11, 5)].
Proof. vm_compute. repeat split. Qed.



(** * What the map of an explosion holds *)

Section FillContents.

Context {ray_def other_state : Type} {X : @Collaborators ray_def other_state}.

#[local] Abbreviation beam := (@beam ray_def).
#[local] Abbreviation world := (@world other_state).

Variables (w : world) (b : beam) (r : Z) (sas saw : bool).

Lemma reach_open (dirs : list coord_def) (v : coord_def) (t : Z) :
  reach w b r sas saw dirs v t ->
  cell_open w b r sas saw v = true /\ 0 <= t <= 10 * r.
Proof.
  induction 1 as [|v d t Hr IH Hd Hm Ho Hle].
  - split; [assumption|lia].
  - split; [assumption|]. pose proof (cadd_at_least v d). lia.
Qed.

(** What the tests at the head of the recursion let through. *)
Lemma cell_open_true (delta : coord_def) :
  cell_open w b r sas saw delta = true ->
  let loc := coord_add (pos b) delta in
  rdist delta <= rdist centre /\ abs2 delta <= r * (r + 1)
  /\ map_bounds loc = true /\ is_sanctuary w loc = false
  /\ ((feat_is_wall (grd w loc) || bool_decide (grd w loc = DNGN_SECRET_DOOR)
       || feat_is_closed_door (grd w loc))
      && saw && negb (origin delta && affects_wall b (grd w loc)) = false)
  /\ (feat_is_solid (grd w loc) && negb (feat_is_wall (grd w loc)) && sas
      = false).
Proof.
  unfold cell_open. cbv zeta. intros H.
  destruct (rdist centre <? rdist delta) eqn:E1; [discriminate|].
  destruct (r * (r + 1) <? abs2 delta) eqn:E2; [discriminate|].
  destruct (map_bounds (coord_add (pos b) delta)) eqn:E3; [|discriminate].
  destruct (is_sanctuary w (coord_add (pos b) delta)) eqn:E4;
    [discriminate|].
  simpl in H.
  match type of H with
  | (if ?c then _ else _) = _ => destruct c eqn:E5; [discriminate|]
  end.
  match type of H with
  | (if ?c then _ else _) = _ => destruct c eqn:E6; [discriminate|]
  end.
  apply Z.ltb_ge in E1, E2. repeat split; assumption.
Qed.

Lemma abs2_rdist (v : coord_def) : 0 <= r -> abs2 v <= r * (r + 1) ->
  rdist v <= r.
Proof.
  destruct v as [x y]. unfold abs2, rdist. simpl. intros Hr H.
  apply Z.max_lub; apply Z.abs_le; split; nia.
Qed.

Hypothesis radius_fits : 10 * r < INT_MAX.

(** The map of the source together with the map of all executions. *)
Lemma fill_top :
  exists g,
    link w b (determine_affected_cells w b ∅ (0, 0) 0 r sas saw) g
    /\ sound w b r sas saw Compass g
    /\ (0 <= 10 * r -> cell_open w b r sas saw (0, 0) = true ->
        exists t', g !! key (0, 0) = Some t' /\ t' <= 0)
    /\ (forall v t, g !! key v = Some t ->
                    closed_at w b r sas saw Compass g v t).
Proof.
  pose proof (dfs_both_top w b r sas saw radius_fits Compass (dfs_fuel r)
                (le_n _)) as H.
  cbv zeta in H. rewrite dfs_both_fst in H.
  eexists. exact H.
Qed.

Lemma fill_entry (v : coord_def) (t : Z) :
  determine_affected_cells w b ∅ (0, 0) 0 r sas saw !! key v = Some t ->
  hits_cell w b v = true /\ reach w b r sas saw Compass v t
  /\ forall t', reach w b r sas saw Compass v t' -> t <= t'.
Proof.
  intros Hm. destruct fill_top as (g & L & S & R & C).
  rewrite (L v) in Hm. destruct (hits_cell w b v); [|discriminate].
  split; [reflexivity|]. split; [apply S, Hm|].
  intros t' Hr.
  destruct (closed_below_reach w b r sas saw Compass Compass g
              (fun d H => H) R C v t' Hr) as (t'' & Ht'' & Hle).
  rewrite Hm in Ht''. injection Ht'' as <-. exact Hle.
Qed.

Lemma fill_reached (v : coord_def) (t : Z) :
  reach w b r sas saw Compass v t -> hits_cell w b v = true ->
  exists t', determine_affected_cells w b ∅ (0, 0) 0 r sas saw !! key v
             = Some t' /\ t' <= t.
Proof.
  intros Hr Hh. destruct fill_top as (g & L & S & R & C).
  destruct (closed_below_reach w b r sas saw Compass Compass g
              (fun d H => H) R C v t Hr) as (t' & Ht' & Hle).
  exists t'. split; [|exact Hle]. rewrite (L v), Hh. exact Ht'.
Qed.

Lemma fill_entry_open (k : Z * Z) (t : Z) :
  determine_affected_cells w b ∅ (0, 0) 0 r sas saw !! k = Some t ->
  hits_cell w b (coord_sub k centre) = true
  /\ cell_open w b r sas saw (coord_sub k centre) = true
  /\ 0 <= t <= 10 * r.
Proof.
  intros Hm. rewrite <- (key_sub k) in Hm.
  destruct (fill_entry _ _ Hm) as (Hh & Hr & _).
  destruct (reach_open _ _ _ Hr) as (Ho & Ht). auto.
Qed.

End FillContents.

Section FillTheorems.

Context {ray_def other_state : Type} {X : @Collaborators ray_def other_state}.

#[local] Abbreviation beam := (@beam ray_def).
#[local] Abbreviation world := (@world other_state).

(** X1. Every cell in the map that [determine_affected_cells] fills from
    the empty map lies inside the circle of the radius ([abs2 <= r * (r +
    1)], so at most [r] cells from the centre in each direction), inside the
    map, outside any sanctuary, passes every callback of [aoe_funcs], and
    carries a cost between [0] and [10 * r]. *)
Theorem affected_cells_within_radius (w : world) (b : beam) (r : Z)
    (stop_at_statues stop_at_walls : bool) (k : Z * Z) (t : Z) :
  10 * r < INT_MAX ->
  determine_affected_cells (X := X) w b ∅ (0, 0) 0 r stop_at_statues
    stop_at_walls !! k = Some t ->
  let delta := coord_sub k centre in
  let loc := coord_add (pos b) delta in
  abs2 delta <= r * (r + 1) /\ rdist delta <= r
  /\ map_bounds loc = true /\ is_sanctuary w loc = false
  /\ forallb (fun f => f b w loc) aoe_funcs = true
  /\ 0 <= t <= 10 * r.
Proof.
  intros Hr Hm. cbv zeta.
  destruct (fill_entry_open w b r _ _ Hr k t Hm) as (Hh & Ho & Ht).
  destruct (cell_open_true w b r _ _ _ Ho) as (_ & H2 & H3 & H4 & _).
  repeat split; try assumption; try lia.
  apply abs2_rdist; [lia|exact H2].
Qed.

(** X2. An explosion that stops at walls affects a wall, a secret door or
    a closed door only at its centre, and only a wall the bolt affects; an
    explosion that stops at statues affects no solid cell that is not a
    wall. *)
Theorem affected_cells_stop_at_walls (w : world) (b : beam) (r : Z)
    (stop_at_statues stop_at_walls : bool) (k : Z * Z) (t : Z) :
  10 * r < INT_MAX ->
  determine_affected_cells (X := X) w b ∅ (0, 0) 0 r stop_at_statues
    stop_at_walls !! k = Some t ->
  let delta := coord_sub k centre in
  let feat := grd w (coord_add (pos b) delta) in
  (stop_at_walls = true ->
   feat_is_wall feat || bool_decide (feat = DNGN_SECRET_DOOR)
   || feat_is_closed_door feat = true ->
   delta = (0, 0) /\ affects_wall b feat = true)
  /\ (stop_at_statues = true -> feat_is_solid feat = true ->
      feat_is_wall feat = true).
Proof.
  intros Hr Hm. cbv zeta.
  destruct (fill_entry_open w b r _ _ Hr k t Hm) as (Hh & Ho & Ht).
  destruct (cell_open_true w b r _ _ _ Ho) as (_ & _ & _ & _ & H5 & H6).
  cbv zeta in H5, H6. split.
  - intros -> Hf. rewrite Hf in H5. simpl in H5.
    apply negb_false_iff, andb_prop in H5. destruct H5 as [H5 H5'].
    split; [|exact H5']. unfold origin in H5.
    apply bool_decide_eq_true in H5. exact H5.
  - intros -> Hf. rewrite Hf, andb_true_r in H6. simpl in H6.
    apply negb_false_iff in H6. exact H6.
Qed.

(** X3. The cost the map holds for a cell is the cost of a path of cells
    that can be entered from the centre, within the budget [10 * r], and no
    such path to the cell costs less. *)
Theorem affected_cells_least_cost (w : world) (b : beam) (r : Z)
    (stop_at_statues stop_at_walls : bool) (v : coord_def) (t : Z) :
  10 * r < INT_MAX ->
  determine_affected_cells (X := X) w b ∅ (0, 0) 0 r stop_at_statues
    stop_at_walls !! coord_add v centre = Some t ->
  reach w b r stop_at_statues stop_at_walls Compass v t
  /\ forall t', reach w b r stop_at_statues stop_at_walls Compass v t' ->
                t <= t'.
Proof.
  intros Hr Hm. apply (fill_entry w b r _ _ Hr v t Hm).
Qed.

(** X4. Every cell that a path of cells that can be entered reaches from
    the centre within the budget, and that passes the callbacks of
    [aoe_funcs], is in the map. *)
Theorem affected_cells_complete (w : world) (b : beam) (r : Z)
    (stop_at_statues stop_at_walls : bool) (v : coord_def) (t : Z) :
  10 * r < INT_MAX ->
  reach w b r stop_at_statues stop_at_walls Compass v t ->
  forallb (fun f => f b w (coord_add (pos b) v)) aoe_funcs = true ->
  exists t', determine_affected_cells (X := X) w b ∅ (0, 0) 0 r
               stop_at_statues stop_at_walls !! coord_add v centre = Some t'
             /\ t' <= t.
Proof.
  intros Hr Hp Hh. exact (fill_reached w b r _ _ Hr v t Hp Hh).
Qed.

End FillTheorems.

(** * The sweep of an explosion *)

Section Sweep.

Lemma flat_map_bind {A B : Type} (f : A -> list B) (l : list A) :
  flat_map f l = l ≫= f.
Proof. induction l as [|x l IH]; [reflexivity|]. simpl. by rewrite IH. Qed.

Lemma concat_join {A : Type} (ls : list (list A)) : concat ls = mjoin ls.
Proof.
  induction ls as [|l ls IH]; [reflexivity|]. simpl. by rewrite IH.
Qed.

Lemma map_fmap {A B : Type} (f : A -> B) (l : list A) : map f l = f <$> l.
Proof. induction l as [|x l IH]; [reflexivity|]. simpl. by rewrite IH. Qed.

(** The values of [d] in the loop [for (int d = -rad; d <= rad; ++d)]. *)
Lemma elem_of_offsets (rad d : Z) :
  d ∈ map (fun i => Z.of_nat i - rad) (seq 0 (Z.to_nat (2 * rad + 1)))
  <-> - rad <= d <= rad.
Proof.
  rewrite map_fmap, list_elem_of_fmap. split.
  - intros (i & -> & Hi). apply elem_of_seq in Hi. lia.
  - intros Hd. exists (Z.to_nat (d + rad)). split; [lia|].
    apply elem_of_seq. lia.
Qed.

Lemma NoDup_offsets (rad : Z) :
  NoDup (map (fun i => Z.of_nat i - rad) (seq 0 (Z.to_nat (2 * rad + 1)))).
Proof.
  rewrite map_fmap. apply NoDup_fmap_2_strong; [|apply NoDup_seq].
  intros i j _ _ H. lia.
Qed.

(** The cells pushed for one value of [d]. *)
Lemma elem_of_ring_block (rad d : Z) (p : coord_def) :
  p ∈ (if negb (d =? rad) && negb (d =? - rad)
       then [ (- rad, d); (rad, d) ] else [])
      ++ [ (d, - rad); (d, rad) ]
  <-> (d <> rad /\ d <> - rad /\ (p = (- rad, d) \/ p = (rad, d)))
      \/ p = (d, - rad) \/ p = (d, rad).
Proof.
  rewrite elem_of_app.
  destruct (Z.eqb_spec d rad) as [E1|E1];
    destruct (Z.eqb_spec d (- rad)) as [E2|E2]; simpl;
    rewrite ?elem_of_cons, ?elem_of_nil; intuition.
Qed.

Lemma elem_of_sweep_ring (rad : Z) (p : coord_def) : 1 <= rad ->
  p ∈ sweep_ring rad <-> rdist p = rad.
Proof.
  intros Hrad. unfold sweep_ring. rewrite flat_map_bind, list_elem_of_bind.
  destruct p as [x y]. unfold rdist. simpl. split.
  - intros (d & Hp & Hd). apply elem_of_offsets in Hd.
    apply elem_of_ring_block in Hp.
    destruct Hp as [(H1 & H2 & [[= -> ->]|[= -> ->]])|[[= -> ->]|[= -> ->]]];
      lia.
  - intros H.
    destruct (decide (Z.abs y = rad)) as [Hy|Hy].
    + exists x. split; [|apply elem_of_offsets; lia].
      apply elem_of_ring_block. right.
      destruct (decide (y = rad)) as [->|]; [right; reflexivity|].
      left. f_equal. lia.
    + exists y. split; [|apply elem_of_offsets; lia].
      apply elem_of_ring_block. left. split; [lia|]. split; [lia|].
      destruct (decide (x = rad)) as [->|]; [right; reflexivity|].
      left. f_equal. lia.
Qed.

Lemma NoDup_sweep_ring (rad : Z) : 1 <= rad -> NoDup (sweep_ring rad).
Proof.
  intros Hrad. unfold sweep_ring. rewrite flat_map_bind.
  apply NoDup_bind; [| |apply NoDup_offsets].
  - intros d1 d2 p H1 H2 Hp1 Hp2.
    apply elem_of_offsets in H1, H2.
    apply elem_of_ring_block in Hp1, Hp2.
    destruct Hp1 as [(? & ? & [-> | ->]) | [-> | ->]];
      destruct Hp2 as [(? & ? & [E|E])|[E|E]]; injection E; lia.
  - intros d Hd. apply elem_of_offsets in Hd.
    destruct (Z.eqb_spec d rad) as [E1|E1];
      destruct (Z.eqb_spec d (- rad)) as [E2|E2]; simpl;
      repeat (apply NoDup_cons; split;
              [rewrite ?elem_of_cons, ?elem_of_nil; intros H;
               repeat destruct H as [H|H]; try injection H; try lia|]);
      try apply NoDup_nil_2.
Qed.

(** The rings after the centre. *)
Lemma elem_of_rings (n : nat) (p : coord_def) :
  p ∈ concat (map (fun i => sweep_ring (Z.of_nat i + 1)) (seq 0 n))
  <-> 1 <= rdist p <= Z.of_nat n.
Proof.
  rewrite concat_join, map_fmap, list_elem_of_join. split.
  - intros (l & Hp & Hl). apply list_elem_of_fmap in Hl.
    destruct Hl as (i & -> & Hi). apply elem_of_seq in Hi.
    apply elem_of_sweep_ring in Hp; lia.
  - intros H. exists (sweep_ring (rdist p)). split.
    + apply elem_of_sweep_ring; lia.
    + apply list_elem_of_fmap. exists (Z.to_nat (rdist p - 1)).
      split; [f_equal; lia|]. apply elem_of_seq. lia.
Qed.

Lemma NoDup_rings (n : nat) :
  NoDup (concat (map (fun i => sweep_ring (Z.of_nat i + 1)) (seq 0 n))).
Proof.
  rewrite concat_join, map_fmap, list_join_bind.
  apply NoDup_bind.
  - intros l1 l2 p H1 H2 Hp1 Hp2. unfold id in *.
    apply list_elem_of_fmap in H1, H2.
    destruct H1 as (i & -> & Hi), H2 as (j & -> & Hj).
    apply elem_of_sweep_ring in Hp1, Hp2; [|lia..].
    f_equal. lia.
  - intros l Hl. apply list_elem_of_fmap in Hl.
    destruct Hl as (i & -> & Hi). apply NoDup_sweep_ring. lia.
  - apply NoDup_fmap_2_strong; [|apply NoDup_seq].
    intros i j _ _ H.
    assert (Hp : (Z.of_nat i + 1, 0) ∈ sweep_ring (Z.of_nat i + 1)).
    { apply elem_of_sweep_ring; [lia|]. unfold rdist. simpl. lia. }
    rewrite H in Hp. apply elem_of_sweep_ring in Hp; [|lia].
    unfold rdist in Hp. simpl in Hp. lia.
Qed.

Lemma elem_of_radial_sweep (r : Z) (p : coord_def) :
  p ∈ concat (_radial_sweep r) <-> rdist p <= Z.max 0 r.
Proof.
  unfold _radial_sweep.
  change (concat ([(0, 0)] :: ?l)) with ((0, 0) :: concat l).
  rewrite elem_of_cons, elem_of_rings. destruct p as [x y].
  unfold rdist. simpl. split.
  - intros [[= -> ->]|H]; lia.
  - intros H. destruct (decide (x = 0 /\ y = 0)) as [[-> ->]|Hn];
      [left; reflexivity|]. right. lia.
Qed.

Lemma NoDup_radial_sweep (r : Z) : NoDup (concat (_radial_sweep r)).
Proof.
  unfold _radial_sweep.
  change (concat ([(0, 0)] :: ?l)) with ((0, 0) :: concat l).
  apply NoDup_cons. split; [|apply NoDup_rings].
  rewrite elem_of_rings. unfold rdist. simpl. lia.
Qed.

(** X5. The sweep of radius [r] visits every offset at most [r] cells from
    the centre in each direction, no other offset, and none twice. *)
Theorem radial_sweep_each_cell_once (r : Z) :
  NoDup (concat (_radial_sweep r))
  /\ forall p : coord_def,
       p ∈ concat (_radial_sweep r) <-> rdist p <= Z.max 0 r.
Proof. split; [apply NoDup_radial_sweep|apply elem_of_radial_sweep]. Qed.

Context {ray_def other_state : Type} {X : @Collaborators ray_def other_state}.


End Sweep.

(** * What a firing leaves as it is *)

Section Frame.

Context {ray_def other_state : Type} {X : @Collaborators ray_def other_state}.

#[local] Abbreviation state := (@state ray_def other_state).
#[local] Abbreviation M := (@M ray_def other_state).
#[local] Abbreviation beam := (@beam ray_def).
#[local] Abbreviation world := (@world other_state).
#[local] Abbreviation keeps :=
  (keeps (ray_def := ray_def) (other_state := other_state)).

Lemma keeps_ret {T A : Type} (part : beam -> T) (a : A) :
  keeps part (mret a : M A).
Proof. intros s. reflexivity. Qed.

Lemma keeps_bind {T A B : Type} (part : beam -> T) (m : M A) (k : A -> M B) :
  keeps part m -> (forall a, keeps part (k a)) -> keeps part (m ≫= k).
Proof.
  intros Hm Hk s. unfold mbind, M_bind.
  specialize (Hm s). destruct (m s) as [a s']. simpl in *.
  rewrite Hk. exact Hm.
Qed.

Lemma keeps_keeps_this {T A : Type} (part : beam -> T) (m : M A) :
  keeps_this m -> keeps part m.
Proof. intros H s. rewrite H. reflexivity. Qed.

Lemma keeps_upd {T : Type} (part : beam -> T) (f : beam -> beam) :
  (forall b, part (f b) = part b) -> keeps part (upd f).
Proof. intros H s. apply H. Qed.

Lemma keeps_this_upd_special (f : beam -> beam) :
  keeps_this (upd_special (ray_def := ray_def) (other_state := other_state) f).
Proof. intros s. reflexivity. Qed.

Lemma keeps_this_on_special {A : Type} (m : M A) : keeps_this (on_special m).
Proof.
  intros s. unfold on_special. destruct (special_explosion s); [|reflexivity].
  destruct (m _). reflexivity.
Qed.

Lemma keeps_foldl {T A B : Type} (part : beam -> T) (f : M B -> A -> M B)
    (l : list A) :
  (forall acc x, keeps part acc -> keeps part (f acc x)) ->
  forall acc, keeps part acc -> keeps part (foldl f acc l).
Proof.
  intros Hf. induction l as [|x l IH]; intros acc Hacc; simpl; [exact Hacc|].
  apply IH, Hf, Hacc.
Qed.

Lemma keeps_for_each {T A : Type} (part : beam -> T) (l : list A)
    (f : A -> M unit) :
  (forall x, keeps part (f x)) -> keeps part (for_each l f).
Proof.
  intros Hf. unfold for_each. induction l as [|x l IH]; simpl.
  - apply keeps_ret.
  - apply keeps_bind; [apply Hf|intros _; exact IH].
Qed.

Lemma keeps_fst {T U A : Type} (part : beam -> T) (rest : beam -> U) (m : M A) :
  keeps (fun b => (part b, rest b)) m -> keeps part m.
Proof. intros H s. specialize (H s). simpl in H. congruence. Qed.

Lemma keeps_snd {T U A : Type} (part : beam -> T) (rest : beam -> U) (m : M A) :
  keeps (fun b => (part b, rest b)) m -> keeps rest m.
Proof. intros H s. specialize (H s). simpl in H. congruence. Qed.

Lemma sat_and {A : Type} (m : M A) (s : state) (Q1 Q2 : A -> state -> Prop) :
  sat m s Q1 -> sat m s Q2 -> sat m s (fun a s' => Q1 a s' /\ Q2 a s').
Proof.
  intros H1 H2. apply sat_intro. split; [exact (sat_elim _ _ _ H1)|].
  exact (sat_elim _ _ _ H2).
Qed.

End Frame.

Create HintDb fx discriminated.
#[global] Hint Resolve keeps_this_upd_special keeps_this_on_special
  : keeps_this.
#[global] Hint Extern 5 (keeps _ _) =>
  (apply keeps_keeps_this; solve [auto with keeps_this]) : fx.

(** Walks through a computation that keeps a part of the bolt. *)
Ltac keeps_upd_leaf :=
  apply keeps_upd; intros ?;
  simpl;
  repeat match goal with
    | |- context [if ?c then _ else _] => destruct c; simpl
    | |- context [match ?c with _ => _ end] => destruct c; simpl
    end;
  reflexivity.

Ltac keeps_leaf :=
  first
    [ assumption
    | match goal with
      | |- keeps _ (upd _) => keeps_upd_leaf
      | |- keeps _ (set_fl _ _) => unfold set_fl; keeps_upd_leaf
      | |- keeps _ (set_nm _ _) => unfold set_nm; keeps_upd_leaf
      | |- keeps _ (add_nm _ _) => unfold add_nm; keeps_upd_leaf
      | |- keeps _ (upd_friend _) => unfold upd_friend; keeps_upd_leaf
      | |- keeps _ (upd_foe _) => unfold upd_foe; keeps_upd_leaf
      | |- keeps _ finish_beam => unfold finish_beam; keeps_upd_leaf
      end
    | solve [auto with fx] ].

Ltac keeps_walk :=
  cbv zeta;
  lazymatch goal with
  | |- keeps _ (mret _) => apply keeps_ret
  | |- keeps _ (_ ≫= _) =>
      apply keeps_bind;
      [ keeps_walk | let a := fresh "a" in intros a; cbv beta; keeps_walk ]
  | |- keeps _ (if ?c then _ else _) => destruct c; keeps_walk
  | |- keeps _ (match ?x with _ => _ end) => destruct x; keeps_walk
  | |- keeps _ (when _ _) => unfold when at 1; keeps_walk
  | |- _ => try keeps_leaf
  end.

Ltac fx_walk := keeps_walk.

Section FrameSteps.

Context {ray_def other_state : Type} {X : @Collaborators ray_def other_state}.

#[local] Abbreviation state := (@state ray_def other_state).
#[local] Abbreviation M := (@M ray_def other_state).
#[local] Abbreviation beam := (@beam ray_def).
#[local] Abbreviation keeps :=
  (keeps (ray_def := ray_def) (other_state := other_state)).

Lemma munge_tries_fixed (n : nat) (r1 r2 : ray_def) :
  keeps fixed_full (munge_tries (X := X) n r1 r2).
Proof. apply keeps_keeps_this, io_only_keeps_this, io_only_munge_tries. Qed.
#[local] Hint Resolve munge_tries_fixed : fx.

Lemma emit_message_fixed (chan : msg_channel_type) (m : string) :
  keeps fixed_full (emit_message chan m : M unit).
Proof. unfold emit_message. fx_walk. Qed.
#[local] Hint Resolve emit_message_fixed : fx.

Lemma fake_flavour_fixed :
  keeps fixed_full (fake_flavour (X := X)).
Proof. unfold fake_flavour, _chaos_beam_flavour. fx_walk. Qed.
#[local] Hint Resolve fake_flavour_fixed : fx.

Lemma see_or_smell_fixed (p : coord_def) (m1 m2 : string) :
  keeps fixed_full (see_or_smell (X := X) p m1 m2).
Proof. unfold see_or_smell. fx_walk. Qed.
#[local] Hint Resolve see_or_smell_fixed : fx.

Lemma digging_wall_effect_fixed :
  keeps fixed_full (digging_wall_effect (X := X)).
Proof. unfold digging_wall_effect. fx_walk. Qed.
#[local] Hint Resolve digging_wall_effect_fixed : fx.

Lemma fire_wall_effect_fixed :
  keeps fixed_full (fire_wall_effect (X := X)).
Proof. unfold fire_wall_effect. fx_walk. Qed.
#[local] Hint Resolve fire_wall_effect_fixed : fx.

Lemma nuke_wall_effect_fixed :
  keeps fixed_full (nuke_wall_effect (X := X)).
Proof. unfold nuke_wall_effect. fx_walk. Qed.
#[local] Hint Resolve nuke_wall_effect_fixed : fx.

Lemma affect_wall_fixed :
  keeps fixed_full (affect_wall (X := X)).
Proof. unfold affect_wall. fx_walk. Qed.
#[local] Hint Resolve affect_wall_fixed : fx.

Lemma munge_bounced_bolt_fixed (b : beam) (r : ray_def) :
  keeps fixed_full (_munge_bounced_bolt (X := X) b r).
Proof. unfold _munge_bounced_bolt. fx_walk. Qed.
#[local] Hint Resolve munge_bounced_bolt_fixed : fx.

Lemma bounce_fixed :
  keeps fixed_full (bounce (X := X)).
Proof. unfold bounce. fx_walk. Qed.
#[local] Hint Resolve bounce_fixed : fx.

Lemma hit_wall_fixed :
  keeps fixed_full (hit_wall (X := X)).
Proof. unfold hit_wall. fx_walk. Qed.
#[local] Hint Resolve hit_wall_fixed : fx.

Lemma use_range_on_hit_fixed (v : actor) :
  keeps fixed_full (use_range_on_hit (X := X) v).
Proof. unfold use_range_on_hit. fx_walk. Qed.
#[local] Hint Resolve use_range_on_hit_fixed : fx.

Lemma choose_ray_fixed :
  keeps fixed_full (choose_ray (X := X)).
Proof. unfold choose_ray. fx_walk. Qed.
#[local] Hint Resolve choose_ray_fixed : fx.

Lemma reflect_fixed :
  keeps fixed_full (reflect (X := X)).
Proof. unfold reflect. fx_walk. Qed.
#[local] Hint Resolve reflect_fixed : fx.

Lemma fuzz_invis_tracer_fixed :
  keeps fixed_full (fuzz_invis_tracer (X := X)).
Proof. unfold fuzz_invis_tracer. fx_walk. Qed.
#[local] Hint Resolve fuzz_invis_tracer_fixed : fx.

Lemma tracer_affect_player_fixed :
  keeps fixed_full (tracer_affect_player (X := X)).
Proof. unfold tracer_affect_player. fx_walk. Qed.
#[local] Hint Resolve tracer_affect_player_fixed : fx.

Lemma misses_player_fixed :
  keeps fixed_full (misses_player (X := X)).
Proof. unfold misses_player. fx_walk. Qed.
#[local] Hint Resolve misses_player_fixed : fx.

Lemma internal_ouch_fixed (dam : Z) :
  keeps fixed_full (internal_ouch (X := X) dam).
Proof. unfold internal_ouch. fx_walk. Qed.
#[local] Hint Resolve internal_ouch_fixed : fx.

Lemma affect_player_enchantment_fixed :
  keeps fixed_full (affect_player_enchantment (X := X)).
Proof. unfold affect_player_enchantment. fx_walk. Qed.
#[local] Hint Resolve affect_player_enchantment_fixed : fx.

Lemma affect_player_fixed :
  keeps fixed_full (affect_player (X := X)).
Proof. unfold affect_player. fx_walk. Qed.
#[local] Hint Resolve affect_player_fixed : fx.

Lemma mons_adjust_flavoured_fixed (mon : nat) (h : Z) (d : bool) :
  keeps fixed_full (mons_adjust_flavoured (X := X) mon h d).
Proof. unfold mons_adjust_flavoured. fx_walk. Qed.
#[local] Hint Resolve mons_adjust_flavoured_fixed : fx.

Lemma determine_damage_fixed (mon : nat) :
  keeps fixed_full (determine_damage (X := X) mon).
Proof. unfold determine_damage. fx_walk. Qed.
#[local] Hint Resolve determine_damage_fixed : fx.

Lemma update_hurt_or_helped_fixed (mon : nat) :
  keeps fixed_full (update_hurt_or_helped (X := X) mon).
Proof. unfold update_hurt_or_helped. fx_walk. Qed.
#[local] Hint Resolve update_hurt_or_helped_fixed : fx.

Lemma handle_stop_attack_prompt_fixed (mon : nat) :
  keeps fixed_full (handle_stop_attack_prompt (X := X) mon).
Proof. unfold handle_stop_attack_prompt. fx_walk. Qed.
#[local] Hint Resolve handle_stop_attack_prompt_fixed : fx.

Lemma tracer_enchantment_affect_monster_fixed (mon : nat) :
  keeps fixed_full (tracer_enchantment_affect_monster (X := X) mon).
Proof. unfold tracer_enchantment_affect_monster. fx_walk. Qed.
#[local] Hint Resolve tracer_enchantment_affect_monster_fixed : fx.

Lemma tracer_nonenchantment_affect_monster_fixed (mon : nat) :
  keeps fixed_full (tracer_nonenchantment_affect_monster (X := X) mon).
Proof. unfold tracer_nonenchantment_affect_monster. fx_walk. Qed.
#[local] Hint Resolve tracer_nonenchantment_affect_monster_fixed : fx.

Lemma tracer_affect_monster_fixed (mon : nat) :
  keeps fixed_full (tracer_affect_monster (X := X) mon).
Proof. unfold tracer_affect_monster. fx_walk. Qed.
#[local] Hint Resolve tracer_affect_monster_fixed : fx.

Lemma attempt_block_fixed (mon : nat) :
  keeps fixed_full (attempt_block (X := X) mon).
Proof. unfold attempt_block. fx_walk. Qed.
#[local] Hint Resolve attempt_block_fixed : fx.

Lemma handle_statue_disintegration_fixed (mon : nat) :
  keeps fixed_full (handle_statue_disintegration (X := X) mon).
Proof. unfold handle_statue_disintegration. fx_walk. Qed.
#[local] Hint Resolve handle_statue_disintegration_fixed : fx.

Lemma apply_enchantment_to_monster_fixed (mon : nat) :
  keeps fixed_full (apply_enchantment_to_monster (X := X) mon).
Proof. unfold apply_enchantment_to_monster. fx_walk. Qed.
#[local] Hint Resolve apply_enchantment_to_monster_fixed : fx.

Lemma try_enchant_monster_fixed (mon : nat) :
  keeps fixed_full (try_enchant_monster (X := X) mon).
Proof. unfold try_enchant_monster. fx_walk. Qed.
#[local] Hint Resolve try_enchant_monster_fixed : fx.

Lemma enchantment_affect_monster_fixed (mon : nat) :
  keeps fixed_full (enchantment_affect_monster (X := X) mon).
Proof. unfold enchantment_affect_monster. fx_walk. Qed.
#[local] Hint Resolve enchantment_affect_monster_fixed : fx.

Lemma monster_post_hit_fixed (mon : nat) (dmg : Z) :
  keeps fixed_full (monster_post_hit (X := X) mon dmg).
Proof. unfold monster_post_hit. fx_walk. Qed.
#[local] Hint Resolve monster_post_hit_fixed : fx.

Lemma affect_monster_fixed (mon : nat) :
  keeps fixed_full (affect_monster (X := X) mon).
Proof. unfold affect_monster. fx_walk. Qed.
#[local] Hint Resolve affect_monster_fixed : fx.

Lemma affect_place_explosion_clouds_fixed :
  keeps fixed_full (affect_place_explosion_clouds (X := X)).
Proof. unfold affect_place_explosion_clouds. fx_walk. Qed.
#[local] Hint Resolve affect_place_explosion_clouds_fixed : fx.

Lemma affect_place_clouds_fixed :
  keeps fixed_full (affect_place_clouds (X := X)).
Proof. unfold affect_place_clouds. fx_walk. Qed.
#[local] Hint Resolve affect_place_clouds_fixed : fx.

Lemma affect_ground_fixed :
  keeps fixed_full (affect_ground (X := X)).
Proof. unfold affect_ground. fx_walk. Qed.
#[local] Hint Resolve affect_ground_fixed : fx.

Lemma cell_occupants_fixed (ap am sw : bool) :
  keeps fixed_full (cell_occupants (X := X) ap am sw).
Proof. unfold cell_occupants. fx_walk. Qed.
#[local] Hint Resolve cell_occupants_fixed : fx.

Lemma affect_cell_fixed (av : bool) :
  keeps fixed_full (affect_cell (X := X) av).
Proof. unfold affect_cell. fx_walk. Qed.
#[local] Hint Resolve affect_cell_fixed : fx.

Lemma refine_for_explosion_fixed :
  keeps fixed_full (refine_for_explosion (X := X)).
Proof. unfold refine_for_explosion. fx_walk. Qed.
#[local] Hint Resolve refine_for_explosion_fixed : fx.

Lemma explosion_affect_cell_fixed (p : coord_def) :
  keeps fixed_full (explosion_affect_cell (X := X) p).
Proof. unfold explosion_affect_cell. fx_walk. Qed.
#[local] Hint Resolve explosion_affect_cell_fixed : fx.

Lemma explode_fixed (show_more hole : bool) :
  keeps fixed_full (explode (X := X) show_more hole).
Proof.
  unfold explode. fx_walk.
  - apply keeps_for_each. intros ring. fx_walk.
    apply keeps_for_each. intros delta. fx_walk.
  - apply keeps_foldl; [|apply keeps_ret].
    intros acc delta Hacc. fx_walk.
Qed.
#[local] Hint Resolve explode_fixed : fx.

Lemma drop_object_fixed : keeps fixed_full (drop_object (X := X)).
Proof. unfold drop_object. fx_walk. Qed.
#[local] Hint Resolve drop_object_fixed : fx.

Lemma affect_endpoint_fixed : keeps fixed_full (affect_endpoint (X := X)).
Proof. unfold affect_endpoint. fx_walk. Qed.
#[local] Hint Resolve affect_endpoint_fixed : fx.

Lemma initialise_fire_fixed : keeps fixed_full (initialise_fire (X := X)).
Proof. unfold initialise_fire. fx_walk. Qed.

Lemma apply_beam_conducts_fixed :
  keeps fixed_full (apply_beam_conducts (X := X)).
Proof. unfold apply_beam_conducts. fx_walk. Qed.

Lemma draw_fixed (p : coord_def) : keeps fixed_full (draw (X := X) p).
Proof. apply keeps_keeps_this, io_only_keeps_this, io_only_draw. Qed.
#[local] Hint Resolve initialise_fire_fixed apply_beam_conducts_fixed
  draw_fixed : fx.

Lemma iter_consume_fixed (av : bool) :
  keeps fixed_full (iter_consume av : M unit).
Proof. unfold iter_consume. fx_walk. Qed.

Lemma iter_decide_fixed : keeps fixed_full (iter_decide (X := X)).
Proof. unfold iter_decide. fx_walk. Qed.
#[local] Hint Resolve iter_consume_fixed iter_decide_fixed : fx.

(** The parts of [fixed_full] on their own. *)
Lemma keeps_fixed_part {A : Type} (m : M A) :
  keeps fixed_full m -> keeps fixed_part m.
Proof. apply (keeps_fst fixed_part path_taken). Qed.

Lemma keeps_path_taken {A : Type} (m : M A) :
  keeps fixed_full m -> keeps path_taken m.
Proof. apply (keeps_snd fixed_part path_taken). Qed.

#[local] Hint Extern 6 (keeps fixed_part _) =>
  (apply keeps_fixed_part; solve [auto with fx]) : fx.
#[local] Hint Extern 6 (keeps path_taken _) =>
  (apply keeps_path_taken; solve [auto with fx]) : fx.

Lemma iter_interact_fixed (av : bool) :
  keeps fixed_part (iter_interact (X := X) av).
Proof. unfold iter_interact. fx_walk. Qed.
#[local] Hint Resolve iter_interact_fixed : fx.

Lemma fire_loop_fixed (fuel : nat) (av : bool) :
  keeps fixed_part (fire_loop (X := X) fuel av).
Proof.
  revert av. induction fuel as [|n IH]; intros av; simpl; [apply keeps_ret|].
  unfold fire_iter. fx_walk; apply IH.
Qed.
#[local] Hint Resolve fire_loop_fixed : fx.

Lemma do_fire_fixed : keeps fixed_part (do_fire (X := X)).
Proof. unfold do_fire. fx_walk. Qed.
#[local] Hint Resolve do_fire_fixed : fx.

Lemma fire_fixed : keeps fixed_part (fire (X := X)).
Proof. unfold fire. fx_walk. Qed.

(** ** The cells visited *)

Lemma sat_keeps {T A : Type} (part : beam -> T) (m : M A) (s : state) :
  keeps part m -> sat m s (fun _ s' => part (this s') = part (this s)).
Proof. intros H. apply sat_intro, H. Qed.

Lemma path_in_bounds_keeps {A : Type} (m : M A) (s : state) :
  keeps path_taken m -> path_in_bounds s ->
  sat m s (fun _ s' => path_in_bounds s').
Proof.
  intros Hm H. eapply sat_conseq; [apply (sat_keeps _ _ _ Hm)|].
  intros ? s' E. unfold path_in_bounds. rewrite E. exact H.
Qed.

Lemma fire_iter_path (av : bool) (s : state) :
  in_bounds (pos (this s)) = true -> path_in_bounds s ->
  sat (fire_iter (X := X) av) s (fun _ s' => path_in_bounds s').
Proof.
  intros Hb H. unfold fire_iter, iter_interact.
  apply (sat_bind_cut path_in_bounds).
  - apply (sat_bind_cut path_in_bounds).
    + apply sat_upd. unfold path_in_bounds. simpl.
      apply Forall_app. split; [exact H|]. repeat constructor. exact Hb.
    + intros _ s1 H1. apply path_in_bounds_keeps; [|exact H1]. fx_walk.
  - intros _ s1 H1. apply path_in_bounds_keeps; [|exact H1]. fx_walk.
Qed.

Lemma fire_loop_path (fuel : nat) (av : bool) (s : state) :
  path_in_bounds s ->
  sat (fire_loop (X := X) fuel av) s (fun _ s' => path_in_bounds s').
Proof.
  revert av s. induction fuel as [|n IH]; intros av s H; simpl.
  - apply sat_ret, H.
  - apply sat_bind, sat_gets. cbv beta.
    destruct (in_bounds (pos (this s))) eqn:Hb; simpl; [|apply sat_ret, H].
    apply (sat_bind_cut path_in_bounds); [apply fire_iter_path; assumption|].
    intros c s1 H1. destruct c; try (apply sat_ret, H1). apply IH, H1.
Qed.

Lemma do_fire_path (s : state) :
  path_in_bounds s ->
  sat (do_fire (X := X)) s (fun _ s' => path_in_bounds s').
Proof.
  intros H. unfold do_fire. cbv zeta.
  wp_walk (path_in_bounds) ltac:(fun K => idtac)
    ltac:(idtac;
          first [ assumption
                | apply fire_loop_path; assumption
                | apply path_in_bounds_keeps; [fx_walk|assumption] ]).
Qed.

Lemma fire_path (s : state) :
  sat (fire (X := X)) s (fun _ s' => path_in_bounds s').
Proof.
  unfold fire. apply (sat_bind_cut path_in_bounds).
  { apply sat_upd. constructor. }
  intros _ s1 H1.
  wp_walk (path_in_bounds) ltac:(fun K => idtac)
    ltac:(idtac;
          first [ assumption
                | apply do_fire_path; assumption
                | apply path_in_bounds_keeps; [fx_walk|assumption] ]).
Qed.

(** One iteration records the cell the bolt is in, and no other. *)
Lemma fire_iter_records (av : bool) (s : state) :
  sat (fire_iter (X := X) av) s
    (fun _ s' => path_taken (this s') = path_taken (this s) ++ [pos (this s)]).
Proof.
  unfold fire_iter, iter_interact.
  set (I := fun s' : state =>
              path_taken (this s') = path_taken (this s) ++ [pos (this s)]).
  assert (Hk : forall (A : Type) (m : M A) s1,
             keeps path_taken m -> I s1 -> sat m s1 (fun _ s' => I s')).
  { intros A m s1 Hm H1. eapply sat_conseq; [apply (sat_keeps _ _ _ Hm)|].
    intros ? s' E. unfold I in *. cbv beta in E. rewrite E. exact H1. }
  apply (sat_bind_cut I).
  - apply (sat_bind_cut I); [apply sat_upd; reflexivity|].
    intros _ s1 H1. apply Hk; [|exact H1]. fx_walk.
  - intros _ s1 H1. apply Hk; [|exact H1]. fx_walk.
Qed.

Lemma fire_loop_length (hooks : range_hooks_cost (X := X)) (fuel : nat)
    (av : bool) (s : state) :
  num (this s) range_used <= num (this s) range ->
  sat (fire_loop (X := X) fuel av) s
    (fun _ s' =>
       Z.of_nat (length (path_taken (this s')))
       <= Z.of_nat (length (path_taken (this s))) + cells_left av s).
Proof.
  revert av s. induction fuel as [|n IH]; intros av s Hle; simpl.
  { apply sat_ret. unfold cells_left. cbv zeta. destruct av; lia. }
  apply sat_bind, sat_gets. cbv beta.
  destruct (negb (in_bounds (pos (this s)))).
  { apply sat_ret. unfold cells_left. cbv zeta. destruct av; lia. }
  apply sat_bind. eapply sat_conseq.
  { apply sat_and; [apply (fire_iter_budget hooks av s Hle)|].
    apply (fire_iter_records av s). }
  cbv beta. intros c s1 (((H1 & H2 & H3) & Hc & _) & Hp).
  assert (Hlen : Z.of_nat (length (path_taken (this s1)))
                 = Z.of_nat (length (path_taken (this s))) + 1).
  { rewrite Hp, length_app. simpl. lia. }
  destruct c; try (apply sat_ret; unfold cells_left; cbv zeta;
                   destruct av; lia).
  specialize (Hc eq_refl).
  eapply sat_conseq; [apply IH; lia|].
  cbv beta. intros _ s2 H. unfold cells_left in *. cbv zeta in *.
  destruct av; lia.
Qed.

(** X21. With range hooks that return costs (not negative), a loop that
    starts within its budget visits at most one cell, and one more for
    every unit of range it has left: [range - range_used + 1] cells when
    the first step is free, [max (range - range_used) 1] when it is paid
    for. *)
Theorem fire_loop_visits_at_most (fuel : nat) (av : bool) (s : state) :
  range_hooks_cost (X := X) ->
  num (this s) range_used <= num (this s) range ->
  Z.of_nat (length (path_taken (this (fire_loop (X := X) fuel av s).2)))
  <= Z.of_nat (length (path_taken (this s)))
     + (if av then num (this s) range - num (this s) range_used + 1
        else Z.max (num (this s) range - num (this s) range_used) 1).
Proof.
  intros Hh Hle. exact (sat_elim _ _ _ (fire_loop_length Hh fuel av s Hle)).
Qed.

(** X7. Every cell that [fire] leaves in [path_taken] is inside the map:
    the list starts empty and a cell is added only after the test of the
    loop of [do_fire] has found it in bounds. *)
Theorem fire_path_taken_in_bounds (s : state) :
  Forall (fun p => in_bounds p = true) (path_taken (this (fire (X := X) s).2)).
Proof. exact (sat_elim _ _ _ (fire_path s)). Qed.

(** X8. [fire] changes neither who fires ([thrower], [beam_source],
    [attitude]), nor the power and the noise of what is fired
    ([ench_power], [noise_msg], [foe_ratio]), nor the mode and shape of the
    bolt: the flags of [fixed_flags], among them [is_tracer], [is_beam],
    [is_explosion] and [affects_nothing]. The item thrown is not among
    them: [drop_object] writes to it. *)
Theorem fire_keeps_configuration (s : state) :
  let b := this s in
  let b' := this (fire (X := X) s).2 in
  thrower b' = thrower b /\ attitude b' = attitude b
  /\ noise_msg b' = noise_msg b
  /\ num b' beam_source = num b beam_source
  /\ num b' ench_power = num b ench_power
  /\ num b' foe_ratio = num b foe_ratio
  /\ forall f, f ∈ fixed_flags -> flag b' f = flag b f.
Proof.
  cbv zeta. pose proof (fire_fixed s) as H.
  unfold fixed_part in H. injection H as H1 H2 H4 H5 H6 H7 H.
  repeat (split; [assumption|]).
  intros f Hf. unfold fixed_flags in *. simpl in H.
  repeat (apply elem_of_cons in Hf; destruct Hf as [->|Hf];
          [congruence|]).
  apply elem_of_nil in Hf. destruct Hf.
Qed.

End FrameSteps.

(** * What a tracer shows *)

Section Shown.

Context {ray_def other_state : Type} {X : @Collaborators ray_def other_state}.

#[local] Abbreviation state := (@state ray_def other_state).
#[local] Abbreviation M := (@M ray_def other_state).
#[local] Abbreviation beam := (@beam ray_def).
#[local] Abbreviation world := (@world other_state).
#[local] Abbreviation text_only :=
  (text_only (ray_def := ray_def) (other_state := other_state)).

Lemma text_since_refl (i : io_state) : text_since (emitted i) i.
Proof. exists []. split; reflexivity. Qed.

Lemma text_since_trans (E : list event) (i j : io_state) :
  text_since E i -> text_since (emitted i) j -> text_since E j.
Proof.
  intros (l & El & Hl) (l' & El' & Hl'). exists (l' ++ l).
  rewrite El', El, app_assoc. split; [reflexivity|].
  rewrite forallb_app, Hl, Hl'. reflexivity.
Qed.

Lemma text_only_ret {A : Type} (a : A) : text_only (mret a : M A).
Proof. split; [apply io_only_ret|]. intros s. apply text_since_refl. Qed.

Lemma text_only_bind {A B : Type} (m : M A) (k : A -> M B) :
  text_only m -> (forall a, text_only (k a)) -> text_only (m ≫= k).
Proof.
  intros [Hm Tm] Hk. split.
  - apply io_only_bind; [exact Hm|]. intros a. apply Hk.
  - intros s. specialize (Tm s). unfold mbind, M_bind.
    destruct (m s) as [a s']. simpl in *.
    eapply text_since_trans; [exact Tm|]. apply Hk.
Qed.

Lemma text_only_gets {A : Type} (f : state -> A) : text_only (gets f).
Proof. split; [apply io_only_gets|]. intros s. apply text_since_refl. Qed.

Lemma text_only_if {A : Type} (c : bool) (m1 m2 : M A) :
  text_only m1 -> text_only m2 -> text_only (if c then m1 else m2).
Proof. destruct c; auto. Qed.

(** A step on the streams that leaves the log as it is. *)
Lemma text_only_upd_io (f : io_state -> io_state) :
  (forall i, emitted (f i) = emitted i) -> text_only (upd_io f).
Proof.
  intros Hf. split; [apply io_only_upd_io|]. intros s. simpl.
  exists []. split; [apply Hf|reflexivity].
Qed.

Lemma text_only_emit (e : event) : is_text e = true -> text_only (emit e).
Proof.
  intros He. split; [apply io_only_emit|]. intros s. simpl.
  exists [e]. split; [reflexivity|]. simpl. rewrite He. reflexivity.
Qed.

Lemma text_only_mpr (text : string) (chan : msg_channel_type) :
  text_only (mpr text chan).
Proof. apply text_only_emit. reflexivity. Qed.

Lemma text_only_yesno (text : string) : text_only (yesno text).
Proof.
  unfold yesno.
  apply text_only_bind; [apply text_only_emit; reflexivity|intros _].
  apply text_only_bind; [apply text_only_gets|intros a].
  apply text_only_bind; [|intros _; apply text_only_ret].
  apply text_only_upd_io. reflexivity.
Qed.

Lemma text_only_random_int : text_only random_int.
Proof.
  unfold random_int.
  apply text_only_bind; [apply text_only_gets|intros a].
  apply text_only_bind; [|intros _; apply text_only_ret].
  apply text_only_upd_io. reflexivity.
Qed.

Lemma text_only_random2 (max : Z) : text_only (random2 max).
Proof.
  unfold random2. apply text_only_if; [apply text_only_ret|].
  apply text_only_bind; [apply text_only_random_int|].
  intros; apply text_only_ret.
Qed.

Lemma text_only_coinflip : text_only coinflip.
Proof.
  apply text_only_bind; [apply text_only_random2|].
  intros; apply text_only_ret.
Qed.

Lemma text_only_one_chance_in (n : Z) : text_only (one_chance_in n).
Proof.
  apply text_only_bind; [apply text_only_random2|].
  intros; apply text_only_ret.
Qed.

Lemma text_only_x_chance_in_y (x y : Z) : text_only (x_chance_in_y x y).
Proof.
  unfold x_chance_in_y. repeat apply text_only_if; try apply text_only_ret.
  apply text_only_bind; [apply text_only_random2|].
  intros; apply text_only_ret.
Qed.

Lemma text_only_random_range (low high : Z) :
  text_only (random_range low high).
Proof.
  apply text_only_bind; [apply text_only_random2|].
  intros; apply text_only_ret.
Qed.

Lemma text_only_foldr_draws {B : Type} (l : list B) (n : Z) (m0 : M Z) :
  text_only m0 ->
  text_only (foldr (fun _ acc => a ← acc; r ← random2 n; mret (a + r)) m0 l).
Proof.
  intros H0. induction l as [|x l IH]; simpl; [exact H0|].
  apply text_only_bind; [exact IH|intros a].
  apply text_only_bind; [apply text_only_random2|].
  intros; apply text_only_ret.
Qed.

Lemma text_only_random2avg (max : Z) (rolls : nat) :
  text_only (random2avg max rolls).
Proof.
  unfold random2avg. apply text_only_bind; [apply text_only_random2|].
  intros a. apply text_only_bind; [|intros; apply text_only_ret].
  apply text_only_foldr_draws, text_only_ret.
Qed.

Lemma text_only_roll_dice (d : dice_def) : text_only (roll_dice d).
Proof.
  unfold roll_dice. apply text_only_if; [|apply text_only_ret].
  apply text_only_foldr_draws, text_only_ret.
Qed.

Lemma text_only_maybe_random2 (x : Z) (f : bool) :
  text_only (maybe_random2 x f).
Proof.
  unfold maybe_random2.
  apply text_only_if; [apply text_only_random2|apply text_only_ret].
Qed.

Lemma text_only_new_defer_rand : text_only new_defer_rand.
Proof.
  unfold new_defer_rand.
  apply text_only_bind; [apply text_only_gets|intros a].
  apply text_only_bind; [|intros _; apply text_only_ret].
  apply text_only_upd_io. reflexivity.
Qed.

Lemma text_only_mpr_all (chan : msg_channel_type) (l : list string) :
  text_only (mpr_all chan l).
Proof.
  unfold mpr_all. induction l as [|x l IH]; simpl; [apply text_only_ret|].
  apply text_only_bind; [apply text_only_mpr|intros; exact IH].
Qed.

Lemma text_only_run_hit_funcs (victim : actor) (dmg corpse : Z) :
  text_only (run_hit_funcs (X := X) victim dmg corpse).
Proof.
  unfold run_hit_funcs.
  repeat (apply text_only_bind; [apply text_only_gets|intros ?]).
  apply text_only_ret.
Qed.

Lemma text_only_stop_attack_prompt (mon : nat) (t : coord_def) :
  text_only (stop_attack_prompt (X := X) mon t).
Proof.
  unfold stop_attack_prompt.
  apply text_only_bind; [apply text_only_gets|intros].
  apply text_only_if; [|apply text_only_ret].
  apply text_only_bind; [apply text_only_yesno|intros; apply text_only_ret].
Qed.

Lemma text_only_potion_colour (fl : beam_type) :
  text_only (_potion_beam_flavour_to_colour (X := X) fl).
Proof.
  destruct fl; simpl; try apply text_only_ret;
    (apply text_only_bind; [apply text_only_coinflip|];
     intros; apply text_only_ret).
Qed.

Lemma text_only_munge_tries (n : nat) (r1 r2 : ray_def) :
  text_only (munge_tries (X := X) n r1 r2).
Proof.
  induction n as [|n IH]; simpl; [apply text_only_ret|].
  destruct (chaos_shift_bounds r1 r2) as [lo hi].
  apply text_only_bind; [apply text_only_random_range|intros shift].
  apply text_only_bind; [apply text_only_gets|intros w].
  apply text_only_if; [apply text_only_ret|exact IH].
Qed.

Lemma text_only_mons_adjust_flavoured_silent (monster : nat) (hurted : Z) :
  text_only (mons_adjust_flavoured (X := X) monster hurted false).
Proof.
  split; [apply io_only_mons_adjust_flavoured_silent|]. intros s.
  rewrite mons_adjust_flavoured_silent_state. apply text_since_refl.
Qed.

Lemma QI_text_only {A : Type} (m : M A) : text_only m -> tracer_quiet m.
Proof.
  intros [Hm Tm] w0 E s [H T]. apply sat_intro.
  destruct (Hm s) as (H1 & H2 & H3). specialize (Tm s).
  destruct (m s) as [a [b sp w i]]. simpl in *. subst. split.
  - exact H.
  - eapply text_since_trans; [exact T|exact Tm].
Qed.

Lemma QI_upd (f : beam -> beam) (w0 : world) (E : list event) (s : state) :
  QI w0 E s -> flag (f (this s)) is_tracer = true ->
  sat (upd f) s (fun _ s' => QI w0 E s').
Proof.
  intros ((Hw & Ht & Hs) & T) Hf. apply sat_upd. repeat split; auto.
Qed.

Lemma QI_upd_special (f : beam -> beam) (w0 : world) (E : list event)
    (s : state) :
  QI w0 E s ->
  (forall sp, flag sp is_tracer = true -> flag (f sp) is_tracer = true) ->
  sat (upd_special f) s (fun _ s' => QI w0 E s').
Proof.
  intros ((Hw & Ht & Hs) & T) Hf. apply sat_upd_special.
  repeat split; auto.
  simpl. intros sp Hsp. destruct (special_explosion s) as [sp0|]; [|done].
  simpl in Hsp. injection Hsp as <-. apply Hf, Hs. reflexivity.
Qed.

(** Running [m] on the special explosion. *)
Lemma QI_on_special {A : Type} (m : M A) : tracer_quiet m ->
  tracer_quiet (on_special m).
Proof.
  intros Hm w0 E s ((Hw & Ht & Hs) & T).
  apply sat_intro. unfold on_special.
  destruct (special_explosion s) as [sp|] eqn:Es; simpl.
  - assert (H1 : QI w0 E {| this := sp; special_explosion := None;
                            wld := wld s; io := io s |}).
    { repeat split; simpl; auto. intros ? [=]. }
    apply Hm in H1.
    apply sat_elim in H1. destruct (m _) as [a s']. simpl in *.
    destruct H1 as ((K1 & K2 & K3) & K4). repeat split; simpl; auto.
    intros ? [= <-]. exact K2.
  - repeat split; auto. rewrite Es. intros ? [=].
Qed.

Lemma QI_foldl_cells {A : Type} (f : M Z -> A -> M Z) (l : list A) :
  (forall acc x, tracer_quiet acc -> tracer_quiet (f acc x)) ->
  forall acc, tracer_quiet acc -> tracer_quiet (foldl f acc l).
Proof.
  intros Hf. induction l as [|x l IH]; intros acc Hacc; simpl; [exact Hacc|].
  apply IH, Hf, Hacc.
Qed.

End Shown.

Create HintDb text_only discriminated.
#[global] Hint Resolve text_only_ret text_only_gets text_only_mpr
  text_only_yesno text_only_random_int text_only_random2 text_only_coinflip
  text_only_one_chance_in text_only_x_chance_in_y text_only_random_range
  text_only_random2avg text_only_roll_dice text_only_maybe_random2
  text_only_new_defer_rand text_only_mpr_all text_only_run_hit_funcs
  text_only_stop_attack_prompt text_only_potion_colour
  text_only_munge_tries text_only_mons_adjust_flavoured_silent : text_only.

Ltac qi_intro H :=
  let Hw := fresh "Hw" in
  let Ht := fresh "Ht" in
  let Hs := fresh "Hs" in
  let Hq := fresh "Hq" in
  pose proof H as ((Hw & Ht & Hs) & Hq).

Create HintDb qi discriminated.
#[global] Hint Extern 5 (tracer_quiet _) =>
  (apply QI_text_only; solve [auto with text_only]) : qi.

Ltac qi_leaf :=
  first
    [ assumption
    | match goal with
      | H : QI _ _ ?s |- sat (upd _) ?s _ =>
          apply (QI_upd _ _ _ _ H); flag_simpl
      | H : QI _ _ ?s |- sat (set_fl _ _) ?s _ =>
          apply (QI_upd _ _ _ _ H); flag_simpl
      | H : QI _ _ ?s |- sat (set_nm _ _) ?s _ =>
          apply (QI_upd _ _ _ _ H); flag_simpl
      | H : QI _ _ ?s |- sat (add_nm _ _) ?s _ =>
          apply (QI_upd _ _ _ _ H); flag_simpl
      | H : QI _ _ ?s |- sat (upd_friend _) ?s _ =>
          apply (QI_upd _ _ _ _ H); flag_simpl
      | H : QI _ _ ?s |- sat (upd_foe _) ?s _ =>
          apply (QI_upd _ _ _ _ H); flag_simpl
      | H : QI _ _ ?s |- sat (finish_beam) ?s _ =>
          apply (QI_upd _ _ _ _ H); flag_simpl
      | H : QI _ _ ?s |- sat (upd_special _) ?s _ =>
          apply (QI_upd_special _ _ _ _ H); intros; flag_simpl
      | H : QI ?w ?E ?s |- sat ?m ?s _ =>
          let K := fresh "K" in
          assert (K : tracer_quiet m) by (auto with qi);
          exact (K w E s H)
      end ].

Ltac qi_walk :=
  lazymatch goal with
  | H : QI ?w0 ?E ?s |- sat _ ?s _ =>
      let I := lazymatch type of H with ?I _ => I end in
      qi_intro H; cbv zeta;
      wp_walk I ltac:(fun K => qi_intro K) ltac:(idtac; try qi_leaf)
  end.

Section QuietSteps.

Context {ray_def other_state : Type} {X : @Collaborators ray_def other_state}.

#[local] Abbreviation state := (@state ray_def other_state).
#[local] Abbreviation M := (@M ray_def other_state).
#[local] Abbreviation beam := (@beam ray_def).
#[local] Abbreviation text_only :=
  (text_only (ray_def := ray_def) (other_state := other_state)).
Lemma fake_flavour_quiet :
  tracer_quiet (fake_flavour (X := X)).
Proof. intros w0 E s H. unfold fake_flavour, _chaos_beam_flavour. qi_walk. Qed.
#[local] Hint Resolve fake_flavour_quiet : qi.

Lemma affect_wall_quiet :
  tracer_quiet (affect_wall (X := X)).
Proof. intros w0 E s H. unfold affect_wall. qi_walk. Qed.
#[local] Hint Resolve affect_wall_quiet : qi.

Lemma munge_bounced_bolt_quiet (b : beam) (r : ray_def) :
  tracer_quiet (_munge_bounced_bolt (X := X) b r).
Proof. intros w0 E s H. unfold _munge_bounced_bolt. qi_walk. Qed.
#[local] Hint Resolve munge_bounced_bolt_quiet : qi.

Lemma bounce_quiet :
  tracer_quiet (bounce (X := X)).
Proof. intros w0 E s H. unfold bounce. qi_walk. Qed.
#[local] Hint Resolve bounce_quiet : qi.

Lemma hit_wall_quiet :
  tracer_quiet (hit_wall (X := X)).
Proof. intros w0 E s H. unfold hit_wall. qi_walk. Qed.
#[local] Hint Resolve hit_wall_quiet : qi.

Lemma use_range_on_hit_quiet (v : actor) :
  tracer_quiet (use_range_on_hit (X := X) v).
Proof. intros w0 E s H. unfold use_range_on_hit. qi_walk. Qed.
#[local] Hint Resolve use_range_on_hit_quiet : qi.

Lemma choose_ray_quiet :
  tracer_quiet (choose_ray (X := X)).
Proof. intros w0 E s H. unfold choose_ray. qi_walk. Qed.
#[local] Hint Resolve choose_ray_quiet : qi.

Lemma fuzz_invis_tracer_quiet :
  tracer_quiet (fuzz_invis_tracer (X := X)).
Proof. intros w0 E s H. unfold fuzz_invis_tracer. qi_walk. Qed.
#[local] Hint Resolve fuzz_invis_tracer_quiet : qi.

Lemma tracer_affect_player_quiet :
  tracer_quiet (tracer_affect_player (X := X)).
Proof. intros w0 E s H. unfold tracer_affect_player. qi_walk. Qed.
#[local] Hint Resolve tracer_affect_player_quiet : qi.

Lemma affect_player_quiet :
  tracer_quiet (affect_player (X := X)).
Proof. intros w0 E s H. unfold affect_player. qi_walk. Qed.
#[local] Hint Resolve affect_player_quiet : qi.

Lemma handle_stop_attack_prompt_quiet (mon : nat) :
  tracer_quiet (handle_stop_attack_prompt (X := X) mon).
Proof. intros w0 E s H. unfold handle_stop_attack_prompt. qi_walk. Qed.
#[local] Hint Resolve handle_stop_attack_prompt_quiet : qi.

Lemma determine_damage_quiet (mon : nat) :
  tracer_quiet (determine_damage (X := X) mon).
Proof. intros w0 E s H. unfold determine_damage. qi_walk. Qed.
#[local] Hint Resolve determine_damage_quiet : qi.

Lemma tracer_enchantment_affect_monster_quiet (mon : nat) :
  tracer_quiet (tracer_enchantment_affect_monster (X := X) mon).
Proof. intros w0 E s H. unfold tracer_enchantment_affect_monster. qi_walk. Qed.
#[local] Hint Resolve tracer_enchantment_affect_monster_quiet : qi.

Lemma tracer_nonenchantment_affect_monster_quiet (mon : nat) :
  tracer_quiet (tracer_nonenchantment_affect_monster (X := X) mon).
Proof. intros w0 E s H. unfold tracer_nonenchantment_affect_monster. qi_walk. Qed.
#[local] Hint Resolve tracer_nonenchantment_affect_monster_quiet : qi.

Lemma tracer_affect_monster_quiet (mon : nat) :
  tracer_quiet (tracer_affect_monster (X := X) mon).
Proof. intros w0 E s H. unfold tracer_affect_monster. qi_walk. Qed.
#[local] Hint Resolve tracer_affect_monster_quiet : qi.

Lemma affect_monster_quiet (mon : nat) :
  tracer_quiet (affect_monster (X := X) mon).
Proof. intros w0 E s H. unfold affect_monster. qi_walk. Qed.
#[local] Hint Resolve affect_monster_quiet : qi.

Lemma affect_ground_quiet :
  tracer_quiet (affect_ground (X := X)).
Proof. intros w0 E s H. unfold affect_ground. qi_walk. Qed.
#[local] Hint Resolve affect_ground_quiet : qi.

Lemma cell_occupants_quiet (ap am sw : bool) :
  tracer_quiet (cell_occupants (X := X) ap am sw).
Proof. intros w0 E s H. unfold cell_occupants. qi_walk. Qed.
#[local] Hint Resolve cell_occupants_quiet : qi.

Lemma affect_cell_quiet (av : bool) :
  tracer_quiet (affect_cell (X := X) av).
Proof. intros w0 E s H. unfold affect_cell. qi_walk. Qed.
#[local] Hint Resolve affect_cell_quiet : qi.

Lemma refine_for_explosion_quiet :
  tracer_quiet (refine_for_explosion (X := X)).
Proof. intros w0 E s H. unfold refine_for_explosion. qi_walk. Qed.
#[local] Hint Resolve refine_for_explosion_quiet : qi.

Lemma explosion_affect_cell_quiet (p : coord_def) :
  tracer_quiet (explosion_affect_cell (X := X) p).
Proof. intros w0 E s H. unfold explosion_affect_cell. qi_walk. Qed.
#[local] Hint Resolve explosion_affect_cell_quiet : qi.

Lemma explode_quiet (show_more hole : bool) :
  tracer_quiet (explode (X := X) show_more hole).
Proof.
  intros w0 E s H. unfold explode. qi_walk.
  match goal with
  | H : QI ?w ?E ?s |- sat ?m ?s _ =>
      assert (K : tracer_quiet m); [|exact (K w E s H)]
  end.
  apply QI_foldl_cells.
  - intros acc x Hacc w' E' t H'. qi_walk.
  - intros w' E' t H'. qi_walk.
Qed.
#[local] Hint Resolve explode_quiet : qi.

Lemma drop_object_quiet : tracer_quiet (drop_object (X := X)).
Proof. intros w0 E s H. unfold drop_object. qi_walk. Qed.
#[local] Hint Resolve drop_object_quiet : qi.

Lemma affect_endpoint_quiet : tracer_quiet (affect_endpoint (X := X)).
Proof.
  intros w0 E s H. unfold affect_endpoint. qi_walk.
  match goal with
  | H : QI ?w ?E ?s |- sat ?m ?s _ =>
      assert (K : tracer_quiet m); [|exact (K w E s H)]
  end.
  apply QI_on_special. intros w' E' t H'. qi_walk.
Qed.
#[local] Hint Resolve affect_endpoint_quiet : qi.

Lemma initialise_fire_quiet : tracer_quiet (initialise_fire (X := X)).
Proof. intros w0 E s H. unfold initialise_fire. qi_walk. Qed.

Lemma apply_beam_conducts_quiet :
  tracer_quiet (apply_beam_conducts (X := X)).
Proof. intros w0 E s H. unfold apply_beam_conducts. qi_walk. Qed.

Lemma draw_quiet (p : coord_def) : tracer_quiet (draw (X := X) p).
Proof. intros w0 E s H. unfold draw. qi_walk. Qed.
#[local] Hint Resolve initialise_fire_quiet apply_beam_conducts_quiet
  draw_quiet : qi.

Lemma iter_interact_quiet (av : bool) :
  tracer_quiet (iter_interact (X := X) av).
Proof. intros w0 E s H. unfold iter_interact. qi_walk. Qed.

Lemma iter_consume_quiet (av : bool) :
  tracer_quiet (iter_consume av : M unit).
Proof. intros w0 E s H. unfold iter_consume. qi_walk. Qed.

Lemma iter_decide_quiet : tracer_quiet (iter_decide (X := X)).
Proof. intros w0 E s H. unfold iter_decide. qi_walk. Qed.
#[local] Hint Resolve iter_interact_quiet iter_consume_quiet
  iter_decide_quiet : qi.

Lemma fire_iter_quiet (av : bool) : tracer_quiet (fire_iter (X := X) av).
Proof. intros w0 E s H. unfold fire_iter. qi_walk. Qed.
#[local] Hint Resolve fire_iter_quiet : qi.

Lemma fire_loop_quiet (fuel : nat) (av : bool) :
  tracer_quiet (fire_loop (X := X) fuel av).
Proof.
  revert av. induction fuel as [|n IH]; intros av w0 E s H; simpl; qi_walk.
Qed.
#[local] Hint Resolve fire_loop_quiet : qi.

Lemma do_fire_quiet : tracer_quiet (do_fire (X := X)).
Proof. intros w0 E s H. unfold do_fire. qi_walk. Qed.
#[local] Hint Resolve do_fire_quiet : qi.

Lemma fire_quiet (s : state) :
  flag (this s) is_tracer = true ->
  sat (fire (X := X)) s (fun _ s' => QI (wld s) (emitted (io s)) s').
Proof.
  intros Ht. unfold fire. apply sat_bind, sat_upd. cbv beta.
  apply sat_bind, sat_gets. cbv beta. simpl.
  apply sat_bind, sat_upd_special. cbv beta.
  match goal with
  | |- sat _ ?s1 _ => assert (H1 : QI (wld s) (emitted (io s)) s1)
  end.
  { split; [|apply text_since_refl].
    repeat split; simpl; auto. intros sp Hsp.
    destruct (special_explosion s); simplify_eq/=.
    destruct (decide (is_tracer = is_tracer)); [exact Ht|done]. }
  qi_walk.
Qed.

(** X9. A tracer draws nothing and never pauses: what [fire] with
    [is_tracer] set adds to the log of the run is text (prompts and
    messages), no cell of the bolt, no cell of an explosion and no
    delay. *)
Theorem tracer_draws_nothing (s : state) :
  flag (this s) is_tracer = true ->
  exists l, emitted (io (fire (X := X) s).2) = l ++ emitted (io s)
            /\ forallb is_text l = true.
Proof. intros Ht. apply (sat_elim _ _ _ (fire_quiet s Ht)). Qed.

End QuietSteps.

(** * Steps of a firing *)

(** Runs a computation without loops and calls step by step. *)
Ltac wp_run :=
  cbv beta zeta; cbn [this special_explosion wld io];
  lazymatch goal with
  | |- sat (mret _) _ _ => apply sat_ret; wp_run
  | |- sat (gets _) _ _ => apply sat_gets; wp_run
  | |- sat (upd _) _ _ => apply sat_upd; wp_run
  | |- sat (upd_special _) _ _ => apply sat_upd_special; wp_run
  | |- sat (set_fl _ _) _ _ => unfold set_fl at 1; wp_run
  | |- sat (set_nm _ _) _ _ => unfold set_nm at 1; wp_run
  | |- sat (add_nm _ _) _ _ => unfold add_nm at 1; wp_run
  | |- sat (_ ≫= _) _ _ => apply sat_bind; wp_run
  | |- sat (if ?c then _ else _) _ _ =>
      let E := fresh "E" in destruct c eqn:E; wp_run
  | |- sat (when _ _) _ _ => unfold when at 1; wp_run
  | |- sat (mpr _ _) _ _ =>
      apply sat_io_only; [solve [auto with io_only]|intros ? ?; wp_run]
  | |- _ => idtac
  end.

Section Steps.

Context {ray_def other_state : Type} {X : @Collaborators ray_def other_state}.

#[local] Abbreviation state := (@state ray_def other_state).
#[local] Abbreviation M := (@M ray_def other_state).
#[local] Abbreviation beam := (@beam ray_def).
#[local] Abbreviation world := (@world other_state).

Lemma undo_tracer_aim (orig copy : beam) :
  aim_of (_undo_tracer orig copy) = aim_of copy.
Proof. reflexivity. Qed.

Lemma fire_tracer_aim (s : state) :
  flag (this s) is_tracer = true ->
  sat (fire (X := X)) s (fun _ s' => aim_of (this s') = aim_of (this s)).
Proof.
  intros Ht. unfold fire. apply sat_bind, sat_upd. cbv beta.
  apply sat_bind, sat_gets. cbv beta. simpl. rewrite Ht.
  apply sat_bind, sat_upd_special. cbv beta.
  apply (sat_bind_cut (fun s' => aim_of (this s') = aim_of (this s))).
  - apply sat_bind, sat_gets. cbv beta.
    apply sat_bind, sat_gets. cbv beta.
    apply (sat_bind_cut (fun _ => True)); [apply sat_trivial|].
    intros _ s1 _.
    apply (sat_bind_cut (fun _ => True)); [apply sat_trivial|].
    intros _ s2 _. apply sat_upd. reflexivity.
  - intros _ s1 H1. apply sat_bind, sat_gets. cbv beta.
    destruct (special_explosion s1); [|apply sat_ret, H1].
    apply sat_upd. exact H1.
Qed.

(** X10. A tracer leaves the aim of the bolt as it found it: after [fire]
    with [is_tracer] set, [target], [source], [aimed_at_spot],
    [range_used], [auto_hit], [ray], [colour], [flavour] and [real_flavour]
    are what they were before. *)
Theorem tracer_restores_aim (s : state) :
  flag (this s) is_tracer = true ->
  let b := this s in
  let b' := this (fire (X := X) s).2 in
  target b' = target b /\ source b' = source b
  /\ flag b' aimed_at_spot = flag b aimed_at_spot
  /\ num b' range_used = num b range_used
  /\ flag b' auto_hit = flag b auto_hit /\ ray b' = ray b
  /\ num b' colour = num b colour /\ flavour b' = flavour b
  /\ real_flavour b' = real_flavour b.
Proof.
  intros Ht. cbv zeta.
  pose proof (sat_elim _ _ _ (fire_tracer_aim s Ht)) as H.
  unfold aim_of in H. injection H as -> -> -> -> -> -> -> -> ->.
  repeat split.
Qed.

(** X11. A bounce costs two units of range, and the wall is not changed.
    The budget [range] stays as it is, except for a chaos bolt
    ([real_flavour] is [BEAM_CHAOS]), whose budget grows by the two units
    the bounce used: its bounce is free. *)
Theorem bounce_cost (s : state) :
  let s' := (bounce (X := X) s).2 in
  num (this s') range_used = num (this s) range_used + 2
  /\ num (this s') range
     = (if bool_decide (real_flavour (this s) = BEAM_CHAOS)
        then num (this s) range + 2 else num (this s) range)
  /\ wld s' = wld s.
Proof.
  cbv zeta. apply (sat_elim bounce s
    (fun _ s' =>
       num (this s') range_used = num (this s) range_used + 2
       /\ num (this s') range
          = (if bool_decide (real_flavour (this s) = BEAM_CHAOS)
             then num (this s) range + 2 else num (this s) range)
       /\ wld s' = wld s)).
  unfold bounce, add_nm.
  apply sat_bind, sat_gets. cbv beta.
  apply sat_bind, sat_gets. cbv beta zeta.
  do 4 (apply sat_bind, sat_upd; cbv beta).
  unfold _munge_bounced_bolt.
  apply sat_bind, sat_gets. cbv beta.
  match goal with
  | |- sat (if negb (bool_decide (real_flavour ?b = _)) then _ else _) _ _ =>
      change (real_flavour b) with (real_flavour (this s))
  end.
  destruct (bool_decide (real_flavour (this s) = BEAM_CHAOS));
    cbn [negb].
  - match goal with
    | |- sat _ ?s1 _ =>
        apply (sat_bind_cut
                 (fun s' => this s' = this s1 /\ wld s' = wld s1))
    end.
    + apply sat_io_only; [apply io_only_munge_tries|]. intros; split;
        reflexivity.
    + intros a s' [Hs' Hw']. apply sat_bind, sat_upd. cbv beta.
      unfold add_nm. apply sat_upd. simpl in *. rewrite Hs', Hw'. simpl.
      repeat split; lia.
  - apply sat_ret. repeat split.
Qed.

(** The last step of [hit_wall]. *)
Lemma sat_finish_true {A : Type} (m : M A) (s : state) :
  sat (m ≫= fun _ => finish_beam ≫= fun _ => mret true) s
    (fun ended s' =>
       ended = true -> num (this s') range_used = num (this s') range).
Proof.
  apply (sat_bind_cut (fun _ => True)); [apply sat_trivial|].
  intros _ s1 _. unfold finish_beam. apply sat_bind, sat_upd. cbv beta.
  apply sat_ret. intros _. reflexivity.
Qed.

Lemma sat_then_false {A : Type} (m : M A) (s : state)
    (Q : state -> Prop) :
  sat (m ≫= fun _ => mret false) s (fun ended s' => ended = true -> Q s').
Proof.
  apply (sat_bind_cut (fun _ => True)); [apply sat_trivial|].
  intros _ s1 _. apply sat_ret. discriminate.
Qed.

(** X12. [hit_wall] reports that the beam ended at the wall only after it
    has finished the beam: when it returns [true], [range_used] equals
    [range]. *)
Theorem hit_wall_true_finished (s : state) :
  (hit_wall (X := X) s).1 = true ->
  num (this (hit_wall s).2) range_used = num (this (hit_wall s).2) range.
Proof.
  apply (sat_elim hit_wall s
    (fun ended s' =>
       ended = true -> num (this s') range_used = num (this s') range)).
  unfold hit_wall.
  apply sat_bind, sat_gets. cbv beta.
  apply sat_bind, sat_gets. cbv beta zeta.
  apply (sat_bind_cut (fun _ => True)); [apply sat_trivial|].
  intros proceed s1 _.
  destruct (negb proceed).
  - apply (sat_bind_cut (fun _ => True)); [apply sat_trivial|].
    intros _ s2 _. apply sat_then_false.
  - apply (sat_bind_cut (fun _ => True)); [apply sat_trivial|].
    intros _ s2 _.
    destruct (affects_wall _ _); [apply sat_then_false|].
    destruct (_ && _); [apply sat_then_false|].
    apply sat_finish_true.
Qed.

Lemma initialise_fire_aimed (s : state) :
  sat (initialise_fire (X := X)) s
    (fun _ s' =>
       aimed (flavour (this s)) (target (this s)) (ray (this s)) (this s')
       /\ (real_flavour (this s') = flavour (this s')
           /\ message_cache (this s') = [])).
Proof.
  unfold initialise_fire.
  do 2 (apply sat_bind; unfold set_nm at 1, set_fl at 1; apply sat_upd;
        cbv beta; cbn [this special_explosion wld io]).
  apply sat_bind. unfold set_fl at 1. apply sat_upd. cbv beta.
  cbn [this special_explosion wld io].
  apply sat_bind, sat_upd_special. cbv beta.
  cbn [this special_explosion wld io].
  apply sat_bind, sat_upd. cbv beta. cbn [this special_explosion wld io].
  apply sat_bind, sat_gets. cbv beta. cbn [this special_explosion wld io].
  set (A := aimed (flavour (this s)) (target (this s)) (ray (this s))).
  apply (sat_bind_cut (fun s' => A (this s'))).
  { wp_run; subst A; unfold aimed;
      [apply bool_decide_eq_true in E|apply bool_decide_eq_false in E];
      revert E;
      match goal with
      | |- context [if ?c then _ else _] => generalize c
      end;
      intros c E; destruct c; simpl in *;
      repeat split; try reflexivity; try congruence;
      intros; exfalso; congruence. }
  intros _ s1 H1. apply sat_bind, sat_gets. cbv beta.
  apply (sat_bind_cut (fun s' => A (this s'))).
  { wp_run; [|exact H1]. subst A. unfold aimed in *. simpl.
    destruct H1 as (K1 & K2 & K3 & K4 & K5 & K6 & K7).
    apply Z.eqb_eq in E.
    split; [exact K1|]. split; [exact K2|]. split; [exact K3|].
    split; [exact K4|]. split; [exact K5|].
    split; [intros Hts; apply K6 in Hts; lia|exact K7]. }
  intros _ s2 H2.
  apply (sat_bind_cut
           (fun s' => A (this s')
                      /\ real_flavour (this s') = flavour (this s'))).
  { apply sat_upd. split; [exact H2|reflexivity]. }
  intros _ s3 H3.
  set (I := fun s' : state =>
              A (this s')
              /\ (real_flavour (this s') = flavour (this s')
                  /\ message_cache (this s') = [])).
  apply (sat_bind_cut I).
  { apply sat_upd. destruct H3 as [K K']. split; [exact K|].
    split; [exact K'|reflexivity]. }
  intros _ s4 H4.
  assert (Hseen : forall s', I s' ->
            sat (set_fl seen true) s' (fun _ s'' => I s'')).
  { intros s' [K K']. unfold set_fl. apply sat_upd. split; [exact K|exact K']. }
  wp_walk I ltac:(fun K => idtac)
    ltac:(idtac;
          first [ assumption
                | apply Hseen; assumption
                | apply sat_io_only; [solve [auto with io_only]|];
                  intros; assumption ]).
Qed.

(** X13. [initialise_fire] starts every firing from a clean slate: nothing
    of the range is used, the bolt is not in its explosion phase, the
    message cache is empty and [real_flavour] is the flavour. A bolt aimed
    at its own source gets range 0, always hits and is where its target
    is; any other bolt is where its ray is. *)
Theorem initialise_fire_establishes (s : state) :
  let b' := this (initialise_fire (X := X) s).2 in
  num b' range_used = 0 /\ flag b' in_explosion_phase = false
  /\ real_flavour b' = flavour (this s) /\ flavour b' = flavour (this s)
  /\ message_cache b' = [] /\ target b' = target (this s)
  /\ ray b' = ray (this s)
  /\ (target b' = source b' ->
      num b' range = 0 /\ flag b' aimed_at_feet = true
      /\ flag b' auto_hit = true /\ flag b' aimed_at_spot = true
      /\ pos b' = target b')
  /\ (target b' <> source b' -> pos b' = ray_pos (ray b')).
Proof.
  cbv zeta.
  destruct (sat_elim _ _ _ (initialise_fire_aimed s))
    as ((K1 & K2 & K3 & K4 & K5 & K6 & K7) & K8 & K9).
  repeat split; try congruence.
  - apply K6; assumption.
  - apply K6; assumption.
  - apply K6; assumption.
  - apply K6; assumption.
  - unfold pos. destruct (K6 H) as (_ & _ & _ & _ & ->).
    rewrite orb_true_r. reflexivity.
  - intros Hne. unfold pos. rewrite K2, (K7 Hne). reflexivity.
Qed.

(** ** An explosion stays where it is *)

Lemma explosion_affect_cell_target (p : coord_def) (s : state) :
  sat (explosion_affect_cell (X := X) p) s
    (fun _ s' => target (this s') = target (this s)).
Proof.
  unfold explosion_affect_cell. apply sat_bind, sat_gets. cbv beta.
  do 4 (apply (sat_bind_cut (fun _ => True)); [apply sat_trivial|];
        intros _ ? _).
  apply sat_upd. reflexivity.
Qed.

Lemma io_only_for_each {A : Type} (l : list A) (f : A -> M unit) :
  (forall x, io_only (f x)) -> io_only (for_each l f).
Proof.
  intros Hf. unfold for_each. induction l as [|x l IH]; simpl.
  - apply io_only_ret.
  - apply io_only_bind; [apply Hf|intros; exact IH].
Qed.

Lemma explode_target (show_more hole : bool) (t0 : coord_def) (s : state) :
  target (this s) = t0 ->
  sat (explode (X := X) show_more hole) s
    (fun _ s' => target (this s') = t0).
Proof.
  set (I := fun s' : state => target (this s') = t0).
  intros H. change (I s) in H.
  change (sat (explode show_more hole) s (fun _ s' => I s')).
  assert (Hk : forall (A : Type) (m : M A) t, keeps_this m -> I t ->
                 sat m t (fun _ t' => I t')).
  { intros A m t Hm Ht. apply sat_keeps_this; [exact Hm|].
    intros; exact Ht. }
  assert (Hu : forall (f : beam -> beam) t,
             (forall b, target (f b) = target b) -> I t ->
             sat (upd f) t (fun _ t' => I t')).
  { intros f t Hf Ht. apply sat_upd. unfold I in *. simpl.
    rewrite Hf. exact Ht. }
  assert (Hc : forall p t, I t ->
                 sat (explosion_affect_cell p) t (fun _ t' => I t')).
  { intros p t Ht. eapply sat_conseq; [apply explosion_affect_cell_target|].
    intros ? t' E. cbv beta in E. unfold I in *. congruence. }
  assert (Hfold : forall (l : list coord_def) (f : M Z -> coord_def -> M Z),
             (forall acc x,
                 (forall t, I t -> sat acc t (fun _ t' => I t')) ->
                 forall t, I t -> sat (f acc x) t (fun _ t' => I t')) ->
             forall acc,
               (forall t, I t -> sat acc t (fun _ t' => I t')) ->
               forall t, I t -> sat (foldl f acc l) t (fun _ t' => I t')).
  { intros l f Hf. induction l as [|x l IH]; intros acc Hacc; simpl;
      [exact Hacc|]. apply IH, Hf, Hacc. }
  unfold explode.
  wp_walk I ltac:(fun K => idtac)
    ltac:(idtac;
          first [ assumption
                | apply Hu; [intros b0; simpl; try reflexivity;
                             repeat case_match; reflexivity|assumption]
                | unfold set_fl, set_nm; apply Hu;
                  [intros b0; reflexivity|assumption]
                | apply Hk; [solve [auto with keeps_this]|assumption]
                | idtac ]).
  - apply Hk; [|assumption]. apply io_only_keeps_this.
    apply io_only_for_each. intros ring.
    apply io_only_bind; [|intros; apply io_only_explode_delay].
    apply io_only_for_each. intros d.
    unfold when. apply io_only_if; [|apply io_only_ret].
    apply io_only_bind; [apply io_only_gets|intros].
    apply io_only_explosion_draw_cell.
  - match goal with
    | K : I ?t |- sat (foldl _ _ _) ?t _ => revert K; generalize t
    end.
    apply Hfold.
    + intros acc x Hacc t Ht. apply (sat_bind_cut I); [apply Hacc, Ht|].
      intros n t1 Ht1. cbv beta.
      match goal with |- sat (if ?c then _ else _) _ _ => destruct c end;
        [|apply sat_ret, Ht1].
      apply sat_bind, sat_gets. cbv beta. apply sat_bind, sat_gets. cbv beta.
      apply (sat_bind_cut I); [apply Hc, Ht1|].
      intros _ t2 Ht2. apply sat_ret, Ht2.
    + intros t Ht. apply sat_ret, Ht.
Qed.

(** X23. An explosion stays where it is: [explode] sets [target] to each
    cell it affects in turn and puts it back, so the target of the bolt
    after the explosion is its target before. *)
Theorem explode_keeps_target (show_more hole : bool) (s : state) :
  target (this (explode (X := X) show_more hole s).2) = target (this s).
Proof. exact (sat_elim _ _ _ (explode_target show_more hole _ s eq_refl)). Qed.

End Steps.

(** * Planning: the tracers of monsters and of the player *)

Section Planning.

Context {ray_def other_state : Type} {X : @Collaborators ray_def other_state}.

#[local] Abbreviation state := (@state ray_def other_state).
#[local] Abbreviation M := (@M ray_def other_state).
#[local] Abbreviation beam := (@beam ray_def).
#[local] Abbreviation world := (@world other_state).

Lemma TW_io_only {A : Type} (m : M A) : io_only m -> tracer_world m.
Proof.
  intros Hm w0 s H. apply sat_io_only; [exact Hm|]. intros _ i. exact H.
Qed.

Lemma TW_upd (f : beam -> beam) (w0 : world) (s : state) :
  TW w0 s -> flag (f (this s)) is_tracer = true ->
  sat (upd f) s (fun _ s' => TW w0 s').
Proof. intros (Hw & Ht) Hf. apply sat_upd. split; auto. Qed.

Lemma TW_foldl_cells {A : Type} (f : M Z -> A -> M Z) (l : list A) :
  (forall acc x, tracer_world acc -> tracer_world (f acc x)) ->
  forall acc, tracer_world acc -> tracer_world (foldl f acc l).
Proof.
  intros Hf. induction l as [|x l IH]; intros acc Hacc; simpl; [exact Hacc|].
  apply IH, Hf, Hacc.
Qed.

End Planning.

Ltac tw_intro H :=
  let Hw := fresh "Hw" in
  let Ht := fresh "Ht" in
  pose proof H as (Hw & Ht).

Create HintDb tw discriminated.
#[global] Hint Extern 5 (tracer_world _) =>
  (apply TW_io_only; solve [auto with io_only]) : tw.

Ltac tw_leaf :=
  first
    [ assumption
    | match goal with
      | H : TW _ ?s |- sat (upd _) ?s _ =>
          apply (TW_upd _ _ _ H); flag_simpl
      | H : TW _ ?s |- sat (set_fl _ _) ?s _ =>
          apply (TW_upd _ _ _ H); flag_simpl
      | H : TW _ ?s |- sat (set_nm _ _) ?s _ =>
          apply (TW_upd _ _ _ H); flag_simpl
      | H : TW _ ?s |- sat (add_nm _ _) ?s _ =>
          apply (TW_upd _ _ _ H); flag_simpl
      | H : TW _ ?s |- sat (upd_friend _) ?s _ =>
          apply (TW_upd _ _ _ H); flag_simpl
      | H : TW _ ?s |- sat (upd_foe _) ?s _ =>
          apply (TW_upd _ _ _ H); flag_simpl
      | H : TW _ ?s |- sat (finish_beam) ?s _ =>
          apply (TW_upd _ _ _ H); flag_simpl
      | H : TW ?w ?s |- sat ?m ?s _ =>
          let K := fresh "K" in
          assert (K : tracer_world m) by (auto with tw);
          exact (K w s H)
      end ].

Ltac tw_walk :=
  lazymatch goal with
  | H : TW ?w0 ?s |- sat _ ?s _ =>
      let I := lazymatch type of H with ?I _ => I end in
      tw_intro H; cbv zeta;
      wp_walk I ltac:(fun K => tw_intro K) ltac:(idtac; try tw_leaf)
  end.

Section PlanningSteps.

Context {ray_def other_state : Type} {X : @Collaborators ray_def other_state}.

#[local] Abbreviation state := (@state ray_def other_state).
#[local] Abbreviation M := (@M ray_def other_state).
#[local] Abbreviation beam := (@beam ray_def).

Lemma munge_tries_world (n : nat) (r1 r2 : ray_def) :
  tracer_world (munge_tries (X := X) n r1 r2).
Proof. apply TW_io_only, io_only_munge_tries. Qed.
#[local] Hint Resolve munge_tries_world : tw.

Lemma fake_flavour_world :
  tracer_world (fake_flavour (X := X)).
Proof. intros w0 s H. unfold fake_flavour, _chaos_beam_flavour. tw_walk. Qed.
#[local] Hint Resolve fake_flavour_world : tw.

Lemma affect_wall_world :
  tracer_world (affect_wall (X := X)).
Proof. intros w0 s H. unfold affect_wall. tw_walk. Qed.
#[local] Hint Resolve affect_wall_world : tw.

Lemma munge_bounced_bolt_world (b : beam) (r : ray_def) :
  tracer_world (_munge_bounced_bolt (X := X) b r).
Proof. intros w0 s H. unfold _munge_bounced_bolt. tw_walk. Qed.
#[local] Hint Resolve munge_bounced_bolt_world : tw.

Lemma bounce_world :
  tracer_world (bounce (X := X)).
Proof. intros w0 s H. unfold bounce. tw_walk. Qed.
#[local] Hint Resolve bounce_world : tw.

Lemma hit_wall_world :
  tracer_world (hit_wall (X := X)).
Proof. intros w0 s H. unfold hit_wall. tw_walk. Qed.
#[local] Hint Resolve hit_wall_world : tw.

Lemma use_range_on_hit_world (v : actor) :
  tracer_world (use_range_on_hit (X := X) v).
Proof. intros w0 s H. unfold use_range_on_hit. tw_walk. Qed.
#[local] Hint Resolve use_range_on_hit_world : tw.

Lemma choose_ray_world :
  tracer_world (choose_ray (X := X)).
Proof. intros w0 s H. unfold choose_ray. tw_walk. Qed.
#[local] Hint Resolve choose_ray_world : tw.

Lemma fuzz_invis_tracer_world :
  tracer_world (fuzz_invis_tracer (X := X)).
Proof. intros w0 s H. unfold fuzz_invis_tracer. tw_walk. Qed.
#[local] Hint Resolve fuzz_invis_tracer_world : tw.

Lemma tracer_affect_player_world :
  tracer_world (tracer_affect_player (X := X)).
Proof. intros w0 s H. unfold tracer_affect_player. tw_walk. Qed.
#[local] Hint Resolve tracer_affect_player_world : tw.

Lemma affect_player_world :
  tracer_world (affect_player (X := X)).
Proof. intros w0 s H. unfold affect_player. tw_walk. Qed.
#[local] Hint Resolve affect_player_world : tw.

Lemma handle_stop_attack_prompt_world (mon : nat) :
  tracer_world (handle_stop_attack_prompt (X := X) mon).
Proof. intros w0 s H. unfold handle_stop_attack_prompt. tw_walk. Qed.
#[local] Hint Resolve handle_stop_attack_prompt_world : tw.

Lemma determine_damage_world (mon : nat) :
  tracer_world (determine_damage (X := X) mon).
Proof. intros w0 s H. unfold determine_damage. tw_walk. Qed.
#[local] Hint Resolve determine_damage_world : tw.

Lemma tracer_enchantment_affect_monster_world (mon : nat) :
  tracer_world (tracer_enchantment_affect_monster (X := X) mon).
Proof. intros w0 s H. unfold tracer_enchantment_affect_monster. tw_walk. Qed.
#[local] Hint Resolve tracer_enchantment_affect_monster_world : tw.

Lemma tracer_nonenchantment_affect_monster_world (mon : nat) :
  tracer_world (tracer_nonenchantment_affect_monster (X := X) mon).
Proof. intros w0 s H. unfold tracer_nonenchantment_affect_monster. tw_walk. Qed.
#[local] Hint Resolve tracer_nonenchantment_affect_monster_world : tw.

Lemma tracer_affect_monster_world (mon : nat) :
  tracer_world (tracer_affect_monster (X := X) mon).
Proof. intros w0 s H. unfold tracer_affect_monster. tw_walk. Qed.
#[local] Hint Resolve tracer_affect_monster_world : tw.

Lemma affect_monster_world (mon : nat) :
  tracer_world (affect_monster (X := X) mon).
Proof. intros w0 s H. unfold affect_monster. tw_walk. Qed.
#[local] Hint Resolve affect_monster_world : tw.

Lemma affect_ground_world :
  tracer_world (affect_ground (X := X)).
Proof. intros w0 s H. unfold affect_ground. tw_walk. Qed.
#[local] Hint Resolve affect_ground_world : tw.

Lemma cell_occupants_world (ap am sw : bool) :
  tracer_world (cell_occupants (X := X) ap am sw).
Proof. intros w0 s H. unfold cell_occupants. tw_walk. Qed.
#[local] Hint Resolve cell_occupants_world : tw.

Lemma affect_cell_world (av : bool) :
  tracer_world (affect_cell (X := X) av).
Proof. intros w0 s H. unfold affect_cell. tw_walk. Qed.
#[local] Hint Resolve affect_cell_world : tw.

Lemma refine_for_explosion_world :
  tracer_world (refine_for_explosion (X := X)).
Proof. intros w0 s H. unfold refine_for_explosion. tw_walk. Qed.
#[local] Hint Resolve refine_for_explosion_world : tw.

Lemma explosion_affect_cell_world (p : coord_def) :
  tracer_world (explosion_affect_cell (X := X) p).
Proof. intros w0 s H. unfold explosion_affect_cell. tw_walk. Qed.
#[local] Hint Resolve explosion_affect_cell_world : tw.

Lemma explode_world (show_more hole : bool) :
  tracer_world (explode (X := X) show_more hole).
Proof.
  intros w0 s H. unfold explode. tw_walk.
  match goal with
  | H : TW ?w ?s |- sat ?m ?s _ =>
      assert (K : tracer_world m); [|exact (K w s H)]
  end.
  apply TW_foldl_cells.
  - intros acc x Hacc w' t H'. tw_walk.
  - intros w' t H'. tw_walk.
Qed.

Lemma fire_tracer_sat (monster : nat) (explode_only : bool) (s : state) :
  sat (fire_tracer (X := X) monster explode_only) s
    (fun _ s' => wld s' = wld s /\ flag (this s') is_tracer = false).
Proof.
  unfold fire_tracer. apply sat_bind, sat_gets. cbv beta.
  apply (sat_bind_cut (TW (wld s))).
  { unfold set_fl. apply sat_upd. split; reflexivity. }
  intros _ s1 H1.
  repeat match goal with
         | |- sat ((if explode_only then _ else _) ≫= _) _ _ => fail 1
         | H : TW (wld s) ?s1 |- sat (_ ≫= _) ?s1 _ =>
             apply (sat_bind_cut (TW (wld s)));
             [ tw_walk
             | let s2 := fresh "s" in
               let H2 := fresh "H" in
               clear H; intros ? s2 H2; cbv beta ]
         end.
  apply (sat_bind_cut (fun s' => wld s' = wld s)).
  - destruct explode_only.
    + apply (sat_bind_cut (TW (wld s))).
      * match goal with H : TW _ ?s1 |- sat _ ?s1 _ =>
          exact (explode_world false false _ _ H) end.
      * intros _ s' [Hs' _]. apply sat_ret, Hs'.
    + match goal with H : TW _ ?s1 |- sat _ ?s1 _ =>
        destruct H as [Hw Ht];
        apply sat_intro; rewrite (fire_tracer_world s1 Ht); exact Hw end.
  - intros _ s' Hs'. unfold set_fl. apply sat_upd. split; [exact Hs'|].
    reflexivity.
Qed.

(** X15. [fire_tracer], the tracer a monster fires to plan a spell, leaves
    the world as it was, whether it traces the whole path or the explosion
    only, and hands the bolt back with [is_tracer] cleared. *)
Theorem fire_tracer_leaves_world (monster : nat) (explode_only : bool)
    (s : state) :
  wld (fire_tracer (X := X) monster explode_only s).2 = wld s
  /\ flag (this (fire_tracer monster explode_only s).2) is_tracer = false.
Proof. exact (sat_elim _ _ _ (fire_tracer_sat monster explode_only s)). Qed.

Lemma player_tracer_sat (ztype power rng : Z) (s : state) :
  sat (player_tracer (X := X) ztype power rng) s
    (fun safe s' =>
       safe = true ->
       wld s' = wld s
       /\ (you_flag (wld s) Y_confused = false ->
           flag (this s') is_tracer = false
           /\ flag (this s') beam_cancelled = false)).
Proof.
  unfold player_tracer. apply sat_bind, sat_gets. cbv beta.
  destruct (you_flag (wld s) Y_confused) eqn:Ec.
  { apply sat_ret. intros _. split; [reflexivity|discriminate]. }
  do 2 (apply sat_bind, sat_upd; cbv beta;
        cbn [this special_explosion wld io]).
  apply (sat_bind_cut (TW (wld s))).
  { unfold set_fl. apply sat_upd. split; reflexivity. }
  intros _ s1 H1.
  repeat match goal with
         | |- sat (fire ≫= _) _ _ => fail 1
         | H : TW (wld s) ?s1 |- sat (_ ≫= _) ?s1 _ =>
             apply (sat_bind_cut (TW (wld s)));
             [ tw_walk
             | let s2 := fresh "s" in
               let H2 := fresh "H" in
               clear H; intros ? s2 H2; cbv beta ]
         end.
  apply (sat_bind_cut (fun s' => wld s' = wld s)).
  { match goal with H : TW _ ?s1 |- sat _ ?s1 _ =>
      destruct H as [Hw Ht];
      apply sat_intro; rewrite (fire_tracer_world s1 Ht); exact Hw end. }
  intros _ t2 H2.
  apply (sat_bind_cut (fun s' => wld s' = wld s)).
  { unfold when. destruct (negb (rng =? 0)); [|apply sat_ret, H2].
    unfold set_nm. apply sat_upd. exact H2. }
  intros _ t3 H3. apply sat_bind, sat_gets. cbv beta.
  destruct (flag (this t3) beam_cancelled) eqn:Eb.
  - apply (sat_bind_cut (fun _ => True)); [apply sat_trivial|].
    intros _ t4 _. apply sat_ret. discriminate.
  - unfold set_fl. apply sat_bind, sat_upd. cbv beta. apply sat_ret.
    intros _. split; [exact H3|]. intros _. split; [reflexivity|exact Eb].
Qed.

(** X16. When [player_tracer] reports the path as safe it has left the
    world as it was; and unless the player is confused (then nothing is
    traced), the bolt comes back ready for the real firing: [is_tracer]
    cleared and not cancelled. *)
Theorem player_tracer_safe_world (ztype power rng : Z) (s : state) :
  (player_tracer (X := X) ztype power rng s).1 = true ->
  wld (player_tracer ztype power rng s).2 = wld s
  /\ (you_flag (wld s) Y_confused = false ->
      flag (this (player_tracer ztype power rng s).2) is_tracer = false
      /\ flag (this (player_tracer ztype power rng s).2) beam_cancelled
         = false).
Proof. exact (sat_elim _ _ _ (player_tracer_sat ztype power rng s)). Qed.

End PlanningSteps.

(** * Bolts that affect nothing *)

Section Nothing.

Context {ray_def other_state : Type} {X : @Collaborators ray_def other_state}.

#[local] Abbreviation state := (@state ray_def other_state).
#[local] Abbreviation M := (@M ray_def other_state).
#[local] Abbreviation beam := (@beam ray_def).
#[local] Abbreviation world := (@world other_state).

Lemma AN_io_only {A : Type} (m : M A) : io_only m -> nothing_safe m.
Proof.
  intros Hm w0 s H. apply sat_io_only; [exact Hm|]. intros _ i. exact H.
Qed.

Lemma AN_upd (f : beam -> beam) (w0 : world) (s : state) :
  AN w0 s -> flag (f (this s)) affects_nothing = true ->
  sat (upd f) s (fun _ s' => AN w0 s').
Proof. intros (Hw & Ht) Hf. apply sat_upd. split; auto. Qed.

Lemma AN_upd_special (f : beam -> beam) (w0 : world) (s : state) :
  AN w0 s -> sat (upd_special f) s (fun _ s' => AN w0 s').
Proof. intros H. apply sat_upd_special. exact H. Qed.

End Nothing.

Ltac an_intro H :=
  let Hw := fresh "Hw" in
  let Ht := fresh "Ht" in
  pose proof H as (Hw & Ht).

Create HintDb an discriminated.
#[global] Hint Extern 5 (nothing_safe _) =>
  (apply AN_io_only; solve [auto using io_only_draw with io_only]) : an.

Ltac an_leaf :=
  first
    [ assumption
    | match goal with
      | H : AN _ ?s |- sat (upd _) ?s _ =>
          apply (AN_upd _ _ _ H); flag_simpl
      | H : AN _ ?s |- sat (set_fl _ _) ?s _ =>
          apply (AN_upd _ _ _ H); flag_simpl
      | H : AN _ ?s |- sat (set_nm _ _) ?s _ =>
          apply (AN_upd _ _ _ H); flag_simpl
      | H : AN _ ?s |- sat (add_nm _ _) ?s _ =>
          apply (AN_upd _ _ _ H); flag_simpl
      | H : AN _ ?s |- sat (upd_special _) ?s _ =>
          apply (AN_upd_special _ _ _ H)
      | H : AN ?w ?s |- sat ?m ?s _ =>
          let K := fresh "K" in
          assert (K : nothing_safe m) by (auto with an);
          exact (K w s H)
      end ].

Ltac an_walk :=
  lazymatch goal with
  | H : AN ?w0 ?s |- sat _ ?s _ =>
      let I := lazymatch type of H with ?I _ => I end in
      an_intro H; cbv zeta;
      wp_walk I ltac:(fun K => an_intro K) ltac:(idtac; try an_leaf)
  end.

Section NothingSteps.

Context {ray_def other_state : Type} {X : @Collaborators ray_def other_state}.

#[local] Abbreviation state := (@state ray_def other_state).
#[local] Abbreviation M := (@M ray_def other_state).
#[local] Abbreviation beam := (@beam ray_def).

Lemma initialise_fire_nothing : nothing_safe (initialise_fire (X := X)).
Proof. intros w0 s H. unfold initialise_fire. an_walk. Qed.

Lemma choose_ray_nothing : nothing_safe (choose_ray (X := X)).
Proof. intros w0 s H. unfold choose_ray. an_walk. Qed.

Lemma iter_interact_nothing (av : bool) :
  nothing_safe (iter_interact (X := X) av).
Proof. intros w0 s H. unfold iter_interact. an_walk. Qed.

Lemma iter_consume_nothing (av : bool) :
  nothing_safe (iter_consume av : M unit).
Proof. intros w0 s H. unfold iter_consume. an_walk. Qed.

Lemma iter_decide_nothing : nothing_safe (iter_decide (X := X)).
Proof. intros w0 s H. unfold iter_decide. an_walk. Qed.
#[local] Hint Resolve initialise_fire_nothing choose_ray_nothing
  iter_interact_nothing iter_consume_nothing iter_decide_nothing : an.

Lemma fire_iter_nothing (av : bool) : nothing_safe (fire_iter (X := X) av).
Proof. intros w0 s H. unfold fire_iter. an_walk. Qed.
#[local] Hint Resolve fire_iter_nothing : an.

Lemma fire_loop_nothing (fuel : nat) (av : bool) :
  nothing_safe (fire_loop (X := X) fuel av).
Proof.
  revert av. induction fuel as [|n IH]; intros av w0 s H; simpl; an_walk.
Qed.
#[local] Hint Resolve fire_loop_nothing : an.

Lemma apply_beam_conducts_nothing (w0 : world) (s : state) :
  AN w0 s -> unholy_firing (this s) = false ->
  sat (apply_beam_conducts (X := X)) s (fun _ s' => AN w0 s').
Proof.
  intros H Hu. unfold apply_beam_conducts. apply sat_bind, sat_gets.
  cbv beta. unfold unholy_firing in Hu. rewrite Hu. apply sat_ret, H.
Qed.

Lemma unholy_firing_fixed (b b' : beam) :
  fixed_part b' = fixed_part b -> flavour b' = flavour b ->
  unholy_firing b' = unholy_firing b.
Proof.
  unfold fixed_part, fixed_flags, unholy_firing, flavour_is. simpl.
  intros [= -> _ _ _ _ _ -> _ _ _ _ _ _ _ _ _ _ _] ->. reflexivity.
Qed.

Lemma do_fire_nothing (w0 : world) (s : state) :
  AN w0 s -> unholy_firing (this s) = false ->
  sat (do_fire (X := X)) s (fun _ s' => AN w0 s').
Proof.
  intros H Hu. unfold do_fire.
  apply (sat_bind_cut
           (fun s' => AN w0 s' /\ unholy_firing (this s') = false)).
  { eapply sat_conseq.
    - apply sat_and; [apply initialise_fire_nothing, H|].
      apply sat_and; [apply (sat_keeps _ _ s (initialise_fire_fixed))|].
      apply initialise_fire_aimed.
    - cbv beta. intros _ s' (K1 & K2 & (_ & _ & K3 & _) & _).
      split; [exact K1|]. rewrite <- Hu. apply unholy_firing_fixed.
      + exact (f_equal fst K2).
      + exact K3. }
  intros _ s1 [H1 Hu1]. apply sat_bind, sat_gets. cbv beta.
  destruct (_ && _); [apply sat_ret, H1|].
  apply (sat_bind_cut (AN w0));
    [apply apply_beam_conducts_nothing; assumption|].
  intros _ s2 H2. an_walk.
Qed.

Lemma fire_nothing (s : state) :
  flag (this s) affects_nothing = true ->
  unholy_firing (this s) = false ->
  sat (fire (X := X)) s (fun _ s' => AN (wld s) s').
Proof.
  intros Ha Hu. unfold fire. apply sat_bind, sat_upd. cbv beta.
  apply sat_bind, sat_gets. cbv beta.
  apply sat_bind, sat_upd_special. cbv beta.
  cbn [this special_explosion wld io].
  match goal with
  | |- sat _ ?s1 _ =>
      assert (H1 : AN (wld s) s1) by (split; [reflexivity|exact Ha]);
      assert (Hu1 : unholy_firing (this s1) = false) by exact Hu;
      revert H1 Hu1; generalize s1; intros t1 H1 Hu1
  end.
  apply (sat_bind_cut (AN (wld s))).
  - match goal with |- sat (if ?c then _ else _) _ _ => destruct c end.
    + apply sat_bind, sat_gets. cbv beta.
      apply sat_bind, sat_gets. cbv beta.
      apply (sat_bind_cut (AN (wld s)));
        [apply do_fire_nothing; assumption|].
      intros _ t2 H2. an_walk.
    + apply do_fire_nothing; assumption.
  - intros _ t2 H2. an_walk.
Qed.

(** X14. A bolt that affects nothing changes nothing in the world: [fire]
    with [affects_nothing] set leaves terrain, monsters, player and items
    as they were, in live mode too. The one exception is the report of
    [apply_beam_conducts], made before the bolt moves, for the player's own
    hellfire. *)
Theorem fire_affects_nothing_world (s : state) :
  flag (this s) affects_nothing = true ->
  unholy_firing (this s) = false ->
  wld (fire (X := X) s).2 = wld s.
Proof.
  intros Ha Hu. apply (sat_elim _ _ _ (fire_nothing s Ha Hu)).
Qed.

Lemma setup_retrace_sat (s : state) :
  sat (setup_retrace (X := X)) s
    (fun _ s' =>
       wld s' = wld s /\ flag (this s') affects_nothing = true
       /\ unholy_firing (this s') = unholy_firing (this s)
       /\ source (this s')
          = (if negb ((pos (this s)).1 =? 0) && negb ((pos (this s)).2 =? 0)
             then pos (this s) else target (this s))
       /\ target (this s') = source (this s)
       /\ num (this s') range_used = 0).
Proof.
  unfold setup_retrace. wp_run.
  generalize (negb ((pos (this s)).1 =? 0) && negb ((pos (this s)).2 =? 0)).
  intros c. destruct c; repeat split.
Qed.

(** X19. [setup_retrace] turns the bolt round: its new source is the cell
    it had reached (its old target if that cell has a zero coordinate),
    its new target is its old source, and nothing of the range is used.
    Fired again, the bolt affects nothing: the world stays as it is. *)
Theorem retrace_goes_back (s : state) :
  unholy_firing (this s) = false ->
  let s1 := (setup_retrace (X := X) s).2 in
  source (this s1)
  = (if negb ((pos (this s)).1 =? 0) && negb ((pos (this s)).2 =? 0)
     then pos (this s) else target (this s))
  /\ target (this s1) = source (this s)
  /\ num (this s1) range_used = 0
  /\ wld (fire s1).2 = wld s.
Proof.
  intros Hu. cbv zeta.
  destruct (sat_elim _ _ _ (setup_retrace_sat s))
    as (K1 & K2 & K3 & K4 & K5 & K6).
  repeat split; try assumption.
  rewrite <- K1. apply (sat_elim _ _ _ (fire_nothing _ K2 (eq_trans K3 Hu))).
Qed.

(** ** The damage a tracer predicts *)

Lemma determine_damage_tracer (mon : nat) (i0 : io_state) (w0 : world)
    (s : state) :
  io s = i0 /\ wld s = w0 /\ flag (this s) is_tracer = true ->
  sat (determine_damage (X := X) mon) s
    (fun _ s' => io s' = i0 /\ wld s' = w0
                 /\ flag (this s') is_tracer = true).
Proof.
  set (I := fun s' : state =>
              io s' = i0 /\ wld s' = w0
              /\ flag (this s') is_tracer = true).
  intros H. change (I s) in H. change (sat (determine_damage mon) s
                                         (fun _ s' => I s')).
  unfold determine_damage. cbv zeta.
  pose proof H as (Hi & Hw & Ht).
  wp_walk I ltac:(fun K => pose proof K as (? & ? & ?))
    ltac:(idtac;
          first [ assumption
                | match goal with
                  | K : I ?s1 |- sat finish_beam ?s1 _ =>
                      unfold finish_beam; apply sat_upd; exact K
                  | K : I ?s1, Hf : flag (this ?s0) is_tracer = true
                    |- sat (maybe_random2 _ (negb (flag (this ?s0) _))) ?s1 _
                    => rewrite Hf; apply sat_ret; exact K
                  | K : I ?s1
                    |- sat (mons_adjust_flavoured _ _ false) ?s1 _ =>
                      apply sat_intro;
                      rewrite mons_adjust_flavoured_silent_state; exact K
                  end ]).
Qed.

(** X18. The damage a tracer predicts is an estimate without chance: in
    tracer mode [determine_damage] draws no random number, prints nothing
    and leaves the world alone; it uses the mean of the dice and half the
    armour. *)
Theorem determine_damage_tracer_no_chance (mon : nat) (s : state) :
  flag (this s) is_tracer = true ->
  io (determine_damage (X := X) mon s).2 = io s
  /\ wld (determine_damage mon s).2 = wld s.
Proof.
  intros Ht.
  destruct (sat_elim _ _ _
              (determine_damage_tracer mon (io s) (wld s) s
                 (conj eq_refl (conj eq_refl Ht))))
    as (K1 & K2 & _).
  split; assumption.
Qed.

(** ** Messages *)

(** X20. [emit_message] prints a message once per firing: the first call
    prints it unless it is in the cache already, and a second call with
    the same text, on whatever channel, prints nothing. *)
Theorem emit_message_once (chan1 chan2 : msg_channel_type) (m : string)
    (s : state) :
  let s1 := (emit_message chan1 m s).2 in
  emitted (io s1)
  = (if bool_decide (m ∈ message_cache (this s)) then emitted (io s)
     else Msg chan1 m :: emitted (io s))
  /\ m ∈ message_cache (this s1)
  /\ io (emit_message chan2 m s1).2 = io s1.
Proof.
  cbv zeta.
  assert (H1 : sat (emit_message chan1 m) s
                 (fun _ s1 =>
                    emitted (io s1)
                    = (if bool_decide (m ∈ message_cache (this s))
                       then emitted (io s)
                       else Msg chan1 m :: emitted (io s))
                    /\ m ∈ message_cache (this s1))).
  { unfold emit_message, mpr, emit, upd_io, when.
    apply sat_bind, sat_gets. cbv beta.
    destruct (bool_decide (m ∈ message_cache (this s))); simpl.
    - apply sat_bind, sat_ret. apply sat_upd. simpl.
      split; [reflexivity|]. apply elem_of_cons. left. reflexivity.
    - apply sat_bind, sat_intro. simpl. apply sat_upd. simpl.
      split; [reflexivity|]. apply elem_of_cons. left. reflexivity. }
  apply sat_elim in H1. destruct H1 as [K1 K2].
  split; [exact K1|]. split; [exact K2|].
  apply (sat_elim (emit_message chan2 m) _ (fun _ s2 => io s2 = io _)).
  unfold emit_message, when. apply sat_bind, sat_gets. cbv beta.
  rewrite (bool_decide_eq_true_2 _ K2). simpl.
  apply sat_bind, sat_ret. apply sat_upd. reflexivity.
Qed.

End NothingSteps.

(** * Tallies of a tracer *)

(** X17. Adding the tallies of two tracers ([tracer_info::operator+=]) is
    associative and commutative, and the tally after [reset] is its
    neutral element. *)
Theorem tracer_info_add_monoid (a b c : tracer_info) :
  tracer_info_add (tracer_info_add a b) c
  = tracer_info_add a (tracer_info_add b c)
  /\ tracer_info_add a b = tracer_info_add b a
  /\ tracer_info_add a tracer_info_reset = a
  /\ tracer_info_add tracer_info_reset a = a.
Proof.
  destruct a as [a1 a2 a3 a4 a5], b as [b1 b2 b3 b4 b5],
    c as [c1 c2 c3 c4 c5].
  unfold tracer_info_add, tracer_info_reset. simpl.
  repeat split; f_equal; try lia.
  - symmetry. apply orb_assoc.
  - apply orb_comm.
  - apply orb_false_r.
Qed.

(** * A bolt aimed at the caster's own cell *)

Section OwnCell.

Context {ray_def other_state : Type} {X : @Collaborators ray_def other_state}.
Hypothesis hooks : range_hooks_cost (X := X).

#[local] Abbreviation state := (@state ray_def other_state).
#[local] Abbreviation M := (@M ray_def other_state).
#[local] Abbreviation beam := (@beam ray_def).
#[local] Abbreviation world := (@world other_state).

Lemma initialise_fire_source (src0 : coord_def) (s : state) :
  source (this s) = src0 /\ flag (this s) chose_ray = false ->
  sat (initialise_fire (X := X)) s
    (fun _ s' => source (this s') = src0
                 /\ flag (this s') chose_ray = false).
Proof.
  set (I := fun s' : state =>
              source (this s') = src0 /\ flag (this s') chose_ray = false).
  intros H. change (I s) in H.
  change (sat initialise_fire s (fun _ s' => I s')).
  unfold initialise_fire.
  pose proof H as [H1 H2].
  wp_walk I ltac:(fun K => pose proof K as [? ?])
    ltac:(idtac;
          first [ assumption
                | match goal with
                  | K : I ?s1 |- sat (upd_special _) ?s1 _ =>
                      apply sat_upd_special; exact K
                  | K : I ?s1 |- sat _ ?s1 _ =>
                      unfold set_fl, set_nm; apply sat_upd;
                      destruct K as [K1 K2]; split; simpl;
                      rewrite ?K2; simpl; assumption
                  | K : I ?s1 |- sat _ ?s1 _ =>
                      apply sat_io_only; [solve [auto with io_only]|];
                      intros; exact K
                  end ]).
Qed.

#[local] Hint Resolve affect_endpoint_fixed : fx.
#[local] Hint Extern 6 (keeps path_taken _) =>
  (apply keeps_path_taken; solve [auto with fx]) : fx.

(** The last iteration of a loop that has no range left. *)
Lemma fire_loop_last (fuel : nat) (s : state) :
  num (this s) range_used = num (this s) range ->
  sat (fire_loop (X := X) (S fuel) false) s
    (fun _ s' =>
       path_taken (this s')
       = path_taken (this s)
         ++ (if in_bounds (pos (this s)) then [pos (this s)] else [])).
Proof.
  intros Hle. simpl. apply sat_bind, sat_gets. cbv beta.
  destruct (in_bounds (pos (this s))); simpl.
  2: { apply sat_ret. rewrite app_nil_r. reflexivity. }
  apply sat_bind. eapply sat_conseq.
  { apply sat_and; [apply (fire_iter_budget hooks false s); lia|].
    apply (fire_iter_records false s). }
  cbv beta. intros c s1 (((H1 & H2 & H3) & Hc & _) & Hp).
  destruct c; try (apply sat_ret; exact Hp).
  specialize (Hc eq_refl). lia.
Qed.

Lemma do_fire_own_cell (s : state) :
  target (this s) = source (this s) ->
  flag (this s) chose_ray = false ->
  sat (do_fire (X := X)) s
    (fun _ s' =>
       path_taken (this s')
       = path_taken (this s)
         ++ (if in_bounds (target (this s)) then [target (this s)] else [])).
Proof.
  intros Hts Hc. unfold do_fire.
  set (F := fun s' : state =>
              at_own_cell (path_taken (this s)) (target (this s)) (this s')).
  apply (sat_bind_cut F).
  { eapply sat_conseq.
    - apply sat_and; [apply initialise_fire_aimed|].
      apply sat_and;
        [apply (initialise_fire_source (source (this s)) s); auto|].
      apply (sat_keeps _ _ s (keeps_path_taken _ initialise_fire_fixed)).
    - cbv beta.
      intros _ s' (((K1 & K2 & K3 & K4 & K5 & K6 & K7) & _) & (S1 & _) & P).
      assert (E : target (this s') = source (this s')) by congruence.
      destruct (K6 E) as (R1 & R2 & R3 & R4 & R5).
      unfold F, at_own_cell. repeat split; try assumption.
      unfold pos. rewrite R5, orb_true_r. exact K4. }
  intros _ s1 H1. apply sat_bind, sat_gets. cbv beta.
  pose proof H1 as (P1 & P2 & P3 & P4 & P5).
  rewrite P2, P3. simpl.
  assert (Hk : forall (A : Type) (m : M A) t, keeps_this m -> F t ->
                 sat m t (fun _ t' => F t')).
  { intros A m t Hm Ht. apply sat_keeps_this; [exact Hm|].
    intros; exact Ht. }
  apply (sat_bind_cut F).
  { apply Hk; [|exact H1]. unfold apply_beam_conducts, when.
    apply keeps_this_bind; [auto with keeps_this|intros b].
    apply keeps_this_if; [|auto with keeps_this].
    apply keeps_this_bind; auto with keeps_this. }
  intros _ s2 H2. cbv zeta.
  apply (sat_bind_cut F).
  { unfold set_fl. apply sat_upd. exact H2. }
  intros _ s3 H3. rewrite P4. simpl.
  apply sat_bind, sat_ret.
  unfold first_avoid_self, fire_fuel. rewrite P4, P2. cbn [negb andb].
  change (Z.to_nat 0 + 2)%nat with (S 1).
  destruct H3 as (Q1 & Q2 & Q3 & Q4 & Q5).
  apply sat_bind. eapply sat_conseq; [apply fire_loop_last; congruence|].
  cbv beta. intros c s4 Hp. rewrite Q1, Q5 in Hp.
  assert (Hrest : forall (A : Type) (m : M A), keeps path_taken m ->
            sat m s4
              (fun _ s' =>
                 path_taken (this s')
                 = path_taken (this s)
                   ++ (if in_bounds (target (this s))
                       then [target (this s)] else []))).
  { intros A m Hm. eapply sat_conseq; [apply (sat_keeps _ _ _ Hm)|].
    intros ? s' E. cbv beta in E. rewrite E. exact Hp. }
  destruct c; apply Hrest; fx_walk.
Qed.

Lemma fire_own_cell (s : state) :
  target (this s) = source (this s) ->
  flag (this s) chose_ray = false ->
  sat (fire (X := X)) s
    (fun _ s' =>
       path_taken (this s')
       = (if in_bounds (target (this s)) then [target (this s)] else [])).
Proof.
  intros Hts Hc. unfold fire. apply sat_bind, sat_upd. cbv beta.
  apply sat_bind, sat_gets. cbv beta.
  apply sat_bind, sat_upd_special. cbv beta.
  cbn [this special_explosion wld io].
  set (L := if in_bounds (target (this s)) then [target (this s)] else []).
  assert (Hrest : forall (A : Type) (m : M A) t, keeps path_taken m ->
            path_taken (this t) = L ->
            sat m t (fun _ s' => path_taken (this s') = L)).
  { intros A m t Hm Ht. eapply sat_conseq; [apply (sat_keeps _ _ _ Hm)|].
    intros ? s' E. cbv beta in E. rewrite E. exact Ht. }
  match goal with
  | |- sat _ ?s1 _ =>
      assert (Hd : sat do_fire s1 (fun _ s' => path_taken (this s') = L))
        by (exact (do_fire_own_cell s1 Hts Hc))
  end.
  apply (sat_bind_cut (fun s' => path_taken (this s') = L)).
  - match goal with |- sat (if ?c then _ else _) _ _ => destruct c end;
      [|exact Hd].
    apply sat_bind, sat_gets. cbv beta.
    apply sat_bind, sat_gets. cbv beta.
    apply (sat_bind_cut (fun s' => path_taken (this s') = L)); [exact Hd|].
    intros _ t2 H2. apply Hrest; [fx_walk|exact H2].
  - intros _ t2 H2. apply Hrest; [fx_walk|exact H2].
Qed.

End OwnCell.

Section OwnCellOnly.

Context {ray_def other_state : Type} {X : @Collaborators ray_def other_state}.

(** X22. With range hooks that return costs, a bolt aimed at its own
    source (and whose ray was not chosen by the caller) visits that cell
    and no other: [fire] leaves it alone in [path_taken], or leaves the
    list empty if the cell is outside the map. *)
Theorem own_cell_only (s : @state ray_def other_state) :
  range_hooks_cost (X := X) ->
  target (this s) = source (this s) ->
  flag (this s) chose_ray = false ->
  path_taken (this (fire (X := X) s).2)
  = (if in_bounds (target (this s)) then [target (this s)] else []).
Proof.
  intros Hh Hts Hc. exact (sat_elim _ _ _ (fire_own_cell Hh s Hts Hc)).
Qed.

End OwnCellOnly.

(** * The charge of a step *)

Section StepCharge.

Context {ray_def other_state : Type} {X : @Collaborators ray_def other_state}.

#[local] Abbreviation state := (@state ray_def other_state).
#[local] Abbreviation M := (@M ray_def other_state).
#[local] Abbreviation beam := (@beam ray_def).
#[local] Abbreviation keeps :=
  (keeps (ray_def := ray_def) (other_state := other_state)).

(** What the loop of a bolt that affects nothing changes only by the step
    it pays for and the cell it records. *)
#[local] Abbreviation paid_part :=
  (fun b : beam => (num b range_used, path_taken b, flag b affects_nothing,
                    flag b aimed_at_feet, target b, source b)).

Lemma keeps_io_only {T A : Type} (part : beam -> T) (m : M A) :
  io_only m -> keeps part m.
Proof. intros H. apply keeps_keeps_this, io_only_keeps_this, H. Qed.

Lemma iter_decide_paid : keeps paid_part (iter_decide (X := X)).
Proof.
  unfold iter_decide. keeps_walk.
  apply keeps_io_only, io_only_draw.
Qed.

(** The step charge comes on top of what the cell used. *)
Lemma fire_iter_charge (av : bool) (s : state) :
  num (this (fire_iter (X := X) av s).2) range_used
  = num (this (iter_interact av s).2) range_used + (if av then 0 else 1).
Proof.
  assert (H : sat (fire_iter (X := X) av) s
                (fun _ s' => num (this s') range_used
                             = num (this (iter_interact av s).2) range_used
                               + (if av then 0 else 1))).
  { unfold fire_iter.
    apply (sat_bind_cut (fun s1 => s1 = (iter_interact av s).2)).
    { apply sat_intro. reflexivity. }
    intros _ s1 ->.
    apply (sat_bind_cut
             (fun s2 => num (this s2) range_used
                        = num (this (iter_interact av s).2) range_used
                          + (if av then 0 else 1))).
    { eapply sat_conseq; [apply iter_consume_budget|].
      cbv beta. intros ? s2 [_ E]. exact E. }
    intros _ s2 E2.
    eapply sat_conseq; [apply (sat_keeps _ _ _ iter_decide_paid)|].
    cbv beta. intros ? s3 E3. rewrite <- E2. congruence. }
  exact (sat_elim _ _ _ H).
Qed.

(** One iteration of a bolt that affects nothing. *)
Lemma fire_iter_paid (av : bool) (s : state) :
  flag (this s) affects_nothing = true ->
  sat (fire_iter (X := X) av) s
    (fun _ s' =>
       paid_part (this s')
       = (num (this s) range_used + (if av then 0 else 1),
          path_taken (this s) ++ [pos (this s)], true,
          flag (this s) aimed_at_feet, target (this s), source (this s))).
Proof.
  intros Ha. unfold fire_iter.
  apply (sat_bind_cut
           (fun s1 =>
              paid_part (this s1)
              = (num (this s) range_used,
                 path_taken (this s) ++ [pos (this s)], true,
                 flag (this s) aimed_at_feet, target (this s),
                 source (this s)))).
  { unfold iter_interact. apply sat_bind, sat_upd. cbv beta.
    apply sat_bind, sat_gets. cbv beta. cbn [this].
    change (flag (set_path_taken (path_taken (this s) ++ [pos (this s)])
                    (this s)) affects_nothing)
      with (flag (this s) affects_nothing).
    rewrite Ha. apply sat_ret. simpl. rewrite Ha. reflexivity. }
  intros _ s1 E1.
  apply (sat_bind_cut
           (fun s2 =>
              paid_part (this s2)
              = (num (this s) range_used + (if av then 0 else 1),
                 path_taken (this s) ++ [pos (this s)], true,
                 flag (this s) aimed_at_feet, target (this s),
                 source (this s)))).
  { unfold iter_consume, when, add_nm. injection E1 as K1 K2 K3 K4 K5 K6.
    destruct av; cbn [negb].
    - apply sat_ret. rewrite K1, K2, K3, K4, K5, K6, Z.add_0_r. reflexivity.
    - apply sat_upd. simpl. rewrite K1, K2, K3, K4, K5, K6. reflexivity. }
  intros _ s2 E2.
  eapply sat_conseq; [apply (sat_keeps _ _ _ iter_decide_paid)|].
  cbv beta. intros ? s3 E3. rewrite E3. exact E2.
Qed.

(** The loop of a bolt that affects nothing: of the [n] cells it visits the
    first is free when [av] holds, and every other costs one unit. *)
Lemma fire_loop_paid (fuel : nat) (av : bool) (s : state) :
  flag (this s) affects_nothing = true ->
  sat (fire_loop (X := X) fuel av) s
    (fun _ s' =>
       let n := Z.of_nat (length (path_taken (this s')))
                - Z.of_nat (length (path_taken (this s))) in
       0 <= n
       /\ num (this s') range_used
          = num (this s) range_used
            + (if n =? 0 then 0 else n - (if av then 1 else 0))
       /\ flag (this s') affects_nothing = true
       /\ flag (this s') aimed_at_feet = flag (this s) aimed_at_feet
       /\ target (this s') = target (this s)
       /\ source (this s') = source (this s)).
Proof.
  revert av s. induction fuel as [|k IH]; intros av s Ha; simpl.
  { apply sat_ret. rewrite Z.sub_diag. simpl. repeat split; auto; lia. }
  apply sat_bind, sat_gets. cbv beta.
  destruct (negb (in_bounds (pos (this s)))).
  { apply sat_ret. rewrite Z.sub_diag. simpl. repeat split; auto; lia. }
  apply sat_bind. eapply sat_conseq; [apply (fire_iter_paid av s Ha)|].
  cbv beta. intros c s1 E1. injection E1 as K1 K2 K3 K4 K5 K6.
  assert (Hlen : Z.of_nat (length (path_taken (this s1)))
                 = Z.of_nat (length (path_taken (this s))) + 1).
  { rewrite K2, length_app. simpl. lia. }
  assert (Hone : sat (mret c : M loop_ctl) s1
                   (fun _ s' =>
                      let n := Z.of_nat (length (path_taken (this s')))
                               - Z.of_nat (length (path_taken (this s))) in
                      0 <= n
                      /\ num (this s') range_used
                         = num (this s) range_used
                           + (if n =? 0 then 0
                              else n - (if av then 1 else 0))
                      /\ flag (this s') affects_nothing = true
                      /\ flag (this s') aimed_at_feet
                         = flag (this s) aimed_at_feet
                      /\ target (this s') = target (this s)
                      /\ source (this s') = source (this s))).
  { apply sat_ret. cbv zeta. rewrite Hlen.
    replace (Z.of_nat (length (path_taken (this s))) + 1
             - Z.of_nat (length (path_taken (this s)))) with 1 by lia.
    simpl. repeat split; auto; try lia. rewrite K1. destruct av; lia. }
  destruct c; try exact Hone.
  eapply sat_conseq; [apply (IH false s1 K3)|].
  cbv beta zeta. intros ? s2 (H0 & H1 & H2 & H3 & H4 & H5).
  rewrite Hlen in H0, H1.
  set (m := Z.of_nat (length (path_taken (this s2)))) in *.
  set (m0 := Z.of_nat (length (path_taken (this s)))) in *.
  repeat split; try congruence; try lia.
  rewrite H1, K1.
  destruct (Z.eqb_spec (m - (m0 + 1)) 0); destruct (Z.eqb_spec (m - m0) 0);
    destruct av; lia.
Qed.

(** The loop of any bolt, with range hooks that return costs: every cell
    visited costs one unit at least, but for the first where [av] holds. *)
Lemma fire_loop_at_least (hooks : range_hooks_cost (X := X)) (fuel : nat)
    (av : bool) (s : state) :
  num (this s) range_used <= num (this s) range ->
  sat (fire_loop (X := X) fuel av) s
    (fun _ s' =>
       let n := Z.of_nat (length (path_taken (this s')))
                - Z.of_nat (length (path_taken (this s))) in
       0 <= n
       /\ num (this s) range_used
          + (if n =? 0 then 0 else n - (if av then 1 else 0))
          <= num (this s') range_used).
Proof.
  revert av s. induction fuel as [|k IH]; intros av s Hle; simpl.
  { apply sat_ret. rewrite Z.sub_diag. simpl. lia. }
  apply sat_bind, sat_gets. cbv beta.
  destruct (negb (in_bounds (pos (this s)))).
  { apply sat_ret. rewrite Z.sub_diag. simpl. lia. }
  apply sat_bind. eapply sat_conseq.
  { apply sat_and; [apply (fire_iter_budget hooks av s Hle)|].
    apply (fire_iter_records av s). }
  cbv beta. intros c s1 (((H1 & H2 & H3) & Hc & _) & Hp).
  assert (Hlen : Z.of_nat (length (path_taken (this s1)))
                 = Z.of_nat (length (path_taken (this s))) + 1).
  { rewrite Hp, length_app. simpl. lia. }
  assert (Hone : 0 <= Z.of_nat (length (path_taken (this s1)))
                      - Z.of_nat (length (path_taken (this s)))
                 /\ num (this s) range_used
                    + (if Z.of_nat (length (path_taken (this s1)))
                          - Z.of_nat (length (path_taken (this s))) =? 0
                       then 0
                       else Z.of_nat (length (path_taken (this s1)))
                            - Z.of_nat (length (path_taken (this s)))
                            - (if av then 1 else 0))
                    <= num (this s1) range_used).
  { rewrite Hlen.
    replace (Z.of_nat (length (path_taken (this s))) + 1
             - Z.of_nat (length (path_taken (this s)))) with 1 by lia.
    simpl. destruct av; lia. }
  destruct c; try (apply sat_ret; exact Hone).
  specialize (Hc eq_refl).
  eapply sat_conseq; [apply (IH false s1); lia|].
  cbv beta zeta. intros ? s2 [H0 H]. rewrite Hlen in H0, H.
  set (m := Z.of_nat (length (path_taken (this s2)))) in *.
  set (m0 := Z.of_nat (length (path_taken (this s)))) in *.
  revert H.
  destruct (Z.eqb_spec (m - (m0 + 1)) 0); destruct (Z.eqb_spec (m - m0) 0);
    destruct av; simpl; lia.
Qed.

Lemma initialise_fire_paid (s : state) :
  sat (initialise_fire (X := X)) s
    (fun _ s' =>
       num (this s') range_used = 0
       /\ path_taken (this s') = path_taken (this s)
       /\ flag (this s') affects_nothing = flag (this s) affects_nothing).
Proof.
  unfold initialise_fire.
  set (I := fun s' : state =>
              num (this s') range_used = 0
              /\ path_taken (this s') = path_taken (this s)
              /\ flag (this s') affects_nothing
                 = flag (this s) affects_nothing).
  apply (sat_bind_cut I).
  { unfold set_nm. apply sat_upd. unfold I. simpl. auto. }
  intros _ s1 H1.
  eapply sat_conseq.
  { apply (sat_keeps (fun b : beam => (num b range_used, path_taken b,
                                       flag b affects_nothing))).
    keeps_walk; try (apply keeps_io_only; auto with io_only). }
  cbv beta. intros ? s2 E. injection E as E1 E2 E3.
  destruct H1 as (G1 & G2 & G3). unfold I. repeat split; congruence.
Qed.

(** [initialise_fire] sets [aimed_at_feet] where the target is the source,
    and nowhere else. *)
Lemma initialise_fire_feet (s : state) :
  sat (initialise_fire (X := X)) s
    (fun _ s' =>
       flag (this s') aimed_at_feet
       = flag (this s) aimed_at_feet
         || coord_eqb (target (this s')) (source (this s'))).
Proof.
  unfold initialise_fire.
  set (f0 := flag (this s) aimed_at_feet).
  apply (sat_bind_cut (fun s' => flag (this s') aimed_at_feet = f0)).
  { unfold set_nm. apply sat_upd. reflexivity. }
  intros _ s1 H1.
  apply (sat_bind_cut (fun s' => flag (this s') aimed_at_feet = f0)).
  { unfold set_fl. apply sat_upd. exact H1. }
  intros _ s2 H2.
  apply (sat_bind_cut (fun s' => flag (this s') aimed_at_feet = f0)).
  { unfold set_fl. apply sat_upd. exact H2. }
  intros _ s3 H3.
  apply (sat_bind_cut (fun s' => flag (this s') aimed_at_feet = f0)).
  { apply sat_upd_special. exact H3. }
  intros _ s4 H4.
  apply (sat_bind_cut (fun s' => flag (this s') aimed_at_feet = f0)).
  { apply sat_upd. simpl. destruct (_ && _); simpl; exact H4. }
  intros _ s5 H5.
  apply sat_bind, sat_gets. cbv beta.
  apply (sat_bind_cut
           (fun s' => flag (this s') aimed_at_feet
                      = f0 || coord_eqb (target (this s')) (source (this s')))).
  { unfold when. destruct (coord_eqb (target (this s5)) (source (this s5)))
      eqn:E.
    - eapply sat_conseq.
      { apply (sat_and _ _
                 (fun _ s' => (target (this s'), source (this s'))
                              = (target (this s5), source (this s5)))
                 (fun _ s' => flag (this s') aimed_at_feet = true)).
        - apply (sat_keeps (fun b : beam => (target b, source b))).
          keeps_walk.
        - apply (sat_bind_cut (fun _ => True)); [apply sat_trivial|].
          intros _ s6 _.
          apply (sat_bind_cut
                   (fun s' => flag (this s') aimed_at_feet = true)).
          { unfold set_fl. apply sat_upd. reflexivity. }
          intros _ s7 H7.
          eapply sat_conseq.
          { apply (sat_keeps (fun b : beam => flag b aimed_at_feet)).
            keeps_walk. }
          cbv beta. intros ? s8 E8. rewrite E8. exact H7. }
      cbv beta. intros ? s6 [K1 K2]. injection K1 as K1 K1'.
      rewrite K2, K1, K1', E, orb_true_r. reflexivity.
    - apply sat_ret. rewrite E, orb_false_r. exact H5. }
  intros _ s6 H6.
  eapply sat_conseq.
  { apply (sat_keeps (fun b : beam => (flag b aimed_at_feet, target b,
                                       source b))).
    keeps_walk; try (apply keeps_io_only; auto with io_only). }
  cbv beta. intros ? s7 E. injection E as E1 E2 E3.
  rewrite E1, E2, E3. exact H6.
Qed.

Lemma do_fire_paid (s : state) :
  flag (this s) affects_nothing = true ->
  sat (do_fire (X := X)) s
    (fun _ s' =>
       let n := Z.of_nat (length (path_taken (this s')))
                - Z.of_nat (length (path_taken (this s))) in
       num (this s') range_used
       = (if n =? 0 then 0
          else n - (if flag (this s') aimed_at_feet then 0 else 1))
       /\ flag (this s') aimed_at_feet
          = flag (this s) aimed_at_feet
            || coord_eqb (target (this s')) (source (this s'))).
Proof.
  intros Ha. unfold do_fire.
  set (f0 := flag (this s) aimed_at_feet).
  set (I := fun s' : state =>
              (num (this s') range_used = 0
               /\ path_taken (this s') = path_taken (this s)
               /\ flag (this s') affects_nothing = true
               /\ flag (this s') aimed_at_feet
                  = f0 || coord_eqb (target (this s')) (source (this s')))).
  assert (Hk : forall (A : Type) (m : M A) s1,
             keeps paid_part m -> I s1 -> sat m s1 (fun _ s' => I s')).
  { intros A m s1 Hm (G1 & G2 & G3 & G5).
    eapply sat_conseq; [apply (sat_keeps _ _ _ Hm)|].
    cbv beta. intros ? s' E. injection E as E1 E2 E3 E4 E5 E6.
    unfold I. rewrite E1, E2, E3, E4, E5, E6. auto. }
  assert (Hend : forall s1 : state,
             I s1 ->
             num (this s1) range_used
             = (if Z.of_nat (length (path_taken (this s1)))
                   - Z.of_nat (length (path_taken (this s))) =? 0 then 0
                else Z.of_nat (length (path_taken (this s1)))
                     - Z.of_nat (length (path_taken (this s)))
                     - (if flag (this s1) aimed_at_feet then 0 else 1))
             /\ flag (this s1) aimed_at_feet
                = f0 || coord_eqb (target (this s1)) (source (this s1))).
  { intros s1 (G1 & G2 & G3 & G5).
    rewrite G2, Z.sub_diag. simpl. auto. }
  apply (sat_bind_cut
           (fun s' => I s' /\ flag (this s') in_explosion_phase = false)).
  { eapply sat_conseq.
    - apply sat_and; [apply initialise_fire_paid|].
      apply sat_and; [apply initialise_fire_phase|].
      apply initialise_fire_feet.
    - cbv beta. intros ? s1 ((K1 & K2 & K3) & K4 & K5). unfold I.
      rewrite K3, Ha. auto. }
  intros _ s1 [H1 Hph]. apply sat_bind, sat_gets. cbv beta zeta.
  assert (Eav : first_avoid_self (this s1)
                = negb (flag (this s1) aimed_at_feet)).
  { unfold first_avoid_self. rewrite Hph. simpl.
    rewrite orb_true_r, andb_true_r. reflexivity. }
  rewrite Eav.
  set (feet1 := flag (this s1) aimed_at_feet).
  assert (Hf1 : flag (this s1) aimed_at_feet = feet1) by reflexivity.
  clearbody feet1. clear Eav.
  set (fuel := fire_fuel (this s1)). clearbody fuel.
  match goal with
  | |- context [if ?c then _ else _] => generalize c
  end.
  intros c0. destruct c0; [apply sat_ret, Hend, H1|].
  apply (sat_bind_cut
           (fun s' => I s' /\ flag (this s') aimed_at_feet = feet1)).
  { eapply sat_conseq.
    - apply sat_and; [apply Hk; [|exact H1]|].
      + unfold apply_beam_conducts. keeps_walk.
      + apply (sat_keeps (fun b : beam => flag b aimed_at_feet)).
        unfold apply_beam_conducts. keeps_walk.
    - cbv beta. intros ? s2 [K1 K2]. split; [exact K1|congruence]. }
  intros _ s2 [H2 Hf2].
  apply (sat_bind_cut
           (fun s' => I s' /\ flag (this s') aimed_at_feet = feet1)).
  { eapply sat_conseq.
    - apply sat_and; [apply Hk; [|exact H2]|].
      + keeps_walk.
      + apply (sat_keeps (fun b : beam => flag b aimed_at_feet)).
        keeps_walk.
    - cbv beta. intros ? s3 [K1 K2]. split; [exact K1|congruence]. }
  intros _ s3 [H3 Hf3].
  apply (sat_bind_cut
           (fun s' => I s' /\ flag (this s') aimed_at_feet = feet1)).
  { eapply sat_conseq.
    - apply sat_and; [apply Hk; [|exact H3]|].
      + unfold choose_ray. keeps_walk.
      + apply (sat_keeps (fun b : beam => flag b aimed_at_feet)).
        unfold choose_ray. keeps_walk.
    - cbv beta. intros ? s4 [K1 K2]. split; [exact K1|congruence]. }
  intros _ s4 [(B1 & B2 & B3 & B5) Hf4].
  apply sat_bind. eapply sat_conseq; [apply (fire_loop_paid _ _ s4 B3)|].
  cbv beta zeta. intros c s5 (C0 & C1 & C2 & C3 & C4 & C5).
  assert (Hfin : forall s6 : state,
             paid_part (this s6) = paid_part (this s5) ->
             num (this s6) range_used
             = (if Z.of_nat (length (path_taken (this s6)))
                   - Z.of_nat (length (path_taken (this s))) =? 0 then 0
                else Z.of_nat (length (path_taken (this s6)))
                     - Z.of_nat (length (path_taken (this s)))
                     - (if flag (this s6) aimed_at_feet then 0 else 1))
             /\ flag (this s6) aimed_at_feet
                = f0 || coord_eqb (target (this s6)) (source (this s6))).
  { intros s6 E. injection E as E1 E2 E3 E4 E5 E6.
    rewrite E1, E2, E4, E5, E6, C1, C3, C4, C5, B1, Hf4.
    rewrite B2 in C0, C1 |- *. split; [|congruence].
    destruct feet1; simpl;
      destruct (Z.eqb_spec
                  (Z.of_nat (length (path_taken (this s5)))
                   - Z.of_nat (length (path_taken (this s)))) 0); lia. }
  destruct c; try (apply sat_ret, Hfin; reflexivity).
  all: apply sat_bind; apply sat_gets; cbv beta;
    apply (sat_bind_cut (fun s6 => paid_part (this s6) = paid_part (this s5)));
    [ apply (sat_keeps paid_part); keeps_walk
    | intros _ s6 E6; apply sat_bind, sat_gets; cbv beta;
      assert (Ha6 : flag (this s6) affects_nothing = true)
        by (injection E6 as _ _ -> _ _ _; exact C2);
      rewrite Ha6; cbn [negb]; unfold when at 1;
      apply sat_bind, sat_ret;
      apply sat_bind, sat_gets; cbv beta;
      rewrite Ha6, orb_true_r;
      apply sat_ret, Hfin, E6 ].
Qed.

(** C3 (amended). In the loop of [do_fire] the step charge is one unit of
    [range_used] for every iteration but the first of a bolt that is not
    aimed at the caster's own cell. In any iteration the charge comes on
    top of what the cell itself used. So for a bolt that affects nothing,
    where the cells use nothing, a loop that visits [n] cells uses [n]
    units, less one when its first iteration avoids the caster; for any
    bolt, with range hooks that return costs, it uses that much at least.
    [do_fire] lets the first iteration avoid the caster exactly when
    [aimed_at_feet] is not set, which [initialise_fire] sets where the
    target is the source: an effect aimed at the caster's own cell pays
    for its first step. *)
Theorem step_charge :
  (forall (av : bool) (s : state),
     num (this (fire_iter (X := X) av s).2) range_used
     = num (this (iter_interact av s).2) range_used + (if av then 0 else 1))
  /\ (forall (fuel : nat) (av : bool) (s : state),
        flag (this s) affects_nothing = true ->
        let s' := (fire_loop (X := X) fuel av s).2 in
        let n := Z.of_nat (length (path_taken (this s')))
                 - Z.of_nat (length (path_taken (this s))) in
        num (this s') range_used
        = num (this s) range_used
          + (if n =? 0 then 0 else n - (if av then 1 else 0)))
  /\ (forall (fuel : nat) (av : bool) (s : state),
        range_hooks_cost (X := X) ->
        num (this s) range_used <= num (this s) range ->
        let s' := (fire_loop (X := X) fuel av s).2 in
        let n := Z.of_nat (length (path_taken (this s')))
                 - Z.of_nat (length (path_taken (this s))) in
        num (this s) range_used
        + (if n =? 0 then 0 else n - (if av then 1 else 0))
        <= num (this s') range_used)
  /\ (forall s : state,
        flag (this s) affects_nothing = true ->
        let s' := (do_fire (X := X) s).2 in
        let n := Z.of_nat (length (path_taken (this s')))
                 - Z.of_nat (length (path_taken (this s))) in
        num (this s') range_used
        = (if n =? 0 then 0
           else n - (if flag (this s') aimed_at_feet then 0 else 1))
        /\ flag (this s') aimed_at_feet
           = flag (this s) aimed_at_feet
             || coord_eqb (target (this s')) (source (this s'))).
Proof.
  split; [exact fire_iter_charge|]. split; [|split].
  - intros fuel av s Ha.
    pose proof (sat_elim _ _ _ (fire_loop_paid fuel av s Ha)) as H.
    cbv zeta in *. apply H.
  - intros fuel av s Hh Hle.
    exact (proj2 (sat_elim _ _ _ (fire_loop_at_least Hh fuel av s Hle))).
  - intros s Ha. exact (sat_elim _ _ _ (do_fire_paid s Ha)).
Qed.

End StepCharge.

Lemma step_charge_witness :
  (flag (this c3_away) affects_nothing = true
   /\ num (this (do_fire c3_away).2) range_used
      = (if Z.of_nat (length (path_taken (this (do_fire c3_away).2)))
            - Z.of_nat (length (path_taken (this c3_away))) =? 0 then 0
         else Z.of_nat (length (path_taken (this (do_fire c3_away).2)))
              - Z.of_nat (length (path_taken (this c3_away)))
              - (if flag (this (do_fire c3_away).2) aimed_at_feet
                 then 0 else 1)))
  /\ (flag (this c3_feet) affects_nothing = true
      /\ num (this (fire_loop 3 false c3_feet).2) range_used
         = num (this c3_feet) range_used
           + (if Z.of_nat (length (path_taken
                                     (this (fire_loop 3 false c3_feet).2)))
                 - Z.of_nat (length (path_taken (this c3_feet))) =? 0 then 0
              else Z.of_nat (length (path_taken
                                       (this (fire_loop 3 false c3_feet).2)))
                   - Z.of_nat (length (path_taken (this c3_feet)))
                   - 0)).
Proof.
  split.
  - split; [reflexivity|].
    exact (proj1 (proj2 (proj2 (proj2 step_charge)) c3_away eq_refl)).
  - split; [reflexivity|].
    exact (proj1 (proj2 step_charge) 3%nat false c3_feet eq_refl).
Defined.

(** * The occupants of a shared cell *)

Section SharedCell.

Context {ray_def other_state : Type} {X : @Collaborators ray_def other_state}.

#[local] Abbreviation state := (@state ray_def other_state).
#[local] Abbreviation M := (@M ray_def other_state).
#[local] Abbreviation beam := (@beam ray_def).
#[local] Abbreviation world := (@world other_state).
#[local] Abbreviation keeps :=
  (keeps (ray_def := ray_def) (other_state := other_state)).

Lemma grid_distance_same (p : coord_def) : grid_distance p p = 0.
Proof.
  destruct p as [x y]. unfold grid_distance, rdist, coord_sub. simpl. lia.
Qed.

(** The player on the bolt's cell is found. *)
Lemma found_player_on_cell (w : world) (b : beam) :
  you_pos (you w) = pos b -> found_player w b = true.
Proof.
  intros E. unfold found_player. rewrite E, grid_distance_same.
  destruct (_ && _); reflexivity.
Qed.

Lemma fixed_beam_or_explosion (b b' : beam) :
  fixed_full b' = fixed_full b ->
  flag b' is_beam || flag b' is_explosion
  = flag b is_beam || flag b is_explosion.
Proof.
  unfold fixed_full, fixed_part, fixed_flags. simpl.
  intros [= _ _ _ _ _ _ _ -> -> _ _ _ _ _ _ _ _ _ _]. reflexivity.
Qed.

(** The law of [cell_occupants]: once the player was affected, a beam or
    an explosion treats the monster of the cell as it does where the
    player is left out; a single-target bolt has done. *)
Lemma cell_occupants_law (am sw : bool) (t : state) :
  found_player (wld t) (this t) = true ->
  cell_occupants (X := X) false am sw t
  = if flag (this t) is_beam || flag (this t) is_explosion
    then cell_occupants true am sw (affect_player t).2
    else (tt, (affect_player t).2).
Proof.
  intros Hf.
  rewrite <- (fixed_beam_or_explosion _ _ (affect_player_fixed t)).
  unfold cell_occupants, mbind, M_bind, gets, mret, M_ret, when.
  cbn [fst snd]. rewrite Hf. cbn [negb andb].
  destruct (affect_player t) as [u t1]. cbn [fst snd].
  rewrite !andb_false_r. cbn [negb orb andb].
  destruct (flag (this t1) is_beam || flag (this t1) is_explosion);
    reflexivity.
Qed.

(** [fake_flavour] draws and sets the flavour; the world and the ray are as
    they were. *)
Lemma fake_flavour_place (s : state) :
  wld (fake_flavour (X := X) s).2 = wld s
  /\ pos (this (fake_flavour s).2) = pos (this s)
  /\ thrower (this (fake_flavour s).2) = thrower (this s).
Proof.
  assert (H : sat (fake_flavour (X := X)) s
                (fun _ s' => wld s' = wld s /\ pos (this s') = pos (this s)
                             /\ thrower (this s') = thrower (this s))).
  { set (I := fun s' : state =>
                wld s' = wld s /\ pos (this s') = pos (this s)
                /\ thrower (this s') = thrower (this s)).
    assert (Hio : forall (A : Type) (m : M A) (s1 : state),
               io_only m -> I s1 -> sat m s1 (fun _ s' => I s')).
    { intros A m s1 Hm H1. apply sat_io_only; [exact Hm|].
      intros a i. exact H1. }
    assert (Hup : forall (f : beam_type) (s1 : state),
               I s1 -> sat (upd (set_flavour f)) s1 (fun _ s' => I s')).
    { intros f s1 H1. apply sat_upd. exact H1. }
    unfold fake_flavour, _chaos_beam_flavour.
    apply sat_bind, sat_gets. cbv beta.
    assert (H0 : I s) by (unfold I; auto).
    destruct (bool_decide (real_flavour (this s) = BEAM_RANDOM)).
    - apply (sat_bind_cut I); [apply Hio; auto with io_only|].
      intros r s1 H1. apply Hup, H1.
    - destruct (bool_decide (real_flavour (this s) = BEAM_CHAOS));
        [|apply sat_ret, H0].
      apply (sat_bind_cut I).
      + apply (sat_bind_cut I); [apply Hio; auto with io_only|].
        intros r s1 H1. apply sat_ret, H1.
      + intros f s1 H1. apply Hup, H1. }
  exact (sat_elim _ _ _ H).
Qed.

(** C5. On a cell the player shares with a monster, a beam or an explosion
    that has affected the player affects the monster in the same pass, and
    a single-target bolt does not. In [cell_occupants], whatever the cell
    and whatever is avoided, a beam or an explosion that has affected the
    player goes on with the monster as it does where the player is left
    out, and a single-target bolt has done. In [affect_cell], on an open
    cell without a cloud where nobody is avoided, the pass of a beam or an
    explosion is [affect_player], then [affect_monster] on the monster
    that is on the cell then, then the ground; the pass of a single-target
    bolt is [affect_player], then the ground. *)
Theorem cell_occupants_after_player :
  (forall (avoid_monster still_wall : bool) (t : state),
     found_player (wld t) (this t) = true ->
     cell_occupants (X := X) false avoid_monster still_wall t
     = if flag (this t) is_beam || flag (this t) is_explosion
       then cell_occupants true avoid_monster still_wall
              (affect_player t).2
       else (tt, (affect_player t).2))
  /\ (forall (av : bool) (s : state) (m : nat),
        let s1 := (affect_player (fake_flavour s).2).2 in
        cgrid (wld s) (pos (this s)) = None ->
        feat_is_solid (grd (wld s) (pos (this s))) = false ->
        you_pos (you (wld s)) = pos (this s) ->
        avoid_player_of av (this s) = false ->
        avoid_monster_of av (this s) = false ->
        monster_at (wld s1) (pos (this s1)) = Some m ->
        affect_cell (X := X) av s
        = if flag (this s) is_beam || flag (this s) is_explosion
          then (affect_monster m;;
                b ← gets this;
                w ← gets wld;
                when (negb (feat_is_solid (grd w (pos b)))) affect_ground) s1
          else (b ← gets this;
                w ← gets wld;
                when (negb (feat_is_solid (grd w (pos b)))) affect_ground)
                 s1).
Proof.
  split; [exact cell_occupants_law|].
  intros av s m s1 Hc Ho Hy Hap Ham Hm.
  destruct (fake_flavour_place s) as (Fw & Fp & Ft).
  assert (Hfix : flag (this s1) is_beam || flag (this s1) is_explosion
                 = flag (this s) is_beam || flag (this s) is_explosion).
  { unfold s1.
    rewrite (fixed_beam_or_explosion _ _ (affect_player_fixed _)).
    apply fixed_beam_or_explosion, fake_flavour_fixed. }
  assert (Hlaw := cell_occupants_law false false (fake_flavour s).2).
  rewrite (fixed_beam_or_explosion _ _ (fake_flavour_fixed s)) in Hlaw.
  fold s1 in Hlaw.
  assert (Hfound : found_player (wld (fake_flavour s).2)
                     (this (fake_flavour s).2) = true).
  { apply found_player_on_cell. rewrite Fw, Fp. exact Hy. }
  specialize (Hlaw Hfound).
  unfold affect_cell.
  unfold mbind at 1, M_bind at 1, gets at 1. cbn [fst snd].
  unfold mbind at 1, M_bind at 1, gets at 1. cbn [fst snd].
  rewrite Hc.
  unfold mbind at 1, M_bind at 1, when at 1, mret at 1, M_ret at 1.
  cbn [fst snd bool_decide decide_rel].
  rewrite bool_decide_false by (intros [x Hx]; discriminate).
  unfold mbind at 1, M_bind at 1.
  destruct (fake_flavour s) as [u s0] eqn:Eff. cbn [fst snd] in *.
  unfold mbind at 1, M_bind at 1, gets at 1. cbn [fst snd].
  unfold mbind at 1, M_bind at 1, gets at 1. cbn [fst snd]. cbv zeta.
  rewrite Fw, Fp, Ho.
  unfold mbind at 1, M_bind at 1, mret at 1, M_ret at 1. cbn [fst snd].
  unfold mbind at 1, M_bind at 1, gets at 1. cbn [fst snd andb].
  unfold avoid_player_of, avoid_monster_of in *. rewrite Ft, Hap, Ham.
  unfold mbind at 1, M_bind at 1. rewrite Hlaw.
  destruct (flag (this s) is_beam || flag (this s) is_explosion).
  - unfold cell_occupants.
    unfold mbind, M_bind, gets, mret, M_ret, when. cbn [fst snd negb andb].
    rewrite andb_false_r. cbn [negb orb andb]. rewrite Hm.
    destruct (affect_monster m s1) as [u2 s2]. reflexivity.
  - reflexivity.
Qed.

End SharedCell.

(** The beam hurts the player and the monster of the cell; the
    single-target bolt hurts the player and leaves the monster alone. *)
Lemma cell_occupants_after_player_witness :
  (cgrid (wld c5_beam) (pos (this c5_beam)) = None
   /\ feat_is_solid (grd (wld c5_beam) (pos (this c5_beam))) = false
   /\ you_pos (you (wld c5_beam)) = pos (this c5_beam)
   /\ avoid_player_of false (this c5_beam) = false
   /\ avoid_monster_of false (this c5_beam) = false
   /\ monster_at (wld (affect_player (fake_flavour c5_beam).2).2)
        (pos (this (affect_player (fake_flavour c5_beam).2).2))
      = Some 0%nat
   /\ affect_cell false c5_beam
      = (if flag (this c5_beam) is_beam || flag (this c5_beam) is_explosion
         then (affect_monster 0;;
               b ← gets this;
               w ← gets wld;
               when (negb (feat_is_solid (grd w (pos b)))) affect_ground)
                (affect_player (fake_flavour c5_beam).2).2
         else (b ← gets this;
               w ← gets wld;
               when (negb (feat_is_solid (grd w (pos b)))) affect_ground)
                (affect_player (fake_flavour c5_beam).2).2))
  /\ (found_player (wld c5_single) (this c5_single) = true
      /\ cell_occupants false false false c5_single
         = (if flag (this c5_single) is_beam
               || flag (this c5_single) is_explosion
            then cell_occupants true false false (affect_player c5_single).2
            else (tt, (affect_player c5_single).2)))
  /\ (hp (you (wld c5_beam)) = 50
      /\ map hit_points (menv (wld c5_beam)) = [20; 20]
      /\ hp (you (wld (affect_cell false c5_beam).2)) = 48
      /\ map hit_points (menv (wld (affect_cell false c5_beam).2)) = [18; 20]
      /\ hp (you (wld (affect_cell false c5_single).2)) = 48
      /\ map hit_points (menv (wld (affect_cell false c5_single).2))
         = [20; 20]).
Proof.
  assert (H6 : monster_at (wld (affect_player (fake_flavour c5_beam).2).2)
                 (pos (this (affect_player (fake_flavour c5_beam).2).2))
               = Some 0%nat) by (vm_compute; reflexivity).
  split; [|split].
  - split; [reflexivity|]. split; [reflexivity|]. split; [reflexivity|].
    split; [reflexivity|]. split; [reflexivity|]. split; [exact H6|].
    exact (proj2 cell_occupants_after_player false c5_beam 0%nat
             eq_refl eq_refl eq_refl eq_refl eq_refl H6).
  - split; [reflexivity|].
    exact (proj1 cell_occupants_after_player false false c5_single eq_refl).
  - vm_compute. repeat split.
Defined.

(** * What a hit costs a player's tracer *)

Section TracerHit.

Context {ray_def other_state : Type} {X : @Collaborators ray_def other_state}.

#[local] Abbreviation state := (@state ray_def other_state).
#[local] Abbreviation M := (@M ray_def other_state).
#[local] Abbreviation beam := (@beam ray_def).
#[local] Abbreviation world := (@world other_state).
#[local] Abbreviation keeps :=
  (keeps (ray_def := ray_def) (other_state := other_state)).

(** What decides the cost of a hit, and the budget. *)
#[local] Abbreviation hit_cfg :=
  (fun b : beam => (flag b is_tracer, num b beam_source, flag b is_beam,
                    flavour b, name b, flag b is_explosion,
                    flag b is_big_cloud, num b range)).

(** The same with what is used of the budget and whether the firing was
    cancelled. *)
#[local] Abbreviation hit_part :=
  (fun b : beam => (hit_cfg b, num b range_used, flag b beam_cancelled)).



Section Player.

Variable s0 : state.
Hypothesis tracer : flag (this s0) is_tracer = true.
Hypothesis by_player : num (this s0) beam_source = NON_MONSTER.
Hypothesis stops : base_range_used (this s0) = BEAM_STOP.




(** What a monster the tracer meets can do to the budget. *)
#[local] Abbreviation outcome :=
  (fun s s' : state =>
     hit_cfg (this s') = hit_cfg (this s)
     /\ (num (this s') range_used = num (this s) range_used
         \/ num (this s') range_used = num (this s) range_used + 1
         \/ (num (this s') range_used = num (this s) range
             /\ (flag (this s') beam_cancelled = true
                 \/ flavour (this s) = BEAM_ELECTRICITY)))).






End Player.


End TracerHit.



(** * More runs of the small game *)

Lemma affected_cells_within_radius_witness :
  10 * 2 < INT_MAX
  /\ determine_affected_cells c9_world c9_bolt ∅ (0, 0) 0 2 true true
       !! ((9, 9) : Z * Z) = Some 0
  /\ (let delta := coord_sub (9, 9) centre in
      let loc := coord_add (pos c9_bolt) delta in
      abs2 delta <= 2 * (2 + 1) /\ rdist delta <= 2
      /\ map_bounds loc = true /\ is_sanctuary c9_world loc = false
      /\ forallb (fun f => f c9_bolt c9_world loc) aoe_funcs = true
      /\ 0 <= 0 <= 10 * 2).
Proof.
  assert (c9_centre :
            determine_affected_cells c9_world c9_bolt ∅ (0, 0) 0 2 true true
              !! ((9, 9) : Z * Z) = Some 0) by (vm_compute; reflexivity).
  split; [reflexivity|]. split; [exact c9_centre|].
  exact (affected_cells_within_radius c9_world c9_bolt 2 true true (9, 9) 0
           eq_refl c9_centre).
Defined.

Lemma affected_cells_stop_at_walls_witness :
  10 * 2 < INT_MAX
  /\ determine_affected_cells c9_world c9_bolt ∅ (0, 0) 0 2 true true
       !! ((9, 9) : Z * Z) = Some 0
  /\ (let delta := coord_sub (9, 9) centre in
      let feat := grd c9_world (coord_add (pos c9_bolt) delta) in
      (true = true ->
       feat_is_wall feat || bool_decide (feat = DNGN_SECRET_DOOR)
       || feat_is_closed_door feat = true ->
       delta = (0, 0) /\ affects_wall c9_bolt feat = true)
      /\ (true = true -> feat_is_solid feat = true ->
          feat_is_wall feat = true)).
Proof.
  assert (c9_centre :
            determine_affected_cells c9_world c9_bolt ∅ (0, 0) 0 2 true true
              !! ((9, 9) : Z * Z) = Some 0) by (vm_compute; reflexivity).
  split; [reflexivity|]. split; [exact c9_centre|].
  exact (affected_cells_stop_at_walls c9_world c9_bolt 2 true true (9, 9) 0
           eq_refl c9_centre).
Defined.

Lemma affected_cells_least_cost_witness :
  10 * 2 < INT_MAX
  /\ determine_affected_cells c9_world c9_bolt ∅ (0, 0) 0 2 true true
       !! coord_add (0, 0) centre = Some 0
  /\ reach c9_world c9_bolt 2 true true Compass (0, 0) 0
  /\ forall t', reach c9_world c9_bolt 2 true true Compass (0, 0) t' ->
                0 <= t'.
Proof.
  assert (c9_centre :
            determine_affected_cells c9_world c9_bolt ∅ (0, 0) 0 2 true true
              !! ((9, 9) : Z * Z) = Some 0) by (vm_compute; reflexivity).
  split; [reflexivity|]. split; [exact c9_centre|].
  exact (affected_cells_least_cost c9_world c9_bolt 2 true true (0, 0) 0
           eq_refl c9_centre).
Defined.

Lemma affected_cells_complete_witness :
  10 * 2 < INT_MAX
  /\ reach c9_world c9_bolt 2 true true Compass (0, 0) 0
  /\ forallb (fun f => f c9_bolt c9_world (coord_add (pos c9_bolt) (0, 0)))
       aoe_funcs = true
  /\ exists t', determine_affected_cells c9_world c9_bolt ∅ (0, 0) 0 2 true
                  true !! coord_add (0, 0) centre = Some t'
                /\ t' <= 0.
Proof.
  assert (Hr : reach c9_world c9_bolt 2 true true Compass (0, 0) 0).
  { apply reach_start; [vm_compute; reflexivity|lia]. }
  split; [reflexivity|]. split; [exact Hr|]. split; [reflexivity|].
  exact (affected_cells_complete c9_world c9_bolt 2 true true (0, 0) 0
           eq_refl Hr eq_refl).
Defined.


Lemma tracer_draws_nothing_witness :
  flag (this c1_state) is_tracer = true
  /\ exists l, emitted (io (fire c1_state).2) = l ++ emitted (io c1_state)
               /\ forallb is_text l = true.
Proof.
  split; [reflexivity|]. exact (tracer_draws_nothing c1_state eq_refl).
Defined.

Lemma tracer_restores_aim_witness :
  flag (this c1_state) is_tracer = true
  /\ (let b := this c1_state in
      let b' := this (fire c1_state).2 in
      target b' = target b /\ source b' = source b
      /\ flag b' aimed_at_spot = flag b aimed_at_spot
      /\ num b' range_used = num b range_used
      /\ flag b' auto_hit = flag b auto_hit /\ ray b' = ray b
      /\ num b' colour = num b colour /\ flavour b' = flavour b
      /\ real_flavour b' = real_flavour b).
Proof.
  split; [reflexivity|]. exact (tracer_restores_aim c1_state eq_refl).
Defined.

Lemma hit_wall_true_finished_witness :
  (hit_wall at_wall_state).1 = true
  /\ num (this (hit_wall at_wall_state).2) range_used
     = num (this (hit_wall at_wall_state).2) range.
Proof.
  assert (Hends : (hit_wall at_wall_state).1 = true)
    by (vm_compute; reflexivity).
  split; [exact Hends|]. exact (hit_wall_true_finished at_wall_state Hends).
Defined.

Lemma fire_affects_nothing_world_witness :
  flag (this c3_away) affects_nothing = true
  /\ unholy_firing (this c3_away) = false
  /\ wld (fire c3_away).2 = wld c3_away.
Proof.
  split; [reflexivity|]. split; [reflexivity|].
  exact (fire_affects_nothing_world c3_away eq_refl eq_refl).
Defined.

Lemma player_tracer_safe_world_witness :
  (player_tracer 0 10 0 c1_state).1 = true
  /\ wld (player_tracer 0 10 0 c1_state).2 = wld c1_state
  /\ (you_flag (wld c1_state) Y_confused = false ->
      flag (this (player_tracer 0 10 0 c1_state).2) is_tracer = false
      /\ flag (this (player_tracer 0 10 0 c1_state).2) beam_cancelled
         = false).
Proof.
  assert (Hsafe : (player_tracer 0 10 0 c1_state).1 = true)
    by (vm_compute; reflexivity).
  split; [exact Hsafe|].
  exact (player_tracer_safe_world 0 10 0 c1_state Hsafe).
Defined.

Lemma determine_damage_tracer_no_chance_witness :
  flag (this c1_state) is_tracer = true
  /\ io (determine_damage 0 c1_state).2 = io c1_state
  /\ wld (determine_damage 0 c1_state).2 = wld c1_state.
Proof.
  split; [reflexivity|].
  exact (determine_damage_tracer_no_chance 0 c1_state eq_refl).
Defined.

Lemma retrace_goes_back_witness :
  unholy_firing (this c4_state) = false
  /\ (let s1 := (setup_retrace c4_state).2 in
      source (this s1)
      = (if negb ((pos (this c4_state)).1 =? 0)
            && negb ((pos (this c4_state)).2 =? 0)
         then pos (this c4_state) else target (this c4_state))
      /\ target (this s1) = source (this c4_state)
      /\ num (this s1) range_used = 0
      /\ wld (fire s1).2 = wld c4_state).
Proof.
  split; [reflexivity|]. exact (retrace_goes_back c4_state eq_refl).
Defined.

Lemma fire_loop_visits_at_most_witness :
  range_hooks_cost (X := toy)
  /\ num (this c2_state) range_used <= num (this c2_state) range
  /\ Z.of_nat (length (path_taken (this (fire_loop 7 true c2_state).2)))
     <= Z.of_nat (length (path_taken (this c2_state)))
        + (num (this c2_state) range - num (this c2_state) range_used + 1).
Proof.
  assert (H : num (this c2_state) range_used <= num (this c2_state) range)
    by (vm_compute; discriminate).
  split; [exact toy_range_hooks_cost|]. split; [exact H|].
  exact (fire_loop_visits_at_most 7 true c2_state toy_range_hooks_cost H).
Defined.

Lemma own_cell_only_witness :
  range_hooks_cost (X := toy)
  /\ target (this c3_feet) = source (this c3_feet)
  /\ flag (this c3_feet) chose_ray = false
  /\ path_taken (this (fire c3_feet).2)
     = (if in_bounds (target (this c3_feet))
        then [target (this c3_feet)] else []).
Proof.
  split; [exact toy_range_hooks_cost|]. split; [reflexivity|].
  split; [reflexivity|].
  exact (own_cell_only c3_feet toy_range_hooks_cost eq_refl eq_refl).
Defined.

(** The rock shatters where it lands: [fire] leaves ten stones, without
    the flag of a thrown item, in the item of the bolt. *)
Lemma thrown_rock_shatters :
  item (this (fire rock_state).2)
  = Some {| base_type := 1; sub_type := MI_STONE; special := 0;
            item_flags := 1; quantity := 10 |}
  /\ item (this (fire rock_state).2) <> item (this rock_state).
Proof. vm_compute. split; [reflexivity|discriminate]. Qed.
